(** * docs/generate-pdf.py: the markdown-to-HTML converter, embedded and verified

    The script is a linear pipeline: read the markdown file, replace the
    mermaid blocks by figures (a global counter numbers them), run
    [md_to_html] (a fixed sequence of [re.sub] and [str.replace] passes),
    wrap the result in an HTML page, write it, and hand it to the PDF
    renderer inside a [try]/[except Exception].

    Python strings are modelled as lists of characters; a character is a
    code point below 256.  The [re] module is modelled by a backtracking
    matcher over a small regular-expression syntax that follows Python's
    priority order (greedy and lazy repetition, ordered alternation,
    capture groups, [^] and [$] with and without [re.MULTILINE]). *)

From Stdlib Require Import Ascii String DecimalString.
From Stdlib Require Import Bool Arith Lia List.
Import ListNotations.

Local Open Scope list_scope.
Local Open Scope nat_scope.

Set Implicit Arguments.

(** ** Strings *)

Definition str := list ascii.

(** [L "abc"] is the Python literal ['abc']. *)
Definition L (s : string) : str := list_ascii_of_string s.

Definition nl : ascii := "010"%char.

Definition code (c : ascii) : nat := nat_of_ascii c.

Definition in_range (lo hi : nat) (c : ascii) : bool :=
  (lo <=? code c) && (code c <=? hi).

(** [str.isspace] on one character, which is also [\s] of a [str] pattern:
    TAB, LF, VT, FF, CR, the separators FS GS RS US, space, NEL and
    NBSP. *)
Definition is_space (c : ascii) : bool :=
  in_range 9 13 c || in_range 28 32 c || (code c =? 133) || (code c =? 160).

(** [\d] of a [str] pattern: the decimal digits. *)
Definition is_digit (c : ascii) : bool := in_range 48 57 c.

(** [\w] of a [str] pattern: alphanumerics and the underscore. *)
Definition is_word (c : ascii) : bool :=
  in_range 48 57 c || in_range 65 90 c || in_range 97 122 c || (code c =? 95)
  || (code c =? 170) || (code c =? 178) || (code c =? 179) || (code c =? 181)
  || (code c =? 185) || (code c =? 186) || in_range 188 190 c
  || in_range 192 214 c || in_range 216 246 c || in_range 248 255 c.

Definition ceq (a b : ascii) : bool := Ascii.eqb a b.

Fixpoint starts_with (p s : str) : bool :=
  match p with
  | [] => true
  | a :: p' => match s with
               | [] => false
               | b :: s' => ceq a b && starts_with p' s'
               end
  end.

(** [sub in s] for strings. *)
Fixpoint contains (p s : str) : bool :=
  starts_with p s || match s with
                     | [] => false
                     | _ :: s' => contains p s'
                     end.

Fixpoint lstrip (s : str) : str :=
  match s with
  | [] => []
  | c :: s' => if is_space c then lstrip s' else s
  end.

Definition rstrip (s : str) : str := rev (lstrip (rev s)).

(** [s.strip()] *)
Definition strip (s : str) : str := rstrip (lstrip s).

(** [s.split(sep)] for a one-character separator. *)
Fixpoint split_chr (sep : ascii) (s : str) : list str :=
  match s with
  | [] => [[]]
  | c :: s' =>
      if ceq c sep then [] :: split_chr sep s'
      else match split_chr sep s' with
           | [] => [[c]]
           | w :: ws => (c :: w) :: ws
           end
  end.

(** [s.split(sep)] for any non-empty separator: the occurrences are taken
    left to right and do not overlap.  [skip] counts the characters of the
    separator still to be passed over. *)
Fixpoint split_go (sep : str) (skip : nat) (s : str) : list str :=
  match skip with
  | S n => match s with
           | [] => [[]]
           | _ :: s' => split_go sep n s'
           end
  | 0 =>
      match s with
      | [] => [[]]
      | c :: s' =>
          if starts_with sep s then [] :: split_go sep (length sep - 1) s'
          else match split_go sep 0 s' with
               | [] => [[c]]
               | w :: ws => (c :: w) :: ws
               end
      end
  end.

Definition split (sep s : str) : list str := split_go sep 0 s.

(** [sep.join(parts)] *)
Fixpoint join (sep : str) (parts : list str) : str :=
  match parts with
  | [] => []
  | [p] => p
  | p :: ps => p ++ sep ++ join sep ps
  end.

(** [s.replace(old, new)]: every occurrence of [old], left to right and
    not overlapping. *)
Fixpoint replace_go (old new : str) (skip : nat) (s : str) : str :=
  match skip with
  | S n => match s with
           | [] => []
           | _ :: s' => replace_go old new n s'
           end
  | 0 =>
      if starts_with old s then
        new ++ match s with
               | [] => []
               | c :: s' =>
                   match length old with
                   | 0 => c :: replace_go old new 0 s'
                   | S n => replace_go old new n s'
                   end
               end
      else match s with
           | [] => []
           | c :: s' => c :: replace_go old new 0 s'
           end
  end.

Definition replace (old new s : str) : str := replace_go old new 0 s.

(** [str(n)] for a non-negative integer. *)
Definition str_of_nat (n : nat) : str :=
  L (NilZero.string_of_uint (Nat.to_uint n)).

(** ** Regular expressions: the fragment of [re] the script uses *)

Inductive regex : Type :=
| Eps                                   (* the empty pattern *)
| Chr (c : ascii)                       (* a literal character *)
| Cls (p : ascii -> bool)               (* a class: [.] [\s] [\d] [\w] [...] *)
| Bol                                   (* ^ *)
| Eol                                   (* $ *)
| Seq (r1 r2 : regex)                   (* r1 r2 *)
| Alt (r1 r2 : regex)                   (* r1|r2, the left one first *)
| Star (greedy : bool) (r : regex)      (* r* and r*? *)
| Grp (n : nat) (r : regex).            (* the n-th parenthesis *)

(** r+ and r+? *)
Definition Plus (greedy : bool) (r : regex) : regex := Seq r (Star greedy r).

(** r? *)
Definition Opt (r : regex) : regex := Alt r Eps.

Fixpoint seq (rs : list regex) : regex :=
  match rs with
  | [] => Eps
  | [r] => r
  | r :: rs' => Seq r (seq rs')
  end.

Fixpoint alt (rs : list regex) : regex :=
  match rs with
  | [] => Cls (fun _ => false)
  | [r] => r
  | r :: rs' => Alt r (alt rs')
  end.

(** A run of literal characters. *)
Definition lit (s : string) : regex := seq (map Chr (L s)).

Definition dot : regex := Cls (fun c => negb (ceq c nl)).       (* . *)
Definition any : regex := Cls (fun _ => true).                   (* [\s\S] *)
Definition space : regex := Cls is_space.                        (* \s *)
Definition digit : regex := Cls is_digit.                        (* \d *)
Definition word : regex := Cls is_word.                          (* \w *)
Definition none_of (s : string) : regex :=                      (* [^...] *)
  Cls (fun c => negb (existsb (ceq c) (L s))).
Definition one_of (s : string) : regex :=                       (* [...] *)
  Cls (fun c => existsb (ceq c) (L s)).

(** The matcher's state: the character before the current position (none
    at the start of the string), the text still ahead, and the groups
    captured so far (the latest capture of a group first). *)
Record mstate : Type := MState {
  prev : option ascii;
  rest : str;
  caps : list (nat * str)
}.

Definition at_bol (multiline : bool) (s : mstate) : bool :=
  match prev s with
  | None => true
  | Some c => multiline && ceq c nl
  end.

Definition at_eol (multiline : bool) (s : mstate) : bool :=
  match rest s with
  | [] => true
  | c :: t => ceq c nl && (multiline || match t with [] => true | _ => false end)
  end.

Definition orelse {A : Type} (x y : option A) : option A :=
  match x with
  | Some a => Some a
  | None => y
  end.

Section Matcher.

Variable A : Type.

(** One repetition loop.  [body] matches the repeated pattern once and
    then calls its continuation; an iteration that consumes nothing is
    refused, so at most [length (rest s)] iterations happen and [fuel],
    which starts above that, is never used up. *)
Fixpoint star_loop (greedy : bool)
         (body : (mstate -> option A) -> mstate -> option A)
         (fuel : nat) (k : mstate -> option A) (s : mstate) : option A :=
  match fuel with
  | 0 => None
  | S f =>
      let more :=
        body (fun s' =>
                if length (rest s') <? length (rest s)
                then star_loop greedy body f k s'
                else None) s in
      if greedy then orelse more (k s) else orelse (k s) more
  end.

(** [m ml r k s]: match [r] at [s] and continue with [k]; when [k]
    fails the matcher backtracks into [r].  The first success in
    Python's priority order is the result. *)
Fixpoint m (ml : bool) (r : regex) (k : mstate -> option A) (s : mstate)
  {struct r} : option A :=
  match r with
  | Eps => k s
  | Chr c =>
      match rest s with
      | c' :: t => if ceq c c' then k (MState (Some c') t (caps s)) else None
      | [] => None
      end
  | Cls p =>
      match rest s with
      | c' :: t => if p c' then k (MState (Some c') t (caps s)) else None
      | [] => None
      end
  | Bol => if at_bol ml s then k s else None
  | Eol => if at_eol ml s then k s else None
  | Seq r1 r2 => m ml r1 (m ml r2 k) s
  | Alt r1 r2 => orelse (m ml r1 k s) (m ml r2 k s)
  | Star g r1 => star_loop g (m ml r1) (S (length (rest s))) k s
  | Grp n r1 =>
      m ml r1
        (fun s' =>
           k (MState (prev s') (rest s')
                ((n, firstn (length (rest s) - length (rest s')) (rest s))
                   :: caps s')))
        s
  end.

End Matcher.

(** A match object: [group(0)] and the captured groups. *)
Record rmatch : Type := RMatch {
  m_text : str;
  m_caps : list (nat * str)
}.

(** [match.group(n)] for n >= 1: [None] when the group took no part in
    the match (Python's [None]). *)
Fixpoint lookup (n : nat) (cs : list (nat * str)) : option str :=
  match cs with
  | [] => None
  | (i, v) :: cs' => if i =? n then Some v else lookup n cs'
  end.

Definition group (mt : rmatch) (n : nat) : option str :=
  match n with
  | 0 => Some (m_text mt)
  | _ => lookup n (m_caps mt)
  end.

(** One match attempt at the current position.  With [must_advance] an
    empty match is refused (and the matcher backtracks for a longer one):
    this is how [re.sub] goes on after an empty match. *)
Definition match_at (ml : bool) (r : regex) (must_advance : bool)
           (p : option ascii) (s : str) : option rmatch :=
  m ml r
    (fun s' =>
       if must_advance && (length (rest s') =? length s) then None
       else Some (RMatch (firstn (length s - length (rest s')) s) (caps s')))
    (MState p s []).

(** [re.sub] and [re.finditer] scan the same way: the text is cut into
    the characters no match covers and the matches, in document order. *)
Inductive piece : Type :=
| Keep (c : ascii)
| Hit (mt : rmatch).

Fixpoint scan (ml : bool) (r : regex) (p : option ascii) (skip : nat)
         (s : str) : list piece :=
  match skip with
  | S n => match s with
           | [] => []
           | c :: s' => scan ml r (Some c) n s'
           end
  | 0 =>
      match match_at ml r false p s with
      | None =>
          match s with
          | [] => []
          | c :: s' => Keep c :: scan ml r (Some c) 0 s'
          end
      | Some mt =>
          Hit mt ::
          match length (m_text mt) with
          | S n => match s with
                   | [] => []
                   | c :: s' => scan ml r (Some c) n s'
                   end
          | 0 =>
              match match_at ml r true p s with
              | Some mt' =>
                  Hit mt' ::
                  match s with
                  | [] => []
                  | c :: s' => scan ml r (Some c) (length (m_text mt') - 1) s'
                  end
              | None =>
                  match s with
                  | [] => []
                  | c :: s' => Keep c :: scan ml r (Some c) 0 s'
                  end
              end
          end
      end
  end.

(** Errors.  [Exn cls msg] is an instance of a class derived from
    [Exception]; [BaseExn cls msg status] is an instance of a class
    derived from [BaseException] and not from [Exception]
    ([KeyboardInterrupt], [SystemExit], [GeneratorExit]), and [status] is
    the exit status of the interpreter when nothing catches it (the code
    of a [SystemExit]).  [str(e)] is the message. *)
Inductive exn : Type :=
| Exn (cls : string) (msg : str)
| BaseExn (cls : string) (msg : str) (status : nat).

Definition exn_str (e : exn) : str :=
  match e with
  | Exn _ msg => msg
  | BaseExn _ msg _ => msg
  end.

(** [isinstance(e, Exception)]: what [except Exception] catches. *)
Definition is_exception (e : exn) : bool :=
  match e with
  | Exn _ _ => true
  | BaseExn _ _ _ => false
  end.

(** The exit status of a run that the exception ends: 1 behind the
    traceback of an instance of [Exception], its own status otherwise. *)
Definition exit_status (e : exn) : nat :=
  match e with
  | Exn _ _ => 1
  | BaseExn _ _ status => status
  end.

Inductive result (A : Type) : Type :=
| Returns (a : A)
| Raises (e : exn).

Arguments Returns {A} a.
Arguments Raises {A} e.

Definition bind {A B : Type} (x : result A) (f : A -> result B) : result B :=
  match x with
  | Returns a => f a
  | Raises e => Raises e
  end.

Notation "x <- e1 ;; e2" := (bind e1 (fun x => e2))
  (at level 61, e1 at next level, right associativity).

(** [re.sub(pattern, repl, text)] with a function for [repl]. *)
Definition emit (f : rmatch -> str) (p : piece) : str :=
  match p with
  | Keep c => [c]
  | Hit mt => f mt
  end.

Definition sub (ml : bool) (r : regex) (f : rmatch -> str) (s : str) : str :=
  flat_map (emit f) (scan ml r None 0 s).

(** The same with a function that may raise: the matches are handed to it
    in document order and the first exception ends the substitution. *)
Fixpoint emit_all_e (f : rmatch -> result str) (ps : list piece)
  : result str :=
  match ps with
  | [] => Returns []
  | Keep c :: ps' => t <- emit_all_e f ps' ;; Returns (c :: t)
  | Hit mt :: ps' =>
      match f mt with
      | Raises e => Raises e
      | Returns h => t <- emit_all_e f ps' ;; Returns (h ++ t)
      end
  end.

Definition sub_e (ml : bool) (r : regex) (f : rmatch -> result str)
           (s : str) : result str :=
  emit_all_e f (scan ml r None 0 s).

(** The same with a function that reads and updates a global. *)
Fixpoint emit_all_st {St : Type} (f : rmatch -> St -> str * St)
         (ps : list piece) (st : St) : str * St :=
  match ps with
  | [] => ([], st)
  | Keep c :: ps' =>
      let (t, st') := emit_all_st f ps' st in (c :: t, st')
  | Hit mt :: ps' =>
      let (h, st1) := f mt st in
      let (t, st2) := emit_all_st f ps' st1 in (h ++ t, st2)
  end.

Definition sub_st {St : Type} (ml : bool) (r : regex)
           (f : rmatch -> St -> str * St) (s : str) (st : St) : str * St :=
  emit_all_st f (scan ml r None 0 s) st.

(** Replacement templates: text and group references [\n].  A group that
    took no part in the match expands to the empty string. *)
Inductive tpart : Type :=
| T (s : string)
| G (n : nat).

Definition expand (tpl : list tpart) (mt : rmatch) : str :=
  flat_map (fun t => match t with
                     | T s => L s
                     | G n => match group mt n with
                              | Some v => v
                              | None => []
                              end
                     end) tpl.

(** [re.sub(pattern, template, text)] *)
Definition sub_t (ml : bool) (r : regex) (tpl : list tpart) (s : str) : str :=
  sub ml r (expand tpl) s.

(** [re.search(pattern, text) is not None] *)
Definition search (ml : bool) (r : regex) (s : str) : bool :=
  existsb (fun p => match p with Hit _ => true | Keep _ => false end)
          (scan ml r None 0 s).

(** ** The script *)

Definition dq : string := String "034"%char EmptyString.

Definition cls_nl : regex := Cls (fun c => ceq c nl).             (* [\n] *)

(** r'```mermaid\n[\s\S]*?```' *)
Definition re_mermaid : regex :=
  seq [lit "```mermaid"; Chr nl; Star false any; lit "```"].

(** [replace_mermaid]: the global [diagram_count] is the state. *)
Definition replace_mermaid (mt : rmatch) (diagram_count : nat) : str * nat :=
  let diagram_count := diagram_count + 1 in
  (L "<figure>" ++ [nl]
   ++ L ("<img src=" ++ dq ++ "diagrams/diagram") ++ str_of_nat diagram_count
   ++ L (".png" ++ dq ++ " alt=" ++ dq ++ "Diagram ") ++ str_of_nat diagram_count
   ++ L (dq ++ ">") ++ [nl]
   ++ L "<figcaption>Figure " ++ str_of_nat diagram_count
   ++ L "</figcaption>" ++ [nl]
   ++ L "</figure>",
   diagram_count).

(** [md_content = re.sub(r'```mermaid...', replace_mermaid, md_content)] *)
Definition mermaid_pass (md_content : str) (diagram_count : nat) : str * nat :=
  sub_st false re_mermaid replace_mermaid md_content diagram_count.

(** The patterns of [md_to_html], in the order of the source. *)

(** r'^# (.+)$' *)
Definition re_title : regex := seq [Bol; lit "# "; Grp 1 (Plus true dot); Eol].
(** r'^## (.+)$' *)
Definition re_h2 : regex := seq [Bol; lit "## "; Grp 1 (Plus true dot); Eol].
(** r'^### (.+)$' *)
Definition re_h3 : regex := seq [Bol; lit "### "; Grp 1 (Plus true dot); Eol].
(** r'^---+$' *)
Definition re_hr : regex := seq [Bol; lit "--"; Plus true (Chr "-"); Eol].
(** r'```\w*\n([\s\S]*?)```' *)
Definition re_code : regex :=
  seq [lit "```"; Star true word; Chr nl; Grp 1 (Star false any); lit "```"].
(** r'`([^`]+)`' *)
Definition re_inline : regex :=
  seq [Chr "`"; Grp 1 (Plus true (none_of "`")); Chr "`"].
(** r'\*\*([^*]+)\*\*' *)
Definition re_bold : regex :=
  seq [lit "**"; Grp 1 (Plus true (none_of "*")); lit "**"].
(** r'\*([^*]+)\*' *)
Definition re_italic : regex :=
  seq [Chr "*"; Grp 1 (Plus true (none_of "*")); Chr "*"].
(** The image pattern: an exclamation mark, group 1 [^\]]* in square
    brackets, group 2 [^)]+ in round brackets *)
Definition re_image : regex :=
  seq [lit "!["; Grp 1 (Star true (none_of "]")); lit "](";
       Grp 2 (Plus true (none_of ")")); Chr ")"].
(** r'(\|.+\|[\n])+' *)
Definition re_table : regex :=
  Plus true (Grp 1 (seq [Chr "|"; Plus true dot; Chr "|"; cls_nl])).
(** r'(^[\s]*[-*]\s+.+[\n]?)+' *)
Definition re_ul : regex :=
  Plus true (Grp 1 (seq [Bol; Star true space; one_of "-*"; Plus true space;
                         Plus true dot; Opt cls_nl])).
(** r'^[\s]*[-*]\s*' *)
Definition re_ul_marker : regex :=
  seq [Bol; Star true space; one_of "-*"; Star true space].
(** r'(^[\s]*\d+\.\s+.+[\n]?)+' *)
Definition re_ol : regex :=
  Plus true (Grp 1 (seq [Bol; Star true space; Plus true digit; Chr ".";
                         Plus true space; Plus true dot; Opt cls_nl])).
(** r'^[\s]*\d+\.\s*' *)
Definition re_ol_marker : regex :=
  seq [Bol; Star true space; Plus true digit; Chr "."; Star true space].
(** r'<p>\s*</p>' *)
Definition re_empty_p : regex := seq [lit "<p>"; Star true space; lit "</p>"].
(** r'<p>\s*(<h\d|<hr|<figure|<table|<ul|<ol|<pre)' *)
Definition re_p_open : regex :=
  seq [lit "<p>"; Star true space;
       Grp 1 (alt [Seq (lit "<h") digit; lit "<hr"; lit "<figure";
                   lit "<table"; lit "<ul"; lit "<ol"; lit "<pre"])].
(** r'(</h\d>|</table>|</ul>|</ol>|</pre>|</figure>)\s*</p>' *)
Definition re_p_close : regex :=
  seq [Grp 1 (alt [seq [lit "</h"; digit; Chr ">"]; lit "</table>";
                   lit "</ul>"; lit "</ol>"; lit "</pre>"; lit "</figure>"]);
       Star true space; lit "</p>"].

(** The block put after the title: the closing tag, the date line and
    the abstract. *)
Definition meta_block : str :=
  L "</h1>" ++ [nl]
  ++ L ("<div class=" ++ dq ++ "meta" ++ dq ++ ">January 2026</div>") ++ [nl]
  ++ L ("<div class=" ++ dq ++ "abstract" ++ dq ++ ">") ++ [nl]
  ++ L ("<div class=" ++ dq ++ "abstract-title" ++ dq ++ ">Abstract</div>")
  ++ [nl]
  ++ L "This document examines how the wrapper around a language model affects clinical documentation output. We processed the same psychiatric case through ChatGPT and through Psych Intake Brief. Both use GPT-5.2. The difference is in how the interaction gets structured."
  ++ [nl]
  ++ L "</div>" ++ [nl].

(** [format_code_block]: [match.group(1)] is [None] for a group that took
    no part in the match, and [None.replace] raises. *)
Definition format_code_block (mt : rmatch) : result str :=
  match group mt 1 with
  | None => Raises (Exn "AttributeError" (L "'NoneType' object has no attribute 'replace'"))
  | Some code =>
      let code := replace (L ">") (L "&gt;") (replace (L "<") (L "&lt;") code) in
      Returns (L "<pre><code>" ++ code ++ L "</code></pre>")
  end.

(** [xs[1:-1]] *)
Definition slice_1_m1 {A : Type} (xs : list A) : list A := removelast (tl xs).

(** [list(enumerate(xs))], counting from [i] *)
Fixpoint enumerate_from {A : Type} (i : nat) (xs : list A) : list (nat * A) :=
  match xs with
  | [] => []
  | x :: xs' => (i, x) :: enumerate_from (S i) xs'
  end.

Definition table_row (il : nat * str) : str :=
  let (i, line) := il in
  if contains (L "---") line then []
  else
    let cells := map strip (slice_1_m1 (split_chr "|" line)) in
    let tag := if i =? 0 then L "th" else L "td" in
    L "<tr>"
    ++ flat_map (fun c => L "<" ++ tag ++ L ">" ++ c ++ L "</" ++ tag ++ L ">")
         cells
    ++ L "</tr>" ++ [nl].

Definition format_table (mt : rmatch) : str :=
  let lines := split_chr nl (strip (m_text mt)) in
  L "<table>" ++ [nl]
  ++ flat_map table_row (enumerate_from 0 lines)
  ++ L "</table>".

Definition format_list (mt : rmatch) : str :=
  let items := split_chr nl (strip (m_text mt)) in
  L "<ul>" ++ [nl]
  ++ flat_map (fun item =>
                 let item := sub_t false re_ul_marker [] item in
                 L "<li>" ++ item ++ L "</li>" ++ [nl]) items
  ++ L "</ul>".

Definition format_ol (mt : rmatch) : str :=
  let items := split_chr nl (strip (m_text mt)) in
  L "<ol>" ++ [nl]
  ++ flat_map (fun item =>
                 let item := sub_t false re_ol_marker [] item in
                 L "<li>" ++ item ++ L "</li>" ++ [nl]) items
  ++ L "</ol>".

(** One step of the paragraph loop. *)
Definition wrap_paragraph (chunk : str) : str :=
  let p := strip chunk in
  match p with
  | [] => chunk
  | c :: _ => if ceq c "<" then chunk else L "<p>" ++ p ++ L "</p>"
  end.

Definition paragraph_pass (text : str) : str :=
  join [nl; nl] (map wrap_paragraph (split [nl; nl] text)).

Definition cleanup_pass (text : str) : str :=
  let text := replace (nl :: L "</p>") (L "</p>") text in
  let text := sub_t false re_empty_p [] text in
  let text := sub_t false re_p_open [G 1] text in
  let text := sub_t false re_p_close [G 1] text in
  text.

(** The passes of [md_to_html], one per statement of the source. *)

Definition title_pass (text : str) : str :=
  sub_t true re_title [T "<h1>"; G 1; T "</h1>"] text.

Definition meta_pass (text : str) : str :=
  replace (L "</h1>" ++ [nl; nl]) meta_block text.

Definition h2_pass (text : str) : str :=
  sub_t true re_h2 [T "<h2>"; G 1; T "</h2>"] text.

Definition h3_pass (text : str) : str :=
  sub_t true re_h3 [T "<h3>"; G 1; T "</h3>"] text.

Definition hr_pass (text : str) : str := sub_t true re_hr [T "<hr>"] text.

Definition code_pass (text : str) : result str :=
  sub_e false re_code format_code_block text.

Definition inline_pass (text : str) : str :=
  sub_t false re_inline [T "<code>"; G 1; T "</code>"] text.

Definition bold_pass (text : str) : str :=
  sub_t false re_bold [T "<strong>"; G 1; T "</strong>"] text.

Definition italic_pass (text : str) : str :=
  sub_t false re_italic [T "<em>"; G 1; T "</em>"] text.

Definition image_pass (text : str) : str :=
  sub_t false re_image
    [T ("<figure><img src=" ++ dq); G 2; T (dq ++ " alt=" ++ dq); G 1;
     T (dq ++ "><figcaption>"); G 1; T "</figcaption></figure>"] text.

Definition table_pass (text : str) : str := sub false re_table format_table text.

Definition ul_pass (text : str) : str := sub true re_ul format_list text.

Definition ol_pass (text : str) : str := sub true re_ol format_ol text.

Definition md_to_html (text : str) : result str :=
  (* Title *)
  let text := title_pass text in
  (* Add subtitle and meta after title *)
  let text := meta_pass text in
  (* Headers *)
  let text := h2_pass text in
  let text := h3_pass text in
  (* Horizontal rules *)
  let text := hr_pass text in
  (* Code blocks *)
  text <- code_pass text ;;
  (* Inline code *)
  let text := inline_pass text in
  (* Bold *)
  let text := bold_pass text in
  (* Italic *)
  let text := italic_pass text in
  (* Images *)
  let text := image_pass text in
  (* Tables *)
  let text := table_pass text in
  (* Lists *)
  let text := ul_pass text in
  (* Numbered lists *)
  let text := ol_pass text in
  (* Paragraphs *)
  let text := paragraph_pass text in
  (* Clean up *)
  Returns (cleanup_pass text).

(** The page around the converted text. *)
Definition html_doc (html_content : str) : str :=
  L "<!DOCTYPE html>" ++ [nl]
  ++ L ("<html lang=" ++ dq ++ "en" ++ dq ++ ">") ++ [nl]
  ++ L "<head>" ++ [nl]
  ++ L ("    <meta charset=" ++ dq ++ "UTF-8" ++ dq ++ ">") ++ [nl]
  ++ L "    <title>Structured Harnesses for Clinical AI</title>" ++ [nl]
  ++ L ("    <link rel=" ++ dq ++ "stylesheet" ++ dq ++ " href=" ++ dq
        ++ "academic-style.css" ++ dq ++ ">") ++ [nl]
  ++ L "</head>" ++ [nl]
  ++ L "<body>" ++ [nl]
  ++ html_content ++ [nl]
  ++ L "</body>" ++ [nl]
  ++ L "</html>".

(** What the script meets outside itself: the markdown file, the file
    system it writes to, and the weasyprint calls of the [try] block (the
    import, the three constructors and [write_pdf] together, which return
    the bytes written to the PDF file, then [os.path.getsize]). *)
Record env : Type := Env {
  read_md : result str;
  write_file : string -> str -> result unit;
  write_pdf : str -> result str;
  getsize : result nat
}.

(** What a run leaves behind: the files written by the calls that have
    returned, in order; the lines printed by the script; the exit status;
    the diagram counter; the exception that ended the run, if one did. *)
Record run : Type := Run {
  written : list (string * str);
  stdout : list str;
  exit_code : nat;
  final_diagram_count : nat;
  uncaught : option exn
}.

(** ["{size / 1024:.0f}"]: the quotient rounded to the nearest integer,
    a tie to the even one (exact for sizes below 2^53). *)
Definition kb (size : nat) : nat :=
  let q := size / 1024 in
  let r := size mod 1024 in
  if r <? 512 then q
  else if 512 <? r then q + 1
  else if Nat.even q then q else q + 1.

(** An exception nobody catches ends the run, with its exit status. *)
Definition dies (files : list (string * str)) (out : list str) (n : nat)
    (x : exn) : run :=
  Run files out (exit_status x) n (Some x).

(** [except Exception as e: print(f"PDF generation error: {e}")]: an
    instance of [Exception] raised in the [try] block is reported and the
    script ends; any other exception goes on. *)
Definition handler (files : list (string * str)) (out : list str) (n : nat)
    (x : exn) : run :=
  if is_exception x
  then Run files (out ++ [L "PDF generation error: " ++ exn_str x]) 0 n None
  else dies files out n x.

Definition script (e : env) : run :=
  match read_md e with
  | Raises x => dies [] [] 0 x
  | Returns md_content =>
      let diagram_count := 0 in
      let (md_content, diagram_count) := mermaid_pass md_content diagram_count in
      match md_to_html md_content with
      | Raises x => dies [] [] diagram_count x
      | Returns html_content =>
          let doc := html_doc html_content in
          match write_file e "academic-output.html" doc with
          | Raises x => dies [] [] diagram_count x
          | Returns _ =>
              let files := [("academic-output.html"%string, doc)] in
              let out := [L "HTML generated: academic-output.html"] in
              (* try: *)
              match write_pdf e doc with
              | Raises x => handler files out diagram_count x
              | Returns pdf =>
                  let files :=
                    files ++ [("Psych_Intake_Brief_Technical_Documentation.pdf"%string,
                               pdf)] in
                  let out :=
                    out ++ [L "PDF generated: Psych_Intake_Brief_Technical_Documentation.pdf"] in
                  match getsize e with
                  | Raises x => handler files out diagram_count x
                  | Returns size =>
                      Run files
                          (out ++ [L "Size: " ++ str_of_nat (kb size) ++ L " KB"])
                          0 diagram_count None
                  end
              end
          end
      end
  end.

(** * Vocabulary of the statements *)

(** A matcher body that only looks at what its continuation returns. *)
Definition ext_body {A : Type}
           (body : (mstate -> option A) -> mstate -> option A) : Prop :=
  forall k1 k2 s, (forall t, k1 t = k2 t) -> body k1 s = body k2 s.

(** The state reached from [s] after the characters [u] have been read
    and the groups [cs] are the captured ones. *)
Definition last_chr (u : str) (p : option ascii) : option ascii :=
  match rev u with
  | [] => p
  | c :: _ => Some c
  end.

(** [path ml r s s']: some way of matching [r] leads from [s] to [s'].
    The matcher explores exactly these ways, in priority order. *)
Inductive path (ml : bool) : regex -> mstate -> mstate -> Prop :=
| P_eps s : path ml Eps s s
| P_chr c p t cs : path ml (Chr c) (MState p (c :: t) cs) (MState (Some c) t cs)
| P_cls (q : ascii -> bool) c p t cs :
    q c = true -> path ml (Cls q) (MState p (c :: t) cs) (MState (Some c) t cs)
| P_bol s : at_bol ml s = true -> path ml Bol s s
| P_eol s : at_eol ml s = true -> path ml Eol s s
| P_seq r1 r2 s s1 s2 :
    path ml r1 s s1 -> path ml r2 s1 s2 -> path ml (Seq r1 r2) s s2
| P_alt_l r1 r2 s s' : path ml r1 s s' -> path ml (Alt r1 r2) s s'
| P_alt_r r1 r2 s s' : path ml r2 s s' -> path ml (Alt r1 r2) s s'
| P_star_stop g r s : path ml (Star g r) s s
| P_star_more g r s s1 s2 :
    path ml r s s1 -> length (rest s1) < length (rest s) ->
    path ml (Star g r) s1 s2 -> path ml (Star g r) s s2
| P_grp n r s s' :
    path ml r s s' ->
    path ml (Grp n r) s
         (MState (prev s') (rest s')
                 ((n, firstn (length (rest s) - length (rest s')) (rest s))
                    :: caps s')).

(** The least number of characters a match of the pattern consumes. *)
Fixpoint min_len (r : regex) : nat :=
  match r with
  | Eps | Bol | Eol | Star _ _ => 0
  | Chr _ | Cls _ => 1
  | Seq r1 r2 => min_len r1 + min_len r2
  | Alt r1 r2 => Nat.min (min_len r1) (min_len r2)
  | Grp _ r1 => min_len r1
  end.

(** The pattern has no [^]: a match does not depend on the character
    before it. *)
Fixpoint no_bol (r : regex) : bool :=
  match r with
  | Bol => false
  | Eps | Eol | Chr _ | Cls _ => true
  | Seq r1 r2 | Alt r1 r2 => no_bol r1 && no_bol r2
  | Star _ r1 | Grp _ r1 => no_bol r1
  end.

(** The text of a piece of the scan. *)
Definition piece_text (p : piece) : str :=
  match p with
  | Keep c => [c]
  | Hit mt => m_text mt
  end.

Definition is_hit (p : piece) : bool :=
  match p with
  | Hit _ => true
  | Keep _ => false
  end.

(** Greedy repetition of a class over a run [w] of its characters: the
    continuation is tried behind the whole run first, then behind shorter
    and shorter parts of it. *)
Fixpoint greedy_try {A : Type} (k : mstate -> option A) (p : option ascii)
         (cs : list (nat * str)) (w s : str) : option A :=
  match w with
  | [] => k (MState p s cs)
  | c :: w' => orelse (greedy_try k (Some c) cs w' s) (k (MState p (w ++ s) cs))
  end.

(** Lazy repetition of a class over a run [w]: the continuation is tried
    at once, then behind longer and longer parts of the run. *)
Fixpoint lazy_try {A : Type} (k : mstate -> option A) (p : option ascii)
         (cs : list (nat * str)) (w s : str) : option A :=
  match w with
  | [] => k (MState p s cs)
  | c :: w' => orelse (k (MState p (w ++ s) cs)) (lazy_try k (Some c) cs w' s)
  end.

(** The class stops at the head of [s]. *)
Definition stops (q : ascii -> bool) (s : str) : Prop :=
  match s with
  | [] => True
  | c :: _ => q c = false
  end.

(** A continuation that does not look at the character before the
    current position. *)
Definition blind {A : Type} (k : mstate -> option A) : Prop :=
  forall t t', rest t = rest t' -> caps t = caps t' -> k t = k t'.

(** Every way of matching the pattern reads a character of the set [Q]. *)
Fixpoint needs (Q : ascii -> Prop) (r : regex) : Prop :=
  match r with
  | Eps | Bol | Eol | Star _ _ => False
  | Chr c => Q c
  | Cls q => forall c, q c = true -> Q c
  | Seq r1 r2 => needs Q r1 \/ needs Q r2
  | Alt r1 r2 => needs Q r1 /\ needs Q r2
  | Grp _ r1 => needs Q r1
  end.

(** ** Emphasis *)

Definition bold_italic_input : str := L "**bold *and italic* text**".

(** A strong element whose content holds an emphasis element around
    "and italic". *)
Definition nested_emphasis (out : str) : Prop :=
  exists a b c d,
    out = a ++ L "<strong>" ++ b ++ L "<em>and italic</em>" ++ c
          ++ L "</strong>" ++ d.

Definition no_chr (c : ascii) (s : str) : Prop := Forall (fun d => d <> c) s.

(** Every way of matching the pattern captures group [n]. *)
Fixpoint captures (n : nat) (r : regex) : bool :=
  match r with
  | Grp i r1 => (i =? n) || captures n r1
  | Seq r1 r2 => captures n r1 || captures n r2
  | Alt r1 r2 => captures n r1 && captures n r2
  | _ => false
  end.

(** ** The run of the script *)

(** The rendering step raises [x]: [write_pdf] does, or it returns and
    [os.path.getsize] raises. *)
Definition rendering_raises (e : env) (doc : str) (x : exn) : Prop :=
  write_pdf e doc = Raises x
  \/ (exists pdf, write_pdf e doc = Returns pdf /\ getsize e = Raises x).

(** The line the handler prints for [x]. *)
Definition diagnostic (x : exn) : str := L "PDF generation error: " ++ exn_str x.

(** The page the script writes for the markdown text [md]. *)
Definition page_of (md : str) : result str :=
  html <- md_to_html (fst (mermaid_pass md 0)) ;; Returns (html_doc html).

(** The position is the start of a line: nothing or a newline is before
    it. *)
Definition line_start (p : option ascii) : Prop := p = None \/ p = Some nl.

(** ** Level-1 headings *)

(** The text of a level-1 heading line: [# ] and at least one more
    character. *)
Definition heading_text (l : str) : option str :=
  match l with
  | c1 :: c2 :: c3 :: x =>
      if ceq c1 "#" && ceq c2 " " then Some (c3 :: x) else None
  | _ => None
  end.

(** What the title pass makes of one line. *)
Definition title_line (l : str) : str :=
  match heading_text l with
  | Some x => L "<h1>" ++ x ++ L "</h1>"
  | None => l
  end.

(** What follows a line: the end of the text or a newline. *)
Definition line_end (s : str) : Prop := s = [] \/ exists s', s = nl :: s'.

(** The replacement of the title pass. *)
Definition title_repl : rmatch -> str := expand [T "<h1>"; G 1; T "</h1>"].

(** Some occurrence of [old] in [a ++ t] starts inside [a]. *)
Fixpoint starts_inside (old a t : str) : bool :=
  match a with
  | [] => false
  | _ :: a' => starts_with old (a ++ t) || starts_inside old a' t
  end.

(** The number of places of [s] where [p] starts. *)
Fixpoint occurrences (p s : str) : nat :=
  (if starts_with p s then 1 else 0)
  + match s with
    | [] => 0
    | _ :: s' => occurrences p s'
    end.

(** At most one heading element and one injected block. *)
Definition only_first_heading (input : str) : Prop :=
  forall out, md_to_html input = Returns out ->
              occurrences (L "<h1>") out <= 1
              /\ occurrences (L "January 2026") out <= 1.

(** The heading close tag followed by a blank line. *)
Definition h1_blank : str := L "</h1>" ++ [nl; nl].

Definition two_headings_input : str :=
  L "# A" ++ [nl; nl] ++ L "# B" ++ [nl; nl] ++ L "text".

Definition title_input : str := L "# Title" ++ [nl; nl] ++ L "text".

(** An environment in which the renderer fails. *)
Definition failing_env : env :=
  Env (Returns (L "# Hi"))
      (fun _ _ => Returns tt)
      (fun _ => Raises (Exn "OSError" (L "cannot load library 'pango'")))
      (Returns 0).

(** An environment in which the rendering is interrupted from the
    keyboard: [KeyboardInterrupt()], whose message is empty; 130 is the
    status of a process that the interrupt signal has ended. *)
Definition interrupt : exn := BaseExn "KeyboardInterrupt" [] 130.

Definition interrupted_env : env :=
  Env (Returns (L "# Hi"))
      (fun _ _ => Returns tt)
      (fun _ => Raises interrupt)
      (Returns 0).


(** ** Tables *)

(** One repetition of the table pattern: a row and its newline. *)
Definition row_re : regex :=
  Grp 1 (seq [Chr "|"; Plus true dot; Chr "|"; cls_nl]).

(** A table row around the text [x]: a pipe, [x], a pipe. *)
Definition row_of (x : str) : str := L "|" ++ x ++ L "|".

(** The text between the outer pipes of a row: not empty, on one line. *)
Definition inner_ok (x : str) : bool :=
  match x with
  | [] => false
  | _ => forallb (fun c => negb (ceq c nl)) x
  end.

(** A block of rows, each closed by a newline. *)
Definition block (rows : list str) : str := flat_map (fun r => r ++ [nl]) rows.

(** No row starts at the head of [s]. *)
Definition no_row_start (s : str) : bool :=
  match s with
  | [] => true
  | c :: _ => negb (ceq c "|")
  end.

(** The row as the table pass writes it: the fields between the pipes,
    stripped, each in a cell with the tag [tag]. *)
Definition cells_of (line : str) : list str :=
  map strip (slice_1_m1 (split_chr "|" line)).

Definition row_html (tag : string) (line : str) : str :=
  L "<tr>"
  ++ flat_map (fun c => L "<" ++ L tag ++ L ">" ++ c ++ L "</" ++ L tag ++ L ">")
       (cells_of line)
  ++ L "</tr>" ++ [nl].

Definition has_dashes (line : str) : bool := contains (L "---") line.

(** A row is dropped when three hyphens in a row occur in it; a kept row
    is a header row when it is the first line of the block and a data row
    otherwise. *)
Definition kept_row (first : bool) (line : str) : str :=
  if has_dashes line then []
  else row_html (if first then "th" else "td") line.

Definition table_of (rows : list str) : str :=
  L "<table>" ++ [nl]
  ++ match rows with
     | [] => []
     | r :: rs => kept_row true r ++ flat_map (kept_row false) rs
     end
  ++ L "</table>".

(** The row holds only hyphens and pipes. *)
Definition separator_row (line : str) : bool :=
  forallb (fun c => ceq c "-" || ceq c "|") line.

(** The rows of the output are the rows of the input that are not
    separator rows. *)
Definition only_separator_dropped (rows : list str) : Prop :=
  forall out, md_to_html (block rows) = Returns out ->
              occurrences (L "<tr>") out
              = length (filter (fun r => negb (separator_row r)) rows).

Definition table_with_dashes_in_cell : list str :=
  [L "| a | b |"; L "|---|---|"; L "| x --- y | 2 |"].

Definition three_row_table : list str :=
  [L "| a | b |"; L "|---|---|"; L "| 1 | 2 |"].

(** ** Fenced blocks *)

Definition fence : str := L "```".

(** A fenced block: the fence, the language word, a newline, the
    content, the fence. *)
Definition fenced (tag body : str) : str := fence ++ tag ++ [nl] ++ body ++ fence.

(** Every angle bracket replaced by its character entity. *)
Definition escape (code : str) : str :=
  flat_map (fun c => if ceq c "<" then L "&lt;"
                     else if ceq c ">" then L "&gt;" else [c]) code.

(** ** Mermaid blocks *)

(** The opening of a mermaid block, without its newline. *)
Definition mermaid_tag : str := L "```mermaid".

(** The figure that stands for diagram [n]. *)
Definition figure (n : nat) : str :=
  L "<figure>" ++ [nl]
  ++ L ("<img src=" ++ dq ++ "diagrams/diagram") ++ str_of_nat n
  ++ L (".png" ++ dq ++ " alt=" ++ dq ++ "Diagram ") ++ str_of_nat n
  ++ L (dq ++ ">") ++ [nl]
  ++ L "<figcaption>Figure " ++ str_of_nat n ++ L "</figcaption>" ++ [nl]
  ++ L "</figure>".

(** The pieces of a scan with the matches replaced by the figures
    numbered from [n] on, in document order. *)
Fixpoint number_from (n : nat) (ps : list piece) : str :=
  match ps with
  | [] => []
  | Keep c :: ps' => c :: number_from n ps'
  | Hit _ :: ps' => figure n ++ number_from (S n) ps'
  end.

Definition count_hits (ps : list piece) : nat := length (filter is_hit ps).

(** The mermaid blocks of a document, in document order. *)
Definition mermaid_blocks (doc : str) : list piece :=
  scan false re_mermaid None 0 doc.

(** ** Tags and what the cleanup pass removes *)

(** A pattern of character classes, one per character. *)
Definition cpat : Type := list (ascii -> bool).

Fixpoint starts_with_cls (pat : cpat) (s : str) : bool :=
  match pat with
  | [] => true
  | q :: pat' => match s with
                 | [] => false
                 | c :: s' => q c && starts_with_cls pat' s'
                 end
  end.

Definition pat_of (t : string) : cpat := map ceq (L t).

(** The pattern of a regular expression made of single characters. *)
Fixpoint flat (r : regex) : option cpat :=
  match r with
  | Eps => Some []
  | Chr c => Some [ceq c]
  | Cls q => Some [q]
  | Seq r1 r2 =>
      match flat r1, flat r2 with
      | Some p1, Some p2 => Some (p1 ++ p2)
      | _, _ => None
      end
  | _ => None
  end.

Definition p_open : str := L "<p>".
Definition p_close : str := L "</p>".

(** The block-level open tags of the cleanup pass. *)
Definition block_opens : list cpat :=
  [pat_of "<h" ++ [is_digit]; pat_of "<hr"; pat_of "<figure"; pat_of "<table";
   pat_of "<ul"; pat_of "<ol"; pat_of "<pre"].

(** The block-level close tags of the cleanup pass. *)
Definition block_closes : list cpat :=
  [pat_of "</h" ++ [is_digit] ++ pat_of ">"; pat_of "</table>"; pat_of "</ul>";
   pat_of "</ol>"; pat_of "</pre>"; pat_of "</figure>"].

(** A line break right before a paragraph close tag. *)
Definition nl_before_close (s : str) : bool := starts_with (nl :: p_close) s.

(** An empty paragraph element: nothing but white space between the
    tags. *)
Definition empty_paragraph (s : str) : bool :=
  starts_with p_open s && starts_with p_close (lstrip (skipn 3 s)).

(** A paragraph open tag and, after white space at most, a block-level
    open tag. *)
Definition p_before_block (s : str) : bool :=
  starts_with p_open s
  && existsb (fun pat => starts_with_cls pat (lstrip (skipn 3 s))) block_opens.

(** A block-level close tag and, after white space at most, a paragraph
    close tag. *)
Definition close_before_p (s : str) : bool :=
  existsb (fun pat => starts_with_cls pat s
                      && starts_with p_close (lstrip (skipn (length pat) s)))
          block_closes.

(** [bad] holds at no position of [s]. *)
Fixpoint nowhere (bad : str -> bool) (s : str) : bool :=
  negb (bad s) && match s with
                  | [] => true
                  | _ :: t => nowhere bad t
                  end.

(** The four properties of a cleaned-up text. *)
Definition clean (out : str) : bool :=
  nowhere empty_paragraph out && nowhere nl_before_close out
  && nowhere p_before_block out && nowhere close_before_p out.

(** The output of the converter is clean. *)
Definition output_clean (input : str) : Prop :=
  forall out, md_to_html input = Returns out -> clean out = true.

Definition stray_close_input : str := L "a" ++ [nl; nl] ++ L "</p>".

(** ** The shape of the text after the paragraph pass *)

Definition sep : str := [nl; nl].

(** No paragraph tag occurs in the text. *)
Definition tag_free (s : str) : bool :=
  negb (contains p_open s) && negb (contains p_close s).

(** The text is empty or begins with a newline. *)
Definition insulated (s : str) : bool :=
  match s with
  | [] => true
  | c :: _ => ceq c nl
  end.

(** After white space at most, no paragraph close tag follows. *)
Definition calm (s : str) : bool := negb (starts_with p_close (lstrip s)).

(** The text of a wrapped paragraph: it begins with a character that is
    neither white space nor [<], ends with one that is not white space,
    and holds no paragraph tag. *)
Definition body_ok (x : str) : bool :=
  match x with
  | [] => false
  | c :: _ => negb (is_space c) && negb (ceq c "<")
  end
  && negb (is_space (last x " "%char)) && tag_free x.

(** The text is exactly a block-level close tag. *)
Definition is_closer (v : str) : bool :=
  existsb (fun pat => starts_with_cls pat v && (length v =? length pat))
          block_closes.

(** The text ends with a block-level close tag. *)
Fixpoint close_tag_end (x : str) : bool :=
  is_closer x || match x with
                 | [] => false
                 | _ :: x' => close_tag_end x'
                 end.

(** The pieces between the blank lines: a chunk left as it is, a
    paragraph element, a paragraph element that has lost its close tag. *)
Inductive seg : Type :=
| Raw (t : str)
| Full (x : str)
| Open (x : str).

Definition render (g : seg) : str :=
  match g with
  | Raw t => t
  | Full x => p_open ++ x ++ p_close
  | Open x => p_open ++ x
  end.

Definition render_doc (gs : list seg) : str := join sep (map render gs).

Definition seg_ok (g : seg) : bool :=
  match g with
  | Raw t => tag_free t
  | Full x => body_ok x
  | Open x => body_ok x
  end.

(** A paragraph element whose text ends with a block-level close tag
    has lost its own close tag. *)
Definition seg_closed (g : seg) : bool :=
  match g with
  | Full x => negb (close_tag_end x)
  | _ => true
  end.

(** What the paragraph pass makes of a chunk. *)
Definition seg_of (chunk : str) : seg :=
  match strip chunk with
  | [] => Raw chunk
  | c :: _ => if ceq c "<" then Raw chunk else Full (strip chunk)
  end.

(** What the last substitution of the cleanup pass makes of a piece. *)
Definition close4 (g : seg) : seg :=
  match g with
  | Full x => if close_tag_end x then Open x else Full x
  | _ => g
  end.

(** A piece is well formed and the text of a paragraph element with
    both tags meets [extra]. *)
Definition seg_fit (extra : str -> bool) (g : seg) : bool :=
  seg_ok g && match g with Full x => extra x | _ => true end.

(** The last substitution of the cleanup pass. *)
Definition close_sub (text : str) : str := sub_t false re_p_close [G 1] text.

(** The text that reaches the paragraph pass: [md_to_html] up to the
    numbered lists. *)
Definition markup_passes (text : str) : result str :=
  text <- code_pass (hr_pass (h3_pass (h2_pass (meta_pass (title_pass text))))) ;;
  Returns (ol_pass (ul_pass (table_pass (image_pass (italic_pass
            (bold_pass (inline_pass text))))))).

Definition stray_close_output : str := L "<p>a</p>" ++ [nl] ++ L "</p>".

Definition heading_in_paragraph : str := L "text" ++ [nl] ++ L "## H".

(** ** Text without markup *)

(** The patterns of the passes that run before the paragraph pass, each
    with its MULTILINE flag. *)
Definition patterns : list (bool * regex) :=
  [(true, re_title); (true, re_h2); (true, re_h3); (true, re_hr);
   (false, re_code); (false, re_inline); (false, re_bold); (false, re_italic);
   (false, re_image); (false, re_table); (true, re_ul); (true, re_ol)].

Definition patterns_absent (text : str) : bool :=
  forallb (fun p => negb (search (fst p) (snd p) text)) patterns.

Definition lt_free (s : str) : bool := forallb (fun c => negb (ceq c "<")) s.

(** A chunk with its white space stripped inside one paragraph element;
    a blank chunk as it is. *)
Definition paragraph (chunk : str) : str :=
  match strip chunk with
  | [] => chunk
  | x => p_open ++ x ++ p_close
  end.

Definition paragraphs (text : str) : str :=
  join sep (map paragraph (split sep text)).

Definition every_chunk_wrapped (text : str) : Prop :=
  md_to_html text = Returns (paragraphs text).

Definition less_than_three : str := L "<3".

(** ** Headings of the second and third level, rules *)

(** The text of a line behind a mark: the line starts with the mark and
    goes on behind it. *)
Definition marked_text (mark l : str) : option str :=
  if starts_with mark l
  then match skipn (length mark) l with
       | [] => None
       | x => Some x
       end
  else None.

(** What a heading pass makes of one line. *)
Definition heading_line (mark tag : string) (l : str) : str :=
  match marked_text (L mark) l with
  | Some x => L "<" ++ L tag ++ L ">" ++ x ++ L "</" ++ L tag ++ L ">"
  | None => l
  end.

(** The pattern of a heading pass: the mark at the start of a line, the
    rest of the line in group 1. *)
Definition re_heading (mark : string) : regex :=
  seq [Bol; lit mark; Grp 1 (Plus true dot); Eol].

(** A line of three hyphens or more. *)
Definition is_rule (l : str) : bool :=
  (2 <? length l) && forallb (ceq "-") l.

(** What the rule pass makes of one line. *)
Definition hr_line (l : str) : str := if is_rule l then L "<hr>" else l.

(** ** Spans between two delimiters *)

(** The pattern of the inline-code pass and of the italic pass: the
    delimiter, a run of other characters in group 1, the delimiter. *)
Definition re_span (d : ascii) : regex :=
  seq [Chr d; Grp 1 (Plus true (none_of (String d EmptyString))); Chr d].

(** ** Images *)

(** The figure the image pass writes for an alternative text and an
    address. *)
Definition image_figure (alt url : str) : str :=
  L ("<figure><img src=" ++ dq) ++ url ++ L (dq ++ " alt=" ++ dq) ++ alt
  ++ L (dq ++ "><figcaption>") ++ alt ++ L "</figcaption></figure>".

(** The markdown of an image. *)
Definition image_md (alt url : str) : str :=
  L "![" ++ alt ++ L "](" ++ url ++ L ")".

(** ** Lists *)

(** Two states the matcher cannot tell apart: the same text ahead, the
    same groups, and both or neither at the start of a line. *)
Definition same_start (ml : bool) (s s' : mstate) : Prop :=
  rest s = rest s' /\ caps s = caps s' /\ at_bol ml s = at_bol ml s'.

Definition start_blind {A : Type} (ml : bool) (k : mstate -> option A) : Prop :=
  forall t t', same_start ml t t' -> k t = k t'.

(** One item of a list pattern around the patterns [marker] of the item
    marker, the list pattern, and the pattern that takes the marker off an
    item. *)
Definition re_item (marker : list regex) : regex :=
  Grp 1 (seq (Bol :: Star true space :: marker
              ++ [Plus true space; Plus true dot; Opt cls_nl])).

Definition re_list (marker : list regex) : regex := Plus true (re_item marker).

Definition re_marker (marker : list regex) : regex :=
  seq (Bol :: Star true space :: marker ++ [Star true space]).

(** An item in the markdown: the marker, one space, the text. *)
Definition item_line (it : str * str) : str := fst it ++ " "%char :: snd it.

(** The text of an item: not empty, on one line, no white space at its
    ends. *)
Definition item_ok (x : str) : bool :=
  match x with
  | [] => false
  | c :: _ =>
      negb (is_space c) && negb (is_space (last x " "%char))
      && forallb (fun d => negb (ceq d nl)) x
  end.

(** The lines of a list, the last one with or without its newline. *)
Definition list_text (its : list (str * str)) (fin : bool) : str :=
  join [nl] (map item_line its) ++ (if fin then [nl] else []).

(** The list element a list pass writes. *)
Definition list_html (tag : string) (xs : list str) : str :=
  L "<" ++ L tag ++ L ">" ++ [nl]
  ++ flat_map (fun x => L "<li>" ++ x ++ L "</li>" ++ [nl]) xs
  ++ L "</" ++ L tag ++ L ">".

(** No marker stands at the head of [t]. *)
Definition no_mark_at (starts : ascii -> bool) (t : str) : bool :=
  match t with
  | [] => true
  | c :: _ => negb (starts c)
  end.

(** No item starts at [t]: behind the white space at its head stands no
    marker. *)
Definition no_item (starts : ascii -> bool) (t : str) : bool :=
  no_mark_at starts (lstrip t).

(** The markers of the two list passes: a hyphen or an asterisk; a
    number and a full stop. *)
Definition bullet (c : ascii) : bool := existsb (ceq c) (L "-*").

Definition ul_mark (mk : str) : bool :=
  match mk with
  | [c] => bullet c
  | _ => false
  end.

Definition ol_mark (mk : str) : bool :=
  match rev mk with
  | c :: d :: ds => ceq c "." && forallb is_digit (d :: ds)
  | _ => false
  end.

(** ** Lines of HTML *)

(** A character none of the patterns behind the heading passes asks
    for: not a newline, a backtick, an asterisk, an exclamation mark or a
    pipe. *)
Definition quiet_chr (c : ascii) : bool :=
  negb (existsb (ceq c) (nl :: L "`*!|")).

(** A line that begins with [<] and holds quiet characters only. *)
Definition tag_line (l : str) : bool :=
  match l with
  | [] => false
  | c :: _ => ceq c "<"
  end
  && forallb quiet_chr l.

(** A text of such lines without a paragraph tag. *)
Definition html_block (lines : list str) : bool :=
  match lines with
  | [] => false
  | _ => forallb tag_line lines && tag_free (join [nl] lines)
  end.

(** A run of text for one line: quiet characters and no [<]. *)
Definition plain (x : str) : bool :=
  forallb (fun c => quiet_chr c && negb (ceq c "<")) x.

(** ** The chunks of the final text *)

(** What the paragraph pass and the cleanup pass together make of one
    chunk of a text without paragraph tags: a blank chunk and a chunk that
    begins with [<] are kept; any other chunk is stripped and put behind a
    paragraph open tag, and the close tag follows unless the chunk ends
    with a block-level close tag. *)
Definition final_chunk (chunk : str) : str :=
  match strip chunk with
  | [] => chunk
  | c :: _ =>
      if ceq c "<" then chunk
      else if close_tag_end (strip chunk) then p_open ++ strip chunk
           else p_open ++ strip chunk ++ p_close
  end.

(** ** The size line *)

(** The size is below 2^53: the quotient [size / 1024] is computed
    exactly. *)
Definition exact_size (n : nat) : Prop :=
  n / 1024 / 1024 / 1024 / 1024 / 1024 < 8.

(** An environment in which everything works; the document has [size]
    bytes. *)
Definition working_env (md pdf : str) (size : nat) : env :=
  Env (Returns md) (fun _ _ => Returns tt) (fun _ => Returns pdf) (Returns size).

(** An environment in which the page cannot be written. *)
Definition read_only_env (md : str) : env :=
  Env (Returns md)
      (fun _ _ => Raises (Exn "PermissionError" (L "Permission denied")))
      (fun _ => Returns []) (Returns 0).

(** ** Text without markdown syntax *)

(** Markdown syntax, as the converter knows it.  The characters with
    which code, emphasis and tables are written: the backtick, the
    asterisk and the pipe. *)
Definition markdown_chr (c : ascii) : bool := existsb (ceq c) (L "`*|").

(** White space, or nothing, comes next. *)
Definition gap_at (s : str) : bool :=
  match s with
  | [] => true
  | c :: _ => is_space c
  end.

(** An item marker stands at the head of [s], with white space or nothing
    behind it: a hyphen or an asterisk; a number and a full stop. *)
Definition bullet_at (s : str) : bool :=
  match s with
  | [] => false
  | c :: s' => bullet c && gap_at s'
  end.

Fixpoint skip_digits (s : str) : str :=
  match s with
  | [] => []
  | c :: s' => if is_digit c then skip_digits s' else s
  end.

Definition number_at (s : str) : bool :=
  match s with
  | [] => false
  | c :: s' =>
      is_digit c && match skip_digits s' with
                    | [] => false
                    | d :: s'' => ceq d "." && gap_at s''
                    end
  end.

(** A line that is markdown by the way it begins, or as a whole: a
    heading of one of the three levels, a rule, an item of a list. *)
Definition markdown_line (l : str) : bool :=
  starts_with (L "# ") l || starts_with (L "## ") l || starts_with (L "### ") l
  || is_rule l || bullet_at (lstrip l) || number_at (lstrip l).

(** The text holds no markdown syntax: none of the three characters, no
    opening of an image, no markdown line. *)
Definition no_markdown (text : str) : bool :=
  forallb (fun c => negb (markdown_chr c)) text
  && negb (contains (L "![") text)
  && forallb (fun l => negb (markdown_line l)) (split_chr nl text).

(** The chunk is one the paragraph pass wraps, and it ends with a
    block-level close tag. *)
Definition loses_close (chunk : str) : bool :=
  match strip chunk with
  | [] => false
  | c :: _ => negb (ceq c "<") && close_tag_end (strip chunk)
  end.

(** The text holds no HTML the converter reacts to: no paragraph tag, no
    close tag of a level-1 heading before a blank line, and no wrapped
    chunk that ends with a block-level close tag. *)
Definition inert_html (text : str) : bool :=
  tag_free text
  && negb (contains (L "</h1>" ++ [nl; nl]) text)
  && forallb (fun chunk => negb (loses_close chunk)) (split sep text).

(** The first character of the chunk that is not white space is a
    less-than sign. *)
Definition begins_lt (chunk : str) : bool := starts_with (L "<") (strip chunk).

(** A chunk that begins with a less-than sign as it is, any other chunk
    as [paragraph] has it. *)
Definition paragraph_unless_lt (chunk : str) : str :=
  if begins_lt chunk then chunk else paragraph chunk.

Definition paragraphs_unless_lt (text : str) : str :=
  join sep (map paragraph_unless_lt (split sep text)).

(** Texts without markdown syntax on which a pass other than the
    paragraph pass does something. *)
Definition close_then_blank : str := L "</h1>" ++ [nl; nl] ++ L "x".

Definition close_at_end : str := L "see </ul>".

Definition plain_chunks : str :=
  L "3 apples - or 4, if a < b!" ++ [nl] ++ L "no. 1" ++ [nl; nl]
  ++ L "  Second chunk.  " ++ [nl; nl] ++ L "<3 to all".

(** Every pass before the paragraph pass returns the text as it is. *)
Definition passes_idle (text : str) : Prop :=
  title_pass text = text /\ meta_pass text = text /\ h2_pass text = text
  /\ h3_pass text = text /\ hr_pass text = text /\ code_pass text = Returns text
  /\ inline_pass text = text /\ bold_pass text = text /\ italic_pass text = text
  /\ image_pass text = text /\ table_pass text = text /\ ul_pass text = text
  /\ ol_pass text = text.

(** * Proofs *)

Unset Implicit Arguments.

(** ** The matcher *)

Section MatcherFacts.

Variable A : Type.
Implicit Types (k : mstate -> option A) (s : mstate).

Lemma star_loop_S g body f k s :
  star_loop g body (S f) k s =
  let more :=
    body (fun s' => if length (rest s') <? length (rest s)
                    then star_loop g body f k s' else None) s in
  if g then orelse more (k s) else orelse (k s) more.
Proof. reflexivity. Qed.

Lemma m_Star_fuel ml g r k s :
  m ml (Star g r) k s = star_loop g (m ml r) (S (length (rest s))) k s.
Proof. reflexivity. Qed.

Lemma star_loop_ext g body fuel k1 k2 s :
  ext_body body -> (forall t, k1 t = k2 t) ->
  star_loop g body fuel k1 s = star_loop g body fuel k2 s.
Proof.
  intros Hb Hk. revert s.
  induction fuel as [|f IH]; intros s; [reflexivity|].
  rewrite !star_loop_S. cbv zeta.
  rewrite (Hk s).
  erewrite (Hb _ _ s); [reflexivity|].
  intros t. cbv beta. destruct (_ <? _); auto.
Qed.

Lemma m_ext ml r : ext_body (m (A:=A) ml r).
Proof.
  induction r; intros k1 k2 s Hk.
  - apply Hk.
  - simpl. destruct (rest s); [reflexivity|]. destruct (ceq c a); auto.
  - simpl. destruct (rest s); [reflexivity|]. destruct (p a); auto.
  - simpl. destruct (at_bol ml s); auto.
  - simpl. destruct (at_eol ml s); auto.
  - simpl. apply IHr1. intros t. apply IHr2. exact Hk.
  - simpl. rewrite (IHr1 k1 k2 s Hk), (IHr2 k1 k2 s Hk). reflexivity.
  - rewrite !m_Star_fuel. apply star_loop_ext; assumption.
  - simpl. apply IHr. intros t. apply Hk.
Qed.

(** Any fuel above the length of the text ahead gives the same result:
    the loop never runs out of it. *)
Lemma star_loop_fuel g body k :
  ext_body body ->
  forall f1 f2 s,
    length (rest s) < f1 -> length (rest s) < f2 ->
    star_loop g body f1 k s = star_loop g body f2 k s.
Proof.
  intros Hb f1.
  induction f1 as [|f1 IH]; intros f2 s H1 H2; [lia|].
  destruct f2 as [|f2]; [lia|].
  rewrite !star_loop_S. cbv zeta.
  erewrite (Hb _ _ s); [reflexivity|].
  intros t. cbv beta.
  destruct (length (rest t) <? length (rest s)) eqn:E; [|reflexivity].
  apply Nat.ltb_lt in E. apply IH; lia.
Qed.

(** The equation of repetition: one more iteration that consumes
    something, or stop; which one is tried first depends on greed. *)
Lemma m_star ml g r k s :
  m ml (Star g r) k s =
  let more :=
    m ml r (fun s' => if length (rest s') <? length (rest s)
                      then m ml (Star g r) k s' else None) s in
  if g then orelse more (k s) else orelse (k s) more.
Proof.
  rewrite m_Star_fuel, star_loop_S. cbv zeta.
  erewrite (m_ext ml r _ _ s); [reflexivity|].
  intros t. cbv beta.
  destruct (length (rest t) <? length (rest s)) eqn:E; [|reflexivity].
  apply Nat.ltb_lt in E. rewrite m_Star_fuel.
  apply star_loop_fuel; [apply m_ext | lia | lia].
Qed.

End MatcherFacts.

(** ** The matcher explores the paths of the pattern *)

Section Paths.

Variable A : Type.
Implicit Types (k : mstate -> option A) (s : mstate).

Lemma orelse_some (x y : option A) a :
  orelse x y = Some a -> x = Some a \/ (x = None /\ y = Some a).
Proof. destruct x; simpl; intros H; auto. Qed.

Lemma orelse_none (x y : option A) :
  orelse x y = None <-> x = None /\ y = None.
Proof.
  destruct x; simpl; split; intros H.
  - discriminate.
  - destruct H; discriminate.
  - auto.
  - tauto.
Qed.

Lemma if_orelse_some (g : bool) (x y : option A) a :
  (if g then orelse x y else orelse y x) = Some a -> x = Some a \/ y = Some a.
Proof. destruct g; intros H; apply orelse_some in H; tauto. Qed.

Lemma if_orelse_none (g : bool) (x y : option A) :
  (if g then orelse x y else orelse y x) = None <-> x = None /\ y = None.
Proof. destruct g; rewrite orelse_none; tauto. Qed.

(** Soundness: a result comes from the continuation at the end of a
    path. *)
Lemma m_sound ml r :
  forall k s a, m ml r k s = Some a ->
                exists s', path ml r s s' /\ k s' = Some a.
Proof.
  induction r; intros k s a H.
  - exists s. split; [constructor | exact H].
  - simpl in H. destruct s as [p [|c' t] cs]; simpl in H; [discriminate|].
    destruct (ceq c c') eqn:E; [|discriminate].
    apply Ascii.eqb_eq in E. subst c'.
    eexists. split; [constructor | exact H].
  - simpl in H. destruct s as [q [|c' t] cs]; simpl in H; [discriminate|].
    destruct (p c') eqn:E; [|discriminate].
    eexists. split; [constructor; exact E | exact H].
  - simpl in H. destruct (at_bol ml s) eqn:E; [|discriminate].
    exists s. split; [constructor; exact E | exact H].
  - simpl in H. destruct (at_eol ml s) eqn:E; [|discriminate].
    exists s. split; [constructor; exact E | exact H].
  - simpl in H. apply IHr1 in H. destruct H as (s1 & P1 & H).
    apply IHr2 in H. destruct H as (s2 & P2 & H).
    exists s2. split; [econstructor; eassumption | exact H].
  - simpl in H. apply orelse_some in H. destruct H as [H | [_ H]].
    + apply IHr1 in H. destruct H as (s' & P & H).
      exists s'. split; [apply P_alt_l; exact P | exact H].
    + apply IHr2 in H. destruct H as (s' & P & H).
      exists s'. split; [apply P_alt_r; exact P | exact H].
  - remember (length (rest s)) as n eqn:En.
    revert s En k a H.
    induction n as [n IHn] using lt_wf_ind. intros s En k a H.
    rewrite m_star in H. cbv zeta in H.
    apply if_orelse_some in H. destruct H as [H | H].
    + apply IHr in H. destruct H as (s1 & P1 & H).
      destruct (length (rest s1) <? length (rest s)) eqn:E; [|discriminate].
      apply Nat.ltb_lt in E.
      apply (IHn (length (rest s1))) in H; [|lia|reflexivity].
      destruct H as (s2 & P2 & H).
      exists s2. split; [eapply P_star_more; eassumption | exact H].
    + exists s. split; [constructor | exact H].
  - simpl in H. apply IHr in H. destruct H as (s' & P & H).
    eexists. split; [apply P_grp; exact P | exact H].
Qed.

(** Completeness: when the matcher fails, the continuation fails at the
    end of every path. *)
Lemma m_complete ml r :
  forall s s', path ml r s s' ->
               forall k, m ml r k s = None -> k s' = None.
Proof.
  intros s s' P.
  induction P; intros k Hk.
  - exact Hk.
  - simpl in Hk. unfold ceq in Hk. rewrite Ascii.eqb_refl in Hk. exact Hk.
  - simpl in Hk. rewrite H in Hk. exact Hk.
  - simpl in Hk. rewrite H in Hk. exact Hk.
  - simpl in Hk. rewrite H in Hk. exact Hk.
  - simpl in Hk. apply IHP2. apply IHP1. exact Hk.
  - simpl in Hk. apply orelse_none in Hk. apply IHP. tauto.
  - simpl in Hk. apply orelse_none in Hk. apply IHP. tauto.
  - rewrite m_star in Hk. cbv zeta in Hk. apply if_orelse_none in Hk. tauto.
  - rewrite m_star in Hk. cbv zeta in Hk. apply if_orelse_none in Hk.
    destruct Hk as [Hk _]. apply IHP1 in Hk.
    apply Nat.ltb_lt in H. rewrite H in Hk.
    apply IHP2. exact Hk.
  - simpl in Hk. apply IHP in Hk. exact Hk.
Qed.

End Paths.

(** ** What a path does to the state *)

Lemma last_chr_nil p : last_chr [] p = p.
Proof. reflexivity. Qed.

Lemma last_chr_app u v p : last_chr (u ++ v) p = last_chr v (last_chr u p).
Proof.
  unfold last_chr. rewrite rev_app_distr.
  destruct (rev v); simpl; reflexivity.
Qed.

Lemma last_chr_cons c u p : last_chr (c :: u) p = last_chr u (Some c).
Proof. change (c :: u) with ([c] ++ u). apply last_chr_app. Qed.

Lemma firstn_len_app (u v : str) :
  firstn (length (u ++ v) - length v) (u ++ v) = u.
Proof.
  rewrite length_app.
  replace (length u + length v - length v) with (length u) by lia.
  rewrite firstn_app, Nat.sub_diag, firstn_all. simpl. apply app_nil_r.
Qed.

(** A path reads a prefix of the text ahead. *)
Lemma path_reads ml r s s' :
  path ml r s s' ->
  exists u, rest s = u ++ rest s' /\ prev s' = last_chr u (prev s).
Proof.
  induction 1; simpl.
  - exists []. auto.
  - exists [c]. auto.
  - exists [c]. auto.
  - exists []. auto.
  - exists []. auto.
  - destruct IHpath1 as (u1 & E1 & L1). destruct IHpath2 as (u2 & E2 & L2).
    exists (u1 ++ u2). rewrite E1, E2, L2, L1, last_chr_app, app_assoc. auto.
  - exact IHpath.
  - exact IHpath.
  - exists []. auto.
  - destruct IHpath1 as (u1 & E1 & L1). destruct IHpath2 as (u2 & E2 & L2).
    exists (u1 ++ u2). rewrite E1, E2, L2, L1, last_chr_app, app_assoc. auto.
  - exact IHpath.
Qed.

Lemma path_min_len ml r s s' :
  path ml r s s' -> length (rest s') + min_len r <= length (rest s).
Proof.
  induction 1; simpl; try lia.
Qed.

(** Captured groups stay captured. *)
Lemma path_caps ml r s s' n :
  path ml r s s' -> lookup n (caps s) <> None -> lookup n (caps s') <> None.
Proof.
  induction 1; simpl; intros Hn; auto.
  destruct (n0 =? n); [discriminate | auto].
Qed.

Lemma path_grp_caps ml n r s s' :
  path ml (Grp n r) s s' -> lookup n (caps s') <> None.
Proof.
  inversion 1; subst; simpl. rewrite Nat.eqb_refl. discriminate.
Qed.

(** ** One match attempt *)

Lemma match_at_inv ml r adv p s mt :
  match_at ml r adv p s = Some mt ->
  exists u s' cs,
    s = u ++ s' /\ mt = RMatch u cs
    /\ path ml r (MState p s []) (MState (last_chr u p) s' cs)
    /\ (adv = true -> u <> []).
Proof.
  unfold match_at. intros H.
  apply m_sound in H. destruct H as ([p' s' cs] & P & H).
  destruct (path_reads _ _ _ _ P) as (u & E & Lp). simpl in *. subst s p'.
  rewrite firstn_len_app in H.
  exists u, s', cs.
  destruct (adv && (length s' =? length (u ++ s'))) eqn:Ea; [discriminate|].
  inversion H; subst. repeat split; auto.
  intros -> ->. simpl in Ea. rewrite Nat.eqb_refl in Ea. discriminate.
Qed.

Lemma match_at_none ml r p s :
  match_at ml r false p s = None <->
  (forall s', ~ path ml r (MState p s []) s').
Proof.
  unfold match_at. split.
  - intros H s' P. eapply m_complete in H; [|exact P]. simpl in H. discriminate.
  - intros H.
    destruct (m ml r _ (MState p s [])) eqn:E; [|reflexivity].
    apply m_sound in E. destruct E as (s' & P & _). exfalso. eapply H; eauto.
Qed.

Lemma match_at_nonempty ml r adv p s mt :
  0 < min_len r -> match_at ml r adv p s = Some mt -> m_text mt <> [].
Proof.
  intros Hr H. apply match_at_inv in H.
  destruct H as (u & s' & cs & -> & -> & P & _). simpl.
  apply path_min_len in P. simpl in P. rewrite length_app in P.
  destruct u; [exfalso; simpl in P; lia | discriminate].
Qed.

(** ** The scan *)

Lemma scan_0 ml r p s :
  scan ml r p 0 s =
  match match_at ml r false p s with
  | None =>
      match s with
      | [] => []
      | c :: s' => Keep c :: scan ml r (Some c) 0 s'
      end
  | Some mt =>
      Hit mt ::
      match length (m_text mt) with
      | S n => match s with
               | [] => []
               | c :: s' => scan ml r (Some c) n s'
               end
      | 0 =>
          match match_at ml r true p s with
          | Some mt' =>
              Hit mt' ::
              match s with
              | [] => []
              | c :: s' => scan ml r (Some c) (length (m_text mt') - 1) s'
              end
          | None =>
              match s with
              | [] => []
              | c :: s' => Keep c :: scan ml r (Some c) 0 s'
              end
          end
      end
  end.
Proof. destruct s; reflexivity. Qed.

Lemma scan_S ml r p n c s :
  scan ml r p (S n) (c :: s) = scan ml r (Some c) n s.
Proof. reflexivity. Qed.

Lemma scan_skip ml r u :
  forall p s, scan ml r p (length u) (u ++ s) = scan ml r (last_chr u p) 0 s.
Proof.
  induction u as [|c u IH]; intros p s.
  - reflexivity.
  - simpl length. simpl app. rewrite scan_S, IH, last_chr_cons. reflexivity.
Qed.

Lemma scan_keep ml r p c s :
  match_at ml r false p (c :: s) = None ->
  scan ml r p 0 (c :: s) = Keep c :: scan ml r (Some c) 0 s.
Proof. intros H. rewrite scan_0, H. reflexivity. Qed.

Lemma match_at_nil ml r adv p :
  0 < min_len r -> match_at ml r adv p [] = None.
Proof.
  intros Hr. destruct (match_at ml r adv p []) as [mt|] eqn:E; [|reflexivity].
  pose proof (match_at_nonempty _ _ _ _ _ _ Hr E) as Hne.
  apply match_at_inv in E. destruct E as (u & s' & cs & E & -> & _).
  destruct u; [contradiction | discriminate].
Qed.

Lemma scan_nil ml r p : 0 < min_len r -> scan ml r p 0 [] = [].
Proof. intros Hr. rewrite scan_0, match_at_nil by exact Hr. reflexivity. Qed.

(** After a match the scan goes on behind it. *)
Lemma scan_hit ml r p s mt :
  0 < min_len r ->
  match_at ml r false p s = Some mt ->
  exists s', s = m_text mt ++ s'
             /\ scan ml r p 0 s
                = Hit mt :: scan ml r (last_chr (m_text mt) p) 0 s'.
Proof.
  intros Hr H.
  pose proof (match_at_nonempty _ _ _ _ _ _ Hr H) as Hne.
  rewrite scan_0, H.
  apply match_at_inv in H. destruct H as (u & s' & cs & -> & -> & _).
  simpl in *. exists s'. split; [reflexivity|].
  destruct u as [|c u]; [contradiction|].
  simpl. rewrite scan_skip, last_chr_cons. reflexivity.
Qed.

(** The pieces of the scan, put together, are the text. *)
Lemma scan_text ml r :
  forall s skip p, flat_map piece_text (scan ml r p skip s) = skipn skip s.
Proof.
  induction s as [|c s IH]; intros skip p.
  - destruct skip; [|reflexivity].
    rewrite scan_0.
    destruct (match_at ml r false p []) as [mt|] eqn:E; [|reflexivity].
    apply match_at_inv in E. destruct E as (u & s' & cs & E & -> & _).
    destruct u; [|discriminate]. simpl.
    destruct (match_at ml r true p []) as [mt'|] eqn:E'; [|reflexivity].
    apply match_at_inv in E'. destruct E' as (u' & s'' & cs' & E' & -> & _ & N).
    destruct u'; [exfalso; apply N; reflexivity | discriminate].
  - destruct skip as [|n]; [|rewrite scan_S; apply IH].
    rewrite scan_0.
    destruct (match_at ml r false p (c :: s)) as [mt|] eqn:E.
    + apply match_at_inv in E. destruct E as (u & s' & cs & E & -> & _).
      destruct u as [|c' u]; simpl in E |- *.
      * destruct (match_at ml r true p (c :: s)) as [mt'|] eqn:E'.
        -- apply match_at_inv in E'.
           destruct E' as (u' & s'' & cs' & E' & -> & _ & N).
           destruct u' as [|d u']; [exfalso; apply N; reflexivity|].
           simpl in E' |- *. inversion E'; subst.
           rewrite Nat.sub_0_r, IH, skipn_app, skipn_all, Nat.sub_diag.
           reflexivity.
        -- simpl. rewrite IH. reflexivity.
      * inversion E; subst.
        rewrite IH, skipn_app, skipn_all, Nat.sub_diag. reflexivity.
    + simpl. rewrite IH. reflexivity.
Qed.

(** Where no match starts, the text is kept as it is. *)
Lemma scan_no_match ml r :
  forall s p,
    (forall u v, s = u ++ v -> match_at ml r false (last_chr u p) v = None) ->
    scan ml r p 0 s = map Keep s.
Proof.
  induction s as [|c s IH]; intros p H.
  - pose proof (H [] [] eq_refl) as H0. change (last_chr [] p) with p in H0.
    rewrite scan_0, H0. reflexivity.
  - pose proof (H [] (c :: s) eq_refl) as H0.
    change (last_chr [] p) with p in H0.
    rewrite scan_keep by exact H0.
    simpl. f_equal. apply IH. intros u v E.
    specialize (H (c :: u) v). rewrite last_chr_cons in H.
    apply H. simpl. f_equal. exact E.
Qed.

Lemma flat_map_emit_keep f (s : str) : flat_map (emit f) (map Keep s) = s.
Proof. induction s; simpl; congruence. Qed.

Lemma sub_no_match ml r f s :
  (forall u v, s = u ++ v -> match_at ml r false (last_chr u None) v = None) ->
  sub ml r f s = s.
Proof.
  intros H. unfold sub. rewrite scan_no_match by exact H.
  apply flat_map_emit_keep.
Qed.

(** ** Repetition of a class over a run of its characters *)

Lemma ltb_succ n : (n <? S n) = true.
Proof. apply Nat.ltb_lt. lia. Qed.

(** The equations of the matcher, for rewriting. *)
Section Equations.

Variable A : Type.
Implicit Types (k : mstate -> option A).

Lemma m_eps ml k s : m ml Eps k s = k s.
Proof. reflexivity. Qed.

Lemma m_chr ml c k p d t cs :
  m ml (Chr c) k (MState p (d :: t) cs)
  = if ceq c d then k (MState (Some d) t cs) else None.
Proof. reflexivity. Qed.

Lemma m_chr_nil ml c k p cs : m ml (Chr c) k (MState p [] cs) = None.
Proof. reflexivity. Qed.

Lemma m_cls ml q k p d t cs :
  m ml (Cls q) k (MState p (d :: t) cs)
  = if q d then k (MState (Some d) t cs) else None.
Proof. reflexivity. Qed.

Lemma m_cls_nil ml q k p cs : m ml (Cls q) k (MState p [] cs) = None.
Proof. reflexivity. Qed.

Lemma m_bol ml k s : m ml Bol k s = if at_bol ml s then k s else None.
Proof. reflexivity. Qed.

Lemma m_eol ml k s : m ml Eol k s = if at_eol ml s then k s else None.
Proof. reflexivity. Qed.

Lemma m_seq ml r1 r2 k s : m ml (Seq r1 r2) k s = m ml r1 (m ml r2 k) s.
Proof. reflexivity. Qed.

Lemma m_alt ml r1 r2 k s :
  m ml (Alt r1 r2) k s = orelse (m ml r1 k s) (m ml r2 k s).
Proof. reflexivity. Qed.

Lemma m_grp ml n r k s :
  m ml (Grp n r) k s
  = m ml r
      (fun s' =>
         k (MState (prev s') (rest s')
              ((n, firstn (length (rest s) - length (rest s')) (rest s))
                 :: caps s')))
      s.
Proof. reflexivity. Qed.

End Equations.

Section Runs.

Variable A : Type.
Implicit Types (k : mstate -> option A).

Lemma m_cls_stop ml q k p s cs :
  stops q s -> m ml (Cls q) k (MState p s cs) = None.
Proof.
  destruct s as [|c t]; simpl; intros H; [reflexivity|].
  rewrite H. reflexivity.
Qed.

Lemma m_star_greedy_cls ml q k :
  forall w p s cs,
    Forall (fun c => q c = true) w -> stops q s ->
    m ml (Star true (Cls q)) k (MState p (w ++ s) cs)
    = greedy_try k p cs w s.
Proof.
  induction w as [|c w IH]; intros p s cs Hw Hs; rewrite m_star; cbv zeta.
  - rewrite m_cls_stop by exact Hs. reflexivity.
  - inversion Hw as [|? ? Hc Hw']; subst.
    simpl app. rewrite m_cls, Hc.
    cbn [rest length]. rewrite ltb_succ.
    rewrite IH by assumption. reflexivity.
Qed.

Lemma m_star_lazy_cls ml q k :
  forall w p s cs,
    Forall (fun c => q c = true) w -> stops q s ->
    m ml (Star false (Cls q)) k (MState p (w ++ s) cs)
    = lazy_try k p cs w s.
Proof.
  induction w as [|c w IH]; intros p s cs Hw Hs; rewrite m_star; cbv zeta.
  - rewrite m_cls_stop by exact Hs.
    simpl. destruct (k _); reflexivity.
  - inversion Hw as [|? ? Hc Hw']; subst.
    simpl app. rewrite m_cls, Hc.
    cbn [rest length]. rewrite ltb_succ.
    rewrite IH by assumption. reflexivity.
Qed.

(** The greedy loop takes the whole run when the continuation accepts
    behind it. *)
Lemma greedy_try_all k a :
  forall w p s cs,
    k (MState (last_chr w p) s cs) = Some a -> greedy_try k p cs w s = Some a.
Proof.
  induction w as [|c w IH]; intros p s cs H.
  - exact H.
  - simpl. rewrite last_chr_cons in H. rewrite (IH _ _ _ H). reflexivity.
Qed.

(** It gives up the last character of the run when the continuation
    refuses behind the whole run and accepts one character earlier. *)
Lemma greedy_try_back k a :
  forall w c p s cs,
    k (MState (last_chr (w ++ [c]) p) s cs) = None ->
    k (MState (last_chr w p) (c :: s) cs) = Some a ->
    greedy_try k p cs (w ++ [c]) s = Some a.
Proof.
  induction w as [|d w IH]; intros c p s cs H1 H2.
  - simpl app in *. change (last_chr [c] p) with (Some c) in H1.
    change (last_chr [] p) with p in H2.
    simpl. rewrite H1. exact H2.
  - simpl app in *. rewrite !last_chr_cons in *.
    simpl. rewrite (IH _ _ _ _ H1 H2). reflexivity.
Qed.

(** The lazy loop stops at the first place where the continuation
    accepts. *)
Lemma lazy_try_first k a :
  forall w p s cs,
    (forall u v, w = u ++ v -> v <> [] ->
                 k (MState (last_chr u p) (v ++ s) cs) = None) ->
    k (MState (last_chr w p) s cs) = Some a ->
    lazy_try k p cs w s = Some a.
Proof.
  induction w as [|c w IH]; intros p s cs Hf H.
  - exact H.
  - simpl.
    pose proof (Hf [] (c :: w) eq_refl) as H0.
    change (last_chr [] p) with p in H0. simpl in H0.
    rewrite H0 by discriminate. simpl.
    apply IH.
    + intros u v E Hv. specialize (Hf (c :: u) v).
      rewrite last_chr_cons in Hf. apply Hf; [simpl; congruence | exact Hv].
    + rewrite last_chr_cons in H. exact H.
Qed.

End Runs.

(** ** Sequences and literal runs *)

Section Literals.

Variable A : Type.
Implicit Types (k : mstate -> option A).

Lemma m_seq_cons ml r rs k s :
  m ml (seq (r :: rs)) k s = m ml r (m ml (seq rs) k) s.
Proof. destruct rs; reflexivity. Qed.

Lemma m_seq_one ml r k s : m ml (seq [r]) k s = m ml r k s.
Proof. reflexivity. Qed.

Lemma m_chars ml k :
  forall u p s cs,
    m ml (seq (map Chr u)) k (MState p (u ++ s) cs)
    = k (MState (last_chr u p) s cs).
Proof.
  induction u as [|c u IH]; intros p s cs.
  - reflexivity.
  - change (map Chr (c :: u)) with (Chr c :: map Chr u).
    rewrite m_seq_cons. simpl app. rewrite m_chr.
    unfold ceq. rewrite Ascii.eqb_refl.
    rewrite last_chr_cons.
    destruct u as [|d u]; [reflexivity|]. apply IH.
Qed.

Lemma m_lit ml t k p s cs :
  m ml (lit t) k (MState p (L t ++ s) cs) = k (MState (last_chr (L t) p) s cs).
Proof. apply m_chars. Qed.

Lemma m_chars_none ml k :
  forall u p s cs,
    starts_with u s = false ->
    m ml (seq (map Chr u)) k (MState p s cs) = None.
Proof.
  induction u as [|c u IH]; intros p s cs H.
  - discriminate.
  - change (map Chr (c :: u)) with (Chr c :: map Chr u).
    rewrite m_seq_cons. destruct s as [|d s]; [reflexivity|].
    rewrite m_chr. simpl in H.
    destruct (ceq c d); [|reflexivity]. simpl in H.
    destruct u as [|e u]; [discriminate|]. apply IH. exact H.
Qed.

Lemma m_lit_none ml t k p s cs :
  starts_with (L t) s = false -> m ml (lit t) k (MState p s cs) = None.
Proof. apply m_chars_none. Qed.

End Literals.

Lemma starts_with_app u s : starts_with u (u ++ s) = true.
Proof.
  induction u as [|c u IH]; [reflexivity|].
  simpl. unfold ceq. rewrite Ascii.eqb_refl. exact IH.
Qed.

Lemma starts_with_inv u :
  forall s, starts_with u s = true -> exists t, s = u ++ t.
Proof.
  induction u as [|c u IH]; intros s H.
  - exists s. reflexivity.
  - destruct s as [|d s]; [discriminate|]. simpl in H.
    apply andb_true_iff in H. destruct H as [E H].
    apply Ascii.eqb_eq in E. subst d.
    destruct (IH _ H) as (t & ->). exists t. reflexivity.
Qed.

Lemma contains_app p a b : contains p (a ++ p ++ b) = true.
Proof.
  induction a as [|c a IH].
  - simpl app. destruct (p ++ b) eqn:E; simpl;
      rewrite <- ?E, starts_with_app; reflexivity.
  - simpl. rewrite IH. apply orb_true_r.
Qed.

Lemma contains_inv p :
  forall s, contains p s = true -> exists a b, s = a ++ p ++ b.
Proof.
  induction s as [|c s IH]; intros H; simpl in H.
  - rewrite orb_false_r in H. apply starts_with_inv in H.
    destruct H as (t & ->). exists [], t. reflexivity.
  - apply orb_true_iff in H. destruct H as [H | H].
    + apply starts_with_inv in H. destruct H as (t & ->).
      exists [], t. reflexivity.
    + destruct (IH H) as (a & b & ->). exists (c :: a), b. reflexivity.
Qed.

(** ** Patterns without [^] do not look behind *)

Lemma at_eol_rest ml s s' : rest s = rest s' -> at_eol ml s = at_eol ml s'.
Proof. unfold at_eol. intros ->. reflexivity. Qed.

Lemma m_blind (A : Type) ml r :
  no_bol r = true ->
  forall (k : mstate -> option A), blind k -> blind (m ml r k).
Proof.
  induction r; simpl no_bol; intros Hr k Hk s s' Er Ec.
  - simpl. apply Hk; assumption.
  - destruct s as [p t cs], s' as [p' t' cs']. simpl in Er, Ec. subst t' cs'.
    destruct t; [reflexivity|]. rewrite !m_chr. reflexivity.
  - destruct s as [q t cs], s' as [q' t' cs']. simpl in Er, Ec. subst t' cs'.
    destruct t; [reflexivity|]. rewrite !m_cls. reflexivity.
  - discriminate.
  - rewrite !m_eol, (at_eol_rest ml s s' Er).
    destruct (at_eol ml s'); [apply Hk; assumption | reflexivity].
  - apply andb_true_iff in Hr. destruct Hr as [H1 H2].
    rewrite !m_seq. apply IHr1; auto.
  - apply andb_true_iff in Hr. destruct Hr as [H1 H2].
    rewrite !m_alt. f_equal; [apply IHr1 | apply IHr2]; auto.
  - remember (length (rest s)) as n eqn:En.
    revert s s' En Er Ec.
    induction n as [n IHn] using lt_wf_ind. intros s s' En Er Ec.
    rewrite !m_star. cbv zeta.
    assert (E : m ml r
                  (fun s0 => if length (rest s0) <? length (rest s)
                             then m ml (Star greedy r) k s0 else None) s
                = m ml r
                    (fun s0 => if length (rest s0) <? length (rest s')
                               then m ml (Star greedy r) k s0 else None) s').
    { rewrite <- Er. apply IHr; auto. intros t t' Et Ect. rewrite <- Et.
      destruct (length (rest t) <? length (rest s)) eqn:El; [|reflexivity].
      apply Nat.ltb_lt in El.
      apply (IHn (length (rest t))); auto. lia. }
    rewrite E, (Hk s s' Er Ec). reflexivity.
  - rewrite !m_grp. rewrite <- Er. apply IHr; auto.
    intros t t' Et Ect. apply Hk; simpl; congruence.
Qed.

Lemma match_at_blind ml r adv p p' s :
  no_bol r = true -> match_at ml r adv p s = match_at ml r adv p' s.
Proof.
  intros Hr. unfold match_at. apply m_blind; auto.
  intros t t' Et Ec. rewrite Et, Ec. reflexivity.
Qed.

Lemma scan_blind ml r :
  no_bol r = true ->
  forall s skip p p', scan ml r p skip s = scan ml r p' skip s.
Proof.
  intros Hr. induction s as [|c s IH]; intros skip p p'.
  - destruct skip; [|reflexivity].
    rewrite !scan_0, !(match_at_blind ml r _ p p') by exact Hr. reflexivity.
  - destruct skip; [|reflexivity].
    rewrite !scan_0, !(match_at_blind ml r _ p p') by exact Hr. reflexivity.
Qed.

(** A match found by evaluating the matcher with any accepting
    continuation is the match of the attempt. *)
Lemma match_at_intro ml r p p' u s cs :
  (forall (k : mstate -> option rmatch) a,
      k (MState p' s cs) = Some a ->
      m ml r k (MState p (u ++ s) []) = Some a) ->
  match_at ml r false p (u ++ s) = Some (RMatch u cs).
Proof.
  intros H. unfold match_at. apply H.
  cbn [rest caps andb]. rewrite firstn_len_app. reflexivity.
Qed.

Lemma scan_hit_eq ml r p u s mt :
  0 < min_len r ->
  match_at ml r false p (u ++ s) = Some mt -> m_text mt = u ->
  scan ml r p 0 (u ++ s) = Hit mt :: scan ml r (last_chr u p) 0 s.
Proof.
  intros Hr H E.
  destruct (scan_hit _ _ _ _ _ Hr H) as (s' & Es & ->).
  rewrite E in *. apply app_inv_head in Es. subst s'. reflexivity.
Qed.

Lemma sub_hit ml r f u s mt :
  0 < min_len r -> no_bol r = true ->
  match_at ml r false None (u ++ s) = Some mt -> m_text mt = u ->
  sub ml r f (u ++ s) = f mt ++ sub ml r f s.
Proof.
  intros Hr Hb H E. unfold sub.
  rewrite (scan_hit_eq _ _ _ _ _ _ Hr H E).
  rewrite (scan_blind ml r Hb s 0 _ None). reflexivity.
Qed.

Lemma sub_keep ml r f c s :
  no_bol r = true ->
  match_at ml r false None (c :: s) = None ->
  sub ml r f (c :: s) = c :: sub ml r f s.
Proof.
  intros Hb H. unfold sub. rewrite scan_keep by exact H.
  rewrite (scan_blind ml r Hb s 0 _ None). reflexivity.
Qed.

Lemma sub_nil ml r f : 0 < min_len r -> sub ml r f [] = [].
Proof. intros Hr. unfold sub. rewrite scan_nil by exact Hr. reflexivity. Qed.

(** ** Characters a match must read *)

Lemma path_needs ml Q r s s' :
  needs Q r -> path ml r s s' ->
  exists u c v, rest s = u ++ c :: v ++ rest s' /\ Q c.
Proof.
  intros Hn P. revert Hn.
  induction P; simpl; intros Hn; try contradiction.
  - exists [], c, []. auto.
  - exists [], c, []. auto.
  - destruct (path_reads _ _ _ _ P1) as (u1 & E1 & _).
    destruct (path_reads _ _ _ _ P2) as (u2 & E2 & _).
    destruct Hn as [Hn | Hn].
    + destruct (IHP1 Hn) as (u & c & v & E & Hc).
      exists u, c, (v ++ u2). rewrite E, E2, <- !app_assoc. auto.
    + destruct (IHP2 Hn) as (u & c & v & E & Hc).
      exists (u1 ++ u), c, v. rewrite E1, E, <- !app_assoc. auto.
  - apply IHP. tauto.
  - apply IHP. tauto.
  - apply IHP. exact Hn.
Qed.

(** A text without such a character holds no match. *)
Lemma match_at_needs ml Q r p s :
  needs Q r -> Forall (fun c => ~ Q c) s -> match_at ml r false p s = None.
Proof.
  intros Hn Hs. apply match_at_none. intros s' P.
  destruct (path_needs _ _ _ _ _ Hn P) as (u & c & v & E & Hc).
  simpl in E. rewrite E in Hs.
  apply Forall_app in Hs. destruct Hs as [_ Hs].
  inversion Hs; subst. contradiction.
Qed.

Lemma sub_needs ml Q r f s :
  needs Q r -> Forall (fun c => ~ Q c) s -> sub ml r f s = s.
Proof.
  intros Hn Hs. apply sub_no_match. intros u v E.
  apply (match_at_needs ml Q); [exact Hn|].
  rewrite E in Hs. apply Forall_app in Hs. tauto.
Qed.

(** ** C1: bold and italic *)

Lemma none_of_true t c :
  Forall (fun d => c <> d) (L t) -> negb (existsb (ceq c) (L t)) = true.
Proof.
  induction (L t) as [|d l IH]; intros H; [reflexivity|].
  inversion H; subst. simpl.
  unfold ceq at 1. destruct (Ascii.eqb c d) eqn:E.
  - apply Ascii.eqb_eq in E. contradiction.
  - simpl. apply IH. assumption.
Qed.

Lemma no_chr_none_of c (x : str) :
  no_chr c x ->
  Forall (fun d => negb (existsb (ceq d) [c]) = true) x.
Proof.
  intros H. induction H as [|d x Hd _ IH]; constructor; [|exact IH].
  simpl. unfold ceq. destruct (Ascii.eqb d c) eqn:E; [|reflexivity].
  apply Ascii.eqb_eq in E. contradiction.
Qed.

(** The matcher on a bold span: the content is the longest run without
    an asterisk, here all of [x]. *)
Lemma bold_m (k : mstate -> option rmatch) a p c x s :
  no_chr "*" (c :: x) ->
  k (MState (Some "*"%char) s [(1, c :: x)]) = Some a ->
  m false re_bold k (MState p (L "**" ++ (c :: x) ++ L "**" ++ s) []) = Some a.
Proof.
  intros Hx Hk. apply no_chr_none_of in Hx.
  inversion Hx as [|? ? Hc Hx']; subst.
  unfold re_bold.
  rewrite m_seq_cons, m_lit, m_seq_cons, m_grp.
  unfold Plus, none_of. rewrite m_seq, <- app_comm_cons, m_cls.
  change (L "*") with ["*"%char]. rewrite Hc.
  rewrite m_star_greedy_cls; [|exact Hx'|reflexivity].
  apply greedy_try_all.
  cbn [rest prev caps].
  rewrite m_seq_one, m_lit.
  change (c :: x ++ L "**" ++ s) with ((c :: x) ++ L "**" ++ s).
  rewrite firstn_len_app. exact Hk.
Qed.

Lemma bold_match p x s :
  x <> [] -> no_chr "*" x ->
  match_at false re_bold false p (L "**" ++ x ++ L "**" ++ s)
  = Some (RMatch (L "**" ++ x ++ L "**") [(1, x)]).
Proof.
  intros Hne Hx. destruct x as [|c x]; [contradiction|].
  pose proof (match_at_intro false re_bold p (Some "*"%char)
                (L "**" ++ (c :: x) ++ L "**") s [(1, c :: x)]) as H.
  rewrite <- !app_assoc in H. apply H.
  intros k a Hk. apply bold_m; assumption.
Qed.

Lemma re_bold_shape : 0 < min_len re_bold /\ no_bol re_bold = true.
Proof. split; [simpl; lia | reflexivity]. Qed.

Lemma re_italic_needs : needs (fun c => c = "*"%char) re_italic.
Proof. simpl. auto. Qed.

Lemma bold_span x s :
  x <> [] -> no_chr "*" x ->
  bold_pass (L "**" ++ x ++ L "**" ++ s)
  = L "<strong>" ++ x ++ L "</strong>" ++ bold_pass s.
Proof.
  intros Hne Hx. unfold bold_pass, sub_t.
  destruct re_bold_shape as [Hl Hb].
  pose proof (sub_hit false re_bold
                (expand [T "<strong>"; G 1; T "</strong>"])
                (L "**" ++ x ++ L "**") s
                (RMatch (L "**" ++ x ++ L "**") [(1, x)]) Hl Hb) as H.
  rewrite <- !app_assoc in H.
  rewrite (H (bold_match None x s Hne Hx) eq_refl).
  change (expand [T "<strong>"; G 1; T "</strong>"]
            (RMatch (L "**" ++ x ++ L "**") [(1, x)]))
    with (L "<strong>" ++ x ++ L "</strong>" ++ []).
  rewrite app_nil_r, <- !app_assoc. reflexivity.
Qed.

(** C1, the claim as stated, fails: for the input of the claim the
    converter's output holds no strong element around an emphasis
    element. *)
Lemma C1_nested_emphasis_absent :
  ~ (exists out, md_to_html bold_italic_input = Returns out
                 /\ nested_emphasis out).
Proof.
  intros (out & H & a & b & c & d & E).
  assert (Hc : contains (L "<strong>") out = true)
    by (rewrite E; apply contains_app).
  vm_compute in H. injection H as H. rewrite <- H in Hc.
  vm_compute in Hc. discriminate.
Qed.

(** C1, amended: a double-asterisk span whose content is not empty and
    holds no asterisk becomes a strong element, and the italic pass that
    follows leaves it alone; the bold pass finds no such span in
    [**bold *and italic* text**] (the content would hold asterisks), so
    the italic pass pairs up the single asterisks and the output is
    [<p>*<em>bold </em>and italic<em> text</em>*</p>]. *)
Theorem C1_bold_before_italic :
  (forall x, x <> [] -> no_chr "*" x ->
             bold_pass (L "**" ++ x ++ L "**") = L "<strong>" ++ x ++ L "</strong>"
             /\ italic_pass (bold_pass (L "**" ++ x ++ L "**"))
                = L "<strong>" ++ x ++ L "</strong>")
  /\ bold_pass bold_italic_input = bold_italic_input
  /\ md_to_html bold_italic_input
     = Returns (L "<p>*<em>bold </em>and italic<em> text</em>*</p>").
Proof.
  split; [|split; vm_compute; reflexivity].
  intros x Hne Hx.
  assert (E : bold_pass (L "**" ++ x ++ L "**")
              = L "<strong>" ++ x ++ L "</strong>").
  { pose proof (bold_span x [] Hne Hx) as H.
    change (bold_pass []) with (@nil ascii) in H.
    rewrite !app_nil_r in H. exact H. }
  split; [exact E|]. rewrite E.
  unfold italic_pass, sub_t.
  apply (sub_needs false (fun c => c = "*"%char)); [exact re_italic_needs|].
  apply Forall_app. split; [repeat constructor; discriminate|].
  apply Forall_app. split; [|repeat constructor; discriminate].
  unfold no_chr in Hx. exact Hx.
Qed.

Lemma C1_bold_before_italic_witness :
  bold_pass (L "**" ++ L "bold" ++ L "**") = L "<strong>" ++ L "bold" ++ L "</strong>"
  /\ italic_pass (bold_pass (L "**" ++ L "bold" ++ L "**"))
     = L "<strong>" ++ L "bold" ++ L "</strong>".
Proof.
  apply (proj1 C1_bold_before_italic).
  - discriminate.
  - repeat constructor; discriminate.
Defined.

(** ** C7: the converter returns for every text *)

Lemma path_captures ml n r s s' :
  captures n r = true -> path ml r s s' -> lookup n (caps s') <> None.
Proof.
  intros Hc P. revert Hc.
  induction P; simpl; intros Hc; try discriminate.
  - apply orb_true_iff in Hc. destruct Hc as [Hc | Hc].
    + eapply path_caps; [exact P2 | auto].
    + auto.
  - apply andb_true_iff in Hc. apply IHP. tauto.
  - apply andb_true_iff in Hc. apply IHP. tauto.
  - destruct (n0 =? n) eqn:E; [discriminate|]. simpl in Hc. auto.
Qed.

Lemma match_at_captures ml n r adv p s mt :
  captures n r = true -> match_at ml r adv p s = Some mt ->
  lookup n (m_caps mt) <> None.
Proof.
  intros Hc H. apply match_at_inv in H.
  destruct H as (u & s' & cs & _ & -> & P & _).
  apply (path_captures _ _ _ _ _ Hc P).
Qed.

(** Every match of the scan is the result of a match attempt. *)
Lemma scan_hits ml r mt :
  forall s skip p,
    In (Hit mt) (scan ml r p skip s) ->
    exists adv p' s', match_at ml r adv p' s' = Some mt.
Proof.
  induction s as [|c s IH]; intros skip p Hin.
  - destruct skip; [|contradiction].
    rewrite scan_0 in Hin.
    destruct (match_at ml r false p []) as [m0|] eqn:E; [|contradiction].
    destruct Hin as [Hin | Hin]; [inversion Hin; subst; eauto|].
    destruct (length (m_text m0)); [|contradiction].
    destruct (match_at ml r true p []) as [m1|] eqn:E1; [|contradiction].
    destruct Hin as [Hin | Hin]; [inversion Hin; subst; eauto | contradiction].
  - destruct skip as [|n]; [|rewrite scan_S in Hin; eauto].
    rewrite scan_0 in Hin.
    destruct (match_at ml r false p (c :: s)) as [m0|] eqn:E.
    + destruct Hin as [Hin | Hin]; [inversion Hin; subst; eauto|].
      destruct (length (m_text m0)); [|eauto].
      destruct (match_at ml r true p (c :: s)) as [m1|] eqn:E1.
      * destruct Hin as [Hin | Hin]; [inversion Hin; subst; eauto | eauto].
      * destruct Hin as [Hin | Hin]; [discriminate | eauto].
    + destruct Hin as [Hin | Hin]; [discriminate | eauto].
Qed.

(** The callback returns on every match, so the substitution returns. *)
Lemma emit_all_e_returns f ps :
  (forall mt, In (Hit mt) ps -> exists h, f mt = Returns h) ->
  exists out, emit_all_e f ps = Returns out.
Proof.
  induction ps as [|[c|mt] ps IH]; intros H.
  - exists []. reflexivity.
  - destruct IH as (t & Ht); [intros; apply H; right; assumption|].
    exists (c :: t). simpl. rewrite Ht. reflexivity.
  - destruct (H mt) as (h & Hh); [left; reflexivity|].
    destruct IH as (t & Ht); [intros; apply H; right; assumption|].
    exists (h ++ t). simpl. rewrite Hh, Ht. reflexivity.
Qed.

Lemma format_code_block_returns mt :
  lookup 1 (m_caps mt) <> None -> exists h, format_code_block mt = Returns h.
Proof.
  unfold format_code_block, group. intros H.
  destruct (lookup 1 (m_caps mt)); [eauto | contradiction].
Qed.

Lemma code_pass_returns text : exists out, code_pass text = Returns out.
Proof.
  unfold code_pass, sub_e. apply emit_all_e_returns.
  intros mt Hin. apply format_code_block_returns.
  apply scan_hits in Hin. destruct Hin as (adv & p' & s' & H).
  eapply match_at_captures; [|exact H]. reflexivity.
Qed.

Lemma md_to_html_returns text : exists html, md_to_html text = Returns html.
Proof.
  unfold md_to_html.
  destruct (code_pass_returns (hr_pass (h3_pass (h2_pass (meta_pass (title_pass text))))))
    as (out & ->).
  simpl. eauto.
Qed.

(** C7: [md_to_html] returns a string for every input string and raises
    nothing.  The one operation in it that can raise is [.replace] on
    [match.group(1)] in [format_code_block], and group 1 takes part in
    every match of the code-block pattern; the matcher itself is total
    ([star_loop_fuel]: its repetition loop never runs out of fuel). *)
Theorem C7_md_to_html_total :
  forall text : str, exists html : str, md_to_html text = Returns html.
Proof. exact md_to_html_returns. Qed.

(** ** C5: the rendering step fails *)

(** C5, as stated for any exception: the handler is for instances of
    [Exception]; a [KeyboardInterrupt] raised by the rendering step is not
    caught: the page has been written, but no diagnostic is printed, the
    exception goes on and the exit status is not 0. *)
Lemma C5_interrupt_not_caught :
  rendering_raises interrupted_env (html_doc (L "<h1>Hi</h1>")) interrupt
  /\ written (script interrupted_env)
     = [("academic-output.html"%string, html_doc (L "<h1>Hi</h1>"))]
  /\ stdout (script interrupted_env) = [L "HTML generated: academic-output.html"]
  /\ ~ In (diagnostic interrupt) (stdout (script interrupted_env))
  /\ uncaught (script interrupted_env) = Some interrupt
  /\ exit_code (script interrupted_env) <> 0.
Proof.
  split; [left; reflexivity|].
  split; [vm_compute; reflexivity|].
  split; [vm_compute; reflexivity|].
  split; [|split; [vm_compute; reflexivity | vm_compute; discriminate]].
  intros H. vm_compute in H. destruct H as [H | []]. discriminate.
Qed.

(** C5: when the script has read the markdown and written the page, and
    the rendering step then raises an exception [x], the page is the
    first file written and its message the first line printed.  When [x]
    is an instance of [Exception], the last line printed is the
    diagnostic with the message of [x], no exception goes on and the exit
    code is 0.  When it is not, no diagnostic is printed, [x] goes on and
    the exit status is the one of [x]. *)
Theorem C5_rendering_failure_is_reported :
  forall (e : env) (md doc : str) (x : exn),
    read_md e = Returns md ->
    page_of md = Returns doc ->
    write_file e "academic-output.html" doc = Returns tt ->
    rendering_raises e doc x ->
    hd_error (written (script e)) = Some ("academic-output.html"%string, doc)
    /\ hd_error (stdout (script e)) = Some (L "HTML generated: academic-output.html")
    /\ (is_exception x = true ->
        last (stdout (script e)) [] = diagnostic x
        /\ uncaught (script e) = None
        /\ exit_code (script e) = 0)
    /\ (is_exception x = false ->
        ~ In (diagnostic x) (stdout (script e))
        /\ uncaught (script e) = Some x
        /\ exit_code (script e) = exit_status x).
Proof.
  intros e md doc x Hr Hp Hw Hx.
  unfold script. rewrite Hr.
  unfold page_of in Hp.
  destruct (mermaid_pass md 0) as [md' n]. simpl in Hp.
  destruct (md_to_html md') as [html|]; [|discriminate].
  simpl in Hp. injection Hp as <-. rewrite Hw.
  unfold handler, dies, diagnostic.
  destruct Hx as [Hx | [pdf [Hp Hx]]].
  - rewrite Hx. destruct (is_exception x); cbn.
    + repeat split; discriminate.
    + repeat split; try discriminate.
      intros [F | []]. discriminate.
  - rewrite Hp, Hx. destruct (is_exception x); cbn.
    + repeat split; discriminate.
    + repeat split; try discriminate.
      intros [F | [F | []]]; discriminate.
Qed.

(** ** Patterns anchored at the start of a line *)

Lemma at_bol_inside ml c t cs :
  c <> nl -> at_bol ml (MState (Some c) t cs) = false.
Proof.
  intros H. unfold at_bol. simpl. unfold ceq.
  destruct (Ascii.eqb c nl) eqn:E; [|apply andb_false_r].
  apply Ascii.eqb_eq in E. contradiction.
Qed.

Lemma at_bol_line_start p t cs :
  line_start p -> at_bol true (MState p t cs) = true.
Proof. intros [-> | ->]; reflexivity. Qed.

Lemma match_at_inside ml rs adv c s :
  c <> nl -> match_at ml (seq (Bol :: rs)) adv (Some c) s = None.
Proof.
  intros H. unfold match_at.
  rewrite m_seq_cons, m_bol, at_bol_inside by exact H. reflexivity.
Qed.

(** Inside a line an anchored pattern finds nothing: the characters up
    to the end of the line are kept. *)
Lemma scan_inside ml rs :
  forall l c s,
    c <> nl -> no_chr nl l ->
    scan ml (seq (Bol :: rs)) (Some c) 0 (l ++ s)
    = map Keep l ++ scan ml (seq (Bol :: rs)) (last_chr l (Some c)) 0 s.
Proof.
  induction l as [|d l IH]; intros c s Hc Hl.
  - reflexivity.
  - inversion Hl; subst. simpl app.
    rewrite scan_keep by (apply match_at_inside; exact Hc).
    rewrite IH by assumption. rewrite last_chr_cons. reflexivity.
Qed.

Lemma last_chr_not_nl l c :
  c <> nl -> no_chr nl l -> exists d, last_chr l (Some c) = Some d /\ d <> nl.
Proof.
  revert c. induction l as [|e l IH]; intros c Hc Hl.
  - exists c. auto.
  - inversion Hl; subst. rewrite last_chr_cons. apply IH; assumption.
Qed.

(** A line on which the pattern does not match at its start is kept up
    to its end. *)
Lemma scan_line_kept ml rs p l s :
  no_chr nl l ->
  match_at ml (seq (Bol :: rs)) false p (l ++ s) = None ->
  l <> [] ->
  scan ml (seq (Bol :: rs)) p 0 (l ++ s)
  = map Keep l ++ scan ml (seq (Bol :: rs)) (last_chr l p) 0 s.
Proof.
  intros Hl Hm Hne. destruct l as [|c l]; [contradiction|].
  inversion Hl; subst. simpl app in *.
  rewrite scan_keep by exact Hm.
  rewrite scan_inside by assumption. rewrite last_chr_cons. reflexivity.
Qed.

(** ** The title pass, line by line *)

Lemma line_end_stops s : line_end s -> stops (fun c => negb (ceq c nl)) s.
Proof. intros [-> | (s' & ->)]; reflexivity. Qed.

Lemma line_end_eol p s cs : line_end s -> at_eol true (MState p s cs) = true.
Proof. intros [-> | (s' & ->)]; reflexivity. Qed.

Lemma no_chr_dot (x : str) :
  no_chr nl x -> Forall (fun c => negb (ceq c nl) = true) x.
Proof.
  intros H. induction H as [|d x Hd _ IH]; constructor; [|exact IH].
  unfold ceq. destruct (Ascii.eqb d nl) eqn:E; [|reflexivity].
  apply Ascii.eqb_eq in E. contradiction.
Qed.

Lemma heading_text_inv l x : heading_text l = Some x -> l = L "# " ++ x /\ x <> [].
Proof.
  destruct l as [|c1 [|c2 [|c3 y]]]; simpl; try discriminate.
  destruct (ceq c1 "#") eqn:E1; [|discriminate].
  destruct (ceq c2 " ") eqn:E2; [|discriminate].
  apply Ascii.eqb_eq in E1, E2. subst. simpl.
  intros H. injection H as <-. split; [reflexivity | discriminate].
Qed.

Lemma title_m (k : mstate -> option rmatch) a p x s :
  line_start p -> x <> [] -> no_chr nl x -> line_end s ->
  k (MState (last_chr x (Some " "%char)) s [(1, x)]) = Some a ->
  m true re_title k (MState p (L "# " ++ x ++ s) []) = Some a.
Proof.
  intros Hp Hne Hx Hs Hk.
  destruct x as [|c x]; [contradiction|]. apply no_chr_dot in Hx.
  inversion Hx as [|? ? Hc Hx']; subst.
  unfold re_title.
  rewrite m_seq_cons, m_bol, at_bol_line_start by exact Hp.
  rewrite m_seq_cons, m_lit, m_seq_cons, m_grp.
  unfold Plus, dot. rewrite m_seq, <- app_comm_cons, m_cls, Hc.
  rewrite m_star_greedy_cls; [|exact Hx'|apply line_end_stops; exact Hs].
  apply greedy_try_all.
  cbn [rest prev caps].
  rewrite m_seq_one, m_eol, line_end_eol by exact Hs.
  change (c :: x ++ s) with ((c :: x) ++ s).
  rewrite firstn_len_app. rewrite last_chr_cons in Hk. exact Hk.
Qed.

Lemma title_match p x s :
  line_start p -> x <> [] -> no_chr nl x -> line_end s ->
  match_at true re_title false p ((L "# " ++ x) ++ s)
  = Some (RMatch (L "# " ++ x) [(1, x)]).
Proof.
  intros Hp Hne Hx Hs.
  apply (match_at_intro true re_title p (last_chr x (Some " "%char))).
  intros k a Hk. rewrite <- app_assoc. apply title_m; assumption.
Qed.

Lemma title_no_match p l s :
  no_chr nl l -> line_end s -> heading_text l = None ->
  match_at true re_title false p (l ++ s) = None.
Proof.
  intros Hl Hs Hh. unfold match_at, re_title.
  rewrite m_seq_cons, m_bol.
  destruct (at_bol true _); [|reflexivity].
  rewrite m_seq_cons.
  destruct (starts_with (L "# ") (l ++ s)) eqn:E;
    [|apply m_lit_none; exact E].
  apply starts_with_inv in E. destruct E as (t & E). rewrite E.
  rewrite m_lit, m_seq_cons, m_grp. unfold Plus, dot. rewrite m_seq.
  cbn [rest].
  destruct t as [|c t]; [reflexivity|]. rewrite m_cls.
  destruct (ceq c nl) eqn:Ec; [reflexivity|]. exfalso.
  assert (Hc : c <> nl) by (intros ->; discriminate).
  destruct l as [|c1 [|c2 [|c3 y]]]; simpl in E.
  - destruct Hs as [-> | (s' & ->)]; discriminate.
  - destruct Hs as [-> | (s' & ->)]; discriminate.
  - destruct Hs as [-> | (s' & ->)]; [discriminate|].
    injection E as _ _ E. congruence.
  - injection E as -> -> _ _. discriminate.
Qed.

(** One line of the title pass: the line is followed by the end of the
    text or by a newline, and the scan goes on on the next line. *)
Lemma title_scan_line p l s :
  line_start p -> no_chr nl l -> line_end s ->
  flat_map (emit title_repl) (scan true re_title p 0 (l ++ s))
  = title_line l
    ++ match s with
       | [] => []
       | c :: s' => c :: flat_map (emit title_repl) (scan true re_title (Some c) 0 s')
       end.
Proof.
  intros Hp Hl Hs.
  assert (Hrest : forall d, d <> nl ->
            flat_map (emit title_repl) (scan true re_title (Some d) 0 s)
            = match s with
              | [] => []
              | c :: s' =>
                  c :: flat_map (emit title_repl) (scan true re_title (Some c) 0 s')
              end).
  { intros d Hd. destruct Hs as [-> | (s' & ->)].
    - rewrite scan_nil by (simpl; lia). reflexivity.
    - unfold re_title at 1.
      rewrite scan_keep by (apply match_at_inside; exact Hd). reflexivity. }
  unfold title_line. destruct (heading_text l) as [x|] eqn:Hh.
  - apply heading_text_inv in Hh. destruct Hh as [-> Hne].
    assert (Hx : no_chr nl x).
    { unfold no_chr in *. apply Forall_app in Hl. tauto. }
    rewrite (scan_hit_eq true re_title p (L "# " ++ x) s
               (RMatch (L "# " ++ x) [(1, x)]));
      [|simpl; lia|apply title_match; assumption|reflexivity].
    cbn [flat_map emit].
    change (title_repl (RMatch (L "# " ++ x) [(1, x)]))
      with (L "<h1>" ++ x ++ L "</h1>" ++ []).
    rewrite app_nil_r, <- !app_assoc. do 3 f_equal.
    rewrite last_chr_app.
    destruct (last_chr_not_nl x " "%char) as (d & Ed & Hd);
      [discriminate | exact Hx |].
    change (last_chr (L "# ") p) with (Some " "%char).
    rewrite Ed. apply Hrest. exact Hd.
  - destruct l as [|c l].
    + simpl app. destruct Hs as [-> | (s' & ->)].
      * rewrite scan_nil by (simpl; lia). reflexivity.
      * rewrite scan_keep; [reflexivity|].
        apply (title_no_match p [] (nl :: s')); [constructor | right; eauto | reflexivity].
    + unfold re_title at 1.
      rewrite scan_line_kept;
        [|exact Hl|apply title_no_match; assumption|discriminate].
      rewrite flat_map_app, flat_map_emit_keep. f_equal.
      inversion Hl; subst. rewrite last_chr_cons.
      destruct (last_chr_not_nl l c) as (d & Ed & Hd); [assumption..|].
      rewrite Ed. apply Hrest. exact Hd.
Qed.

Lemma line_end_join l ls : line_end (nl :: join [nl] (l :: ls)).
Proof. right. eauto. Qed.

Lemma title_scan_lines :
  forall lines p,
    line_start p -> Forall (no_chr nl) lines ->
    flat_map (emit title_repl) (scan true re_title p 0 (join [nl] lines))
    = join [nl] (map title_line lines).
Proof.
  induction lines as [|l ls IH]; intros p Hp Hl.
  - change (join [nl] []) with (@nil ascii).
    rewrite scan_nil by (simpl; lia). reflexivity.
  - inversion Hl as [|? ? H1 H2]; subst.
    destruct ls as [|l2 ls].
    + simpl join. rewrite <- (app_nil_r l) at 1.
      rewrite title_scan_line; [apply app_nil_r | exact Hp | exact H1 | left; reflexivity].
    + change (join [nl] (l :: l2 :: ls)) with (l ++ nl :: join [nl] (l2 :: ls)).
      rewrite title_scan_line; [|exact Hp|exact H1|apply line_end_join].
      rewrite IH; [reflexivity | right; reflexivity | exact H2].
Qed.

Lemma title_pass_lines lines :
  Forall (no_chr nl) lines ->
  title_pass (join [nl] lines) = join [nl] (map title_line lines).
Proof.
  intros H. apply (title_scan_lines lines None); [left; reflexivity | exact H].
Qed.

(** ** [str.split] on a character and [str.replace] *)

Lemma split_chr_not_nil c s : split_chr c s <> [].
Proof.
  destruct s as [|d s]; simpl; [discriminate|].
  destruct (ceq d c); [discriminate|].
  destruct (split_chr c s); discriminate.
Qed.

Lemma join_cons_cons sep a b l :
  join sep (a :: b :: l) = a ++ sep ++ join sep (b :: l).
Proof. reflexivity. Qed.

Lemma join_split_chr c s : join [c] (split_chr c s) = s.
Proof.
  induction s as [|d s IH]; [reflexivity|].
  simpl. destruct (ceq d c) eqn:E.
  - apply Ascii.eqb_eq in E. subst d.
    pose proof (split_chr_not_nil c s) as Hn.
    destruct (split_chr c s) as [|w ws]; [contradiction|].
    rewrite join_cons_cons, IH. reflexivity.
  - pose proof (split_chr_not_nil c s) as Hn.
    destruct (split_chr c s) as [|w ws]; [contradiction|].
    rewrite <- IH. destruct ws as [|w2 ws]; reflexivity.
Qed.

Lemma split_chr_no_chr c s : Forall (no_chr c) (split_chr c s).
Proof.
  induction s as [|d s IH]; simpl.
  - repeat constructor.
  - destruct (ceq d c) eqn:E.
    + constructor; [constructor | exact IH].
    + assert (Hd : d <> c).
      { intros ->. unfold ceq in E. rewrite Ascii.eqb_refl in E. discriminate. }
      destruct (split_chr c s) as [|w ws]; [repeat constructor; exact Hd|].
      inversion IH; subst. constructor; [constructor; assumption | assumption].
Qed.

Lemma replace_go_skip old new u :
  forall s, replace_go old new (length u) (u ++ s) = replace_go old new 0 s.
Proof. induction u as [|c u IH]; intros s; [reflexivity | apply IH]. Qed.

Lemma replace_go_0 old new s :
  replace_go old new 0 s =
  if starts_with old s then
    new ++ match s with
           | [] => []
           | c :: s' =>
               match length old with
               | 0 => c :: replace_go old new 0 s'
               | S n => replace_go old new n s'
               end
           end
  else match s with
       | [] => []
       | c :: s' => c :: replace_go old new 0 s'
       end.
Proof. destruct s; reflexivity. Qed.

(** Without an occurrence nothing is replaced. *)
Lemma replace_absent old new s :
  contains old s = false -> replace old new s = s.
Proof.
  unfold replace. induction s as [|c s IH]; intros H; simpl in H;
    apply orb_false_iff in H; destruct H as [H1 H2];
    rewrite replace_go_0, H1; [reflexivity|].
  f_equal. apply IH. exact H2.
Qed.

(** The first occurrence is replaced and the replacement goes on behind
    it. *)
Lemma replace_first old new a b :
  old <> [] -> starts_inside old a (old ++ b) = false ->
  replace old new (a ++ old ++ b) = a ++ new ++ replace old new b.
Proof.
  unfold replace. intros Hne.
  induction a as [|c a IH]; intros Ha.
  - simpl app. rewrite replace_go_0, starts_with_app.
    destruct old as [|d old]; [contradiction|].
    simpl. rewrite replace_go_skip. reflexivity.
  - cbn [starts_inside] in Ha. apply orb_false_iff in Ha.
    destruct Ha as [H0 Ha].
    simpl app in *. rewrite replace_go_0, H0.
    f_equal. apply IH. exact Ha.
Qed.

(** ** C3 and C10: headings and the injected block *)

Lemma title_pass_every_line text :
  title_pass text = join [nl] (map title_line (split_chr nl text)).
Proof.
  rewrite <- (join_split_chr nl text) at 1.
  apply title_pass_lines. apply split_chr_no_chr.
Qed.

Lemma meta_pass_first a b :
  starts_inside h1_blank a (h1_blank ++ b) = false ->
  meta_pass (a ++ h1_blank ++ b) = a ++ meta_block ++ meta_pass b.
Proof. intros H. apply replace_first; [discriminate | exact H]. Qed.

(** C3, the claim as stated, fails: with two level-1 headings, each
    followed by a blank line, the output holds two heading elements and
    two injected blocks, not only the first. *)
Lemma C3_second_heading_converted : ~ only_first_heading two_headings_input.
Proof.
  intros H.
  destruct (H (L "<h1>A" ++ meta_block ++ L "<h1>B" ++ meta_block ++ L "text"))
    as [H1 _]; [vm_compute; reflexivity|].
  vm_compute in H1. lia.
Qed.

(** C3, amended: every line that starts with [# ] and goes on with at
    least one character becomes a heading element, whichever its place in
    the document, and the fixed metadata line and abstract block are
    injected in place of every heading close tag that a blank line
    follows; for [# Title], a blank line and [text] the output is the one
    heading element, at once followed by the injected block, then [text]
    with no paragraph wrapper. *)
Theorem C3_every_heading_converted :
  (forall text,
      title_pass text = join [nl] (map title_line (split_chr nl text)))
  /\ (forall a b,
         starts_inside h1_blank a (h1_blank ++ b) = false ->
         meta_pass (a ++ h1_blank ++ b) = a ++ meta_block ++ meta_pass b)
  /\ md_to_html title_input = Returns (L "<h1>Title" ++ meta_block ++ L "text")
  /\ md_to_html two_headings_input
     = Returns (L "<h1>A" ++ meta_block ++ L "<h1>B" ++ meta_block ++ L "text").
Proof.
  split; [exact title_pass_every_line|].
  split; [exact meta_pass_first|].
  split; vm_compute; reflexivity.
Qed.

Lemma C3_every_heading_converted_witness :
  meta_pass (L "<h1>T" ++ h1_blank ++ L "x")
  = L "<h1>T" ++ meta_block ++ meta_pass (L "x").
Proof.
  apply (proj1 (proj2 C3_every_heading_converted)). reflexivity.
Defined.

Lemma no_chr_app c a b : no_chr c (a ++ b) <-> no_chr c a /\ no_chr c b.
Proof. unfold no_chr. apply Forall_app. Qed.

Lemma no_chr_not_in c s : no_chr c s -> ~ In c s.
Proof.
  intros H Hin. unfold no_chr in H. rewrite Forall_forall in H.
  apply (H c Hin). reflexivity.
Qed.

Lemma h1_blank_absent_no_nl s : no_chr nl s -> contains h1_blank s = false.
Proof.
  intros H. destruct (contains h1_blank s) eqn:E; [|reflexivity].
  apply contains_inv in E. destruct E as (a & b & ->).
  exfalso. apply (no_chr_not_in nl _ H).
  apply in_or_app. right. apply in_or_app. left.
  unfold h1_blank. apply in_or_app. right. left. reflexivity.
Qed.

Lemma one_nl_not_two A :
  forall B a b,
    no_chr nl A -> no_chr nl B -> A ++ nl :: B = a ++ nl :: nl :: b -> False.
Proof.
  induction A as [|c A IH]; intros B a b HA HB E.
  - destruct a as [|d a]; simpl in E; inversion E; subst.
    + inversion HB; subst. congruence.
    + apply (no_chr_not_in nl _ HB).
      apply in_or_app. right. left. reflexivity.
  - inversion HA; subst.
    destruct a as [|d a]; simpl in E; inversion E; subst.
    + congruence.
    + apply (IH B a b H2 HB H3).
Qed.

Lemma h1_blank_absent_one_nl A B :
  no_chr nl A -> no_chr nl B -> contains h1_blank (A ++ nl :: B) = false.
Proof.
  intros HA HB. destruct (contains h1_blank (A ++ nl :: B)) eqn:E; [|reflexivity].
  apply contains_inv in E. destruct E as (a & b & E).
  exfalso. unfold h1_blank in E.
  rewrite <- app_assoc in E. rewrite app_assoc in E.
  apply (one_nl_not_two A B (a ++ L "</h1>") b HA HB).
  rewrite E. rewrite <- !app_assoc. reflexivity.
Qed.

Lemma title_line_heading x :
  x <> [] -> title_line (L "# " ++ x) = L "<h1>" ++ x ++ L "</h1>".
Proof. destruct x; [contradiction | reflexivity]. Qed.

Lemma title_line_no_nl y : no_chr nl y -> no_chr nl (title_line y).
Proof.
  intros H. unfold title_line.
  destruct (heading_text y) as [x|] eqn:E; [|exact H].
  apply heading_text_inv in E. destruct E as [-> _].
  apply no_chr_app in H. destruct H as [_ H].
  apply no_chr_app. split; [repeat constructor; discriminate|].
  apply no_chr_app. split; [exact H | repeat constructor; discriminate].
Qed.

Lemma heading_at_end x :
  x <> [] -> no_chr nl x ->
  meta_pass (title_pass (L "# " ++ x)) = L "<h1>" ++ x ++ L "</h1>".
Proof.
  intros Hne Hx.
  assert (Hl : no_chr nl (L "# " ++ x)).
  { apply no_chr_app. split; [repeat constructor; discriminate | exact Hx]. }
  pose proof (title_pass_lines [L "# " ++ x]) as H.
  change (join [nl] [L "# " ++ x]) with (L "# " ++ x) in H.
  change (join [nl] (map title_line [L "# " ++ x]))
    with (title_line (L "# " ++ x)) in H.
  rewrite H by (constructor; [exact Hl | constructor]).
  rewrite title_line_heading by exact Hne.
  apply replace_absent. apply h1_blank_absent_no_nl.
  apply no_chr_app. split; [repeat constructor; discriminate|].
  apply no_chr_app. split; [exact Hx | repeat constructor; discriminate].
Qed.

Lemma heading_before_line x y :
  x <> [] -> no_chr nl x -> no_chr nl y ->
  meta_pass (title_pass (L "# " ++ x ++ nl :: y))
  = L "<h1>" ++ x ++ L "</h1>" ++ nl :: title_line y.
Proof.
  intros Hne Hx Hy.
  assert (Hl : no_chr nl (L "# " ++ x)).
  { apply no_chr_app. split; [repeat constructor; discriminate | exact Hx]. }
  pose proof (title_pass_lines [L "# " ++ x; y]) as H.
  change (join [nl] [L "# " ++ x; y]) with ((L "# " ++ x) ++ nl :: y) in H.
  change (join [nl] (map title_line [L "# " ++ x; y]))
    with (title_line (L "# " ++ x) ++ nl :: title_line y) in H.
  rewrite <- app_assoc in H.
  rewrite H by (constructor; [exact Hl | constructor; [exact Hy | constructor]]).
  rewrite title_line_heading by exact Hne.
  unfold meta_pass. fold h1_blank.
  transitivity ((L "<h1>" ++ x ++ L "</h1>") ++ nl :: title_line y);
    [|rewrite <- !app_assoc; reflexivity].
  apply replace_absent. apply h1_blank_absent_one_nl.
  - apply no_chr_app. split; [repeat constructor; discriminate|].
    apply no_chr_app. split; [exact Hx | repeat constructor; discriminate].
  - apply title_line_no_nl. exact Hy.
Qed.

(** C10: the metadata line and the abstract are injected exactly where
    a heading close tag is followed by a blank line: a text without such a
    place is left as it is, and the first such place is rewritten and the
    pass goes on behind it.  A level-1 heading at the very end of the
    input, or one followed directly by another line, becomes a heading
    element with nothing injected. *)
Theorem C10_meta_needs_blank_line :
  (forall text, contains h1_blank text = false -> meta_pass text = text)
  /\ (forall a b,
         starts_inside h1_blank a (h1_blank ++ b) = false ->
         meta_pass (a ++ h1_blank ++ b) = a ++ meta_block ++ meta_pass b)
  /\ (forall x, x <> [] -> no_chr nl x ->
                meta_pass (title_pass (L "# " ++ x)) = L "<h1>" ++ x ++ L "</h1>")
  /\ (forall x y, x <> [] -> no_chr nl x -> no_chr nl y ->
                  meta_pass (title_pass (L "# " ++ x ++ nl :: y))
                  = L "<h1>" ++ x ++ L "</h1>" ++ nl :: title_line y)
  /\ md_to_html (L "# Title") = Returns (L "<h1>Title</h1>")
  /\ md_to_html (L "# Title" ++ [nl] ++ L "text")
     = Returns (L "<h1>Title</h1>" ++ [nl] ++ L "text").
Proof.
  split; [intros text H; apply replace_absent; exact H|].
  split; [exact meta_pass_first|].
  split; [exact heading_at_end|].
  split; [exact heading_before_line|].
  split; vm_compute; reflexivity.
Qed.

Lemma C10_meta_needs_blank_line_witness :
  meta_pass (L "<h1>Title</h1>") = L "<h1>Title</h1>"
  /\ meta_pass (L "a" ++ h1_blank ++ L "b") = L "a" ++ meta_block ++ meta_pass (L "b")
  /\ meta_pass (title_pass (L "# " ++ L "Title")) = L "<h1>" ++ L "Title" ++ L "</h1>"
  /\ meta_pass (title_pass (L "# " ++ L "Title" ++ nl :: L "text"))
     = L "<h1>" ++ L "Title" ++ L "</h1>" ++ nl :: title_line (L "text").
Proof.
  destruct C10_meta_needs_blank_line as (H1 & H2 & H3 & H4 & _).
  split; [apply H1; reflexivity|].
  split; [apply H2; reflexivity|].
  split; [apply H3; [discriminate | repeat constructor; discriminate]|].
  apply H4; [discriminate | repeat constructor; discriminate
             | repeat constructor; discriminate].
Defined.

Lemma C5_rendering_failure_is_reported_witness :
  hd_error (written (script failing_env))
  = Some ("academic-output.html"%string, html_doc (L "<h1>Hi</h1>"))
  /\ hd_error (stdout (script failing_env))
     = Some (L "HTML generated: academic-output.html")
  /\ last (stdout (script failing_env)) []
     = diagnostic (Exn "OSError" (L "cannot load library 'pango'"))
  /\ uncaught (script failing_env) = None
  /\ exit_code (script failing_env) = 0.
Proof.
  destruct (C5_rendering_failure_is_reported failing_env (L "# Hi")
              (html_doc (L "<h1>Hi</h1>"))
              (Exn "OSError" (L "cannot load library 'pango'")))
    as (H1 & H2 & H3 & _).
  - reflexivity.
  - vm_compute. reflexivity.
  - reflexivity.
  - left. reflexivity.
  - split; [exact H1|]. split; [exact H2|]. apply H3. reflexivity.
Defined.

(** ** C4: the table pass *)

Lemma inner_ok_inv x : inner_ok x = true -> x <> [] /\ no_chr nl x.
Proof.
  destruct x as [|c x]; [discriminate|]. unfold inner_ok.
  intros H. split; [discriminate|].
  unfold no_chr. apply Forall_forall. intros d Hd.
  rewrite forallb_forall in H. specialize (H d Hd).
  intros ->. unfold ceq in H. rewrite Ascii.eqb_refl in H. discriminate.
Qed.

Lemma row_m (k : mstate -> option rmatch) a p x s cs :
  x <> [] -> no_chr nl x ->
  k (MState (Some nl) s ((1, row_of x ++ [nl]) :: cs)) = Some a ->
  m false row_re k (MState p ((row_of x ++ [nl]) ++ s) cs) = Some a.
Proof.
  intros Hne Hx Hk.
  destruct x as [|c x]; [contradiction|]. apply no_chr_dot in Hx.
  inversion Hx as [|? ? Hc Hx']; subst.
  unfold row_re. rewrite m_grp, m_seq_cons.
  replace ((row_of (c :: x) ++ [nl]) ++ s)
    with ("|"%char :: c :: (x ++ ["|"%char]) ++ nl :: s)
    by (unfold row_of; simpl; rewrite <- !app_assoc; reflexivity).
  rewrite m_chr. change (ceq "|" "|") with true. cbv iota.
  rewrite m_seq_cons. unfold Plus, dot. rewrite m_seq, m_cls, Hc.
  rewrite m_star_greedy_cls;
    [|apply Forall_app; split; [exact Hx' | repeat constructor]|reflexivity].
  apply greedy_try_back.
  - rewrite m_seq_cons, m_chr. reflexivity.
  - rewrite m_seq_cons, m_chr. change (ceq "|" "|") with true. cbv iota.
    rewrite m_seq_one. unfold cls_nl. rewrite m_cls.
    change (ceq nl nl) with true. cbv iota.
    cbn [rest prev caps].
    replace ("|"%char :: c :: (x ++ ["|"%char]) ++ nl :: s)
      with ((row_of (c :: x) ++ [nl]) ++ s)
      by (unfold row_of; simpl; rewrite <- !app_assoc; reflexivity).
    rewrite firstn_len_app. exact Hk.
Qed.

Lemma row_m_none (k : mstate -> option rmatch) p s cs :
  no_row_start s = true -> m false row_re k (MState p s cs) = None.
Proof.
  intros H. unfold row_re. rewrite m_grp, m_seq_cons.
  destruct s as [|c s]; [reflexivity|]. rewrite m_chr.
  simpl in H. unfold ceq in *. rewrite Ascii.eqb_sym.
  destruct (Ascii.eqb c "|"); [discriminate | reflexivity].
Qed.

(** The captures after the rows [xs]: one per row, the last row first. *)
Lemma rows_m (k : mstate -> option rmatch) a s :
  forall xs p cs,
    forallb inner_ok xs = true -> no_row_start s = true ->
    k (MState (match xs with [] => p | _ => Some nl end) s
              (rev (map (fun x => (1, row_of x ++ [nl])) xs) ++ cs)) = Some a ->
    m false (Star true row_re) k (MState p (block (map row_of xs) ++ s) cs)
    = Some a.
Proof.
  induction xs as [|x xs IH]; intros p cs Hxs Hs Hk; rewrite m_star; cbv zeta.
  - simpl block. simpl app. rewrite row_m_none by exact Hs. exact Hk.
  - simpl in Hxs. apply andb_true_iff in Hxs. destruct Hxs as [Hx Hxs].
    apply inner_ok_inv in Hx. destruct Hx as [Hne Hx].
    change (block (map row_of (x :: xs)))
      with ((row_of x ++ [nl]) ++ block (map row_of xs)).
    rewrite <- app_assoc.
    rewrite (row_m _ a); [reflexivity | exact Hne | exact Hx |].
    cbn [rest].
    assert (Hlt : (length (block (map row_of xs) ++ s)
                   <? length ((row_of x ++ [nl]) ++ block (map row_of xs) ++ s))
                  = true).
    { apply Nat.ltb_lt. rewrite (length_app (row_of x ++ [nl])), length_app.
      simpl. lia. }
    rewrite Hlt. apply IH; [exact Hxs | exact Hs |].
    simpl map in Hk. simpl rev in Hk. rewrite <- app_assoc in Hk.
    destruct xs; exact Hk.
Qed.

Lemma table_match p x xs s :
  forallb inner_ok (x :: xs) = true -> no_row_start s = true ->
  match_at false re_table false p (block (map row_of (x :: xs)) ++ s)
  = Some (RMatch (block (map row_of (x :: xs)))
                 (rev (map (fun x => (1, row_of x ++ [nl])) (x :: xs)))).
Proof.
  intros Hxs Hs.
  apply (match_at_intro false re_table p (Some nl)).
  intros k a Hk.
  pose proof Hxs as Hxs'. simpl in Hxs'.
  apply andb_true_iff in Hxs'. destruct Hxs' as [Hx Hxs'].
  apply inner_ok_inv in Hx. destruct Hx as [Hne Hx].
  unfold re_table, Plus. fold row_re. rewrite m_seq.
  change (block (map row_of (x :: xs)))
    with ((row_of x ++ [nl]) ++ block (map row_of xs)).
  rewrite <- app_assoc.
  apply row_m; [exact Hne | exact Hx |].
  apply rows_m; [exact Hxs' | exact Hs |].
  simpl map in Hk. simpl rev in Hk.
  destruct xs; exact Hk.
Qed.

Lemma block_join r rs : block (r :: rs) = join [nl] (r :: rs) ++ [nl].
Proof.
  revert r. induction rs as [|r2 rs IH]; intros r.
  - simpl. rewrite app_nil_r. reflexivity.
  - change (block (r :: r2 :: rs)) with ((r ++ [nl]) ++ block (r2 :: rs)).
    rewrite IH, join_cons_cons, <- !app_assoc. reflexivity.
Qed.

Lemma lstrip_keeps c s : is_space c = false -> lstrip (c :: s) = c :: s.
Proof. intros H. simpl. rewrite H. reflexivity. Qed.

Lemma rstrip_newline s c :
  is_space c = false -> rstrip ((s ++ [c]) ++ [nl]) = s ++ [c].
Proof.
  intros H. unfold rstrip. rewrite !rev_app_distr. simpl.
  rewrite H. simpl. rewrite rev_involutive. reflexivity.
Qed.

Lemma join_rows_shape x xs :
  exists j, join [nl] (map row_of (x :: xs)) = "|"%char :: j
            /\ exists j', join [nl] (map row_of (x :: xs)) = j' ++ ["|"%char].
Proof.
  revert x. induction xs as [|y xs IH]; intros x.
  - exists (x ++ L "|"). split; [reflexivity|].
    exists (L "|" ++ x). unfold row_of. simpl. reflexivity.
  - destruct (IH y) as (j & Ej & j' & Ej').
    change (join [nl] (map row_of (x :: y :: xs)))
      with (row_of x ++ [nl] ++ join [nl] (map row_of (y :: xs))).
    eexists. split; [reflexivity|].
    exists (row_of x ++ [nl] ++ j'). rewrite Ej', <- !app_assoc. reflexivity.
Qed.

Lemma strip_block x xs :
  strip (block (map row_of (x :: xs))) = join [nl] (map row_of (x :: xs)).
Proof.
  change (map row_of (x :: xs)) with (row_of x :: map row_of xs).
  rewrite block_join.
  change (row_of x :: map row_of xs) with (map row_of (x :: xs)).
  destruct (join_rows_shape x xs) as (j & Ej & j' & Ej').
  unfold strip. rewrite Ej at 1. simpl app.
  rewrite lstrip_keeps by reflexivity.
  change ("|"%char :: j ++ [nl]) with (("|"%char :: j) ++ [nl]).
  rewrite <- Ej, Ej'. apply rstrip_newline. reflexivity.
Qed.

Lemma split_chr_line c l : no_chr c l -> split_chr c l = [l].
Proof.
  intros H. induction H as [|d l Hd _ IH]; [reflexivity|].
  simpl. unfold ceq. destruct (Ascii.eqb d c) eqn:E.
  - apply Ascii.eqb_eq in E. contradiction.
  - rewrite IH. reflexivity.
Qed.

Lemma split_chr_app c l s :
  no_chr c l -> split_chr c (l ++ c :: s) = l :: split_chr c s.
Proof.
  intros H. induction H as [|d l Hd _ IH].
  - simpl. unfold ceq. rewrite Ascii.eqb_refl. reflexivity.
  - simpl. unfold ceq in *. destruct (Ascii.eqb d c) eqn:E.
    + apply Ascii.eqb_eq in E. contradiction.
    + rewrite IH. reflexivity.
Qed.

Lemma split_chr_join c :
  forall l ls, Forall (no_chr c) (l :: ls) ->
               split_chr c (join [c] (l :: ls)) = l :: ls.
Proof.
  intros l ls. revert l. induction ls as [|l2 ls IH]; intros l H.
  - inversion H; subst. apply split_chr_line. assumption.
  - inversion H; subst. rewrite join_cons_cons. simpl app.
    rewrite split_chr_app by assumption. f_equal. apply IH. assumption.
Qed.

Lemma row_of_no_nl x : inner_ok x = true -> no_chr nl (row_of x).
Proof.
  intros H. apply inner_ok_inv in H. destruct H as [_ H].
  unfold row_of. apply no_chr_app. split; [repeat constructor; discriminate|].
  apply no_chr_app. split; [exact H | repeat constructor; discriminate].
Qed.

Lemma rows_no_nl xs :
  forallb inner_ok xs = true -> Forall (no_chr nl) (map row_of xs).
Proof.
  induction xs as [|x xs IH]; intros H; [constructor|].
  simpl in H. apply andb_true_iff in H. destruct H as [Hx H].
  constructor; [apply row_of_no_nl; exact Hx | apply IH; exact H].
Qed.

Lemma table_row_kept i line : table_row (i, line) = kept_row (i =? 0) line.
Proof.
  unfold table_row, kept_row, has_dashes, row_html, cells_of.
  destruct (contains (L "---") line); [reflexivity|].
  destruct (i =? 0); reflexivity.
Qed.

Lemma table_rows_later rows :
  forall i, flat_map table_row (enumerate_from (S i) rows)
            = flat_map (kept_row false) rows.
Proof.
  induction rows as [|r rs IH]; intros i; [reflexivity|].
  cbn [enumerate_from flat_map]. rewrite IH, table_row_kept. reflexivity.
Qed.

(** [format_table] on a block of rows. *)
Lemma format_table_block x xs cs :
  forallb inner_ok (x :: xs) = true ->
  format_table (RMatch (block (map row_of (x :: xs))) cs)
  = table_of (map row_of (x :: xs)).
Proof.
  intros H. unfold format_table. cbn [m_text].
  rewrite strip_block.
  change (map row_of (x :: xs)) with (row_of x :: map row_of xs).
  rewrite split_chr_join by (apply (rows_no_nl (x :: xs)); exact H).
  unfold table_of. do 2 f_equal.
  cbn [enumerate_from flat_map]. rewrite table_rows_later, table_row_kept.
  rewrite <- !app_assoc. reflexivity.
Qed.

(** The table pass on a block of rows: the block is one match, whatever
    follows it is converted on its own. *)
Lemma table_pass_block x xs s :
  forallb inner_ok (x :: xs) = true -> no_row_start s = true ->
  table_pass (block (map row_of (x :: xs)) ++ s)
  = table_of (map row_of (x :: xs)) ++ table_pass s.
Proof.
  intros Hxs Hs. unfold table_pass.
  rewrite (sub_hit false re_table format_table _ s _
             ltac:(simpl; lia) eq_refl (table_match None x xs s Hxs Hs) eq_refl).
  rewrite format_table_block by exact Hxs. reflexivity.
Qed.

Lemma three_rows h sep d :
  forallb inner_ok [h; sep; d] = true ->
  has_dashes (row_of h) = false -> has_dashes (row_of sep) = true ->
  has_dashes (row_of d) = false ->
  table_pass (block [row_of h; row_of sep; row_of d])
  = L "<table>" ++ [nl] ++ row_html "th" (row_of h) ++ row_html "td" (row_of d)
    ++ L "</table>".
Proof.
  intros Hok Hh Hs Hd.
  pose proof (table_pass_block h [sep; d] [] Hok eq_refl) as H.
  rewrite app_nil_r in H.
  change (map row_of [h; sep; d]) with [row_of h; row_of sep; row_of d] in H.
  rewrite H. change (table_pass []) with (@nil ascii). rewrite app_nil_r.
  unfold table_of, kept_row. cbn [flat_map]. rewrite Hh, Hs, Hd.
  rewrite app_nil_r.
  change ([] ++ row_html "td" (row_of d)) with (row_html "td" (row_of d)).
  rewrite <- !app_assoc. reflexivity.
Qed.

(** C4, the claim as stated, fails: a data row whose text holds three
    hyphens in a row is dropped although it is no separator row. *)
Lemma C4_row_with_dashes_dropped :
  ~ only_separator_dropped table_with_dashes_in_cell.
Proof.
  intros H.
  specialize (H (L "<table>" ++ [nl] ++ L "<tr><th>a</th><th>b</th></tr>"
                   ++ [nl] ++ L "</table>")).
  assert (E : md_to_html (block table_with_dashes_in_cell)
              = Returns (L "<table>" ++ [nl] ++ L "<tr><th>a</th><th>b</th></tr>"
                           ++ [nl] ++ L "</table>"))
    by (vm_compute; reflexivity).
  apply H in E. vm_compute in E. discriminate.
Qed.

(** C4, amended: in a block of rows, each a pipe, some text and a pipe
    on one line, a row is dropped exactly when its text holds three
    hyphens in a row; a kept row is written with header cells when it is
    the first line of the block and with data cells otherwise.  So a
    block of a header row, a separator row with three hyphens and one data
    row, header and data rows without three hyphens, gives one table with
    one header row and one data row. *)
Theorem C4_table_rows :
  (forall x xs s,
      forallb inner_ok (x :: xs) = true -> no_row_start s = true ->
      table_pass (block (map row_of (x :: xs)) ++ s)
      = table_of (map row_of (x :: xs)) ++ table_pass s)
  /\ (forall h sep d,
         forallb inner_ok [h; sep; d] = true ->
         has_dashes (row_of h) = false -> has_dashes (row_of sep) = true ->
         has_dashes (row_of d) = false ->
         table_pass (block [row_of h; row_of sep; row_of d])
         = L "<table>" ++ [nl] ++ row_html "th" (row_of h)
           ++ row_html "td" (row_of d) ++ L "</table>")
  /\ md_to_html (block three_row_table)
     = Returns (L "<table>" ++ [nl] ++ L "<tr><th>a</th><th>b</th></tr>" ++ [nl]
                ++ L "<tr><td>1</td><td>2</td></tr>" ++ [nl] ++ L "</table>").
Proof.
  split; [exact table_pass_block|].
  split; [exact three_rows|].
  vm_compute. reflexivity.
Qed.

Lemma C4_table_rows_witness :
  table_pass (block (map row_of [L " a | b "; L "---|---"; L " 1 | 2 "]) ++ L "end")
  = table_of (map row_of [L " a | b "; L "---|---"; L " 1 | 2 "])
    ++ table_pass (L "end")
  /\ table_pass (block [row_of (L " a | b "); row_of (L "---|---");
                        row_of (L " 1 | 2 ")])
     = L "<table>" ++ [nl] ++ row_html "th" (row_of (L " a | b "))
       ++ row_html "td" (row_of (L " 1 | 2 ")) ++ L "</table>".
Proof.
  destruct C4_table_rows as (H1 & H2 & _).
  split; [apply H1; reflexivity | apply H2; reflexivity].
Defined.

(** ** Lazy repetition up to a closing fence *)

Lemma lazy_try_split (A : Type) (k : mstate -> option A) a :
  forall w1 w2 p s cs,
    (forall u v, w1 = u ++ v -> v <> [] ->
                 k (MState (last_chr u p) (v ++ w2 ++ s) cs) = None) ->
    k (MState (last_chr w1 p) (w2 ++ s) cs) = Some a ->
    lazy_try k p cs (w1 ++ w2) s = Some a.
Proof.
  induction w1 as [|c w1 IH]; intros w2 p s cs Hf H.
  - simpl app. change (last_chr [] p) with p in H.
    destruct w2 as [|d w2]; simpl; simpl in H; rewrite H; reflexivity.
  - simpl app. cbn [lazy_try].
    pose proof (Hf [] (c :: w1) eq_refl) as H0.
    change (last_chr [] p) with p in H0.
    replace ((c :: w1 ++ w2) ++ s) with ((c :: w1) ++ w2 ++ s)
      by (simpl; rewrite app_assoc; reflexivity).
    rewrite H0 by discriminate. simpl.
    apply IH.
    + intros u v E Hv. specialize (Hf (c :: u) v).
      rewrite last_chr_cons in Hf. apply Hf; [simpl; congruence | exact Hv].
    + rewrite last_chr_cons in H. exact H.
Qed.

(** [[\s\S]*?] stops at the first place where what follows accepts. *)
Lemma lazy_any_first (A : Type) ml (k : mstate -> option A) a body p cs s :
  (forall u v, body = u ++ v -> v <> [] ->
               k (MState (last_chr u p) (v ++ s) cs) = None) ->
  k (MState (last_chr body p) s cs) = Some a ->
  m ml (Star false any) k (MState p (body ++ s) cs) = Some a.
Proof.
  intros Hf H. unfold any.
  rewrite <- (app_nil_r (body ++ s)).
  rewrite m_star_lazy_cls;
    [|apply Forall_forall; reflexivity|exact I].
  apply lazy_try_split.
  - intros u v E Hv. rewrite app_nil_r. apply Hf; assumption.
  - rewrite app_nil_r. exact H.
Qed.

Lemma starts_inside_suffix old :
  forall a t u v,
    starts_inside old a t = false -> a = u ++ v -> v <> [] ->
    starts_with old (v ++ t) = false.
Proof.
  induction a as [|c a IH]; intros t u v H E Hv.
  - destruct u; [|discriminate]. simpl in E. subst v. contradiction.
  - cbn [starts_inside] in H. apply orb_false_iff in H. destruct H as [H1 H2].
    destruct u as [|d u].
    + simpl in E. subst v. exact H1.
    + simpl in E. injection E as _ E. apply (IH t u v H2 E Hv).
Qed.

(** Text in which no match starts is kept. *)
Lemma scan_prefix_kept ml r :
  forall pre p t,
    (forall u v, pre = u ++ v -> v <> [] ->
                 match_at ml r false (last_chr u p) (v ++ t) = None) ->
    scan ml r p 0 (pre ++ t) = map Keep pre ++ scan ml r (last_chr pre p) 0 t.
Proof.
  induction pre as [|c pre IH]; intros p t H.
  - reflexivity.
  - pose proof (H [] (c :: pre) eq_refl) as H0.
    change (last_chr [] p) with p in H0. simpl app in *.
    rewrite scan_keep by (apply H0; discriminate).
    rewrite IH, last_chr_cons; [reflexivity|].
    intros u v E Hv. specialize (H (c :: u) v).
    rewrite last_chr_cons in H. apply H; [simpl; congruence | exact Hv].
Qed.

(** A pattern that begins with a literal run finds nothing where the
    text does not begin with it. *)
Lemma match_at_lit_none ml t rs adv p s :
  starts_with (L t) s = false ->
  match_at ml (seq (lit t :: rs)) adv p s = None.
Proof.
  intros H. unfold match_at. rewrite m_seq_cons. apply m_lit_none. exact H.
Qed.

(** ** C8: the code-block pass *)

Lemma replace_chr a new s :
  replace [a] new s = flat_map (fun c => if ceq a c then new else [c]) s.
Proof.
  unfold replace. induction s as [|c s IH]; [reflexivity|].
  rewrite replace_go_0. cbn [starts_with length flat_map].
  rewrite andb_true_r. destruct (ceq a c); rewrite IH; reflexivity.
Qed.

Lemma escape_is_replace code :
  replace (L ">") (L "&gt;") (replace (L "<") (L "&lt;") code) = escape code.
Proof.
  change (L ">") with [">"%char]. change (L "<") with ["<"%char].
  rewrite !replace_chr. unfold escape.
  induction code as [|c code IH]; [reflexivity|].
  cbn [flat_map]. rewrite flat_map_app, IH. f_equal.
  unfold ceq. rewrite (Ascii.eqb_sym c "<"), (Ascii.eqb_sym c ">").
  destruct (Ascii.eqb "<" c) eqn:E1; [reflexivity|].
  cbn [flat_map]. rewrite app_nil_r. reflexivity.
Qed.

Lemma escape_no_brackets code :
  no_chr "<" (escape code) /\ no_chr ">" (escape code).
Proof.
  unfold escape, no_chr. induction code as [|c code [IH1 IH2]].
  - split; constructor.
  - cbn [flat_map]. split; apply Forall_app; split; auto.
    + unfold ceq. destruct (Ascii.eqb c "<") eqn:E1;
        [repeat constructor; discriminate|].
      destruct (Ascii.eqb c ">") eqn:E2; [repeat constructor; discriminate|].
      repeat constructor. intros ->. discriminate.
    + unfold ceq. destruct (Ascii.eqb c "<") eqn:E1;
        [repeat constructor; discriminate|].
      destruct (Ascii.eqb c ">") eqn:E2; [repeat constructor; discriminate|].
      repeat constructor. intros ->. discriminate.
Qed.

Lemma word_run tag : forallb is_word tag = true -> Forall (fun c => is_word c = true) tag.
Proof. intros H. apply Forall_forall. apply forallb_forall. exact H. Qed.

Lemma code_m (k : mstate -> option rmatch) a p tag body post :
  forallb is_word tag = true ->
  starts_inside fence body (fence ++ post) = false ->
  k (MState (Some "`"%char) post [(1, body)]) = Some a ->
  m false re_code k (MState p (fence ++ tag ++ nl :: body ++ fence ++ post) [])
  = Some a.
Proof.
  intros Ht Hb Hk. unfold re_code, fence in *.
  rewrite m_seq_cons, m_lit, m_seq_cons.
  unfold word. rewrite m_star_greedy_cls; [|apply word_run; exact Ht|reflexivity].
  apply greedy_try_all.
  rewrite m_seq_cons, m_chr. change (ceq nl nl) with true. cbv iota.
  rewrite m_seq_cons, m_grp.
  apply lazy_any_first.
  - intros u v E Hv. cbn [rest prev caps].
    rewrite m_seq_one. apply m_lit_none.
    apply (starts_inside_suffix _ _ _ u v Hb E Hv).
  - cbn [rest prev caps]. rewrite m_seq_one, m_lit.
    rewrite firstn_len_app. exact Hk.
Qed.

Lemma code_match p tag body post :
  forallb is_word tag = true ->
  starts_inside fence body (fence ++ post) = false ->
  match_at false re_code false p (fenced tag body ++ post)
  = Some (RMatch (fenced tag body) [(1, body)]).
Proof.
  intros Ht Hb.
  apply (match_at_intro false re_code p (Some "`"%char)).
  intros k a Hk. unfold fenced. rewrite <- !app_assoc.
  apply code_m; assumption.
Qed.

Lemma emit_all_e_keep f pre ps :
  emit_all_e f (map Keep pre ++ ps)
  = bind (emit_all_e f ps) (fun t => Returns (pre ++ t)).
Proof.
  induction pre as [|c pre IH]; simpl.
  - destruct (emit_all_e f ps); reflexivity.
  - rewrite IH. destruct (emit_all_e f ps); reflexivity.
Qed.

Lemma code_pass_block pre tag body post :
  starts_inside fence pre (fenced tag body ++ post) = false ->
  forallb is_word tag = true ->
  starts_inside fence body (fence ++ post) = false ->
  exists rest,
    code_pass post = Returns rest
    /\ code_pass (pre ++ fenced tag body ++ post)
       = Returns (pre ++ L "<pre><code>" ++ escape body ++ L "</code></pre>"
                  ++ rest).
Proof.
  intros Hp Ht Hb.
  destruct (code_pass_returns post) as (rest & Hrest).
  exists rest. split; [exact Hrest|].
  unfold code_pass, sub_e in *.
  rewrite scan_prefix_kept.
  - rewrite emit_all_e_keep.
    rewrite (scan_hit_eq false re_code _ (fenced tag body) post
               (RMatch (fenced tag body) [(1, body)]));
      [|simpl; lia|apply code_match; assumption|reflexivity].
    rewrite (scan_blind false re_code eq_refl post 0 _ None).
    cbn [emit_all_e]. rewrite Hrest.
    unfold format_code_block. cbn [group lookup m_caps Nat.eqb bind].
    rewrite escape_is_replace. rewrite <- !app_assoc. reflexivity.
  - intros u v E Hv. unfold re_code.
    apply match_at_lit_none.
    apply (starts_inside_suffix _ _ _ u v Hp E Hv).
Qed.



(** ** C2: the mermaid pass and its counter *)

Lemma replace_mermaid_figure mt c : replace_mermaid mt c = (figure (c + 1), c + 1).
Proof. reflexivity. Qed.

Lemma emit_all_st_numbered ps :
  forall c, emit_all_st replace_mermaid ps c
            = (number_from (c + 1) ps, c + count_hits ps).
Proof.
  induction ps as [|[ch|mt] ps IH]; intros c.
  - simpl. rewrite Nat.add_0_r. reflexivity.
  - cbn [emit_all_st number_from]. rewrite IH. reflexivity.
  - cbn [emit_all_st number_from]. rewrite replace_mermaid_figure, IH.
    unfold count_hits. cbn [filter is_hit length].
    replace (c + 1 + 1) with (S (c + 1)) by lia.
    f_equal. lia.
Qed.

Lemma emit_all_st_keep (St : Type) (f : rmatch -> St -> str * St) pre ps st :
  emit_all_st f (map Keep pre ++ ps) st
  = (pre ++ fst (emit_all_st f ps st), snd (emit_all_st f ps st)).
Proof.
  induction pre as [|c pre IH]; simpl.
  - destruct (emit_all_st f ps st); reflexivity.
  - rewrite IH. reflexivity.
Qed.

Lemma contains_false_suffix p :
  forall s u v, contains p s = false -> s = u ++ v -> starts_with p v = false.
Proof.
  induction s as [|c s IH]; intros u v H E; simpl in H;
    apply orb_false_iff in H; destruct H as [H1 H2].
  - destruct u; [|discriminate]. simpl in E. subst v. exact H1.
  - destruct u as [|d u].
    + simpl in E. subst v. exact H1.
    + simpl in E. injection E as _ E. apply (IH u v H2 E).
Qed.

Lemma mermaid_m (k : mstate -> option rmatch) a p body post :
  starts_inside fence body (fence ++ post) = false ->
  k (MState (Some "`"%char) post []) = Some a ->
  m false re_mermaid k
    (MState p (mermaid_tag ++ nl :: body ++ fence ++ post) []) = Some a.
Proof.
  intros Hb Hk. unfold re_mermaid, mermaid_tag, fence in *.
  rewrite m_seq_cons, m_lit, m_seq_cons, m_chr.
  change (ceq nl nl) with true. cbv iota.
  rewrite m_seq_cons.
  apply lazy_any_first.
  - intros u v E Hv. rewrite m_seq_one. apply m_lit_none.
    apply (starts_inside_suffix _ _ _ u v Hb E Hv).
  - rewrite m_seq_one, m_lit. exact Hk.
Qed.

Lemma mermaid_match p body post :
  starts_inside fence body (fence ++ post) = false ->
  match_at false re_mermaid false p
    ((mermaid_tag ++ nl :: body ++ fence) ++ post)
  = Some (RMatch (mermaid_tag ++ nl :: body ++ fence) []).
Proof.
  intros Hb.
  apply (match_at_intro false re_mermaid p (Some "`"%char)).
  intros k a Hk. rewrite <- !app_assoc. simpl app.
  rewrite <- app_assoc. apply mermaid_m; assumption.
Qed.

Lemma mermaid_pass_numbered doc c :
  mermaid_pass doc c
  = (number_from (c + 1) (mermaid_blocks doc),
     c + count_hits (mermaid_blocks doc)).
Proof. apply emit_all_st_numbered. Qed.

Lemma mermaid_pass_block pre body post c :
  starts_inside mermaid_tag pre (mermaid_tag ++ nl :: body ++ fence ++ post)
  = false ->
  starts_inside fence body (fence ++ post) = false ->
  mermaid_pass (pre ++ mermaid_tag ++ nl :: body ++ fence ++ post) c
  = (pre ++ figure (c + 1) ++ fst (mermaid_pass post (c + 1)),
     snd (mermaid_pass post (c + 1))).
Proof.
  intros Hp Hb. unfold mermaid_pass, sub_st.
  rewrite scan_prefix_kept.
  - rewrite emit_all_st_keep.
    replace (mermaid_tag ++ nl :: body ++ fence ++ post)
      with ((mermaid_tag ++ nl :: body ++ fence) ++ post)
      by (rewrite <- !app_assoc; simpl; rewrite <- app_assoc; reflexivity).
    rewrite (scan_hit_eq false re_mermaid _ _ post
               (RMatch (mermaid_tag ++ nl :: body ++ fence) []));
      [|simpl; lia|apply mermaid_match; assumption|reflexivity].
    rewrite (scan_blind false re_mermaid eq_refl post 0 _ None).
    cbn [emit_all_st]. rewrite replace_mermaid_figure.
    destruct (emit_all_st replace_mermaid (scan false re_mermaid None 0 post)
                (c + 1)) as [t st].
    reflexivity.
  - intros u v E Hv. unfold re_mermaid.
    apply match_at_lit_none.
    apply (starts_inside_suffix _ _ _ u v Hp E Hv).
Qed.

Lemma mermaid_pass_none doc c :
  contains mermaid_tag doc = false -> mermaid_pass doc c = (doc, c).
Proof.
  intros H. unfold mermaid_pass, sub_st.
  rewrite scan_no_match.
  - rewrite <- (app_nil_r (map Keep doc)), emit_all_st_keep.
    simpl. rewrite app_nil_r. reflexivity.
  - intros u v E. unfold re_mermaid. apply match_at_lit_none.
    apply (contains_false_suffix _ _ u v H E).
Qed.

Lemma figure_names n :
  contains (L "diagrams/diagram" ++ str_of_nat n ++ L ".png") (figure n) = true
  /\ contains (L "<figcaption>Figure " ++ str_of_nat n ++ L "</figcaption>")
       (figure n) = true.
Proof.
  split.
  - replace (figure n)
      with ((L "<figure>" ++ [nl] ++ L ("<img src=" ++ dq))
              ++ (L "diagrams/diagram" ++ str_of_nat n ++ L ".png")
              ++ (L (dq ++ " alt=" ++ dq ++ "Diagram ") ++ str_of_nat n
                  ++ L (dq ++ ">") ++ [nl]
                  ++ L "<figcaption>Figure " ++ str_of_nat n
                  ++ L "</figcaption>" ++ [nl] ++ L "</figure>")).
    + apply contains_app.
    + unfold figure. simpl. rewrite <- !app_assoc. reflexivity.
  - replace (figure n)
      with ((L "<figure>" ++ [nl]
               ++ L ("<img src=" ++ dq ++ "diagrams/diagram") ++ str_of_nat n
               ++ L (".png" ++ dq ++ " alt=" ++ dq ++ "Diagram ") ++ str_of_nat n
               ++ L (dq ++ ">") ++ [nl])
              ++ (L "<figcaption>Figure " ++ str_of_nat n ++ L "</figcaption>")
              ++ ([nl] ++ L "</figure>")).
    + apply contains_app.
    + unfold figure. rewrite <- !app_assoc. reflexivity.
Qed.

Lemma path_chars ml :
  forall u s s', path ml (seq (map Chr u)) s s' -> rest s = u ++ rest s'.
Proof.
  induction u as [|c u IH]; intros s s' P.
  - inversion P; subst. reflexivity.
  - destruct u as [|d u].
    + inversion P; subst. reflexivity.
    + change (seq (map Chr (c :: d :: u)))
        with (Seq (Chr c) (seq (map Chr (d :: u)))) in P.
      inversion P as [| | | | |? ? ? s1 ? P1 P2| | | | |]; subst.
      inversion P1; subst. apply IH in P2. simpl in *. rewrite P2. reflexivity.
Qed.

Lemma mermaid_path_shape s s' :
  path false re_mermaid s s' ->
  exists body, rest s = mermaid_tag ++ nl :: body ++ fence ++ rest s'.
Proof.
  unfold re_mermaid. intros P.
  change (seq [lit "```mermaid"; Chr nl; Star false any; lit "```"])
    with (Seq (lit "```mermaid") (Seq (Chr nl) (Seq (Star false any) (lit "```"))))
    in P.
  inversion P as [| | | | |? ? ? s1 ? P1 P2| | | | |]; subst.
  inversion P2 as [| | | | |? ? ? s2 ? P3 P4| | | | |]; subst.
  inversion P4 as [| | | | |? ? ? s3 ? P5 P6| | | | |]; subst.
  apply path_chars in P1. apply path_chars in P6.
  destruct (path_reads _ _ _ _ P5) as (body & E5 & _).
  inversion P3; subst. simpl in *.
  exists body. rewrite P1. unfold mermaid_tag, fence.
  f_equal. simpl. f_equal. rewrite E5, P6. reflexivity.
Qed.

Lemma mermaid_hit_shape doc mt :
  In (Hit mt) (mermaid_blocks doc) ->
  exists body, m_text mt = mermaid_tag ++ nl :: body ++ fence.
Proof.
  intros Hin. apply scan_hits in Hin. destruct Hin as (adv & p & s & H).
  apply match_at_inv in H. destruct H as (u & s' & cs & -> & -> & P & _).
  apply mermaid_path_shape in P. destruct P as (body & E). cbn [rest] in E.
  exists body. cbn [m_text].
  replace (mermaid_tag ++ nl :: body ++ fence ++ s')
    with ((mermaid_tag ++ nl :: body ++ fence) ++ s') in E
    by (rewrite <- !app_assoc; simpl; rewrite <- app_assoc; reflexivity).
  apply app_inv_tail in E. exact E.
Qed.

Lemma script_counter e md :
  read_md e = Returns md ->
  final_diagram_count (script e) = snd (mermaid_pass md 0).
Proof.
  intros H. unfold script. rewrite H.
  destruct (mermaid_pass md 0) as [md' n]. simpl.
  destruct (md_to_html md'); [|reflexivity].
  destruct (write_file e _ _); [|reflexivity].
  unfold handler, dies.
  destruct (write_pdf e _) as [pdf|x]; [|destruct (is_exception x); reflexivity].
  destruct (getsize e) as [size|x]; [reflexivity|].
  destruct (is_exception x); reflexivity.
Qed.

(** C2: the mermaid pass cuts the document into the characters it keeps
    and the mermaid blocks (each the opening fence with its tag, a
    newline, a content and the closing fence); its output is the document
    with the N-th block, in document order, replaced by the figure that
    names [diagrams/diagramN.png] and the caption [Figure N], numbered on
    from the counter it was given; the counter grows by one for each block.
    A run of the script starts the counter at 0, so that the first figure
    of a run is number 1, and nothing resets it between two conversions of
    one run: the second goes on from the count the first has left. *)
Theorem C2_mermaid_blocks_numbered :
  (forall doc c,
      mermaid_pass doc c
      = (number_from (c + 1) (mermaid_blocks doc),
         c + count_hits (mermaid_blocks doc)))
  /\ (forall doc,
         flat_map piece_text (mermaid_blocks doc) = doc
         /\ forall mt, In (Hit mt) (mermaid_blocks doc) ->
                       exists body, m_text mt = mermaid_tag ++ nl :: body ++ fence)
  /\ (forall n,
         contains (L "diagrams/diagram" ++ str_of_nat n ++ L ".png") (figure n)
         = true
         /\ contains (L "<figcaption>Figure " ++ str_of_nat n ++ L "</figcaption>")
              (figure n) = true)
  /\ (forall pre body post c,
         starts_inside mermaid_tag pre
           (mermaid_tag ++ nl :: body ++ fence ++ post) = false ->
         starts_inside fence body (fence ++ post) = false ->
         mermaid_pass (pre ++ mermaid_tag ++ nl :: body ++ fence ++ post) c
         = (pre ++ figure (c + 1) ++ fst (mermaid_pass post (c + 1)),
            snd (mermaid_pass post (c + 1))))
  /\ (forall doc c, contains mermaid_tag doc = false -> mermaid_pass doc c = (doc, c))
  /\ (forall e md,
         read_md e = Returns md ->
         final_diagram_count (script e) = count_hits (mermaid_blocks md))
  /\ (forall doc1 doc2,
         mermaid_pass doc2 (snd (mermaid_pass doc1 0))
         = (number_from (count_hits (mermaid_blocks doc1) + 1) (mermaid_blocks doc2),
            count_hits (mermaid_blocks doc1) + count_hits (mermaid_blocks doc2))).
Proof.
  split; [exact mermaid_pass_numbered|].
  split; [intros doc; split;
          [apply (scan_text false re_mermaid doc 0 None)
          | intros mt; apply mermaid_hit_shape]|].
  split; [exact figure_names|].
  split; [exact mermaid_pass_block|].
  split; [exact mermaid_pass_none|].
  split.
  - intros e md H. rewrite (script_counter e md H), mermaid_pass_numbered.
    reflexivity.
  - intros doc1 doc2. rewrite (mermaid_pass_numbered doc1 0).
    cbn [snd]. rewrite mermaid_pass_numbered. reflexivity.
Qed.

Lemma C2_mermaid_blocks_numbered_witness :
  mermaid_pass (L "intro " ++ mermaid_tag ++ nl :: L "graph TD; A-->B;" ++ fence
                ++ L " outro") 4
  = (L "intro " ++ figure (4 + 1) ++ fst (mermaid_pass (L " outro") (4 + 1)),
     snd (mermaid_pass (L " outro") (4 + 1)))
  /\ mermaid_pass (L "no diagram here") 7 = (L "no diagram here", 7)
  /\ final_diagram_count (script failing_env) = count_hits (mermaid_blocks (L "# Hi")).
Proof.
  destruct C2_mermaid_blocks_numbered as (_ & _ & _ & H4 & H5 & H6 & _).
  split; [apply H4; reflexivity|].
  split; [apply H5; reflexivity | apply H6; reflexivity].
Defined.

(** ** Patterns made of single characters *)

Lemma starts_with_cls_app pat1 pat2 :
  forall s,
    starts_with_cls (pat1 ++ pat2) s
    = starts_with_cls pat1 s && starts_with_cls pat2 (skipn (length pat1) s).
Proof.
  induction pat1 as [|q pat1 IH]; intros s; [reflexivity|].
  destruct s as [|c s]; [reflexivity|]. simpl.
  rewrite IH, andb_assoc. reflexivity.
Qed.

Lemma starts_with_pat_of t s : starts_with_cls (pat_of t) s = starts_with (L t) s.
Proof.
  unfold pat_of. revert s. induction (L t) as [|a l IH]; intros s; [reflexivity|].
  destruct s as [|c s]; [reflexivity|]. simpl. rewrite IH. reflexivity.
Qed.

Lemma starts_with_cls_inv pat :
  forall s, starts_with_cls pat s = true ->
            s = firstn (length pat) s ++ skipn (length pat) s
            /\ length (firstn (length pat) s) = length pat.
Proof.
  induction pat as [|q pat IH]; intros s H.
  - split; reflexivity.
  - destruct s as [|c s]; [discriminate|]. simpl in H.
    apply andb_true_iff in H. destruct H as [_ H].
    destruct (IH s H) as [E1 E2]. simpl. split; congruence.
Qed.

Lemma firstn_plus (A : Type) (n k : nat) :
  forall l : list A, firstn (n + k) l = firstn n l ++ firstn k (skipn n l).
Proof.
  induction n as [|n IH]; intros l; [reflexivity|].
  destruct l as [|x l]; simpl.
  - rewrite firstn_nil. reflexivity.
  - rewrite IH. reflexivity.
Qed.

(** The matcher on such a pattern is a test of the characters ahead. *)
Lemma m_flat (A : Type) ml r :
  forall pat, flat r = Some pat ->
  forall (k : mstate -> option A) p s cs,
    m ml r k (MState p s cs)
    = if starts_with_cls pat s
      then k (MState (last_chr (firstn (length pat) s) p)
                     (skipn (length pat) s) cs)
      else None.
Proof.
  induction r; intros pat Hf k q s cs; simpl in Hf; try discriminate.
  - injection Hf as <-. reflexivity.
  - injection Hf as <-. destruct s as [|d s]; [reflexivity|].
    rewrite m_chr. simpl. rewrite andb_true_r. reflexivity.
  - injection Hf as <-. destruct s as [|d s]; [reflexivity|].
    rewrite m_cls. simpl. rewrite andb_true_r. reflexivity.
  - destruct (flat r1) as [p1|]; [|discriminate].
    destruct (flat r2) as [p2|]; [|discriminate].
    injection Hf as <-.
    rewrite m_seq, (IHr1 p1 eq_refl), starts_with_cls_app.
    destruct (starts_with_cls p1 s) eqn:E1; [|reflexivity].
    rewrite (IHr2 p2 eq_refl). simpl andb.
    destruct (starts_with_cls p2 (skipn (length p1) s)) eqn:E2; [|reflexivity].
    rewrite length_app, firstn_plus, last_chr_app, skipn_skipn.
    rewrite (Nat.add_comm (length p2)). reflexivity.
Qed.

Lemma path_flat ml r :
  forall pat s s',
    flat r = Some pat -> path ml r s s' ->
    starts_with_cls pat (rest s) = true
    /\ rest s' = skipn (length pat) (rest s) /\ caps s' = caps s.
Proof.
  induction r; intros pat s s' Hf P; simpl in Hf; try discriminate.
  - injection Hf as <-. inversion P; subst. auto.
  - injection Hf as <-. inversion P; subst. simpl.
    unfold ceq. rewrite Ascii.eqb_refl. auto.
  - injection Hf as <-.
    inversion P as [| |? ? ? ? ? Hq| | | | | | | |]; subst. simpl.
    rewrite Hq. auto.
  - destruct (flat r1) as [p1|] eqn:F1; [|discriminate].
    destruct (flat r2) as [p2|] eqn:F2; [|discriminate].
    injection Hf as <-.
    inversion P as [| | | | |? ? ? s1 ? P1 P2| | | | |]; subst.
    destruct (IHr1 p1 s s1 eq_refl P1) as (E1 & R1 & C1).
    destruct (IHr2 p2 s1 s' eq_refl P2) as (E2 & R2 & C2).
    rewrite starts_with_cls_app, E1, <- R1, E2.
    rewrite length_app, R2, R1, skipn_skipn, C2, C1.
    rewrite (Nat.add_comm (length p2)). auto.
Qed.

Lemma path_alt_in ml rs s s' :
  path ml (alt rs) s s' -> exists r, In r rs /\ path ml r s s'.
Proof.
  revert s s'. induction rs as [|r rs IH]; intros s s' P.
  - simpl in P. inversion P; subst. discriminate.
  - destruct rs as [|r2 rs].
    + exists r. split; [left; reflexivity | exact P].
    + change (alt (r :: r2 :: rs)) with (Alt r (alt (r2 :: rs))) in P.
      inversion P; subst.
      * exists r. split; [left; reflexivity | assumption].
      * destruct (IH _ _ H3) as (r' & Hin & P').
        exists r'. split; [right; exact Hin | exact P'].
Qed.

Lemma path_star_cls ml g q s s' :
  path ml (Star g (Cls q)) s s' ->
  exists u, rest s = u ++ rest s' /\ Forall (fun c => q c = true) u.
Proof.
  remember (Star g (Cls q)) as r eqn:Er. intros P. revert Er.
  induction P; intros Er; try discriminate.
  - exists []. split; [reflexivity | constructor].
  - injection Er as -> ->.
    destruct (IHP2 eq_refl) as (u & E & Hu).
    inversion P1 as [| |? c ? t ? Hc| | | | | | | |]; subst. simpl in *.
    exists (c :: u). split; [rewrite E; reflexivity | constructor; assumption].
Qed.

Lemma lstrip_spaces u w :
  Forall (fun c => is_space c = true) u -> lstrip (u ++ w) = lstrip w.
Proof.
  intros H. induction H as [|c u Hc _ IH]; [reflexivity|].
  simpl. rewrite Hc. exact IH.
Qed.

Lemma starts_with_cls_ceq a pat s :
  starts_with_cls (ceq a :: pat) s = true -> exists t, s = a :: t.
Proof.
  destruct s as [|c t]; [discriminate|]. cbn [starts_with_cls].
  intros H. apply andb_true_iff in H. destruct H as [H _].
  apply Ascii.eqb_eq in H. subst c. eauto.
Qed.

(** Where one of the cleanup patterns matches, the text has the shape
    the pattern describes. *)
Lemma empty_p_shape s s' :
  path false re_empty_p s s' -> empty_paragraph (rest s) = true.
Proof.
  unfold re_empty_p. intros P.
  change (seq [lit "<p>"; Star true space; lit "</p>"])
    with (Seq (lit "<p>") (Seq (Star true space) (lit "</p>"))) in P.
  inversion P as [| | | | |? ? ? s1 ? P1 P2| | | | |]; subst.
  inversion P2 as [| | | | |? ? ? s2 ? P3 P4| | | | |]; subst.
  apply path_chars in P1. apply path_chars in P4.
  apply path_star_cls in P3. destruct P3 as (u & E & Hu).
  unfold empty_paragraph, p_open, p_close. rewrite P1, E, P4, starts_with_app.
  change (skipn 3 (L "<p>" ++ u ++ L "</p>" ++ rest s'))
    with (u ++ L "</p>" ++ rest s').
  rewrite lstrip_spaces by exact Hu.
  change (lstrip (L "</p>" ++ rest s')) with (L "</p>" ++ rest s').
  rewrite starts_with_app. reflexivity.
Qed.

Lemma p_open_shape s s' :
  path false re_p_open s s' -> p_before_block (rest s) = true.
Proof.
  unfold re_p_open. intros P.
  match type of P with
  | path _ (seq [?a; ?b; ?c]) _ _ => change (seq [a; b; c]) with (Seq a (Seq b c)) in P
  end.
  inversion P as [| | | | |? ? ? s1 ? P1 P2| | | | |]; subst.
  inversion P2 as [| | | | |? ? ? s2 ? P3 P4| | | | |]; subst.
  apply path_chars in P1.
  apply path_star_cls in P3. destruct P3 as (u & E & Hu).
  inversion P4 as [| | | | | | | | | |? ? ? s3 P5]; subst.
  apply (path_alt_in false
           [Seq (lit "<h") digit; lit "<hr"; lit "<figure"; lit "<table";
            lit "<ul"; lit "<ol"; lit "<pre"]) in P5.
  destruct P5 as (r & Hin & P5).
  unfold p_before_block, p_open. rewrite P1, E, starts_with_app.
  change (skipn 3 (L "<p>" ++ u ++ rest s2)) with (u ++ rest s2).
  rewrite lstrip_spaces by exact Hu.
  assert (Hl : lstrip (rest s2) = rest s2).
  { destruct Hin as [<- | Hin]; [|repeat (destruct Hin as [<- | Hin]); try contradiction];
      (eapply path_flat in P5; [|reflexivity]);
      destruct P5 as (E5 & _);
      apply (starts_with_cls_ceq "<"%char) in E5; destruct E5 as (t & ->);
      reflexivity. }
  rewrite Hl. cbn [andb]. apply existsb_exists.
  destruct Hin as [<- | Hin]; [|repeat (destruct Hin as [<- | Hin]); try contradiction];
    (eapply path_flat in P5; [|reflexivity]); destruct P5 as (E5 & _);
    eexists; (split; [|exact E5]); simpl; tauto.
Qed.

Lemma p_close_shape s s' :
  path false re_p_close s s' -> close_before_p (rest s) = true.
Proof.
  unfold re_p_close. intros P.
  match type of P with
  | path _ (seq [?a; ?b; ?c]) _ _ => change (seq [a; b; c]) with (Seq a (Seq b c)) in P
  end.
  inversion P as [| | | | |? ? ? s1 ? P1 P2| | | | |]; subst.
  inversion P2 as [| | | | |? ? ? s2 ? P3 P4| | | | |]; subst.
  apply path_chars in P4.
  apply path_star_cls in P3. destruct P3 as (u & E & Hu).
  inversion P1 as [| | | | | | | | | |? ? ? s3 P5]; subst.
  apply (path_alt_in false
           [seq [lit "</h"; digit; Chr ">"]; lit "</table>"; lit "</ul>";
            lit "</ol>"; lit "</pre>"; lit "</figure>"]) in P5.
  destruct P5 as (r & Hin & P5).
  cbn [rest] in E.
  unfold close_before_p. apply existsb_exists.
  destruct Hin as [<- | Hin]; [|repeat (destruct Hin as [<- | Hin]); try contradiction];
    (eapply path_flat in P5; [|reflexivity]); destruct P5 as (E5 & R5 & _);
    eexists; (split; [|rewrite E5, <- R5, E, P4, lstrip_spaces by exact Hu;
                       change (lstrip (L "</p>" ++ rest s'))
                         with (L "</p>" ++ rest s');
                       unfold p_close; rewrite starts_with_app;
                       reflexivity]); simpl; tauto.
Qed.

(** ** Properties that hold at no position *)

Lemma nowhere_spec bad :
  forall s, nowhere bad s = true <-> (forall u v, s = u ++ v -> bad v = false).
Proof.
  induction s as [|c s IH]; simpl.
  - rewrite andb_true_r, negb_true_iff. split.
    + intros H u v E. destruct u; [|discriminate]. simpl in E. subst v. exact H.
    + intros H. apply (H [] []). reflexivity.
  - rewrite andb_true_iff, negb_true_iff, IH. split.
    + intros [H1 H2] u v E. destruct u as [|d u].
      * simpl in E. subst v. exact H1.
      * simpl in E. injection E as _ E. apply (H2 u v E).
    + intros H. split.
      * apply (H [] (c :: s)). reflexivity.
      * intros u v E. apply (H (c :: u) v). simpl. congruence.
Qed.

Lemma nowhere_app bad a t :
  (forall u v, a = u ++ v -> v <> [] -> bad (v ++ t) = false) ->
  nowhere bad t = true -> nowhere bad (a ++ t) = true.
Proof.
  revert t. induction a as [|c a IH]; intros t H Ht; [exact Ht|].
  simpl. apply andb_true_iff. split.
  - apply negb_true_iff. apply (H [] (c :: a)); [reflexivity | discriminate].
  - apply IH; [|exact Ht]. intros u v E Hv.
    apply (H (c :: u) v); [simpl; congruence | exact Hv].
Qed.

Lemma nowhere_contains p s : nowhere (starts_with p) s = negb (contains p s).
Proof.
  induction s as [|c s IH]; simpl.
  - rewrite andb_true_r, orb_false_r. reflexivity.
  - rewrite IH, negb_orb. reflexivity.
Qed.

Lemma sub_nowhere ml r f bad s :
  (forall p v, bad v = false -> match_at ml r false p v = None) ->
  nowhere bad s = true -> sub ml r f s = s.
Proof.
  intros Hb Hs. apply sub_no_match. intros u v E.
  apply Hb. rewrite nowhere_spec in Hs. apply (Hs u v E).
Qed.

Lemma empty_p_none p v :
  empty_paragraph v = false -> match_at false re_empty_p false p v = None.
Proof.
  intros H. apply match_at_none. intros s' P.
  apply empty_p_shape in P. simpl in P. congruence.
Qed.

Lemma p_open_none p v :
  p_before_block v = false -> match_at false re_p_open false p v = None.
Proof.
  intros H. apply match_at_none. intros s' P.
  apply p_open_shape in P. simpl in P. congruence.
Qed.

Lemma p_close_none p v :
  close_before_p v = false -> match_at false re_p_close false p v = None.
Proof.
  intros H. apply match_at_none. intros s' P.
  apply p_close_shape in P. simpl in P. congruence.
Qed.

(** ** Occurrences across a boundary *)

Arguments ceq : simpl never.

Lemma cls_barrier pat :
  forall v c r,
    forallb (fun q => negb (q c)) (tl pat) = true -> v <> [] ->
    starts_with_cls pat (v ++ c :: r) = true -> starts_with_cls pat v = true.
Proof.
  induction pat as [|q pat IH]; intros v c r Hb Hv H; [reflexivity|].
  destruct v as [|d v]; [contradiction|].
  simpl in H |- *. apply andb_true_iff in H. destruct H as [Hq H].
  rewrite Hq. simpl. simpl in Hb.
  destruct v as [|e v].
  - simpl in H. destruct pat as [|q' pat]; [reflexivity|].
    simpl in H, Hb. apply andb_true_iff in H. destruct H as [H _].
    apply andb_true_iff in Hb. destruct Hb as [Hb _].
    rewrite H in Hb. discriminate.
  - apply (IH (e :: v) c r); [|discriminate|exact H].
    destruct pat as [|q' pat]; [reflexivity|].
    simpl in Hb |- *. apply andb_true_iff in Hb. tauto.
Qed.

Lemma starts_with_as_cls p :
  forall s, starts_with p s = starts_with_cls (map ceq p) s.
Proof.
  induction p as [|a p IH]; intros s; [reflexivity|].
  destruct s as [|c s]; [reflexivity|]. simpl. rewrite IH. reflexivity.
Qed.

Lemma forallb_over_map (A B : Type) (f : B -> bool) (g : A -> B) l :
  forallb f (map g l) = forallb (fun x => f (g x)) l.
Proof. induction l as [|x l IH]; simpl; [reflexivity | rewrite IH; reflexivity]. Qed.

Lemma str_barrier p v c r :
  forallb (fun a => negb (ceq a c)) (tl p) = true -> v <> [] ->
  starts_with p (v ++ c :: r) = true -> starts_with p v = true.
Proof.
  rewrite !starts_with_as_cls. intros Hb Hv H.
  apply (cls_barrier _ v c r); [|exact Hv|exact H].
  destruct p as [|a p]; [reflexivity|]. simpl in *.
  rewrite forallb_over_map. exact Hb.
Qed.

Lemma insulated_inv s : insulated s = true -> s = [] \/ exists r, s = nl :: r.
Proof.
  destruct s as [|c s]; [auto|]. simpl. intros H.
  apply Ascii.eqb_eq in H. subst c. right. eauto.
Qed.

Lemma cls_insulated pat v s :
  forallb (fun q => negb (q nl)) (tl pat) = true -> v <> [] ->
  insulated s = true ->
  starts_with_cls pat (v ++ s) = true -> starts_with_cls pat v = true.
Proof.
  intros Hb Hv Hs H. apply insulated_inv in Hs. destruct Hs as [-> | (r & ->)].
  - rewrite app_nil_r in H. exact H.
  - apply (cls_barrier pat v nl r Hb Hv H).
Qed.

Lemma str_insulated p v s :
  forallb (fun a => negb (ceq a nl)) (tl p) = true -> v <> [] ->
  insulated s = true ->
  starts_with p (v ++ s) = true -> starts_with p v = true.
Proof.
  intros Hb Hv Hs H. apply insulated_inv in Hs. destruct Hs as [-> | (r & ->)].
  - rewrite app_nil_r in H. exact H.
  - apply (str_barrier p v nl r Hb Hv H).
Qed.

Lemma contains_app_false p u v :
  contains p (u ++ v) = false -> contains p v = false.
Proof.
  induction u as [|c u IH]; intros H; [exact H|].
  simpl in H. apply orb_false_iff in H. apply IH. tauto.
Qed.

Lemma contains_head p s : contains p s = false -> starts_with p s = false.
Proof. destruct s; simpl; intros H; apply orb_false_iff in H; tauto. Qed.

Lemma tag_free_suffix u v : tag_free (u ++ v) = true -> tag_free v = true.
Proof.
  unfold tag_free. rewrite !andb_true_iff, !negb_true_iff.
  intros [H1 H2]. split; eapply contains_app_false; eassumption.
Qed.

Lemma tag_free_inv s :
  tag_free s = true -> contains p_open s = false /\ contains p_close s = false.
Proof. unfold tag_free. rewrite andb_true_iff, !negb_true_iff. auto. Qed.

Lemma calm_head s : calm s = true -> starts_with p_close s = false.
Proof.
  intros H. destruct (starts_with p_close s) eqn:E; [|reflexivity].
  apply starts_with_inv in E. destruct E as (t & ->).
  unfold calm in H. change (lstrip (p_close ++ t)) with (p_close ++ t) in H.
  rewrite starts_with_app in H. discriminate.
Qed.

(** ** Inside a chunk that is left as it is *)

Lemma raw_no_open v s :
  tag_free v = true -> insulated s = true -> v <> [] ->
  starts_with p_open (v ++ s) = false.
Proof.
  intros Hv Hs Hne. destruct (starts_with p_open (v ++ s)) eqn:E; [|reflexivity].
  apply str_insulated in E; [|reflexivity|exact Hne|exact Hs].
  apply tag_free_inv in Hv. destruct Hv as [Hv _].
  apply contains_head in Hv. congruence.
Qed.

Lemma raw_no_close v s :
  tag_free v = true -> insulated s = true -> calm s = true ->
  starts_with p_close (v ++ s) = false.
Proof.
  intros Hv Hs Hc. destruct v as [|c v]; [apply calm_head; exact Hc|].
  destruct (starts_with p_close ((c :: v) ++ s)) eqn:E; [|reflexivity].
  apply str_insulated in E; [|reflexivity|discriminate|exact Hs].
  apply tag_free_inv in Hv. destruct Hv as [_ Hv].
  apply contains_head in Hv. congruence.
Qed.

Lemma raw_calm :
  forall v s, tag_free v = true -> insulated s = true -> calm s = true ->
              calm (v ++ s) = true.
Proof.
  induction v as [|c v IH]; intros s Hv Hs Hc; [exact Hc|].
  unfold calm. simpl app. simpl lstrip. destruct (is_space c) eqn:E.
  - apply IH; [|exact Hs|exact Hc].
    apply (tag_free_suffix [c] v). exact Hv.
  - apply negb_true_iff. apply (raw_no_close (c :: v) s Hv Hs Hc).
Qed.

Lemma raw_not_nl_close v s :
  tag_free v = true -> insulated s = true -> calm s = true -> v <> [] ->
  nl_before_close (v ++ s) = false.
Proof.
  intros Hv Hs Hc Hne. destruct v as [|c v]; [contradiction|].
  unfold nl_before_close. cbn [starts_with app].
  rewrite (raw_no_close v s); [apply andb_false_r| |exact Hs|exact Hc].
  apply (tag_free_suffix [c] v). exact Hv.
Qed.

Lemma raw_not_empty_p v s :
  tag_free v = true -> insulated s = true -> v <> [] ->
  empty_paragraph (v ++ s) = false.
Proof.
  intros Hv Hs Hne. unfold empty_paragraph.
  rewrite raw_no_open by assumption. reflexivity.
Qed.

Lemma raw_not_p_block v s :
  tag_free v = true -> insulated s = true -> v <> [] ->
  p_before_block (v ++ s) = false.
Proof.
  intros Hv Hs Hne. unfold p_before_block.
  rewrite raw_no_open by assumption. reflexivity.
Qed.

Lemma skipn_cls pat v s :
  starts_with_cls pat v = true ->
  skipn (length pat) (v ++ s) = skipn (length pat) v ++ s.
Proof.
  intros H. destruct (starts_with_cls_inv pat v H) as [E El].
  rewrite E at 1. rewrite <- app_assoc, skipn_app, El, Nat.sub_diag.
  rewrite <- El at 1. rewrite skipn_all. reflexivity.
Qed.

Lemma skipn_suffix (A : Type) n (v : list A) : exists u, v = u ++ skipn n v.
Proof. exists (firstn n v). symmetry. apply firstn_skipn. Qed.

Lemma closes_no_nl :
  forall pat, In pat block_closes ->
              forallb (fun q => negb (q nl)) (tl pat) = true.
Proof.
  intros pat Hin. simpl in Hin.
  repeat (destruct Hin as [<- | Hin]; [reflexivity|]). contradiction.
Qed.

Lemma closes_no_lt :
  forall pat, In pat block_closes ->
              forallb (fun q => negb (q "<"%char)) (tl pat) = true.
Proof.
  intros pat Hin. simpl in Hin.
  repeat (destruct Hin as [<- | Hin]; [reflexivity|]). contradiction.
Qed.

Lemma raw_not_close_p v s :
  tag_free v = true -> insulated s = true -> calm s = true -> v <> [] ->
  close_before_p (v ++ s) = false.
Proof.
  intros Hv Hs Hc Hne.
  destruct (close_before_p (v ++ s)) eqn:E; [|reflexivity].
  unfold close_before_p in E. apply existsb_exists in E.
  destruct E as (pat & Hin & E). apply andb_true_iff in E. destruct E as [E1 E2].
  apply cls_insulated in E1; [|apply closes_no_nl; exact Hin|exact Hne|exact Hs].
  rewrite (skipn_cls pat v s E1) in E2.
  destruct (skipn_suffix _ (length pat) v) as (u & Eu).
  assert (Hf : tag_free (skipn (length pat) v) = true).
  { apply (tag_free_suffix u). rewrite <- Eu. exact Hv. }
  pose proof (raw_calm _ s Hf Hs Hc) as Hcalm.
  unfold calm in Hcalm. rewrite E2 in Hcalm. discriminate.
Qed.

(** ** Inside the text of a paragraph element *)

Lemma last_suffix (u v : str) d : v <> [] -> last (u ++ v) d = last v d.
Proof.
  intros Hv. induction u as [|c u IH]; [reflexivity|].
  simpl app. simpl last. rewrite IH.
  destruct (u ++ v) eqn:E; [|reflexivity].
  apply app_eq_nil in E. destruct E as [_ E]. contradiction.
Qed.

Lemma body_ok_inv x :
  body_ok x = true ->
  exists c x', x = c :: x' /\ is_space c = false /\ ceq c "<" = false
               /\ is_space (last x " "%char) = false /\ tag_free x = true.
Proof.
  unfold body_ok. destruct x as [|c x']; [discriminate|].
  rewrite !andb_true_iff, !negb_true_iff. intros [[[H1 H2] H3] H4].
  exists c, x'. auto.
Qed.

Lemma body_no_close v r :
  v <> [] -> tag_free v = true -> starts_with p_close (v ++ p_close ++ r) = false.
Proof.
  intros Hne Hv. destruct (starts_with p_close (v ++ p_close ++ r)) eqn:E;
    [|reflexivity].
  change (p_close ++ r) with ("<"%char :: L "/p>" ++ r) in E.
  apply str_barrier in E; [|reflexivity|exact Hne].
  apply tag_free_inv in Hv. destruct Hv as [_ Hv].
  apply contains_head in Hv. congruence.
Qed.

Lemma body_no_open v r :
  v <> [] -> tag_free v = true -> starts_with p_open (v ++ p_close ++ r) = false.
Proof.
  intros Hne Hv. destruct (starts_with p_open (v ++ p_close ++ r)) eqn:E;
    [|reflexivity].
  change (p_close ++ r) with ("<"%char :: L "/p>" ++ r) in E.
  apply str_barrier in E; [|reflexivity|exact Hne].
  apply tag_free_inv in Hv. destruct Hv as [Hv _].
  apply contains_head in Hv. congruence.
Qed.

Lemma body_calm :
  forall v r, v <> [] -> is_space (last v " "%char) = false ->
              tag_free v = true -> calm (v ++ p_close ++ r) = true.
Proof.
  induction v as [|c v IH]; intros r Hne Hl Hv; [contradiction|].
  unfold calm. simpl app. simpl lstrip.
  destruct (is_space c) eqn:E.
  - destruct v as [|d v]; [simpl in Hl; congruence|].
    apply IH; [discriminate|exact Hl|].
    apply (tag_free_suffix [c]). exact Hv.
  - apply negb_true_iff. apply (body_no_close (c :: v) r); [discriminate|exact Hv].
Qed.

Lemma space_nl c : is_space c = false -> ceq nl c = false.
Proof.
  intros H. destruct (ceq nl c) eqn:E; [|reflexivity].
  apply Ascii.eqb_eq in E. subst c. discriminate.
Qed.

Lemma body_not_nl_close v r :
  v <> [] -> is_space (last v " "%char) = false -> tag_free v = true ->
  nl_before_close (v ++ p_close ++ r) = false.
Proof.
  intros Hne Hl Hv. destruct v as [|c v]; [contradiction|].
  unfold nl_before_close. cbn [starts_with app].
  destruct v as [|d v].
  - simpl in Hl. rewrite (space_nl c Hl). reflexivity.
  - rewrite (body_no_close (d :: v) r); [apply andb_false_r|discriminate|].
    apply (tag_free_suffix [c]). exact Hv.
Qed.

Lemma body_not_empty_p v r :
  v <> [] -> tag_free v = true -> empty_paragraph (v ++ p_close ++ r) = false.
Proof.
  intros Hne Hv. unfold empty_paragraph.
  rewrite body_no_open by assumption. reflexivity.
Qed.

Lemma body_not_p_block v r :
  v <> [] -> tag_free v = true -> p_before_block (v ++ p_close ++ r) = false.
Proof.
  intros Hne Hv. unfold p_before_block.
  rewrite body_no_open by assumption. reflexivity.
Qed.

Lemma starts_with_cls_more pat :
  forall v s, starts_with_cls pat v = true -> starts_with_cls pat (v ++ s) = true.
Proof.
  induction pat as [|q pat IH]; intros v s H; [reflexivity|].
  destruct v as [|c v]; [discriminate|]. simpl in *.
  apply andb_true_iff in H. destruct H as [H1 H2].
  rewrite H1, (IH v s H2). reflexivity.
Qed.

Lemma skipn_nil_length (A : Type) n (v : list A) :
  length (firstn n v) = n -> skipn n v = [] -> length v = n.
Proof.
  intros H1 H2. rewrite <- (firstn_skipn n v), H2, app_nil_r. exact H1.
Qed.

(** Behind a part of the text of a paragraph element, the pattern of the
    last cleanup substitution fits exactly when that part is a block-level
    close tag. *)
Lemma body_close_p v r :
  v <> [] -> is_space (last v " "%char) = false -> tag_free v = true ->
  close_before_p (v ++ p_close ++ r) = is_closer v.
Proof.
  intros Hne Hl Hv.
  destruct (is_closer v) eqn:Ec.
  - unfold is_closer in Ec. apply existsb_exists in Ec.
    destruct Ec as (pat & Hin & Ec). apply andb_true_iff in Ec.
    destruct Ec as [E1 E2]. apply Nat.eqb_eq in E2.
    unfold close_before_p. apply existsb_exists. exists pat. split; [exact Hin|].
    rewrite (starts_with_cls_more pat v _ E1), (skipn_cls pat v _ E1).
    rewrite <- E2, skipn_all.
    change (lstrip ([] ++ p_close ++ r)) with (p_close ++ r).
    rewrite starts_with_app. reflexivity.
  - destruct (close_before_p (v ++ p_close ++ r)) eqn:E; [|reflexivity].
    exfalso. unfold close_before_p in E. apply existsb_exists in E.
    destruct E as (pat & Hin & E). apply andb_true_iff in E.
    destruct E as [E1 E2].
    change (p_close ++ r) with ("<"%char :: L "/p>" ++ r) in E1.
    apply cls_barrier in E1; [|apply closes_no_lt; exact Hin|exact Hne].
    rewrite (skipn_cls pat v _ E1) in E2.
    destruct (skipn (length pat) v) as [|d w] eqn:Ew.
    + assert (El : length v = length pat).
      { apply skipn_nil_length; [|exact Ew].
        apply (starts_with_cls_inv pat v E1). }
      assert (Ht : is_closer v = true).
      { unfold is_closer. apply existsb_exists. exists pat.
        split; [exact Hin|]. rewrite E1, El, Nat.eqb_refl. reflexivity. }
      congruence.
    + destruct (skipn_suffix _ (length pat) v) as (u & Eu). rewrite Ew in Eu.
      assert (Hc : calm ((d :: w) ++ p_close ++ r) = true).
      { apply body_calm; [discriminate| |].
        - rewrite Eu in Hl. rewrite last_suffix in Hl by discriminate. exact Hl.
        - apply (tag_free_suffix u). rewrite <- Eu. exact Hv. }
      unfold calm in Hc. rewrite E2 in Hc. discriminate.
Qed.

(** ** The tags themselves *)

Lemma open_tag_clean c x t :
  is_space c = false -> ceq c "<" = false ->
  forall u v, p_open = u ++ v -> v <> [] ->
              nl_before_close (v ++ c :: x ++ t) = false
              /\ empty_paragraph (v ++ c :: x ++ t) = false
              /\ p_before_block (v ++ c :: x ++ t) = false
              /\ close_before_p (v ++ c :: x ++ t) = false.
Proof.
  intros Hs Hc u v E Hv.
  assert (Hc' : ceq "<" c = false).
  { unfold ceq in *. rewrite Ascii.eqb_sym. exact Hc. }
  destruct u as [|a1 [|a2 [|a3 [|a4 u]]]]; simpl in E; inversion E; subst;
    try contradiction; try (repeat split; reflexivity).
  repeat split; try reflexivity.
  - unfold empty_paragraph.
    change (skipn 3 (p_open ++ c :: x ++ t)) with (c :: x ++ t).
    cbn [lstrip]. rewrite Hs. cbn [starts_with p_close L list_ascii_of_string].
    rewrite Hc'. apply andb_false_r.
  - unfold p_before_block.
    change (skipn 3 (p_open ++ c :: x ++ t)) with (c :: x ++ t).
    cbn [lstrip]. rewrite Hs.
    cbn [existsb block_opens starts_with_cls pat_of map L list_ascii_of_string app].
    rewrite Hc'. reflexivity.
Qed.

Lemma close_tag_clean t :
  forall u v, p_close = u ++ v -> v <> [] ->
              nl_before_close (v ++ t) = false
              /\ empty_paragraph (v ++ t) = false
              /\ p_before_block (v ++ t) = false
              /\ close_before_p (v ++ t) = false.
Proof.
  intros u v E Hv.
  destruct u as [|a1 [|a2 [|a3 [|a4 [|a5 u]]]]]; simpl in E; inversion E; subst;
    try contradiction; repeat split; reflexivity.
Qed.

Lemma sep_clean d :
  calm d = true ->
  forall u v, sep = u ++ v -> v <> [] ->
              nl_before_close (v ++ d) = false
              /\ empty_paragraph (v ++ d) = false
              /\ p_before_block (v ++ d) = false
              /\ close_before_p (v ++ d) = false.
Proof.
  intros Hd u v E Hv.
  destruct u as [|a1 [|a2 [|a3 u]]]; simpl in E; inversion E; subst;
    try contradiction; repeat split; try reflexivity.
  unfold nl_before_close. cbn [starts_with app].
  rewrite (calm_head d Hd). reflexivity.
Qed.

(** ** A property at no position of a document of pieces *)

Lemma render_doc_cons g g2 gs :
  render_doc (g :: g2 :: gs) = render g ++ sep ++ render_doc (g2 :: gs).
Proof. reflexivity. Qed.

Lemma calm_sep d : calm (sep ++ d) = calm d.
Proof. reflexivity. Qed.

Lemma calm_render g s :
  seg_ok g = true -> insulated s = true -> calm s = true ->
  calm (render g ++ s) = true.
Proof.
  intros Hg Hs Hc. destruct g as [t|x|x]; simpl in Hg.
  - apply raw_calm; assumption.
  - reflexivity.
  - reflexivity.
Qed.

Lemma doc_calm gs : forallb seg_ok gs = true -> calm (render_doc gs) = true.
Proof.
  induction gs as [|g gs IH]; intros H; [reflexivity|].
  simpl in H. apply andb_true_iff in H. destruct H as [Hg H].
  destruct gs as [|g2 gs].
  - unfold render_doc. simpl join. rewrite <- (app_nil_r (render g)).
    apply calm_render; [exact Hg | reflexivity | reflexivity].
  - rewrite render_doc_cons. apply calm_render; [exact Hg | reflexivity|].
    rewrite calm_sep. apply IH. exact H.
Qed.

Section DocNowhere.

Variable bad : str -> bool.
Variable extra : str -> bool.

Hypothesis bad_nil : bad [] = false.
Hypothesis bad_raw :
  forall v s, tag_free v = true -> insulated s = true -> calm s = true ->
              v <> [] -> bad (v ++ s) = false.
Hypothesis bad_body :
  forall v r, extra v = true -> v <> [] -> is_space (last v " "%char) = false ->
              tag_free v = true -> bad (v ++ p_close ++ r) = false.
Hypothesis extra_suffix : forall u v, extra (u ++ v) = true -> extra v = true.
Hypothesis bad_open :
  forall c x t, is_space c = false -> ceq c "<" = false ->
                forall u v, p_open = u ++ v -> v <> [] ->
                            bad (v ++ c :: x ++ t) = false.
Hypothesis bad_close :
  forall t u v, p_close = u ++ v -> v <> [] -> bad (v ++ t) = false.
Hypothesis bad_sep :
  forall d, calm d = true ->
            forall u v, sep = u ++ v -> v <> [] -> bad (v ++ d) = false.

Lemma raw_nowhere t s :
  tag_free t = true -> insulated s = true -> calm s = true ->
  nowhere bad s = true -> nowhere bad (t ++ s) = true.
Proof.
  intros Ht Hs Hc Hn. apply nowhere_app; [|exact Hn].
  intros u v E Hv. apply bad_raw; try assumption.
  apply (tag_free_suffix u). rewrite <- E. exact Ht.
Qed.

Lemma seg_nowhere g s :
  seg_fit extra g = true -> insulated s = true -> calm s = true ->
  nowhere bad s = true -> nowhere bad (render g ++ s) = true.
Proof.
  unfold seg_fit. intros Hg Hs Hc Hn.
  apply andb_true_iff in Hg. destruct Hg as [Hg Hx].
  destruct g as [t|x|x]; simpl in Hg; cbn [render].
  - apply raw_nowhere; assumption.
  - destruct (body_ok_inv x Hg) as (c & x' & -> & Hsp & Hlt & Hl & Hf).
    rewrite <- !app_assoc. apply nowhere_app.
    + intros u v E Hv. apply (bad_open c x' (p_close ++ s) Hsp Hlt u v E Hv).
    + apply nowhere_app.
      * intros u v E Hv. apply bad_body.
        -- apply (extra_suffix u). rewrite <- E. exact Hx.
        -- exact Hv.
        -- rewrite E in Hl. rewrite last_suffix in Hl by exact Hv. exact Hl.
        -- apply (tag_free_suffix u). rewrite <- E. exact Hf.
      * apply nowhere_app; [|exact Hn].
        intros u v E Hv. apply (bad_close s u v E Hv).
  - destruct (body_ok_inv x Hg) as (c & x' & -> & Hsp & Hlt & Hl & Hf).
    rewrite <- !app_assoc. apply nowhere_app.
    + intros u v E Hv. apply (bad_open c x' s Hsp Hlt u v E Hv).
    + apply raw_nowhere; assumption.
Qed.

Lemma seg_fit_ok gs :
  forallb (seg_fit extra) gs = true -> forallb seg_ok gs = true.
Proof.
  induction gs as [|g gs IH]; simpl; [auto|].
  unfold seg_fit at 1. rewrite !andb_true_iff. intros [[H1 _] H2]. auto.
Qed.

Lemma doc_nowhere gs :
  forallb (seg_fit extra) gs = true -> nowhere bad (render_doc gs) = true.
Proof.
  induction gs as [|g gs IH]; intros H.
  - simpl. rewrite bad_nil. reflexivity.
  - simpl in H. apply andb_true_iff in H. destruct H as [Hg H].
    destruct gs as [|g2 gs].
    + unfold render_doc. simpl join. rewrite <- (app_nil_r (render g)).
      apply seg_nowhere; try reflexivity; [exact Hg|].
      simpl. rewrite bad_nil. reflexivity.
    + rewrite render_doc_cons.
      pose proof (doc_calm (g2 :: gs) (seg_fit_ok _ H)) as Hc.
      apply seg_nowhere; [exact Hg | reflexivity | rewrite calm_sep; exact Hc |].
      apply nowhere_app; [|apply IH; exact H].
      intros u v E Hv. apply (bad_sep _ Hc u v E Hv).
Qed.

End DocNowhere.

Lemma close_tag_end_suffix u v :
  close_tag_end (u ++ v) = false -> close_tag_end v = false.
Proof.
  induction u as [|c u IH]; intros H; [exact H|].
  simpl app in H. cbn [close_tag_end] in H.
  apply orb_false_iff in H. apply IH. tauto.
Qed.

Lemma close_tag_end_head v : close_tag_end v = false -> is_closer v = false.
Proof. destruct v; cbn [close_tag_end]; intros H; apply orb_false_iff in H; tauto. Qed.

Lemma seg_fit_weaken extra gs :
  forallb (seg_fit extra) gs = true ->
  forallb (seg_fit (fun _ => true)) gs = true.
Proof.
  induction gs as [|g gs IH]; simpl; [auto|].
  rewrite !andb_true_iff. intros [Hg H]. split; [|auto].
  unfold seg_fit in *. apply andb_true_iff in Hg. destruct Hg as [Hg _].
  rewrite Hg. destruct g; reflexivity.
Qed.

Lemma doc_no_nl_close gs :
  forallb (seg_fit (fun _ => true)) gs = true ->
  nowhere nl_before_close (render_doc gs) = true.
Proof.
  apply doc_nowhere.
  - reflexivity.
  - exact raw_not_nl_close.
  - intros v r _ Hne Hl Hf. apply body_not_nl_close; assumption.
  - reflexivity.
  - intros c x t Hs Hc u v E Hv. apply (open_tag_clean c x t Hs Hc u v E Hv).
  - intros t u v E Hv. apply (close_tag_clean t u v E Hv).
  - intros d Hd u v E Hv. apply (sep_clean d Hd u v E Hv).
Qed.

Lemma doc_no_empty_p gs :
  forallb (seg_fit (fun _ => true)) gs = true ->
  nowhere empty_paragraph (render_doc gs) = true.
Proof.
  apply doc_nowhere.
  - reflexivity.
  - intros v s Hf Hs _ Hne. apply raw_not_empty_p; assumption.
  - intros v r _ Hne _ Hf. apply body_not_empty_p; assumption.
  - reflexivity.
  - intros c x t Hs Hc u v E Hv. apply (open_tag_clean c x t Hs Hc u v E Hv).
  - intros t u v E Hv. apply (close_tag_clean t u v E Hv).
  - intros d Hd u v E Hv. apply (sep_clean d Hd u v E Hv).
Qed.

Lemma doc_no_p_block gs :
  forallb (seg_fit (fun _ => true)) gs = true ->
  nowhere p_before_block (render_doc gs) = true.
Proof.
  apply doc_nowhere.
  - reflexivity.
  - intros v s Hf Hs _ Hne. apply raw_not_p_block; assumption.
  - intros v r _ Hne _ Hf. apply body_not_p_block; assumption.
  - reflexivity.
  - intros c x t Hs Hc u v E Hv. apply (open_tag_clean c x t Hs Hc u v E Hv).
  - intros t u v E Hv. apply (close_tag_clean t u v E Hv).
  - intros d Hd u v E Hv. apply (sep_clean d Hd u v E Hv).
Qed.

Lemma doc_no_close_p gs :
  forallb (seg_fit (fun x => negb (close_tag_end x))) gs = true ->
  nowhere close_before_p (render_doc gs) = true.
Proof.
  apply doc_nowhere.
  - reflexivity.
  - exact raw_not_close_p.
  - intros v r Hx Hne Hl Hf. rewrite body_close_p by assumption.
    apply close_tag_end_head. apply negb_true_iff. exact Hx.
  - intros u v H. apply negb_true_iff in H. apply negb_true_iff.
    apply (close_tag_end_suffix u v H).
  - intros c x t Hs Hc u v E Hv. apply (open_tag_clean c x t Hs Hc u v E Hv).
  - intros t u v E Hv. apply (close_tag_clean t u v E Hv).
  - intros d Hd u v E Hv. apply (sep_clean d Hd u v E Hv).
Qed.

(** A document of well-formed pieces in which no paragraph element with
    both tags ends with a block-level close tag has the four properties. *)
Lemma doc_clean gs :
  forallb (seg_fit (fun x => negb (close_tag_end x))) gs = true ->
  clean (render_doc gs) = true.
Proof.
  intros H. pose proof (seg_fit_weaken _ _ H) as H0. unfold clean.
  rewrite doc_no_empty_p, doc_no_nl_close, doc_no_p_block, doc_no_close_p
    by assumption.
  reflexivity.
Qed.

(** ** [strip], [split] and the paragraph pass *)

Lemma lstrip_suffix s : exists u, s = u ++ lstrip s.
Proof.
  induction s as [|c s (u & IH)]; [exists []; reflexivity|].
  simpl. destruct (is_space c).
  - exists (c :: u). simpl. congruence.
  - exists []. reflexivity.
Qed.

Lemma lstrip_head s c r : lstrip s = c :: r -> is_space c = false.
Proof.
  induction s as [|d s IH]; [discriminate|].
  simpl. destruct (is_space d) eqn:E; [exact IH|].
  intros H. injection H as <- _. exact E.
Qed.

Lemma rstrip_prefix s : exists w, s = rstrip s ++ w.
Proof.
  unfold rstrip. destruct (lstrip_suffix (rev s)) as (u & E).
  exists (rev u). rewrite <- rev_app_distr, <- E, rev_involutive. reflexivity.
Qed.

Lemma rstrip_last s d : rstrip s <> [] -> is_space (last (rstrip s) d) = false.
Proof.
  unfold rstrip. destruct (lstrip (rev s)) as [|c r] eqn:E; [contradiction|].
  intros _. simpl rev. rewrite last_last. apply (lstrip_head _ _ _ E).
Qed.

Lemma strip_inside s : exists u w, s = u ++ strip s ++ w.
Proof.
  unfold strip. destruct (lstrip_suffix s) as (u & E).
  destruct (rstrip_prefix (lstrip s)) as (w & E').
  exists u, w. rewrite <- E', <- E. reflexivity.
Qed.

Lemma strip_first s c r : strip s = c :: r -> is_space c = false.
Proof.
  unfold strip. intros H.
  destruct (rstrip_prefix (lstrip s)) as (w & E). rewrite H in E.
  apply (lstrip_head s c (r ++ w)). exact E.
Qed.

Lemma contains_more p a b : contains p a = true -> contains p (a ++ b) = true.
Proof.
  intros H. apply contains_inv in H. destruct H as (u & v & ->).
  rewrite <- !app_assoc. apply contains_app.
Qed.

Lemma contains_prefix_false p a b :
  contains p (a ++ b) = false -> contains p a = false.
Proof.
  intros H. destruct (contains p a) eqn:E; [|reflexivity].
  rewrite (contains_more p a b E) in H. discriminate.
Qed.

Lemma tag_free_prefix a b : tag_free (a ++ b) = true -> tag_free a = true.
Proof.
  unfold tag_free. rewrite !andb_true_iff, !negb_true_iff.
  intros [H1 H2]. split; eapply contains_prefix_false; eassumption.
Qed.

Lemma tag_free_strip s : tag_free s = true -> tag_free (strip s) = true.
Proof.
  intros H. destruct (strip_inside s) as (u & w & E). rewrite E in H.
  apply tag_free_suffix in H. apply tag_free_prefix in H. exact H.
Qed.

Lemma wrap_is_render chunk : wrap_paragraph chunk = render (seg_of chunk).
Proof.
  unfold wrap_paragraph, seg_of. destruct (strip chunk) as [|c r]; [reflexivity|].
  destruct (ceq c "<"); reflexivity.
Qed.

Lemma seg_of_ok chunk : tag_free chunk = true -> seg_ok (seg_of chunk) = true.
Proof.
  intros H. unfold seg_of. destruct (strip chunk) as [|c r] eqn:E; [exact H|].
  destruct (ceq c "<") eqn:Ec; [exact H|].
  simpl seg_ok. rewrite <- E. unfold body_ok. rewrite E at 1.
  rewrite (strip_first _ _ _ E), Ec. simpl andb.
  rewrite tag_free_strip by exact H. rewrite andb_true_r.
  apply negb_true_iff. unfold strip. apply rstrip_last.
  fold (strip chunk). rewrite E. discriminate.
Qed.

Lemma split_go_skip sep0 u :
  forall s, split_go sep0 (length u) (u ++ s) = split_go sep0 0 s.
Proof. induction u as [|c u IH]; intros s; [reflexivity | apply IH]. Qed.

Lemma split_go_0 sep0 s :
  split_go sep0 0 s =
  match s with
  | [] => [[]]
  | c :: s' =>
      if starts_with sep0 s then [] :: split_go sep0 (length sep0 - 1) s'
      else match split_go sep0 0 s' with
           | [] => [[c]]
           | w :: ws => (c :: w) :: ws
           end
  end.
Proof. destruct s; reflexivity. Qed.

(** [sep.join(text.split(sep))] is the text. *)
Lemma join_split_go sep0 :
  sep0 <> [] ->
  forall s skip,
    split_go sep0 skip s <> []
    /\ join sep0 (split_go sep0 skip s) = skipn skip s.
Proof.
  intros Hne. induction s as [|c s IH]; intros skip.
  - destruct skip; simpl; split; try discriminate; reflexivity.
  - destruct skip as [|n]; [|apply (IH n)].
    rewrite split_go_0.
    destruct (starts_with sep0 (c :: s)) eqn:E.
    + split; [discriminate|].
      destruct (IH (length sep0 - 1)) as [Hn Hj].
      destruct (split_go sep0 (length sep0 - 1) s) as [|w ws] eqn:Es;
        [contradiction|].
      rewrite join_cons_cons, Hj. simpl app.
      apply starts_with_inv in E. destruct E as (t & E).
      destruct sep0 as [|d sep0]; [contradiction|].
      simpl in E. injection E as -> ->.
      replace (length (d :: sep0) - 1) with (length sep0) by (simpl; lia).
      rewrite skipn_app, skipn_all, Nat.sub_diag. reflexivity.
    + destruct (IH 0) as [Hn Hj].
      destruct (split_go sep0 0 s) as [|w ws] eqn:Es; [contradiction|].
      split; [discriminate|].
      simpl skipn in *. rewrite <- Hj.
      destruct ws; reflexivity.
Qed.

Lemma join_split sep0 s : sep0 <> [] -> join sep0 (split sep0 s) = s.
Proof. intros H. apply (join_split_go sep0 H s 0). Qed.

Lemma join_tag_free sep0 :
  forall chunks, tag_free (join sep0 chunks) = true ->
                 forallb tag_free chunks = true.
Proof.
  induction chunks as [|c cs IH]; intros H; [reflexivity|].
  destruct cs as [|c2 cs].
  - simpl in *. rewrite H. reflexivity.
  - rewrite join_cons_cons in H. cbn [forallb].
    rewrite (tag_free_prefix _ _ H). simpl andb.
    apply IH. apply tag_free_suffix in H. apply tag_free_suffix in H. exact H.
Qed.

Lemma split_tag_free t :
  tag_free t = true -> forallb tag_free (split sep t) = true.
Proof.
  intros H. apply (join_tag_free sep).
  rewrite join_split by discriminate. exact H.
Qed.

(** The paragraph pass writes a document of well-formed pieces. *)
Lemma paragraph_pass_doc t :
  paragraph_pass t = render_doc (map seg_of (split sep t)).
Proof.
  unfold paragraph_pass, render_doc. rewrite map_map. f_equal.
  apply map_ext. exact wrap_is_render.
Qed.

Lemma paragraph_pass_ok t :
  tag_free t = true ->
  forallb (seg_fit (fun _ => true)) (map seg_of (split sep t)) = true.
Proof.
  intros H. apply split_tag_free in H.
  induction (split sep t) as [|c cs IH]; [reflexivity|].
  simpl in H. apply andb_true_iff in H. destruct H as [Hc H].
  cbn [map forallb]. rewrite (IH H), andb_true_r.
  unfold seg_fit. rewrite (seg_of_ok c Hc). destruct (seg_of c); reflexivity.
Qed.

(** ** The last cleanup substitution on a document of pieces *)

Lemma lit_closer t v :
  starts_with_cls (pat_of t) v = true -> length v = length (pat_of t) ->
  v = L t.
Proof.
  rewrite starts_with_pat_of. intros H El.
  apply starts_with_inv in H. destruct H as (w & ->).
  unfold pat_of in El. rewrite length_app, length_map in El.
  destruct w; [apply app_nil_r | simpl in El; lia].
Qed.

Lemma closer_inv v :
  is_closer v = true ->
  (exists d, is_digit d = true /\ v = L "</h" ++ [d] ++ L ">")
  \/ v = L "</table>" \/ v = L "</ul>" \/ v = L "</ol>" \/ v = L "</pre>"
  \/ v = L "</figure>".
Proof.
  unfold is_closer. intros H. apply existsb_exists in H.
  destruct H as (pat & Hin & H). apply andb_true_iff in H.
  destruct H as [H El]. apply Nat.eqb_eq in El.
  simpl in Hin. destruct Hin as [<- | Hin].
  - left. destruct v as [|c1 [|c2 [|c3 [|c4 [|c5 [|c6 v]]]]]]; try discriminate.
    cbn [starts_with_cls pat_of map L list_ascii_of_string app] in H.
    repeat (apply andb_true_iff in H; destruct H as [?E H]).
    apply Ascii.eqb_eq in E, E0, E1, E3. subst. exists c4. auto.
  - right.
    repeat (destruct Hin as [<- | Hin];
            [rewrite (lit_closer _ v H El); tauto|]).
    contradiction.
Qed.

Ltac flat_alts :=
  rewrite ?(m_flat _ false (seq [lit "</h"; digit; Chr ">"]) _ eq_refl),
          ?(m_flat _ false (lit "</table>") _ eq_refl),
          ?(m_flat _ false (lit "</ul>") _ eq_refl),
          ?(m_flat _ false (lit "</ol>") _ eq_refl),
          ?(m_flat _ false (lit "</pre>") _ eq_refl),
          ?(m_flat _ false (lit "</figure>") _ eq_refl).

Ltac sw_eval :=
  repeat match goal with
         | |- context [starts_with_cls ?pat ?t] =>
             first [ change (starts_with_cls pat t) with true
                   | change (starts_with_cls pat t) with false ]
         end.

Lemma after_closer (k : mstate -> option rmatch) a p s cs :
  k (MState (Some ">"%char) s cs) = Some a ->
  m false (seq [Star true space; lit "</p>"]) k (MState p (p_close ++ s) cs)
  = Some a.
Proof.
  intros Hk. rewrite m_seq_cons. unfold space.
  change (p_close ++ s) with ([] ++ p_close ++ s).
  rewrite m_star_greedy_cls; [|constructor|reflexivity].
  cbn [greedy_try]. rewrite m_seq_one. unfold p_close. rewrite m_lit. exact Hk.
Qed.

Lemma closer_m (k : mstate -> option rmatch) a p v s :
  is_closer v = true ->
  k (MState (Some ">"%char) s [(1, v)]) = Some a ->
  m false re_p_close k (MState p (v ++ p_close ++ s) []) = Some a.
Proof.
  intros Hv Hk. unfold re_p_close. rewrite m_seq_cons, m_grp.
  cbn [alt rest prev caps]. rewrite !m_alt.
  assert (Hcap : firstn (length (v ++ p_close ++ s) - length (p_close ++ s))
                        (v ++ p_close ++ s) = v) by apply firstn_len_app.
  apply closer_inv in Hv.
  destruct Hv as [(d & Hd & ->) | [-> | [-> | [-> | [-> | ->]]]]].
  - flat_alts.
    cbn [starts_with_cls pat_of map L list_ascii_of_string app].
    change (ceq "<" "<") with true. change (ceq "/" "/") with true.
    change (ceq "h" "h") with true. change (ceq ">" ">") with true.
    rewrite Hd. cbn [andb orelse].
    match goal with
    | |- orelse ?x _ = _ => assert (E : x = Some a); [|rewrite E; reflexivity]
    end.
    cbn [skipn length firstn].
    apply after_closer.
    rewrite <- Hcap in Hk. exact Hk.
  - flat_alts. sw_eval. cbn [orelse].
    match goal with
    | |- orelse ?x _ = _ => assert (E : x = Some a); [|rewrite E; reflexivity]
    end.
    apply after_closer. rewrite <- Hcap in Hk. exact Hk.
  - flat_alts. sw_eval. cbn [orelse].
    match goal with
    | |- orelse ?x _ = _ => assert (E : x = Some a); [|rewrite E; reflexivity]
    end.
    apply after_closer. rewrite <- Hcap in Hk. exact Hk.
  - flat_alts. sw_eval. cbn [orelse].
    match goal with
    | |- orelse ?x _ = _ => assert (E : x = Some a); [|rewrite E; reflexivity]
    end.
    apply after_closer. rewrite <- Hcap in Hk. exact Hk.
  - flat_alts. sw_eval. cbn [orelse].
    match goal with
    | |- orelse ?x _ = _ => assert (E : x = Some a); [|rewrite E; reflexivity]
    end.
    apply after_closer. rewrite <- Hcap in Hk. exact Hk.
  - flat_alts. sw_eval. cbn [orelse].
    apply after_closer. rewrite <- Hcap in Hk. exact Hk.
Qed.

Lemma sub_prefix_kept ml r f a t :
  no_bol r = true ->
  (forall u v, a = u ++ v -> v <> [] ->
               match_at ml r false None (v ++ t) = None) ->
  sub ml r f (a ++ t) = a ++ sub ml r f t.
Proof.
  intros Hb. induction a as [|c a IH]; intros H; [reflexivity|].
  simpl app. rewrite sub_keep; [|exact Hb|].
  - f_equal. apply IH. intros u v E Hv.
    apply (H (c :: u) v); [simpl; congruence | exact Hv].
  - apply (H [] (c :: a)); [reflexivity | discriminate].
Qed.

Lemma closer_match p v s :
  is_closer v = true ->
  match_at false re_p_close false p ((v ++ p_close) ++ s)
  = Some (RMatch (v ++ p_close) [(1, v)]).
Proof.
  intros Hv. apply (match_at_intro false re_p_close p (Some ">"%char)).
  intros k a Hk. rewrite <- app_assoc. apply closer_m; assumption.
Qed.

Lemma close_sub_tag s : close_sub (p_close ++ s) = p_close ++ close_sub s.
Proof.
  unfold close_sub, sub_t. apply sub_prefix_kept; [reflexivity|].
  intros u v E Hv. apply p_close_none.
  apply (proj2 (proj2 (proj2 (close_tag_clean s u v E Hv)))).
Qed.

(** Behind the text of a paragraph element the close tag is dropped
    exactly when the text ends with a block-level close tag. *)
Lemma close_sub_body :
  forall v s,
    (v <> [] -> is_space (last v " "%char) = false) -> tag_free v = true ->
    close_sub (v ++ p_close ++ s)
    = v ++ (if close_tag_end v then [] else p_close) ++ close_sub s.
Proof.
  induction v as [|c v IH]; intros s Hl Hf.
  - apply close_sub_tag.
  - assert (Hne : c :: v <> []) by discriminate.
    specialize (Hl Hne).
    assert (IHv : close_sub (v ++ p_close ++ s)
                  = v ++ (if close_tag_end v then [] else p_close) ++ close_sub s).
    { apply IH; [|apply (tag_free_suffix [c]); exact Hf].
      intros Hv. destruct v as [|d v]; [contradiction|]. exact Hl. }
    cbn [close_tag_end]. destruct (is_closer (c :: v)) eqn:Ec.
    + cbn [orb]. unfold close_sub, sub_t.
      rewrite app_assoc.
      rewrite (sub_hit false re_p_close (expand [G 1]) _ s
                 (RMatch ((c :: v) ++ p_close) [(1, c :: v)]));
        [|simpl; lia|reflexivity|apply closer_match; exact Ec|reflexivity].
      change (expand [G 1] (RMatch ((c :: v) ++ p_close) [(1, c :: v)]))
        with ((c :: v) ++ []).
      rewrite app_nil_r. reflexivity.
    + cbn [orb].
      change ((c :: v) ++ p_close ++ s) with (c :: (v ++ p_close ++ s)).
      change ((c :: v) ++ (if close_tag_end v then [] else p_close) ++ close_sub s)
        with (c :: (v ++ (if close_tag_end v then [] else p_close) ++ close_sub s)).
      unfold close_sub, sub_t.
      rewrite sub_keep; [|reflexivity|].
      * f_equal. exact IHv.
      * apply p_close_none.
        change (c :: v ++ p_close ++ s) with ((c :: v) ++ p_close ++ s).
        rewrite body_close_p by assumption. exact Ec.
Qed.

Lemma close_sub_seg chunk s :
  tag_free chunk = true -> insulated s = true -> calm s = true ->
  close_sub (render (seg_of chunk) ++ s)
  = render (close4 (seg_of chunk)) ++ close_sub s.
Proof.
  intros Hf Hs Hc. pose proof (seg_of_ok chunk Hf) as Hok.
  destruct (seg_of chunk) as [t|x|x]; cbn [render close4]; simpl in Hok.
  - unfold close_sub, sub_t. apply sub_prefix_kept; [reflexivity|].
    intros u v E Hv. apply p_close_none. apply raw_not_close_p; try assumption.
    apply (tag_free_suffix u). rewrite <- E. exact Hok.
  - destruct (body_ok_inv x Hok) as (c & x' & Ex & Hsp & Hlt & Hl & Hx).
    rewrite <- !app_assoc.
    transitivity (p_open ++ close_sub (x ++ p_close ++ s)).
    + unfold close_sub, sub_t. apply sub_prefix_kept; [reflexivity|].
      intros u v E Hv. apply p_close_none. rewrite Ex.
      refine (proj2 (proj2 (proj2 _))).
      apply (open_tag_clean c x' (p_close ++ s) Hsp Hlt u v E Hv).
    + rewrite close_sub_body; [|intros _; exact Hl|exact Hx].
      destruct (close_tag_end x); cbn [render]; rewrite <- ?app_assoc;
        reflexivity.
  - unfold close_sub, sub_t. apply sub_prefix_kept; [reflexivity|].
    destruct (body_ok_inv x Hok) as (c & x' & Ex & Hsp & Hlt & Hl & Hx).
    intros u v E Hv. apply p_close_none.
    destruct (app_eq_app _ _ _ _ E) as (l & [[E1 E2] | [E1 E2]]).
    + destruct l as [|d l].
      * rewrite app_nil_r in E1. simpl in E2. subst v.
        rewrite Ex. apply raw_not_close_p; try assumption; [|discriminate].
        rewrite <- Ex. exact Hx.
      * rewrite E2, <- app_assoc, Ex.
        refine (proj2 (proj2 (proj2 _))).
        apply (open_tag_clean c x' s Hsp Hlt u (d :: l) E1). discriminate.
    + apply raw_not_close_p; try assumption.
      apply (tag_free_suffix l). rewrite <- E2. exact Hx.
Qed.

Lemma close_sub_sep d :
  calm d = true -> close_sub (sep ++ d) = sep ++ close_sub d.
Proof.
  intros Hd. unfold close_sub, sub_t. apply sub_prefix_kept; [reflexivity|].
  intros u v E Hv. apply p_close_none.
  apply (proj2 (proj2 (proj2 (sep_clean d Hd u v E Hv)))).
Qed.

Lemma seg_ok_all chunks :
  forallb tag_free chunks = true -> forallb seg_ok (map seg_of chunks) = true.
Proof.
  induction chunks as [|c cs IH]; intros H; [reflexivity|].
  simpl in H. apply andb_true_iff in H. destruct H as [Hc H].
  cbn [map forallb]. rewrite (seg_of_ok c Hc), (IH H). reflexivity.
Qed.

Lemma close_sub_doc chunks :
  forallb tag_free chunks = true ->
  close_sub (render_doc (map seg_of chunks))
  = render_doc (map close4 (map seg_of chunks)).
Proof.
  induction chunks as [|c cs IH]; intros H; [reflexivity|].
  simpl in H. apply andb_true_iff in H. destruct H as [Hc H].
  destruct cs as [|c2 cs].
  - cbn [map]. unfold render_doc. cbn [map join].
    rewrite <- (app_nil_r (render (seg_of c))).
    rewrite close_sub_seg; [|exact Hc|reflexivity|reflexivity].
    change (close_sub []) with (@nil ascii). rewrite !app_nil_r. reflexivity.
  - change (map seg_of (c :: c2 :: cs))
      with (seg_of c :: seg_of c2 :: map seg_of cs).
    cbn [map]. rewrite !render_doc_cons.
    pose proof (doc_calm _ (seg_ok_all (c2 :: cs) H)) as Hcalm.
    cbn [map] in Hcalm.
    rewrite close_sub_seg; [|exact Hc|reflexivity|rewrite calm_sep; exact Hcalm].
    rewrite close_sub_sep by exact Hcalm.
    f_equal. f_equal. apply (IH H).
Qed.

Lemma close4_fit gs :
  forallb seg_ok gs = true ->
  forallb (seg_fit (fun x => negb (close_tag_end x))) (map close4 gs) = true.
Proof.
  induction gs as [|g gs IH]; intros H; [reflexivity|].
  simpl in H. apply andb_true_iff in H. destruct H as [Hg H].
  cbn [map forallb]. rewrite (IH H), andb_true_r.
  destruct g as [t|x|x]; unfold seg_fit; cbn [close4]; simpl in Hg.
  - simpl. rewrite Hg. reflexivity.
  - destruct (close_tag_end x) eqn:E; simpl; rewrite Hg, ?E; reflexivity.
  - simpl. rewrite Hg. reflexivity.
Qed.

(** The cleanup pass on the output of the paragraph pass: its first
    three substitutions find nothing, the last one drops the close tag of
    the paragraph elements that end with a block-level close tag. *)
Lemma cleanup_after_paragraphs t :
  tag_free t = true ->
  cleanup_pass (paragraph_pass t)
  = render_doc (map close4 (map seg_of (split sep t))).
Proof.
  intros H. rewrite paragraph_pass_doc.
  pose proof (paragraph_pass_ok t H) as Hok.
  unfold cleanup_pass.
  rewrite replace_absent.
  - unfold sub_t.
    rewrite (sub_nowhere false re_empty_p _ empty_paragraph);
      [|intros p v Hv; apply empty_p_none; exact Hv|apply doc_no_empty_p; exact Hok].
    rewrite (sub_nowhere false re_p_open _ p_before_block);
      [|intros p v Hv; apply p_open_none; exact Hv|apply doc_no_p_block; exact Hok].
    apply close_sub_doc. apply split_tag_free. exact H.
  - pose proof (doc_no_nl_close _ Hok) as Hn.
    unfold nl_before_close in Hn.
    rewrite (nowhere_contains (nl :: p_close)) in Hn.
    apply negb_true_iff in Hn. exact Hn.
Qed.

Lemma cleanup_clean t :
  tag_free t = true -> clean (cleanup_pass (paragraph_pass t)) = true.
Proof.
  intros H. rewrite cleanup_after_paragraphs by exact H.
  apply doc_clean. apply close4_fit. apply seg_ok_all.
  apply split_tag_free. exact H.
Qed.

Lemma md_to_html_split input :
  md_to_html input
  = bind (markup_passes input)
         (fun t => Returns (cleanup_pass (paragraph_pass t))).
Proof.
  unfold md_to_html, markup_passes.
  destruct (code_pass _); reflexivity.
Qed.

Lemma markup_passes_returns input : exists t, markup_passes input = Returns t.
Proof.
  unfold markup_passes.
  destruct (code_pass_returns
              (hr_pass (h3_pass (h2_pass (meta_pass (title_pass input))))))
    as (t & ->).
  eexists. reflexivity.
Qed.

(** C9, as stated for every input: a paragraph close tag that stands in
    the input after a blank line is kept, and after the cleanup pass has
    removed one of the two line breaks before it, a line break immediately
    precedes a paragraph close tag in the output. *)
Lemma C9_stray_close_tag_left :
  md_to_html stray_close_input = Returns stray_close_output
  /\ nowhere nl_before_close stray_close_output = false
  /\ ~ output_clean stray_close_input.
Proof.
  assert (E : md_to_html stray_close_input = Returns stray_close_output)
    by (vm_compute; reflexivity).
  split; [exact E|]. split; [vm_compute; reflexivity|].
  intros H. specialize (H _ E). vm_compute in H. discriminate.
Qed.

(** C9: the converter always returns the cleanup of the paragraph pass
    applied to the text left by the earlier passes; when that text holds
    no paragraph open or close tag, the final output has no empty
    paragraph element, no line break immediately before a paragraph close
    tag, no paragraph open tag before (up to white space) a block-level
    open tag, and no paragraph close tag after (up to white space) a
    block-level close tag. *)
Theorem C9_cleanup_leaves_clean_output :
  (forall input, exists t,
      markup_passes input = Returns t
      /\ md_to_html input = Returns (cleanup_pass (paragraph_pass t)))
  /\ (forall t, tag_free t = true ->
                clean (cleanup_pass (paragraph_pass t)) = true)
  /\ (forall input t,
         markup_passes input = Returns t -> tag_free t = true ->
         output_clean input).
Proof.
  split; [|split].
  - intros input. destruct (markup_passes_returns input) as (t & E).
    exists t. split; [exact E|]. rewrite md_to_html_split, E. reflexivity.
  - exact cleanup_clean.
  - intros input t E Hf out Hout.
    rewrite md_to_html_split, E in Hout. simpl in Hout.
    injection Hout as <-. apply cleanup_clean. exact Hf.
Qed.

Lemma C9_cleanup_leaves_clean_output_witness :
  clean (cleanup_pass (paragraph_pass (L "text" ++ [nl] ++ L "<h2>H</h2>"))) = true
  /\ output_clean heading_in_paragraph.
Proof.
  destruct C9_cleanup_leaves_clean_output as (_ & H2 & H3).
  split; [apply H2; vm_compute; reflexivity|].
  apply (H3 heading_in_paragraph (L "text" ++ [nl] ++ L "<h2>H</h2>"));
    vm_compute; reflexivity.
Defined.

(** ** Passes that rewrite whole lines *)

Lemma last_chr_line l p :
  l <> [] -> no_chr nl l -> exists d, last_chr l p = Some d /\ d <> nl.
Proof.
  intros Hne Hl. destruct l as [|c l]; [contradiction|].
  inversion Hl; subst. rewrite last_chr_cons.
  apply last_chr_not_nl; assumption.
Qed.

(** A line and what follows it are told apart by the first newline. *)
Lemma line_unique :
  forall l h s t,
    no_chr nl l -> no_chr nl h -> line_end s -> line_end t ->
    l ++ s = h ++ t -> l = h /\ s = t.
Proof.
  induction l as [|c l IH]; intros h s t Hl Hh Hs Ht E.
  - destruct h as [|d h]; [auto|]. exfalso.
    inversion Hh; subst. simpl in E.
    destruct Hs as [-> | (s' & ->)]; [discriminate|].
    injection E as E _. congruence.
  - inversion Hl; subst. destruct h as [|d h].
    + exfalso. simpl in E.
      destruct Ht as [-> | (t' & ->)]; [discriminate|].
      injection E as E _. congruence.
    + inversion Hh; subst. simpl in E. injection E as -> E.
      destruct (IH h s t) as [-> ->]; auto.
Qed.

Section LinePass.

Variable rs : list regex.
Variable f : rmatch -> str.
Variable conv : str -> str.

Hypothesis r_len : 0 < min_len (seq (Bol :: rs)).

(** On a line the pattern matches the whole line, or nothing. *)
Hypothesis line_case :
  forall p l s,
    line_start p -> no_chr nl l -> line_end s ->
    (l <> []
     /\ exists mt, match_at true (seq (Bol :: rs)) false p (l ++ s) = Some mt
                   /\ m_text mt = l /\ f mt = conv l)
    \/ (match_at true (seq (Bol :: rs)) false p (l ++ s) = None /\ conv l = l).

Lemma line_rest s d :
  line_end s -> d <> nl ->
  flat_map (emit f) (scan true (seq (Bol :: rs)) (Some d) 0 s)
  = match s with
    | [] => []
    | c :: s' =>
        c :: flat_map (emit f) (scan true (seq (Bol :: rs)) (Some c) 0 s')
    end.
Proof.
  intros Hs Hd. destruct Hs as [-> | (s' & ->)].
  - rewrite scan_nil by exact r_len. reflexivity.
  - rewrite scan_keep by (apply match_at_inside; exact Hd). reflexivity.
Qed.

Lemma line_scan_line p l s :
  line_start p -> no_chr nl l -> line_end s ->
  flat_map (emit f) (scan true (seq (Bol :: rs)) p 0 (l ++ s))
  = conv l
    ++ match s with
       | [] => []
       | c :: s' =>
           c :: flat_map (emit f) (scan true (seq (Bol :: rs)) (Some c) 0 s')
       end.
Proof.
  intros Hp Hl Hs.
  destruct (line_case p l s Hp Hl Hs)
    as [(Hne & mt & Hm & Et & Ef) | (Hm & Ec)].
  - rewrite (scan_hit_eq true _ p l s mt r_len Hm Et).
    cbn [flat_map emit]. rewrite Ef. f_equal.
    destruct (last_chr_line l p Hne Hl) as (d & -> & Hd).
    apply line_rest; assumption.
  - rewrite Ec. destruct l as [|c l].
    + simpl app in *. destruct Hs as [-> | (s' & ->)].
      * rewrite scan_nil by exact r_len. reflexivity.
      * rewrite scan_keep by exact Hm. reflexivity.
    + rewrite scan_line_kept; [|exact Hl|exact Hm|discriminate].
      rewrite flat_map_app, flat_map_emit_keep. f_equal.
      destruct (last_chr_line (c :: l) p) as (d & -> & Hd);
        [discriminate | exact Hl |].
      apply line_rest; assumption.
Qed.

Lemma line_scan_lines :
  forall lines p,
    line_start p -> Forall (no_chr nl) lines ->
    flat_map (emit f) (scan true (seq (Bol :: rs)) p 0 (join [nl] lines))
    = join [nl] (map conv lines).
Proof.
  induction lines as [|l ls IH]; intros p Hp Hl.
  - change (join [nl] []) with (@nil ascii).
    rewrite scan_nil by exact r_len. reflexivity.
  - inversion Hl as [|? ? H1 H2]; subst.
    destruct ls as [|l2 ls].
    + simpl join. rewrite <- (app_nil_r l) at 1.
      rewrite line_scan_line;
        [apply app_nil_r | exact Hp | exact H1 | left; reflexivity].
    + change (join [nl] (l :: l2 :: ls)) with (l ++ nl :: join [nl] (l2 :: ls)).
      rewrite line_scan_line; [|exact Hp|exact H1|apply line_end_join].
      rewrite IH; [reflexivity | right; reflexivity | exact H2].
Qed.

(** The pass works line by line. *)
Lemma line_pass_lines text :
  sub true (seq (Bol :: rs)) f text
  = join [nl] (map conv (split_chr nl text)).
Proof.
  rewrite <- (join_split_chr nl text) at 1.
  apply (line_scan_lines (split_chr nl text) None);
    [left; reflexivity | apply split_chr_no_chr].
Qed.

End LinePass.

(** ** Heading lines *)

Lemma marked_text_inv mark l x :
  marked_text mark l = Some x -> l = mark ++ x /\ x <> [].
Proof.
  unfold marked_text. destruct (starts_with mark l) eqn:E; [|discriminate].
  apply starts_with_inv in E. destruct E as (t & ->).
  rewrite skipn_app, skipn_all, Nat.sub_diag. simpl.
  destruct t; [discriminate|]. intros H. injection H as <-.
  split; [reflexivity | discriminate].
Qed.

Lemma marked_text_intro mark c y :
  marked_text mark (mark ++ c :: y) = Some (c :: y).
Proof.
  unfold marked_text. rewrite starts_with_app.
  rewrite skipn_app, skipn_all, Nat.sub_diag. reflexivity.
Qed.

(** A line that goes on behind a prefix of the text holds the prefix. *)
Lemma line_holds_prefix :
  forall u l s c t,
    no_chr nl u -> c <> nl -> line_end s ->
    l ++ s = u ++ c :: t -> exists y, l = u ++ c :: y.
Proof.
  induction u as [|a u IH]; intros l s c t Hu Hc Hs E.
  - destruct l as [|d l].
    + exfalso. simpl in E. destruct Hs as [-> | (s' & ->)]; [discriminate|].
      injection E as E _. congruence.
    + simpl in E. injection E as -> _. exists l. reflexivity.
  - inversion Hu; subst. destruct l as [|d l].
    + exfalso. simpl in E. destruct Hs as [-> | (s' & ->)]; [discriminate|].
      injection E as E _. congruence.
    + simpl in E. injection E as -> E.
      destruct (IH l s c t) as (y & ->); auto. exists y. reflexivity.
Qed.

Section Heading.

Variable mark : string.

Hypothesis mark_line : no_chr nl (L mark).

Lemma heading_m (k : mstate -> option rmatch) a p x s :
  line_start p -> x <> [] -> no_chr nl x -> line_end s ->
  k (MState (last_chr (L mark ++ x) p) s [(1, x)]) = Some a ->
  m true (re_heading mark) k (MState p (L mark ++ x ++ s) []) = Some a.
Proof.
  intros Hp Hne Hx Hs Hk.
  destruct x as [|c x]; [contradiction|]. apply no_chr_dot in Hx.
  inversion Hx as [|? ? Hc Hx']; subst.
  unfold re_heading.
  rewrite m_seq_cons, m_bol, at_bol_line_start by exact Hp.
  rewrite m_seq_cons, m_lit, m_seq_cons, m_grp.
  unfold Plus, dot. rewrite m_seq, <- app_comm_cons, m_cls, Hc.
  rewrite m_star_greedy_cls; [|exact Hx'|apply line_end_stops; exact Hs].
  apply greedy_try_all.
  cbn [rest prev caps].
  rewrite m_seq_one, m_eol, line_end_eol by exact Hs.
  change (c :: x ++ s) with ((c :: x) ++ s).
  rewrite firstn_len_app.
  rewrite last_chr_app, last_chr_cons in Hk. exact Hk.
Qed.

Lemma heading_match p x s :
  line_start p -> x <> [] -> no_chr nl x -> line_end s ->
  match_at true (re_heading mark) false p ((L mark ++ x) ++ s)
  = Some (RMatch (L mark ++ x) [(1, x)]).
Proof.
  intros Hp Hne Hx Hs.
  apply (match_at_intro true (re_heading mark) p (last_chr (L mark ++ x) p)).
  intros k a Hk. rewrite <- app_assoc. apply heading_m; assumption.
Qed.

Lemma heading_no_match p l s :
  no_chr nl l -> line_end s -> marked_text (L mark) l = None ->
  match_at true (re_heading mark) false p (l ++ s) = None.
Proof.
  intros Hl Hs Hh. unfold match_at, re_heading.
  rewrite m_seq_cons, m_bol.
  destruct (at_bol true _); [|reflexivity].
  rewrite m_seq_cons.
  destruct (starts_with (L mark) (l ++ s)) eqn:E;
    [|apply m_lit_none; exact E].
  apply starts_with_inv in E. destruct E as (t & E). rewrite E.
  rewrite m_lit, m_seq_cons, m_grp. unfold Plus, dot. rewrite m_seq.
  cbn [rest].
  destruct t as [|c t]; [reflexivity|]. rewrite m_cls.
  destruct (ceq c nl) eqn:Ec; [reflexivity|]. exfalso.
  assert (Hc : c <> nl) by (intros ->; discriminate).
  destruct (line_holds_prefix (L mark) l s c t mark_line Hc Hs E) as (y & ->).
  rewrite marked_text_intro in Hh. discriminate.
Qed.

(** The two cases of a heading pass on one line. *)
Lemma heading_line_case tag (f : rmatch -> str) :
  (forall x, f (RMatch (L mark ++ x) [(1, x)])
             = L "<" ++ L tag ++ L ">" ++ x ++ L "</" ++ L tag ++ L ">") ->
  forall p l s,
    line_start p -> no_chr nl l -> line_end s ->
    (l <> []
     /\ exists mt, match_at true (re_heading mark) false p (l ++ s) = Some mt
                   /\ m_text mt = l /\ f mt = heading_line mark tag l)
    \/ (match_at true (re_heading mark) false p (l ++ s) = None
        /\ heading_line mark tag l = l).
Proof.
  intros Hf p l s Hp Hl Hs. unfold heading_line.
  destruct (marked_text (L mark) l) as [x|] eqn:Hh.
  - left. apply marked_text_inv in Hh. destruct Hh as [-> Hne].
    assert (Hx : no_chr nl x).
    { unfold no_chr in *. apply Forall_app in Hl. tauto. }
    split; [destruct (L mark); [exact Hne | discriminate]|].
    exists (RMatch (L mark ++ x) [(1, x)]).
    split; [apply heading_match; assumption|].
    split; [reflexivity | apply Hf].
  - right. split; [apply heading_no_match; assumption | reflexivity].
Qed.

End Heading.

Lemma h2_pass_lines text :
  h2_pass text = join [nl] (map (heading_line "## " "h2") (split_chr nl text)).
Proof.
  unfold h2_pass, sub_t.
  apply (line_pass_lines [lit "## "; Grp 1 (Plus true dot); Eol]).
  - simpl. lia.
  - apply (heading_line_case "## ");
      [repeat constructor; discriminate|].
    intros x. reflexivity.
Qed.

Lemma h3_pass_lines text :
  h3_pass text = join [nl] (map (heading_line "### " "h3") (split_chr nl text)).
Proof.
  unfold h3_pass, sub_t.
  apply (line_pass_lines [lit "### "; Grp 1 (Plus true dot); Eol]).
  - simpl. lia.
  - apply (heading_line_case "### ");
      [repeat constructor; discriminate|].
    intros x. reflexivity.
Qed.

(** ** Rules *)

Lemma m_star_chr (A : Type) ml g c (k : mstate -> option A) s :
  m ml (Star g (Chr c)) k s = m ml (Star g (Cls (ceq c))) k s.
Proof. reflexivity. Qed.

Lemma path_star_chr ml g c s s' :
  path ml (Star g (Chr c)) s s' ->
  exists u, rest s = u ++ rest s' /\ Forall (fun d => d = c) u.
Proof.
  remember (Star g (Chr c)) as r eqn:Er. intros P. revert Er.
  induction P; intros Er; try discriminate.
  - exists []. split; [reflexivity | constructor].
  - injection Er as -> ->.
    destruct (IHP2 eq_refl) as (u & E & Hu).
    inversion P1; subst. simpl in *.
    exists (c :: u). split; [rewrite E; reflexivity | constructor; auto].
Qed.

Lemma at_eol_line_end s : at_eol true s = true -> line_end (rest s).
Proof.
  unfold at_eol. destruct (rest s) as [|c t]; [left; reflexivity|].
  intros H. apply andb_true_iff in H. destruct H as [H _].
  apply Ascii.eqb_eq in H. subst c. right. eauto.
Qed.

Lemma hyphens_forallb u :
  Forall (fun d => d = "-"%char) u -> forallb (ceq "-") u = true.
Proof.
  intros H. induction H as [|d u -> _ IH]; [reflexivity|].
  simpl. rewrite IH. reflexivity.
Qed.

Lemma is_rule_inv l :
  is_rule l = true ->
  exists w, l = L "--" ++ "-"%char :: w
            /\ Forall (fun d => ceq "-" d = true) w /\ no_chr nl l.
Proof.
  unfold is_rule. intros H. apply andb_true_iff in H. destruct H as [Hn Hf].
  assert (Hall : Forall (fun d => ceq "-" d = true) l).
  { apply Forall_forall. rewrite forallb_forall in Hf. exact Hf. }
  assert (Hnl : no_chr nl l).
  { unfold no_chr. eapply Forall_impl; [|exact Hall].
    intros d Hd ->. discriminate. }
  destruct l as [|c1 [|c2 [|c3 w]]]; try discriminate.
  inversion Hall as [|? ? H1 Hall1]; subst.
  inversion Hall1 as [|? ? H2 Hall2]; subst.
  inversion Hall2 as [|? ? H3 Hall3]; subst.
  apply Ascii.eqb_eq in H1, H2, H3. subst.
  exists w. auto.
Qed.

Lemma hr_m (k : mstate -> option rmatch) a p w s :
  line_start p -> Forall (fun d => ceq "-" d = true) w -> line_end s ->
  k (MState (last_chr w (Some "-"%char)) s []) = Some a ->
  m true re_hr k (MState p (L "--" ++ "-"%char :: w ++ s) []) = Some a.
Proof.
  intros Hp Hw Hs Hk. unfold re_hr.
  rewrite m_seq_cons, m_bol, at_bol_line_start by exact Hp.
  rewrite m_seq_cons, m_lit, m_seq_cons.
  unfold Plus. rewrite m_seq, m_chr.
  change (ceq "-" "-") with true. cbv iota.
  rewrite m_star_chr.
  rewrite m_star_greedy_cls; [|exact Hw|].
  - apply greedy_try_all.
    rewrite m_seq_one, m_eol, line_end_eol by exact Hs. exact Hk.
  - destruct Hs as [-> | (s' & ->)]; reflexivity.
Qed.

Lemma hr_match p l s :
  line_start p -> is_rule l = true -> line_end s ->
  match_at true re_hr false p (l ++ s) = Some (RMatch l []).
Proof.
  intros Hp Hl Hs. destruct (is_rule_inv l Hl) as (w & -> & Hw & _).
  apply (match_at_intro true re_hr p (last_chr w (Some "-"%char))).
  intros k a Hk.
  replace ((L "--" ++ "-"%char :: w) ++ s) with (L "--" ++ "-"%char :: w ++ s)
    by (simpl; reflexivity).
  apply hr_m; assumption.
Qed.

Lemma hr_no_match p l s :
  no_chr nl l -> line_end s -> is_rule l = false ->
  match_at true re_hr false p (l ++ s) = None.
Proof.
  intros Hl Hs Hr. apply match_at_none. intros s' P.
  unfold re_hr in P.
  change (seq [Bol; lit "--"; Plus true (Chr "-"); Eol])
    with (Seq Bol (Seq (lit "--")
                     (Seq (Seq (Chr "-") (Star true (Chr "-"))) Eol))) in P.
  inversion P as [| | | | |? ? ? s1 ? P1 P2| | | | |]; subst.
  inversion P2 as [| | | | |? ? ? s2 ? P3 P4| | | | |]; subst.
  inversion P4 as [| | | | |? ? ? s3 ? P5 P6| | | | |]; subst.
  inversion P5 as [| | | | |? ? ? s4 ? P7 P8| | | | |]; subst.
  inversion P1; subst. inversion P6 as [| | | |? He| | | | | |]; subst.
  apply path_chars in P3. apply path_star_chr in P8.
  destruct P8 as (u & E8 & Hu).
  inversion P7; subst. cbn [rest] in *.
  apply at_eol_line_end in He.
  assert (Hh : no_chr nl (L "--" ++ "-"%char :: u)).
  { repeat (constructor; [discriminate|]).
    unfold no_chr. eapply Forall_impl; [|exact Hu].
    intros d -> ?. discriminate. }
  assert (E : l ++ s = (L "--" ++ "-"%char :: u) ++ rest s').
  { rewrite P3, E8. reflexivity. }
  destruct (line_unique l _ s (rest s') Hl Hh Hs He E) as [-> _].
  unfold is_rule in Hr. simpl in Hr.
  rewrite (hyphens_forallb u Hu) in Hr. discriminate.
Qed.

Lemma hr_pass_lines text :
  hr_pass text = join [nl] (map hr_line (split_chr nl text)).
Proof.
  unfold hr_pass, sub_t.
  apply (line_pass_lines [lit "--"; Plus true (Chr "-"); Eol]).
  - simpl. lia.
  - intros p l s Hp Hl Hs. unfold hr_line.
    destruct (is_rule l) eqn:E.
    + left. split; [destruct l; [discriminate | discriminate]|].
      exists (RMatch l []).
      split; [apply hr_match; assumption|]. split; reflexivity.
    + right. split; [apply hr_no_match; assumption | reflexivity].
Qed.

(** ** Spans between two delimiters *)

Section Span.

Variable d : ascii.

Lemma span_m (k : mstate -> option rmatch) a p x s :
  x <> [] -> no_chr d x ->
  k (MState (Some d) s [(1, x)]) = Some a ->
  m false (re_span d) k (MState p (d :: x ++ d :: s) []) = Some a.
Proof.
  intros Hne Hx Hk. destruct x as [|c x]; [contradiction|].
  apply no_chr_none_of in Hx. inversion Hx as [|? ? Hc Hx']; subst.
  unfold re_span.
  rewrite m_seq_cons, m_chr. unfold ceq at 1. rewrite Ascii.eqb_refl.
  rewrite m_seq_cons, m_grp.
  unfold Plus, none_of. rewrite m_seq, <- app_comm_cons, m_cls.
  change (L (String d EmptyString)) with [d]. rewrite Hc.
  rewrite m_star_greedy_cls;
    [|exact Hx'|simpl; unfold ceq; rewrite Ascii.eqb_refl; reflexivity].
  apply greedy_try_all.
  cbn [rest prev caps].
  rewrite m_seq_one, m_chr. unfold ceq at 1. rewrite Ascii.eqb_refl.
  change (c :: x ++ d :: s) with ((c :: x) ++ d :: s).
  rewrite firstn_len_app. exact Hk.
Qed.

Lemma span_match p x s :
  x <> [] -> no_chr d x ->
  match_at false (re_span d) false p ((d :: x ++ [d]) ++ s)
  = Some (RMatch (d :: x ++ [d]) [(1, x)]).
Proof.
  intros Hne Hx.
  apply (match_at_intro false (re_span d) p (Some d)).
  intros k a Hk.
  replace ((d :: x ++ [d]) ++ s) with (d :: x ++ d :: s)
    by (simpl; rewrite <- app_assoc; reflexivity).
  apply span_m; assumption.
Qed.

(** Where the pattern matches, a span stands. *)
Lemma span_shape s s' :
  path false (re_span d) s s' ->
  exists x, x <> [] /\ no_chr d x /\ rest s = d :: x ++ d :: rest s'.
Proof.
  unfold re_span. intros P.
  change (seq [Chr d; Grp 1 (Plus true (none_of (String d EmptyString))); Chr d])
    with (Seq (Chr d)
            (Seq (Grp 1 (Seq (none_of (String d EmptyString))
                             (Star true (none_of (String d EmptyString)))))
                 (Chr d))) in P.
  inversion P as [| | | | |? ? ? s1 ? P1 P2| | | | |]; subst.
  inversion P2 as [| | | | |? ? ? s2 ? P3 P4| | | | |]; subst.
  inversion P3 as [| | | | | | | | | |? ? ? s3 P5]; subst.
  inversion P5 as [| | | | |? ? ? s4 ? P6 P7| | | | |]; subst.
  inversion P1; subst. inversion P4; subst.
  unfold none_of in P6, P7.
  apply path_star_cls in P7. destruct P7 as (u & E7 & Hu).
  inversion P6 as [| |? c ? tt ? Hc| | | | | | | |]; subst.
  cbn [rest] in *.
  assert (Hq : forall e, negb (existsb (ceq e) (L (String d EmptyString))) = true
                         -> e <> d).
  { intros e He ->. simpl in He. unfold ceq in He.
    rewrite Ascii.eqb_refl in He. discriminate. }
  exists (c :: u). split; [discriminate|]. split.
  - constructor; [apply Hq; exact Hc|].
    eapply Forall_impl; [|exact Hu]. intros e He. apply Hq. exact He.
  - match goal with
    | H : _ :: _ = rest _ |- _ => rewrite <- H in E7
    end.
    rewrite E7. reflexivity.
Qed.

Lemma span_none_head p c t :
  c <> d -> match_at false (re_span d) false p (c :: t) = None.
Proof.
  intros Hc. unfold match_at, re_span. rewrite m_seq_cons, m_chr.
  unfold ceq. destruct (Ascii.eqb d c) eqn:E; [|reflexivity].
  apply Ascii.eqb_eq in E. congruence.
Qed.

Lemma span_none_empty p s :
  match_at false (re_span d) false p (d :: d :: s) = None.
Proof.
  apply match_at_none. intros s' P. apply span_shape in P.
  destruct P as (x & Hne & Hx & E). cbn [rest] in E.
  destruct x as [|c x]; [contradiction|].
  inversion Hx; subst. simpl in E. injection E as E _. congruence.
Qed.

Lemma span_none_open p x :
  no_chr d x -> match_at false (re_span d) false p (d :: x) = None.
Proof.
  intros Hx. apply match_at_none. intros s' P. apply span_shape in P.
  destruct P as (y & _ & _ & E). cbn [rest] in E.
  injection E as E. rewrite E in Hx.
  apply Forall_app in Hx. destruct Hx as [_ Hx].
  inversion Hx; subst. congruence.
Qed.

Lemma re_span_shape : 0 < min_len (re_span d) /\ no_bol (re_span d) = true.
Proof. split; [simpl; lia | reflexivity]. Qed.

Variable f : rmatch -> str.

Lemma span_prefix a t :
  no_chr d a -> sub false (re_span d) f (a ++ t) = a ++ sub false (re_span d) f t.
Proof.
  intros Ha. apply sub_prefix_kept; [reflexivity|].
  intros u v E Hv. destruct v as [|c v]; [contradiction|].
  apply span_none_head. rewrite E in Ha.
  apply Forall_app in Ha. destruct Ha as [_ Ha]. inversion Ha; subst. assumption.
Qed.

Lemma span_plain t : no_chr d t -> sub false (re_span d) f t = t.
Proof.
  intros Ht. rewrite <- (app_nil_r t) at 1. rewrite span_prefix by exact Ht.
  rewrite sub_nil by (simpl; lia). apply app_nil_r.
Qed.

(** The first span of a text is replaced and the pass goes on behind
    it. *)
Lemma span_first a x s :
  no_chr d a -> x <> [] -> no_chr d x ->
  sub false (re_span d) f (a ++ d :: x ++ d :: s)
  = a ++ f (RMatch (d :: x ++ [d]) [(1, x)]) ++ sub false (re_span d) f s.
Proof.
  intros Ha Hne Hx. rewrite span_prefix by exact Ha. f_equal.
  destruct re_span_shape as [Hl Hb].
  replace (d :: x ++ d :: s) with ((d :: x ++ [d]) ++ s)
    by (simpl; rewrite <- app_assoc; reflexivity).
  apply (sub_hit false (re_span d) f _ s _ Hl Hb);
    [apply span_match; assumption | reflexivity].
Qed.

(** Two delimiters in a row: the first one is kept, the second one may
    still open a span. *)
Lemma span_empty a s :
  no_chr d a ->
  sub false (re_span d) f (a ++ d :: d :: s)
  = a ++ d :: sub false (re_span d) f (d :: s).
Proof.
  intros Ha. rewrite span_prefix by exact Ha. f_equal.
  apply sub_keep; [reflexivity | apply span_none_empty].
Qed.

(** A delimiter that is never closed is kept. *)
Lemma span_open a x :
  no_chr d a -> no_chr d x ->
  sub false (re_span d) f (a ++ d :: x) = a ++ d :: x.
Proof.
  intros Ha Hx. rewrite span_prefix by exact Ha. f_equal.
  rewrite sub_keep; [|reflexivity|apply span_none_open; exact Hx].
  f_equal. apply span_plain. exact Hx.
Qed.

End Span.

(** ** Inline code and emphasis *)

Lemma inline_first a x s :
  no_chr "`" a -> x <> [] -> no_chr "`" x ->
  inline_pass (a ++ "`"%char :: x ++ "`"%char :: s)
  = a ++ L "<code>" ++ x ++ L "</code>" ++ inline_pass s.
Proof.
  intros Ha Hne Hx. unfold inline_pass, sub_t.
  change re_inline with (re_span "`").
  rewrite span_first by assumption.
  change (expand [T "<code>"; G 1; T "</code>"]
            (RMatch ("`"%char :: x ++ ["`"%char]) [(1, x)]))
    with (L "<code>" ++ x ++ L "</code>" ++ []).
  rewrite app_nil_r, <- !app_assoc. reflexivity.
Qed.

Lemma italic_first a x s :
  no_chr "*" a -> x <> [] -> no_chr "*" x ->
  italic_pass (a ++ "*"%char :: x ++ "*"%char :: s)
  = a ++ L "<em>" ++ x ++ L "</em>" ++ italic_pass s.
Proof.
  intros Ha Hne Hx. unfold italic_pass, sub_t.
  change re_italic with (re_span "*").
  rewrite span_first by assumption.
  change (expand [T "<em>"; G 1; T "</em>"]
            (RMatch ("*"%char :: x ++ ["*"%char]) [(1, x)]))
    with (L "<em>" ++ x ++ L "</em>" ++ []).
  rewrite app_nil_r, <- !app_assoc. reflexivity.
Qed.

Lemma italic_plain t : no_chr "*" t -> italic_pass t = t.
Proof. apply (span_plain "*"). Qed.

Lemma inline_plain t : no_chr "`" t -> inline_pass t = t.
Proof. apply (span_plain "`"). Qed.

(** ** Images *)

(** Two runs without [c], each followed by [c], are the same run. *)
Lemma run_unique (c : ascii) :
  forall l h s t,
    no_chr c l -> no_chr c h -> l ++ c :: s = h ++ c :: t -> l = h /\ s = t.
Proof.
  induction l as [|a l IH]; intros h s t Hl Hh E.
  - destruct h as [|b h]; [injection E as ->; auto|]. exfalso.
    inversion Hh; subst. simpl in E. injection E as E _. congruence.
  - inversion Hl; subst. destruct h as [|b h].
    + exfalso. simpl in E. injection E as E _. congruence.
    + inversion Hh; subst. simpl in E. injection E as -> E.
      destruct (IH h s t) as [-> ->]; auto.
Qed.

Lemma none_of_run c (x : str) :
  Forall (fun e => negb (existsb (ceq e) [c]) = true) x -> no_chr c x.
Proof.
  intros H. unfold no_chr. eapply Forall_impl; [|exact H].
  intros e He ->. simpl in He. unfold ceq in He.
  rewrite Ascii.eqb_refl in He. discriminate.
Qed.

Lemma image_m (k : mstate -> option rmatch) a p alt url s :
  no_chr "]" alt -> url <> [] -> no_chr ")" url ->
  k (MState (Some ")"%char) s [(2, url); (1, alt)]) = Some a ->
  m false re_image k
    (MState p (L "![" ++ alt ++ L "](" ++ url ++ ")"%char :: s) []) = Some a.
Proof.
  intros Ha Hne Hu Hk. destruct url as [|c url]; [contradiction|].
  apply no_chr_none_of in Ha. apply no_chr_none_of in Hu.
  inversion Hu as [|? ? Hc Hu']; subst.
  unfold re_image.
  rewrite m_seq_cons, m_lit, m_seq_cons, m_grp.
  unfold none_of at 1. change (L "]") with ["]"%char].
  rewrite m_star_greedy_cls; [|exact Ha|reflexivity].
  apply greedy_try_all.
  cbn [rest prev caps]. rewrite firstn_len_app.
  rewrite m_seq_cons, m_lit, m_seq_cons, m_grp.
  unfold Plus, none_of. rewrite m_seq, <- app_comm_cons, m_cls.
  change (L ")") with [")"%char]. rewrite Hc.
  rewrite m_star_greedy_cls; [|exact Hu'|reflexivity].
  apply greedy_try_all.
  cbn [rest prev caps].
  rewrite m_seq_one, m_chr. change (ceq ")" ")") with true. cbv iota.
  change (c :: url ++ ")"%char :: s) with ((c :: url) ++ ")"%char :: s).
  rewrite firstn_len_app. exact Hk.
Qed.

Lemma image_match p alt url s :
  no_chr "]" alt -> url <> [] -> no_chr ")" url ->
  match_at false re_image false p (image_md alt url ++ s)
  = Some (RMatch (image_md alt url) [(2, url); (1, alt)]).
Proof.
  intros Ha Hne Hu.
  apply (match_at_intro false re_image p (Some ")"%char)).
  intros k a Hk. unfold image_md.
  replace ((L "![" ++ alt ++ L "](" ++ url ++ L ")") ++ s)
    with (L "![" ++ alt ++ L "](" ++ url ++ ")"%char :: s)
    by (rewrite <- !app_assoc; reflexivity).
  apply image_m; assumption.
Qed.

(** Where the image pattern matches, the markdown of an image stands. *)
Lemma image_shape s s' :
  path false re_image s s' ->
  exists alt url,
    no_chr "]" alt /\ url <> [] /\ no_chr ")" url
    /\ rest s = L "![" ++ alt ++ L "](" ++ url ++ ")"%char :: rest s'.
Proof.
  unfold re_image. intros P.
  change (seq [lit "!["; Grp 1 (Star true (none_of "]")); lit "](";
               Grp 2 (Plus true (none_of ")")); Chr ")"])
    with (Seq (lit "![")
            (Seq (Grp 1 (Star true (none_of "]")))
               (Seq (lit "](")
                  (Seq (Grp 2 (Seq (none_of ")") (Star true (none_of ")"))))
                     (Chr ")"))))) in P.
  inversion P as [| | | | |? ? ? s1 ? P1 P2| | | | |]; subst.
  inversion P2 as [| | | | |? ? ? s2 ? P3 P4| | | | |]; subst.
  inversion P4 as [| | | | |? ? ? s3 ? P5 P6| | | | |]; subst.
  inversion P6 as [| | | | |? ? ? s4 ? P7 P8| | | | |]; subst.
  apply path_chars in P1. apply path_chars in P5.
  inversion P3 as [| | | | | | | | | |? ? ? g1 Q1]; subst.
  inversion P7 as [| | | | | | | | | |? ? ? g2 Q2]; subst.
  inversion Q2 as [| | | | |? ? ? g3 ? Q3 Q4| | | | |]; subst.
  unfold none_of in Q1, Q3, Q4.
  apply path_star_cls in Q1. destruct Q1 as (alt & E1 & Halt).
  apply path_star_cls in Q4. destruct Q4 as (u & E4 & Hu).
  inversion Q3 as [| |? c ? tt ? Hc| | | | | | | |]; subst.
  inversion P8; subst.
  cbn [rest] in *.
  exists alt, (c :: u).
  split; [apply none_of_run; exact Halt|].
  split; [discriminate|].
  split; [apply none_of_run; constructor; assumption|].
  rewrite P1, E1, P5. do 2 f_equal. simpl. f_equal.
  match goal with
  | H : _ :: _ = rest _ |- _ => rewrite <- H in E4
  end.
  rewrite E4. reflexivity.
Qed.

(** An image without an address is no image. *)
Lemma image_none_empty_url p alt s :
  no_chr "]" alt ->
  match_at false re_image false p (L "![" ++ alt ++ L "]()" ++ s) = None.
Proof.
  intros Ha. apply match_at_none. intros s' P. apply image_shape in P.
  destruct P as (alt' & url & Ha' & Hne & Hu & E). cbn [rest] in E.
  apply app_inv_head in E.
  change (L "]()" ++ s) with ("]"%char :: L "()" ++ s) in E.
  change (L "](" ++ url ++ ")"%char :: rest s')
    with ("]"%char :: L "(" ++ url ++ ")"%char :: rest s') in E.
  apply run_unique in E; [|assumption..]. destruct E as [_ E].
  destruct url as [|c url]; [contradiction|].
  inversion Hu; subst. simpl in E. injection E as E _. congruence.
Qed.

Lemma image_prefix a t :
  no_chr "!" a -> image_pass (a ++ t) = a ++ image_pass t.
Proof.
  intros Ha. unfold image_pass, sub_t. apply sub_prefix_kept; [reflexivity|].
  intros u v E Hv. destruct v as [|c v]; [contradiction|].
  unfold re_image. apply match_at_lit_none.
  rewrite E in Ha. apply Forall_app in Ha. destruct Ha as [_ Ha].
  inversion Ha; subst. simpl. unfold ceq.
  destruct (Ascii.eqb "!" c) eqn:Ec; [|reflexivity].
  apply Ascii.eqb_eq in Ec. congruence.
Qed.

Lemma image_plain t : no_chr "!" t -> image_pass t = t.
Proof.
  intros Ht. rewrite <- (app_nil_r t) at 1. rewrite image_prefix by exact Ht.
  unfold image_pass, sub_t. rewrite sub_nil by (simpl; lia). apply app_nil_r.
Qed.

Lemma image_first a alt url s :
  no_chr "!" a -> no_chr "]" alt -> url <> [] -> no_chr ")" url ->
  image_pass (a ++ image_md alt url ++ s)
  = a ++ image_figure alt url ++ image_pass s.
Proof.
  intros Ha Halt Hne Hu. rewrite image_prefix by exact Ha. f_equal.
  unfold image_pass, sub_t.
  rewrite (sub_hit false re_image _ (image_md alt url) s
             (RMatch (image_md alt url) [(2, url); (1, alt)]));
    [|simpl; lia|reflexivity|apply image_match; assumption|reflexivity].
  reflexivity.
Qed.

Lemma image_empty_url a alt s :
  no_chr "!" a -> no_chr "]" alt ->
  image_pass (a ++ L "![" ++ alt ++ L "]()" ++ s)
  = a ++ "!"%char :: image_pass (L "[" ++ alt ++ L "]()" ++ s).
Proof.
  intros Ha Halt. rewrite image_prefix by exact Ha. f_equal.
  unfold image_pass, sub_t.
  change (L "![" ++ alt ++ L "]()" ++ s)
    with ("!"%char :: L "[" ++ alt ++ L "]()" ++ s).
  apply sub_keep; [reflexivity|].
  apply (image_none_empty_url None alt s Halt).
Qed.

(** ** The start of a line and the start of the text *)

Lemma at_bol_prev ml p t cs t' cs' :
  at_bol ml (MState p t cs) = at_bol ml (MState p t' cs').
Proof. reflexivity. Qed.

Lemma m_start_blind (A : Type) ml r :
  forall (k : mstate -> option A), start_blind ml k -> start_blind ml (m ml r k).
Proof.
  induction r; intros k Hk s s' R; pose proof R as (Er & Ec & Eb).
  - simpl. apply Hk. exact R.
  - destruct s as [p t cs], s' as [p' t' cs']. simpl in Er, Ec. subst t' cs'.
    destruct t; [reflexivity|]. rewrite !m_chr. reflexivity.
  - destruct s as [q t cs], s' as [q' t' cs']. simpl in Er, Ec. subst t' cs'.
    destruct t; [reflexivity|]. rewrite !m_cls. reflexivity.
  - rewrite !m_bol, Eb.
    destruct (at_bol ml s'); [|reflexivity].
    apply Hk. exact R.
  - rewrite !m_eol, (at_eol_rest ml s s' Er).
    destruct (at_eol ml s'); [|reflexivity].
    apply Hk. exact R.
  - rewrite !m_seq. apply IHr1; [apply IHr2; exact Hk | exact R].
  - rewrite !m_alt. f_equal; [apply IHr1 | apply IHr2]; auto.
  - remember (length (rest s)) as n eqn:En.
    clear Er Ec Eb. revert s s' En R.
    induction n as [n IHn] using lt_wf_ind. intros s s' En R.
    pose proof R as (Er & Ec & Eb).
    rewrite !m_star. cbv zeta.
    assert (E : m ml r
                  (fun s0 => if length (rest s0) <? length (rest s)
                             then m ml (Star greedy r) k s0 else None) s
                = m ml r
                    (fun s0 => if length (rest s0) <? length (rest s')
                               then m ml (Star greedy r) k s0 else None) s').
    { rewrite <- Er. apply IHr; [|exact R].
      intros t t' Rt. pose proof Rt as (Et & _). rewrite <- Et.
      destruct (length (rest t) <? length (rest s)) eqn:El; [|reflexivity].
      apply Nat.ltb_lt in El.
      apply (IHn (length (rest t))); auto. lia. }
    rewrite E, (Hk s s' R). reflexivity.
  - rewrite !m_grp. rewrite <- Er. apply IHr; [|exact R].
    intros t t' (Et & Ect & Ebt). apply Hk.
    destruct t as [pt rt ct], t' as [pt' rt' ct'].
    simpl in Et, Ect. subst rt' ct'. split; [reflexivity|].
    split; [reflexivity | exact Ebt].
Qed.

(** With [re.MULTILINE] a match attempt behind a newline is the same as
    one at the start of the text. *)
Lemma match_at_start r adv s :
  match_at true r adv (Some nl) s = match_at true r adv None s.
Proof.
  unfold match_at. apply m_start_blind.
  - intros t t' (Et & Ec & _). rewrite Et, Ec. reflexivity.
  - repeat split.
Qed.

Lemma scan_start r skip s :
  scan true r (Some nl) skip s = scan true r None skip s.
Proof.
  destruct skip; [|destruct s; reflexivity].
  rewrite !scan_0, !match_at_start. reflexivity.
Qed.

Lemma scan_nil_none ml r p :
  match_at ml r false p [] = None -> scan ml r p 0 [] = [].
Proof. intros H. rewrite scan_0, H. reflexivity. Qed.

Lemma greedy_try_none (A : Type) (k : mstate -> option A) :
  forall w p s cs,
    (forall u v, w = u ++ v -> k (MState (last_chr u p) (v ++ s) cs) = None) ->
    greedy_try k p cs w s = None.
Proof.
  induction w as [|c w IH]; intros p s cs H.
  - apply (H [] []). reflexivity.
  - simpl. rewrite IH.
    + apply (H [] (c :: w)). reflexivity.
    + intros u v E. specialize (H (c :: u) v). rewrite last_chr_cons in H.
      apply H. simpl. congruence.
Qed.

Lemma m_seq_app (A : Type) ml rs1 rs2 (k : mstate -> option A) s :
  m ml (seq (rs1 ++ rs2)) k s = m ml (seq rs1) (m ml (seq rs2) k) s.
Proof.
  revert s. induction rs1 as [|r rs1 IH]; intros s; [reflexivity|].
  change ((r :: rs1) ++ rs2) with (r :: (rs1 ++ rs2)).
  rewrite !m_seq_cons. apply m_ext. exact IH.
Qed.

(** The white space at the head of a text and what stands behind it. *)
Lemma lstrip_split t :
  exists w, t = w ++ lstrip t
            /\ Forall (fun c => is_space c = true) w
            /\ stops is_space (lstrip t).
Proof.
  induction t as [|c t (w & E & Hw & Hs)].
  - exists []. repeat split. constructor.
  - simpl. destruct (is_space c) eqn:Ec.
    + exists (c :: w). split; [simpl; congruence|].
      split; [constructor; assumption | exact Hs].
    + exists []. repeat split; [constructor | exact Ec].
Qed.

(** ** The list passes *)

Lemma m_star_greedy_stop (A : Type) ml q (k : mstate -> option A) p s cs :
  stops q s ->
  m ml (Star true (Cls q)) k (MState p s cs) = k (MState p s cs).
Proof. intros H. apply (m_star_greedy_cls A ml q k [] p s cs); [constructor | exact H]. Qed.

Lemma item_ok_inv x :
  item_ok x = true ->
  exists c y, x = c :: y /\ is_space c = false
              /\ is_space (last x " "%char) = false /\ no_chr nl x.
Proof.
  destruct x as [|c y]; [discriminate|]. unfold item_ok. intros H.
  apply andb_true_iff in H. destruct H as [H H3].
  apply andb_true_iff in H. destruct H as [H1 H2].
  apply negb_true_iff in H1, H2.
  exists c, y. repeat split; try assumption.
  unfold no_chr. apply Forall_forall. intros d Hd.
  rewrite forallb_forall in H3. specialize (H3 d Hd).
  intros ->. unfold ceq in H3. rewrite Ascii.eqb_refl in H3. discriminate.
Qed.

Section ListPass.

Variable marker : list regex.
Variable starts : ascii -> bool.
Variable is_mark : str -> bool.
Variable f : rmatch -> str.
Variable tag : string.

Hypothesis list_len : 0 < min_len (re_list marker).

Hypothesis marker_len : 0 < min_len (re_marker marker).

Hypothesis mark_head :
  forall mk, is_mark mk = true -> exists c t, mk = c :: t /\ is_space c = false.

Hypothesis mark_line : forall mk, is_mark mk = true -> no_chr nl mk.

Hypothesis mark_m :
  forall ml (k : mstate -> option rmatch) a p mk s cs,
    is_mark mk = true ->
    k (MState (last_chr mk p) s cs) = Some a ->
    m ml (seq marker) k (MState p (mk ++ s) cs) = Some a.

Hypothesis mark_none :
  forall ml (k : mstate -> option rmatch) p s cs,
    no_mark_at starts s = true -> m ml (seq marker) k (MState p s cs) = None.

Hypothesis space_start : forall c, is_space c = true -> starts c = false.

Hypothesis f_eq :
  forall mt,
    f mt
    = L "<" ++ L tag ++ L ">" ++ [nl]
      ++ flat_map (fun item =>
                     L "<li>" ++ sub_t false (re_marker marker) [] item
                     ++ L "</li>" ++ [nl])
           (split_chr nl (strip (m_text mt)))
      ++ L "</" ++ L tag ++ L ">".

(** One item: the white space [w] before it (none between two items),
    the marker, a space, the text, and then the end of the line. *)
Lemma item_m (k : mstate -> option rmatch) a p w mk x s cs :
  line_start p -> Forall (fun c => is_space c = true) w ->
  is_mark mk = true -> item_ok x = true -> line_end s ->
  m true (Opt cls_nl)
    (fun s' =>
       k (MState (prev s') (rest s')
            ((1, firstn (length (w ++ item_line (mk, x) ++ s) - length (rest s'))
                   (w ++ item_line (mk, x) ++ s)) :: caps s')))
    (MState (last_chr x (Some " "%char)) s cs) = Some a ->
  m true (re_item marker) k (MState p (w ++ item_line (mk, x) ++ s) cs) = Some a.
Proof.
  intros Hp Hw Hmk Hx Hs Hk.
  destruct (mark_head mk Hmk) as (c0 & t0 & Emk & Hc0).
  destruct (item_ok_inv x Hx) as (c & y & Ex & Hc & _ & Hnl).
  unfold re_item. rewrite m_grp. cbn [rest].
  set (K := fun s' : mstate => k _) in *.
  rewrite m_seq_cons, m_bol, at_bol_line_start by exact Hp.
  rewrite m_seq_cons. unfold space at 1.
  rewrite m_star_greedy_cls;
    [|exact Hw|unfold item_line; cbn [fst snd]; rewrite Emk; exact Hc0].
  apply greedy_try_all. rewrite m_seq_app.
  unfold item_line. cbn [fst snd]. rewrite <- app_assoc.
  apply mark_m; [exact Hmk|].
  rewrite m_seq_cons. unfold Plus at 1. rewrite m_seq.
  unfold space. rewrite <- app_comm_cons, m_cls.
  change (is_space " ") with true. cbv iota.
  rewrite m_star_greedy_stop by (rewrite Ex; exact Hc).
  rewrite m_seq_cons. unfold Plus, dot. rewrite m_seq.
  subst x. apply no_chr_dot in Hnl. inversion Hnl as [|? ? Hd Hy]; subst.
  rewrite <- app_comm_cons, m_cls, Hd.
  rewrite m_star_greedy_cls; [|exact Hy|apply line_end_stops; exact Hs].
  apply greedy_try_all. rewrite m_seq_one.
  rewrite last_chr_cons in Hk. exact Hk.
Qed.

Lemma item_m_nl (k : mstate -> option rmatch) a p w mk x t cs :
  line_start p -> Forall (fun c => is_space c = true) w ->
  is_mark mk = true -> item_ok x = true ->
  k (MState (Some nl) t ((1, w ++ item_line (mk, x) ++ [nl]) :: cs)) = Some a ->
  m true (re_item marker) k
    (MState p (w ++ item_line (mk, x) ++ nl :: t) cs) = Some a.
Proof.
  intros Hp Hw Hmk Hx Hk.
  apply item_m; try assumption; [right; eauto|].
  unfold Opt, cls_nl. rewrite m_alt, m_cls.
  change (ceq nl nl) with true. cbv iota. cbn [prev rest caps].
  replace (w ++ item_line (mk, x) ++ nl :: t)
    with ((w ++ item_line (mk, x) ++ [nl]) ++ t)
    by (rewrite <- !app_assoc; reflexivity).
  rewrite firstn_len_app, Hk. reflexivity.
Qed.

Lemma item_m_end (k : mstate -> option rmatch) a p w mk x cs :
  line_start p -> Forall (fun c => is_space c = true) w ->
  is_mark mk = true -> item_ok x = true ->
  k (MState (last_chr x (Some " "%char)) []
            ((1, w ++ item_line (mk, x)) :: cs)) = Some a ->
  m true (re_item marker) k (MState p (w ++ item_line (mk, x)) cs) = Some a.
Proof.
  intros Hp Hw Hmk Hx Hk.
  rewrite <- (app_nil_r (item_line (mk, x))) at 1.
  apply item_m; try assumption; [left; reflexivity|].
  unfold Opt, cls_nl. rewrite m_alt, m_cls_nil, m_eps.
  cbn [orelse prev rest caps length].
  rewrite Nat.sub_0_r, firstn_all, app_nil_r. exact Hk.
Qed.

(** Where no item starts the item pattern fails. *)
Lemma item_none (k : mstate -> option rmatch) p t cs :
  no_item starts t = true ->
  m true (re_item marker) k (MState p t cs) = None.
Proof.
  intros Ht. unfold re_item. rewrite m_grp, m_seq_cons, m_bol.
  destruct (at_bol true _); [|reflexivity].
  rewrite m_seq_cons. unfold space.
  destruct (lstrip_split t) as (w & E & Hw & Hs).
  rewrite E at 1. rewrite m_star_greedy_cls by assumption.
  apply greedy_try_none. intros u v Ev.
  rewrite m_seq_app. apply mark_none.
  destruct v as [|c v].
  - exact Ht.
  - simpl. rewrite space_start; [reflexivity|].
    rewrite Ev in Hw. apply Forall_app in Hw. destruct Hw as [_ Hw].
    inversion Hw; subst. assumption.
Qed.

Lemma star_stop (k : mstate -> option rmatch) p t cs :
  no_item starts t = true ->
  m true (Star true (re_item marker)) k (MState p t cs) = k (MState p t cs).
Proof.
  intros Ht. rewrite m_star. cbv zeta. rewrite item_none by exact Ht.
  reflexivity.
Qed.

Lemma list_text_cons it it2 its fin :
  list_text (it :: it2 :: its) fin
  = item_line it ++ nl :: list_text (it2 :: its) fin.
Proof.
  unfold list_text.
  change (map item_line (it :: it2 :: its))
    with (item_line it :: item_line it2 :: map item_line its).
  rewrite join_cons_cons, <- !app_assoc. reflexivity.
Qed.

Lemma item_line_length it : 0 < length (item_line it).
Proof. unfold item_line. rewrite length_app. simpl. lia. Qed.

(** The items behind the first one: each is one turn of the loop, and
    the loop stops where no item starts. *)
Lemma items_m (P : rmatch -> Prop) (k : mstate -> option rmatch) fin t :
  no_item starts t = true -> (fin = false -> t = []) ->
  (forall pf cs', exists a, k (MState pf t cs') = Some a /\ P a) ->
  forall its it p cs,
    line_start p ->
    Forall (fun i => is_mark (fst i) = true /\ item_ok (snd i) = true)
           (it :: its) ->
    exists a,
      m true (Star true (re_item marker)) k
        (MState p (list_text (it :: its) fin ++ t) cs) = Some a /\ P a.
Proof.
  intros Ht Hfin Hk.
  induction its as [|it2 its IH]; intros it p cs Hp Hok;
    inversion Hok as [|? ? [Hmk Hx] Hok']; subst;
    destruct it as [mk x]; cbn [fst snd] in *.
  - unfold list_text. cbn [map join]. destruct fin.
    + destruct (Hk (Some nl) ((1, [] ++ item_line (mk, x) ++ [nl]) :: cs))
        as (a & Ha & Pa).
      exists a. split; [|exact Pa].
      rewrite m_star. cbv zeta.
      replace ((item_line (mk, x) ++ [nl]) ++ t)
        with ([] ++ item_line (mk, x) ++ nl :: t)
        by (simpl; rewrite <- app_assoc; reflexivity).
      rewrite (item_m_nl _ a); try assumption; [reflexivity | constructor|].
      cbn [rest].
      assert (Hlt : (length t <? length ([] ++ item_line (mk, x) ++ nl :: t))
                    = true).
      { apply Nat.ltb_lt.
        change ([] ++ item_line (mk, x) ++ nl :: t)
          with (item_line (mk, x) ++ nl :: t).
        rewrite (length_app (item_line (mk, x))). cbn [length]. lia. }
      rewrite Hlt, star_stop by exact Ht. exact Ha.
    + rewrite (Hfin eq_refl) in *. rewrite !app_nil_r.
      destruct (Hk (last_chr x (Some " "%char))
                   ((1, [] ++ item_line (mk, x)) :: cs)) as (a & Ha & Pa).
      exists a. split; [|exact Pa].
      rewrite m_star. cbv zeta.
      assert (Hlt : (length (@nil ascii) <? length (item_line (mk, x))) = true).
      { apply Nat.ltb_lt. pose proof (item_line_length (mk, x)). simpl. lia. }
      match goal with
      | |- orelse (m true (re_item marker) ?K _) _ = _ =>
          pose proof (item_m_end K a p [] mk x cs Hp (Forall_nil _) Hmk Hx) as H
      end.
      change ([] ++ item_line (mk, x)) with (item_line (mk, x)) in H.
      rewrite H; [reflexivity|].
      cbn [rest]. rewrite Hlt, star_stop by exact Ht. exact Ha.
  - rewrite list_text_cons.
    destruct (IH it2 (Some nl) ((1, [] ++ item_line (mk, x) ++ [nl]) :: cs))
      as (a & Ha & Pa); [right; reflexivity | exact Hok'|].
    exists a. split; [|exact Pa].
    rewrite m_star. cbv zeta.
    replace ((item_line (mk, x) ++ nl :: list_text (it2 :: its) fin) ++ t)
      with ([] ++ item_line (mk, x) ++ nl :: (list_text (it2 :: its) fin ++ t))
      by (simpl; rewrite <- app_assoc; reflexivity).
    rewrite (item_m_nl _ a); try assumption; [reflexivity | constructor|].
    cbn [rest].
    assert (Hlt : (length (list_text (it2 :: its) fin ++ t)
                   <? length ([] ++ item_line (mk, x)
                                 ++ nl :: (list_text (it2 :: its) fin ++ t)))
                  = true).
    { apply Nat.ltb_lt.
      change ([] ++ item_line (mk, x) ++ nl :: (list_text (it2 :: its) fin ++ t))
        with (item_line (mk, x) ++ nl :: (list_text (it2 :: its) fin ++ t)).
      rewrite (length_app (item_line (mk, x))). cbn [length]. lia. }
    rewrite Hlt. exact Ha.
Qed.

(** A list at a line start, behind white space [w]: the match is the
    white space and the list, with the newline behind the last item when
    there is one. *)
Lemma list_match p w it its fin t :
  line_start p -> Forall (fun c => is_space c = true) w ->
  Forall (fun i => is_mark (fst i) = true /\ item_ok (snd i) = true)
         (it :: its) ->
  no_item starts t = true -> (fin = false -> t = []) ->
  exists mt,
    match_at true (re_list marker) false p
      ((w ++ list_text (it :: its) fin) ++ t) = Some mt
    /\ m_text mt = w ++ list_text (it :: its) fin.
Proof.
  intros Hp Hw Hok Ht Hfin.
  unfold match_at, re_list, Plus. rewrite m_seq.
  set (kf := fun s' : mstate => _).
  assert (Hkf : forall pf cs',
             exists a, kf (MState pf t cs') = Some a
                       /\ m_text a = w ++ list_text (it :: its) fin).
  { intros pf cs'. eexists. split; [reflexivity|].
    cbn [andb rest caps m_text]. apply firstn_len_app. }
  destruct it as [mk x].
  inversion Hok as [|? ? [Hmk Hx] Hok']; subst. cbn [fst snd] in *.
  destruct its as [|it2 its].
  - unfold list_text in *. cbn [map join] in *. destruct fin.
    + destruct (Hkf (Some nl) [(1, w ++ item_line (mk, x) ++ [nl])])
        as (a & Ha & Pa).
      exists a. split; [|exact Pa].
      replace ((w ++ item_line (mk, x) ++ [nl]) ++ t)
        with (w ++ item_line (mk, x) ++ nl :: t)
        by (rewrite <- !app_assoc; reflexivity).
      apply item_m_nl; try assumption.
      rewrite star_stop by exact Ht. exact Ha.
    + rewrite (Hfin eq_refl) in *.
      destruct (Hkf (last_chr x (Some " "%char)) [(1, w ++ item_line (mk, x))])
        as (a & Ha & Pa).
      exists a. split; [|exact Pa].
      rewrite !app_nil_r.
      apply item_m_end; try assumption.
      rewrite star_stop by reflexivity. exact Ha.
  - rewrite list_text_cons in *.
    destruct (items_m (fun a => m_text a
                                = w ++ item_line (mk, x)
                                    ++ nl :: list_text (it2 :: its) fin)
                kf fin t Ht Hfin Hkf its it2 (Some nl)
                [(1, w ++ item_line (mk, x) ++ [nl])])
      as (a & Ha & Pa); [right; reflexivity | exact Hok'|].
    exists a. split; [|exact Pa].
    replace ((w ++ item_line (mk, x) ++ nl :: list_text (it2 :: its) fin) ++ t)
      with (w ++ item_line (mk, x) ++ nl :: (list_text (it2 :: its) fin ++ t))
      by (rewrite <- !app_assoc; reflexivity).
    apply item_m_nl; try assumption.
Qed.

(** The marker pattern takes the marker and the space off an item. *)
Lemma marker_off mk x :
  is_mark mk = true -> item_ok x = true ->
  sub_t false (re_marker marker) [] (item_line (mk, x)) = x.
Proof.
  intros Hmk Hx.
  destruct (mark_head mk Hmk) as (c0 & t0 & Emk & Hc0).
  destruct (item_ok_inv x Hx) as (c & y & Ex & Hc & _ & Hnl).
  assert (Hm : match_at false (re_marker marker) false None
                 ((mk ++ [" "%char]) ++ x)
               = Some (RMatch (mk ++ [" "%char]) [])).
  { apply (match_at_intro false _ None (Some " "%char)).
    intros k a Hk. unfold re_marker.
    rewrite m_seq_cons, m_bol. cbn [at_bol prev].
    rewrite m_seq_cons. unfold space.
    rewrite m_star_greedy_stop by (rewrite Emk; exact Hc0).
    rewrite m_seq_app, <- app_assoc. apply mark_m; [exact Hmk|].
    rewrite m_seq_one.
    rewrite m_star_greedy_cls;
      [|repeat constructor|rewrite Ex; exact Hc].
    apply greedy_try_all. exact Hk. }
  unfold sub_t, sub, item_line. cbn [fst snd].
  replace (mk ++ " "%char :: x) with ((mk ++ [" "%char]) ++ x)
    by (rewrite <- app_assoc; reflexivity).
  rewrite (scan_hit_eq false _ None _ x _ marker_len Hm eq_refl).
  rewrite last_chr_app. change (last_chr [" "%char] (last_chr mk None))
    with (Some " "%char).
  rewrite <- (app_nil_r x) at 1. unfold re_marker.
  rewrite scan_inside; [|discriminate|exact Hnl].
  rewrite scan_nil_none.
  - cbn [flat_map emit]. rewrite app_nil_r, flat_map_emit_keep. reflexivity.
  - destruct (last_chr_not_nl x " "%char) as (d & -> & Hd);
      [discriminate | exact Hnl |].
    apply match_at_inside. exact Hd.
Qed.

Lemma rstrip_keeps s c : is_space c = false -> rstrip (s ++ [c]) = s ++ [c].
Proof.
  intros H. unfold rstrip. rewrite rev_app_distr. simpl.
  rewrite H. simpl. rewrite rev_involutive. reflexivity.
Qed.

Lemma item_line_ends mk x :
  is_mark mk = true -> item_ok x = true ->
  (exists c j, item_line (mk, x) = c :: j /\ is_space c = false)
  /\ (exists j d, item_line (mk, x) = j ++ [d] /\ is_space d = false)
  /\ no_chr nl (item_line (mk, x)).
Proof.
  intros Hmk Hx.
  destruct (mark_head mk Hmk) as (c0 & t0 & Emk & Hc0).
  destruct (item_ok_inv x Hx) as (c & y & Ex & Hc & Hl & Hnl).
  unfold item_line. cbn [fst snd]. split; [|split].
  - exists c0, (t0 ++ " "%char :: x). rewrite Emk. auto.
  - exists (mk ++ " "%char :: removelast x), (last x " "%char).
    split; [|exact Hl].
    assert (E : x = removelast x ++ [last x " "%char])
      by (apply app_removelast_last; rewrite Ex; discriminate).
    rewrite E at 1. rewrite <- app_assoc. reflexivity.
  - apply no_chr_app. split; [apply mark_line; exact Hmk|].
    constructor; [discriminate | exact Hnl].
Qed.

Lemma list_lines_ends it its :
  Forall (fun i => is_mark (fst i) = true /\ item_ok (snd i) = true)
         (it :: its) ->
  (exists c j, join [nl] (map item_line (it :: its)) = c :: j
               /\ is_space c = false)
  /\ (exists j d, join [nl] (map item_line (it :: its)) = j ++ [d]
                  /\ is_space d = false)
  /\ Forall (no_chr nl) (map item_line (it :: its)).
Proof.
  revert it. induction its as [|it2 its IH]; intros [mk x] Hok;
    inversion Hok as [|? ? [Hmk Hx] Hok']; subst; cbn [fst snd] in *;
    destruct (item_line_ends mk x Hmk Hx)
      as ((c & j & Ec & Hc) & (j' & d & Ed & Hd) & Hnl).
  - cbn [map join]. split; [eauto|]. split; [eauto|].
    constructor; [exact Hnl | constructor].
  - destruct (IH it2 Hok') as (_ & (j2 & d2 & E2 & Hd2) & Hnl2).
    change (map item_line ((mk, x) :: it2 :: its))
      with (item_line (mk, x) :: map item_line (it2 :: its)).
    change (map item_line (it2 :: its))
      with (item_line it2 :: map item_line its) at 1 2.
    rewrite join_cons_cons.
    change (item_line it2 :: map item_line its)
      with (map item_line (it2 :: its)).
    split; [|split].
    + exists c, (j ++ [nl] ++ join [nl] (map item_line (it2 :: its))).
      rewrite Ec. auto.
    + exists (item_line (mk, x) ++ [nl] ++ j2), d2.
      rewrite E2, <- !app_assoc. auto.
    + constructor; assumption.
Qed.

Lemma strip_list w it its fin :
  Forall (fun c => is_space c = true) w ->
  Forall (fun i => is_mark (fst i) = true /\ item_ok (snd i) = true)
         (it :: its) ->
  strip (w ++ list_text (it :: its) fin)
  = join [nl] (map item_line (it :: its)).
Proof.
  intros Hw Hok.
  destruct (list_lines_ends it its Hok)
    as ((c & j & Ec & Hc) & (j' & d & Ed & Hd) & _).
  unfold strip, list_text. rewrite lstrip_spaces by exact Hw.
  rewrite Ec at 1. simpl app. rewrite lstrip_keeps by exact Hc.
  change (c :: j ++ (if fin then [nl] else []))
    with ((c :: j) ++ (if fin then [nl] else [])).
  rewrite <- Ec, Ed. destruct fin.
  - apply rstrip_newline. exact Hd.
  - rewrite app_nil_r. apply rstrip_keeps. exact Hd.
Qed.

Lemma items_html its :
  Forall (fun i => is_mark (fst i) = true /\ item_ok (snd i) = true) its ->
  flat_map (fun item =>
              L "<li>" ++ sub_t false (re_marker marker) [] item
              ++ L "</li>" ++ [nl])
    (map item_line its)
  = flat_map (fun x => L "<li>" ++ x ++ L "</li>" ++ [nl]) (map snd its).
Proof.
  induction its as [|[mk x] its IH]; intros Hok; [reflexivity|].
  inversion Hok as [|? ? [Hmk Hx] Hok']; subst. cbn [fst snd] in *.
  cbn [map flat_map snd]. rewrite (marker_off mk x Hmk Hx), (IH Hok').
  reflexivity.
Qed.

(** The list element written for the match. *)
Lemma list_replacement mt w it its fin :
  Forall (fun c => is_space c = true) w ->
  Forall (fun i => is_mark (fst i) = true /\ item_ok (snd i) = true)
         (it :: its) ->
  m_text mt = w ++ list_text (it :: its) fin ->
  f mt = list_html tag (map snd (it :: its)).
Proof.
  intros Hw Hok Et.
  destruct (list_lines_ends it its Hok) as (_ & _ & Hnl).
  rewrite f_eq, Et, strip_list by assumption.
  change (map item_line (it :: its))
    with (item_line it :: map item_line its) in *.
  rewrite split_chr_join by exact Hnl.
  change (item_line it :: map item_line its)
    with (map item_line (it :: its)).
  rewrite items_html by exact Hok. reflexivity.
Qed.

(** The pass on a list at the start of the text, and on what follows
    it. *)
Lemma list_pass_items w it its fin t :
  Forall (fun c => is_space c = true) w ->
  Forall (fun i => is_mark (fst i) = true /\ item_ok (snd i) = true)
         (it :: its) ->
  no_item starts t = true -> (fin = false -> t = []) ->
  sub true (re_list marker) f (w ++ list_text (it :: its) fin ++ t)
  = list_html tag (map snd (it :: its)) ++ sub true (re_list marker) f t.
Proof.
  intros Hw Hok Ht Hfin.
  destruct (list_match None w it its fin t (or_introl eq_refl) Hw Hok Ht Hfin)
    as (mt & Hm & Et).
  unfold sub. rewrite (app_assoc w).
  rewrite (scan_hit_eq true _ None _ t mt list_len Hm Et).
  cbn [flat_map emit].
  rewrite (list_replacement mt w it its fin Hw Hok Et). f_equal.
  destruct fin.
  - unfold list_text. rewrite !last_chr_app.
    change (last_chr [nl] (last_chr (join [nl] (map item_line (it :: its)))
                             (last_chr w None)))
      with (Some nl).
    rewrite scan_start. reflexivity.
  - rewrite (Hfin eq_refl). rewrite !scan_nil by exact list_len. reflexivity.
Qed.

Lemma list_inside adv c s :
  c <> nl -> match_at true (re_list marker) adv (Some c) s = None.
Proof.
  intros Hc. unfold match_at, re_list, Plus, re_item.
  rewrite m_seq, m_grp, m_seq_cons, m_bol, at_bol_inside by exact Hc.
  reflexivity.
Qed.

Lemma list_no_match p t :
  no_item starts t = true -> match_at true (re_list marker) false p t = None.
Proof.
  intros Ht. unfold match_at, re_list, Plus. rewrite m_seq.
  apply item_none. exact Ht.
Qed.

Lemma list_scan_inside X :
  forall l c,
    c <> nl -> no_chr nl l ->
    scan true (re_list marker) (Some c) 0 (l ++ nl :: X)
    = map Keep l ++ Keep nl :: scan true (re_list marker) None 0 X.
Proof.
  induction l as [|d l IH]; intros c Hc Hl.
  - simpl app. rewrite scan_keep by (apply list_inside; exact Hc).
    rewrite scan_start. reflexivity.
  - inversion Hl; subst. simpl app.
    rewrite scan_keep by (apply list_inside; exact Hc).
    rewrite IH by assumption. reflexivity.
Qed.

Lemma list_scan_inside_end :
  forall l c,
    c <> nl -> no_chr nl l ->
    scan true (re_list marker) (Some c) 0 l = map Keep l.
Proof.
  induction l as [|d l IH]; intros c Hc Hl.
  - apply scan_nil. exact list_len.
  - inversion Hl; subst.
    rewrite scan_keep by (apply list_inside; exact Hc).
    rewrite IH by assumption. reflexivity.
Qed.

(** A line at which no item starts is kept, with its newline. *)
Lemma list_pass_line a X :
  no_chr nl a -> no_item starts (a ++ nl :: X) = true ->
  sub true (re_list marker) f (a ++ nl :: X)
  = a ++ nl :: sub true (re_list marker) f X.
Proof.
  intros Ha Hn. unfold sub. destruct a as [|c a].
  - simpl app in *. rewrite scan_keep by (apply list_no_match; exact Hn).
    rewrite scan_start. reflexivity.
  - inversion Ha; subst. simpl app in *.
    rewrite scan_keep by (apply list_no_match; exact Hn).
    rewrite list_scan_inside by assumption.
    cbn [flat_map emit]. rewrite flat_map_app, flat_map_emit_keep.
    reflexivity.
Qed.

Lemma list_pass_last a :
  no_chr nl a -> no_item starts a = true ->
  sub true (re_list marker) f a = a.
Proof.
  intros Ha Hn. unfold sub. destruct a as [|c a].
  - rewrite scan_nil by exact list_len. reflexivity.
  - inversion Ha; subst.
    rewrite scan_keep by (apply list_no_match; exact Hn).
    rewrite list_scan_inside_end by assumption.
    cbn [flat_map emit]. rewrite flat_map_emit_keep. reflexivity.
Qed.

End ListPass.

(** ** Bulleted and numbered lists *)

Lemma bullet_inv c : bullet c = true -> c = "-"%char \/ c = "*"%char.
Proof.
  unfold bullet. simpl. intros H.
  apply orb_true_iff in H. destruct H as [H | H].
  - left. apply Ascii.eqb_eq. exact H.
  - apply orb_true_iff in H. destruct H as [H | H]; [|discriminate].
    right. apply Ascii.eqb_eq. exact H.
Qed.

Lemma ul_mark_inv mk : ul_mark mk = true -> exists c, mk = [c] /\ bullet c = true.
Proof.
  destruct mk as [|c [|d mk]]; try discriminate. simpl. eauto.
Qed.

Lemma space_not_digit c : is_space c = true -> is_digit c = false.
Proof.
  unfold is_space, is_digit, in_range. intros H.
  destruct ((48 <=? code c) && (code c <=? 57)) eqn:E; [|reflexivity].
  exfalso. apply andb_true_iff in E. destruct E as [E1 E2].
  apply Nat.leb_le in E1, E2.
  repeat (apply orb_true_iff in H; destruct H as [H | H]);
    try (apply andb_true_iff in H; destruct H as [H1 H2];
         apply Nat.leb_le in H1, H2; lia);
    apply Nat.eqb_eq in H; lia.
Qed.

Lemma space_not_bullet c : is_space c = true -> bullet c = false.
Proof.
  intros H. destruct (bullet c) eqn:E; [|reflexivity].
  apply bullet_inv in E. destruct E as [-> | ->]; discriminate.
Qed.

Lemma digit_not_nl c : is_digit c = true -> c <> nl.
Proof. intros H ->. discriminate. Qed.

Lemma ol_mark_inv mk :
  ol_mark mk = true ->
  exists e n, mk = (e :: n) ++ ["."%char] /\ is_digit e = true
              /\ Forall (fun c => is_digit c = true) n.
Proof.
  unfold ol_mark. intros H.
  destruct (rev mk) as [|c [|d ds]] eqn:E; try discriminate.
  apply andb_true_iff in H. destruct H as [Hc Hd].
  apply Ascii.eqb_eq in Hc. subst c.
  assert (Emk : mk = rev (d :: ds) ++ ["."%char]).
  { rewrite <- (rev_involutive mk), E. reflexivity. }
  assert (Hall : Forall (fun c => is_digit c = true) (rev (d :: ds))).
  { apply Forall_rev. apply Forall_forall. rewrite forallb_forall in Hd.
    exact Hd. }
  destruct (rev (d :: ds)) as [|e n] eqn:En.
  - exfalso. apply (f_equal (@length ascii)) in En.
    rewrite length_rev in En. discriminate.
  - inversion Hall; subst. exists e, n. auto.
Qed.

Lemma ol_marker_m ml (k : mstate -> option rmatch) a p mk s cs :
  ol_mark mk = true ->
  k (MState (last_chr mk p) s cs) = Some a ->
  m ml (seq [Plus true digit; Chr "."]) k (MState p (mk ++ s) cs) = Some a.
Proof.
  intros Hmk Hk. destruct (ol_mark_inv mk Hmk) as (e & n & -> & He & Hn).
  rewrite last_chr_app in Hk.
  change (last_chr ["."%char] (last_chr (e :: n) p)) with (Some "."%char) in Hk.
  rewrite m_seq_cons. unfold Plus, digit. rewrite m_seq.
  rewrite <- app_assoc, <- app_comm_cons, m_cls, He.
  rewrite m_star_greedy_cls; [|exact Hn|reflexivity].
  apply greedy_try_all. rewrite m_seq_one.
  change (["."%char] ++ s) with ("."%char :: s).
  rewrite m_chr. change (ceq "." ".") with true. exact Hk.
Qed.

Lemma ul_pass_items w it its fin t :
  Forall (fun c => is_space c = true) w ->
  Forall (fun i => ul_mark (fst i) = true /\ item_ok (snd i) = true)
         (it :: its) ->
  no_item bullet t = true -> (fin = false -> t = []) ->
  ul_pass (w ++ list_text (it :: its) fin ++ t)
  = list_html "ul" (map snd (it :: its)) ++ ul_pass t.
Proof.
  unfold ul_pass. change re_ul with (re_list [one_of "-*"]).
  apply (list_pass_items [one_of "-*"] bullet ul_mark format_list "ul").
  - simpl. lia.
  - simpl. lia.
  - intros mk H. destruct (ul_mark_inv mk H) as (c & -> & Hc).
    exists c, []. split; [reflexivity|].
    apply bullet_inv in Hc. destruct Hc as [-> | ->]; reflexivity.
  - intros mk H. destruct (ul_mark_inv mk H) as (c & -> & Hc).
    apply bullet_inv in Hc.
    destruct Hc as [-> | ->]; repeat constructor; discriminate.
  - intros ml k a p mk s cs H Hk.
    destruct (ul_mark_inv mk H) as (c & -> & Hc).
    rewrite m_seq_one. unfold one_of. simpl app. rewrite m_cls.
    unfold bullet in Hc. rewrite Hc. exact Hk.
  - intros ml k p s cs H. rewrite m_seq_one. unfold one_of.
    destruct s as [|c s]; [apply m_cls_nil|].
    rewrite m_cls. simpl in H. apply negb_true_iff in H.
    unfold bullet in H. rewrite H. reflexivity.
  - exact space_not_bullet.
  - reflexivity.
Qed.

Lemma ol_pass_items w it its fin t :
  Forall (fun c => is_space c = true) w ->
  Forall (fun i => ol_mark (fst i) = true /\ item_ok (snd i) = true)
         (it :: its) ->
  no_item is_digit t = true -> (fin = false -> t = []) ->
  ol_pass (w ++ list_text (it :: its) fin ++ t)
  = list_html "ol" (map snd (it :: its)) ++ ol_pass t.
Proof.
  unfold ol_pass. change re_ol with (re_list [Plus true digit; Chr "."]).
  apply (list_pass_items [Plus true digit; Chr "."] is_digit ol_mark
           format_ol "ol").
  - simpl. lia.
  - simpl. lia.
  - intros mk H. destruct (ol_mark_inv mk H) as (e & n & -> & He & _).
    exists e, (n ++ ["."%char]). split; [reflexivity|].
    destruct (is_space e) eqn:E; [|reflexivity].
    apply space_not_digit in E. congruence.
  - intros mk H. destruct (ol_mark_inv mk H) as (e & n & -> & He & Hn).
    apply no_chr_app. split; [|repeat constructor; discriminate].
    constructor; [apply digit_not_nl; exact He|].
    eapply Forall_impl; [|exact Hn]. intros c. apply digit_not_nl.
  - exact ol_marker_m.
  - intros ml k p s cs H. rewrite m_seq_cons. unfold Plus, digit.
    rewrite m_seq. destruct s as [|c s]; [apply m_cls_nil|].
    rewrite m_cls. simpl in H. apply negb_true_iff in H.
    rewrite H. reflexivity.
  - exact space_not_digit.
  - reflexivity.
Qed.

Lemma ul_marker_none ml (k : mstate -> option rmatch) p s cs :
  no_mark_at bullet s = true ->
  m ml (seq [one_of "-*"]) k (MState p s cs) = None.
Proof.
  intros H. rewrite m_seq_one. unfold one_of.
  destruct s as [|c s]; [apply m_cls_nil|].
  rewrite m_cls. simpl in H. apply negb_true_iff in H.
  unfold bullet in H. rewrite H. reflexivity.
Qed.

Lemma ol_marker_none ml (k : mstate -> option rmatch) p s cs :
  no_mark_at is_digit s = true ->
  m ml (seq [Plus true digit; Chr "."]) k (MState p s cs) = None.
Proof.
  intros H. rewrite m_seq_cons. unfold Plus, digit.
  rewrite m_seq. destruct s as [|c s]; [apply m_cls_nil|].
  rewrite m_cls. simpl in H. apply negb_true_iff in H.
  rewrite H. reflexivity.
Qed.

Lemma ul_pass_line a X :
  no_chr nl a -> no_item bullet (a ++ nl :: X) = true ->
  ul_pass (a ++ nl :: X) = a ++ nl :: ul_pass X.
Proof.
  unfold ul_pass. change re_ul with (re_list [one_of "-*"]).
  apply (list_pass_line [one_of "-*"] bullet);
    [exact ul_marker_none | exact space_not_bullet].
Qed.

Lemma ul_pass_last a :
  no_chr nl a -> no_item bullet a = true -> ul_pass a = a.
Proof.
  unfold ul_pass. change re_ul with (re_list [one_of "-*"]).
  apply (list_pass_last [one_of "-*"] bullet);
    [simpl; lia | exact ul_marker_none | exact space_not_bullet].
Qed.

Lemma ol_pass_line a X :
  no_chr nl a -> no_item is_digit (a ++ nl :: X) = true ->
  ol_pass (a ++ nl :: X) = a ++ nl :: ol_pass X.
Proof.
  unfold ol_pass. change re_ol with (re_list [Plus true digit; Chr "."]).
  apply (list_pass_line [Plus true digit; Chr "."] is_digit);
    [exact ol_marker_none | exact space_not_digit].
Qed.

Lemma ol_pass_last a :
  no_chr nl a -> no_item is_digit a = true -> ol_pass a = a.
Proof.
  unfold ol_pass. change re_ol with (re_list [Plus true digit; Chr "."]).
  apply (list_pass_last [Plus true digit; Chr "."] is_digit);
    [simpl; lia | exact ol_marker_none | exact space_not_digit].
Qed.

(** ** The heading passes and the rule pass on a whole text *)

Lemma heading_line_no_nl mark tag l :
  no_chr nl (L tag) -> no_chr nl l -> no_chr nl (heading_line mark tag l).
Proof.
  intros Ht Hl. unfold heading_line.
  destruct (marked_text (L mark) l) as [x|] eqn:E; [|exact Hl].
  apply marked_text_inv in E. destruct E as [-> _].
  apply no_chr_app in Hl. destruct Hl as [_ Hx].
  repeat (apply no_chr_app; split);
    try assumption; repeat constructor; discriminate.
Qed.

Lemma split_chr_map_lines (g : str -> str) text :
  (forall l, no_chr nl l -> no_chr nl (g l)) ->
  split_chr nl (join [nl] (map g (split_chr nl text)))
  = map g (split_chr nl text).
Proof.
  intros Hg. pose proof (split_chr_no_chr nl text) as Hl.
  destruct (split_chr nl text) as [|l ls] eqn:E;
    [exfalso; exact (split_chr_not_nil nl text E)|].
  change (map g (l :: ls)) with (g l :: map g ls).
  apply split_chr_join.
  change (g l :: map g ls) with (map g (l :: ls)).
  apply Forall_map. eapply Forall_impl; [|exact Hl]. exact Hg.
Qed.

Lemma heading_line_other mark tag l :
  starts_with (L mark) l = false -> heading_line mark tag l = l.
Proof. intros H. unfold heading_line, marked_text. rewrite H. reflexivity. Qed.

Lemma heading_line_hit mark tag c y :
  heading_line mark tag (L mark ++ c :: y)
  = L "<" ++ L tag ++ L ">" ++ (c :: y) ++ L "</" ++ L tag ++ L ">".
Proof. unfold heading_line. rewrite marked_text_intro. reflexivity. Qed.

(** X1: the two heading passes work line by line: a line that starts
    with the mark ([## ] or [### ]) and goes on behind it becomes the
    heading element around the rest of the line, every other line is
    kept.  One after the other they turn the lines with two hashes into
    level-2 headings and the lines with three into level-3 headings; a
    line with four hashes or more is no heading. *)
Theorem X1_heading_passes_by_line :
  (forall text,
      h2_pass text
      = join [nl] (map (heading_line "## " "h2") (split_chr nl text)))
  /\ (forall text,
         h3_pass text
         = join [nl] (map (heading_line "### " "h3") (split_chr nl text)))
  /\ (forall text,
         h3_pass (h2_pass text)
         = join [nl]
             (map (fun l => heading_line "### " "h3" (heading_line "## " "h2" l))
                  (split_chr nl text)))
  /\ (forall x,
         x <> [] -> no_chr nl x ->
         h3_pass (h2_pass (L "## " ++ x)) = L "<h2>" ++ x ++ L "</h2>"
         /\ h3_pass (h2_pass (L "### " ++ x)) = L "<h3>" ++ x ++ L "</h3>"
         /\ h3_pass (h2_pass (L "#### " ++ x)) = L "#### " ++ x).
Proof.
  assert (H23 : forall text,
             h3_pass (h2_pass text)
             = join [nl]
                 (map (fun l => heading_line "### " "h3"
                                  (heading_line "## " "h2" l))
                      (split_chr nl text))).
  { intros text. rewrite h3_pass_lines, h2_pass_lines.
    rewrite split_chr_map_lines, map_map; [reflexivity|].
    intros l. apply heading_line_no_nl. repeat constructor; discriminate. }
  split; [exact h2_pass_lines|]. split; [exact h3_pass_lines|].
  split; [exact H23|].
  intros x Hne Hx. destruct x as [|c y]; [contradiction|].
  assert (Hl : forall u, no_chr nl (L u) ->
                         split_chr nl (L u ++ c :: y) = [L u ++ c :: y]).
  { intros u Hu. apply split_chr_line. apply no_chr_app. auto. }
  rewrite !H23.
  rewrite !Hl by (repeat constructor; discriminate).
  cbn [map join].
  split; [|split].
  - rewrite heading_line_hit. apply heading_line_other. reflexivity.
  - rewrite (heading_line_other "## ") by reflexivity.
    apply heading_line_hit.
  - rewrite (heading_line_other "## ") by reflexivity.
    apply heading_line_other. reflexivity.
Qed.

Lemma X1_heading_passes_by_line_witness :
  h3_pass (h2_pass (L "## " ++ L "Methods")) = L "<h2>" ++ L "Methods" ++ L "</h2>"
  /\ h3_pass (h2_pass (L "### " ++ L "Data")) = L "<h3>" ++ L "Data" ++ L "</h3>"
  /\ h3_pass (h2_pass (L "#### " ++ L "Deep")) = L "#### " ++ L "Deep".
Proof.
  destruct X1_heading_passes_by_line as (_ & _ & _ & H).
  split; [|split].
  - apply (H (L "Methods")); [discriminate | repeat constructor; discriminate].
  - apply (H (L "Data")); [discriminate | repeat constructor; discriminate].
  - apply (H (L "Deep")); [discriminate | repeat constructor; discriminate].
Defined.

Lemma hyphens_rule n : is_rule (repeat "-"%char (3 + n)) = true.
Proof.
  unfold is_rule. rewrite repeat_length. cbn [Nat.add Nat.ltb Nat.leb andb].
  induction n as [|n IH]; [reflexivity|].
  cbn [Nat.add repeat forallb] in *. exact IH.
Qed.

Lemma hyphens_no_nl n : no_chr nl (repeat "-"%char n).
Proof. induction n; constructor; [discriminate | assumption]. Qed.

(** X2: the rule pass works line by line: a line of three hyphens or
    more and nothing else becomes [<hr>], every other line is kept, also
    two hyphens and a rule with a space before or behind it. *)
Theorem X2_rule_pass_by_line :
  (forall text, hr_pass text = join [nl] (map hr_line (split_chr nl text)))
  /\ (forall n, hr_pass (repeat "-"%char (3 + n)) = L "<hr>")
  /\ hr_pass (L "--") = L "--"
  /\ hr_pass (L "--- ") = L "--- "
  /\ hr_pass (L " ---") = L " ---".
Proof.
  split; [exact hr_pass_lines|]. split.
  - intros n. rewrite hr_pass_lines.
    rewrite split_chr_line by apply hyphens_no_nl.
    cbn [map join]. unfold hr_line. rewrite hyphens_rule. reflexivity.
  - rewrite !hr_pass_lines. repeat split; reflexivity.
Qed.

(** X3: the inline-code pass turns the first pair of backticks with a
    non-empty run between them into a [code] element around the run, as
    it is (angle brackets are not escaped, the run may span lines), and
    goes on behind it; of two backticks in a row the first is kept; a
    backtick that is never closed is kept, and a text without a backtick is
    unchanged. *)
Theorem X3_inline_code_spans :
  (forall a x s,
      no_chr "`" a -> x <> [] -> no_chr "`" x ->
      inline_pass (a ++ "`"%char :: x ++ "`"%char :: s)
      = a ++ L "<code>" ++ x ++ L "</code>" ++ inline_pass s)
  /\ (forall a s,
         no_chr "`" a ->
         inline_pass (a ++ "`"%char :: "`"%char :: s)
         = a ++ "`"%char :: inline_pass ("`"%char :: s))
  /\ (forall a x,
         no_chr "`" a -> no_chr "`" x ->
         inline_pass (a ++ "`"%char :: x) = a ++ "`"%char :: x)
  /\ (forall t, no_chr "`" t -> inline_pass t = t).
Proof.
  split; [exact inline_first|]. split; [|split].
  - intros a s Ha. apply (span_empty "`"). exact Ha.
  - intros a x Ha Hx. apply (span_open "`"); assumption.
  - exact inline_plain.
Qed.

Lemma X3_inline_code_spans_witness :
  inline_pass (L "use " ++ "`"%char :: L "a<b" ++ "`"%char :: L " here")
  = L "use " ++ L "<code>" ++ L "a<b" ++ L "</code>" ++ inline_pass (L " here")
  /\ inline_pass (L "x" ++ "`"%char :: "`"%char :: L "y")
     = L "x" ++ "`"%char :: inline_pass ("`"%char :: L "y")
  /\ inline_pass (L "a" ++ "`"%char :: L "b") = L "a" ++ "`"%char :: L "b"
  /\ inline_pass (L "plain") = L "plain".
Proof.
  destruct X3_inline_code_spans as (H1 & H2 & H3 & H4).
  split; [apply H1; [repeat constructor; discriminate | discriminate
                    | repeat constructor; discriminate]|].
  split; [apply H2; repeat constructor; discriminate|].
  split; [apply H3; repeat constructor; discriminate|].
  apply H4; repeat constructor; discriminate.
Defined.

Lemma italic_star_items x y :
  no_chr "*" x -> no_chr "*" y ->
  italic_pass (L "* " ++ x ++ nl :: L "* " ++ y)
  = L "<em> " ++ x ++ nl :: L "</em> " ++ y.
Proof.
  intros Hx Hy.
  replace (L "* " ++ x ++ nl :: L "* " ++ y)
    with ([] ++ "*"%char :: (" "%char :: x ++ [nl])
             ++ "*"%char :: " "%char :: y)
    by (simpl; rewrite <- app_assoc; reflexivity).
  rewrite italic_first; [|constructor|discriminate|].
  - rewrite italic_plain by (constructor; [discriminate | exact Hy]).
    simpl. rewrite <- app_assoc. reflexivity.
  - constructor; [discriminate|].
    apply no_chr_app. split; [exact Hx | repeat constructor; discriminate].
Qed.

(** X4: the italic pass turns the first pair of asterisks with a
    non-empty run without asterisk between them into an [em] element and
    goes on behind it; the run may span lines, so that of two list items
    with asterisk markers the two markers are taken for a pair: the items
    reach the list pass as emphasised text, not as a list. *)
Theorem X4_italic_spans :
  (forall a x s,
      no_chr "*" a -> x <> [] -> no_chr "*" x ->
      italic_pass (a ++ "*"%char :: x ++ "*"%char :: s)
      = a ++ L "<em>" ++ x ++ L "</em>" ++ italic_pass s)
  /\ (forall a s,
         no_chr "*" a ->
         italic_pass (a ++ "*"%char :: "*"%char :: s)
         = a ++ "*"%char :: italic_pass ("*"%char :: s))
  /\ (forall a x,
         no_chr "*" a -> no_chr "*" x ->
         italic_pass (a ++ "*"%char :: x) = a ++ "*"%char :: x)
  /\ (forall t, no_chr "*" t -> italic_pass t = t)
  /\ (forall x y,
         no_chr "*" x -> no_chr "*" y ->
         italic_pass (L "* " ++ x ++ nl :: L "* " ++ y)
         = L "<em> " ++ x ++ nl :: L "</em> " ++ y)
  /\ md_to_html (L "* a" ++ nl :: L "* b")
     = Returns (L "<em> a" ++ nl :: L "</em> b").
Proof.
  split; [exact italic_first|]. split; [|split; [|split; [|split]]].
  - intros a s Ha. apply (span_empty "*"). exact Ha.
  - intros a x Ha Hx. apply (span_open "*"); assumption.
  - exact italic_plain.
  - exact italic_star_items.
  - vm_compute. reflexivity.
Qed.

Lemma X4_italic_spans_witness :
  italic_pass (L "an " ++ "*"%char :: L "old" ++ "*"%char :: L " tale")
  = L "an " ++ L "<em>" ++ L "old" ++ L "</em>" ++ italic_pass (L " tale")
  /\ italic_pass (L "2 " ++ "*"%char :: L " 3") = L "2 " ++ "*"%char :: L " 3"
  /\ italic_pass (L "* " ++ L "one" ++ nl :: L "* " ++ L "two")
     = L "<em> " ++ L "one" ++ nl :: L "</em> " ++ L "two".
Proof.
  destruct X4_italic_spans as (H1 & _ & H3 & _ & H5 & _).
  split; [apply H1; [repeat constructor; discriminate | discriminate
                    | repeat constructor; discriminate]|].
  split; [apply H3; repeat constructor; discriminate|].
  apply H5; repeat constructor; discriminate.
Defined.

(** X5: the image pass turns the first image (an exclamation mark, an
    alternative text without closing bracket in square brackets, a
    non-empty address without closing parenthesis in round brackets) into
    a figure with the address as source and the alternative text, as it
    is, both as [alt] attribute and as caption; the alternative text may be
    empty, but an image with an empty address is no image and stays as it
    is written. *)
Theorem X5_image_figures :
  (forall a alt url s,
      no_chr "!" a -> no_chr "]" alt -> url <> [] -> no_chr ")" url ->
      image_pass (a ++ image_md alt url ++ s)
      = a ++ image_figure alt url ++ image_pass s)
  /\ (forall a alt s,
         no_chr "!" a -> no_chr "]" alt ->
         image_pass (a ++ L "![" ++ alt ++ L "]()" ++ s)
         = a ++ "!"%char :: image_pass (L "[" ++ alt ++ L "]()" ++ s))
  /\ (forall t, no_chr "!" t -> image_pass t = t).
Proof.
  split; [exact image_first|]. split; [exact image_empty_url | exact image_plain].
Qed.

Lemma X5_image_figures_witness :
  image_pass (L "see " ++ image_md [] (L "a.png") ++ L ".")
  = L "see " ++ image_figure [] (L "a.png") ++ image_pass (L ".")
  /\ image_pass (L "see " ++ L "![" ++ L "x" ++ L "]()" ++ L ".")
     = L "see " ++ "!"%char :: image_pass (L "[" ++ L "x" ++ L "]()" ++ L ".")
  /\ image_pass (L "text") = L "text".
Proof.
  destruct X5_image_figures as (H1 & H2 & H3).
  split; [apply H1; [repeat constructor; discriminate | constructor
                    | discriminate | repeat constructor; discriminate]|].
  split; [apply H2; repeat constructor; discriminate|].
  apply H3; repeat constructor; discriminate.
Defined.

(** ** A list between two paragraphs *)

Lemma no_item_app starts a s :
  lstrip a <> [] -> no_item starts (a ++ s) = no_item starts a.
Proof.
  unfold no_item. induction a as [|c a IH]; intros H; [contradiction|].
  simpl in *. destruct (is_space c); [apply IH; exact H | reflexivity].
Qed.

Section ListBetween.

Variable pass : str -> str.
Variable starts : ascii -> bool.
Variable is_mark : str -> bool.
Variable tag : string.

Hypothesis pass_items :
  forall w it its fin t,
    Forall (fun c => is_space c = true) w ->
    Forall (fun i => is_mark (fst i) = true /\ item_ok (snd i) = true)
           (it :: its) ->
    no_item starts t = true -> (fin = false -> t = []) ->
    pass (w ++ list_text (it :: its) fin ++ t)
    = list_html tag (map snd (it :: its)) ++ pass t.

Hypothesis pass_line :
  forall a X,
    no_chr nl a -> no_item starts (a ++ nl :: X) = true ->
    pass (a ++ nl :: X) = a ++ nl :: pass X.

Hypothesis pass_last :
  forall a, no_chr nl a -> no_item starts a = true -> pass a = a.

(** The blank line before the list and the blank line behind it are
    each reduced to one newline. *)
Lemma list_between para it its next :
  no_chr nl para -> lstrip para <> [] -> no_item starts para = true ->
  Forall (fun i => is_mark (fst i) = true /\ item_ok (snd i) = true)
         (it :: its) ->
  no_chr nl next -> no_item starts next = true ->
  pass (para ++ [nl; nl] ++ join [nl] (map item_line (it :: its))
        ++ [nl; nl] ++ next)
  = para ++ [nl] ++ list_html tag (map snd (it :: its)) ++ [nl] ++ next.
Proof.
  intros Hp Hpl Hpn Hok Hx Hxn.
  assert (Hnext : no_item starts (nl :: next) = true) by exact Hxn.
  replace (para ++ [nl; nl] ++ join [nl] (map item_line (it :: its))
           ++ [nl; nl] ++ next)
    with (para ++ nl :: ([nl] ++ list_text (it :: its) true ++ nl :: next))
    by (unfold list_text; simpl; rewrite <- !app_assoc; reflexivity).
  rewrite pass_line; [|exact Hp|rewrite no_item_app; assumption].
  rewrite pass_items;
    [|repeat constructor|exact Hok|exact Hnext|discriminate].
  pose proof (pass_line [] next (Forall_nil _) Hnext) as Hl.
  change ([] ++ nl :: next) with (nl :: next) in Hl.
  rewrite Hl, pass_last by assumption. reflexivity.
Qed.

End ListBetween.

(** X6: the bulleted-list pass.  A run of item lines (a hyphen or an
    asterisk, one space, a text without white space at its ends) that
    starts at a line start, with any white space before it, and ends at
    the end of the text or at a newline behind which no item starts,
    becomes one [ul] element with one [li] per item around the text of the
    item; the white space before the run and the newline behind it are
    replaced with it.  A line at which no item starts is kept.  So of a
    list between two paragraphs both blank lines are lost, and the
    converter puts the two paragraphs and the list into one paragraph
    element. *)
Theorem X6_bulleted_lists :
  (forall w it its fin t,
      Forall (fun c => is_space c = true) w ->
      Forall (fun i => ul_mark (fst i) = true /\ item_ok (snd i) = true)
             (it :: its) ->
      no_item bullet t = true -> (fin = false -> t = []) ->
      ul_pass (w ++ list_text (it :: its) fin ++ t)
      = list_html "ul" (map snd (it :: its)) ++ ul_pass t)
  /\ (forall a X,
         no_chr nl a -> no_item bullet (a ++ nl :: X) = true ->
         ul_pass (a ++ nl :: X) = a ++ nl :: ul_pass X)
  /\ (forall a, no_chr nl a -> no_item bullet a = true -> ul_pass a = a)
  /\ (forall para it its next,
         no_chr nl para -> lstrip para <> [] -> no_item bullet para = true ->
         Forall (fun i => ul_mark (fst i) = true /\ item_ok (snd i) = true)
                (it :: its) ->
         no_chr nl next -> no_item bullet next = true ->
         ul_pass (para ++ [nl; nl] ++ join [nl] (map item_line (it :: its))
                  ++ [nl; nl] ++ next)
         = para ++ [nl] ++ list_html "ul" (map snd (it :: its)) ++ [nl] ++ next)
  /\ md_to_html (L "para" ++ [nl; nl] ++ L "- a" ++ [nl] ++ L "- b"
                 ++ [nl; nl] ++ L "next")
     = Returns (L "<p>para" ++ [nl] ++ L "<ul>" ++ [nl] ++ L "<li>a</li>"
                ++ [nl] ++ L "<li>b</li>" ++ [nl] ++ L "</ul>" ++ [nl]
                ++ L "next</p>").
Proof.
  split; [exact ul_pass_items|]. split; [exact ul_pass_line|].
  split; [exact ul_pass_last|]. split.
  - apply (list_between ul_pass bullet ul_mark "ul");
      [exact ul_pass_items | exact ul_pass_line | exact ul_pass_last].
  - vm_compute. reflexivity.
Qed.

Lemma X6_bulleted_lists_witness :
  ul_pass ([nl] ++ list_text [(L "-", L "a b"); (L "*", L "c")] true ++ L "end")
  = list_html "ul" (map snd [(L "-", L "a b"); (L "*", L "c")])
    ++ ul_pass (L "end")
  /\ ul_pass (L "text" ++ nl :: L "- a") = L "text" ++ nl :: ul_pass (L "- a")
  /\ ul_pass (L "a - b") = L "a - b"
  /\ ul_pass (L "para" ++ [nl; nl]
              ++ join [nl] (map item_line [(L "-", L "a"); (L "-", L "b")])
              ++ [nl; nl] ++ L "next")
     = L "para" ++ [nl]
       ++ list_html "ul" (map snd [(L "-", L "a"); (L "-", L "b")])
       ++ [nl] ++ L "next".
Proof.
  destruct X6_bulleted_lists as (H1 & H2 & H3 & H4 & _).
  split; [apply H1; [repeat constructor | repeat constructor | reflexivity
                    | discriminate]|].
  split; [apply H2; [repeat constructor; discriminate | reflexivity]|].
  split; [apply H3; [repeat constructor; discriminate | reflexivity]|].
  apply H4; [repeat constructor; discriminate | discriminate | reflexivity
            | repeat constructor | repeat constructor; discriminate
            | reflexivity].
Defined.

(** X7: the numbered-list pass.  A run of item lines (a number, a full
    stop, one space, a text without white space at its ends) becomes one
    [ol] element with one [li] per item around the text of the item: the
    numbers written in the markdown are dropped, whatever they are.  The
    white space before the run and the newline behind it are replaced with
    it, a line at which no item starts is kept, and of a list between two
    paragraphs both blank lines are lost. *)
Theorem X7_numbered_lists :
  (forall w it its fin t,
      Forall (fun c => is_space c = true) w ->
      Forall (fun i => ol_mark (fst i) = true /\ item_ok (snd i) = true)
             (it :: its) ->
      no_item is_digit t = true -> (fin = false -> t = []) ->
      ol_pass (w ++ list_text (it :: its) fin ++ t)
      = list_html "ol" (map snd (it :: its)) ++ ol_pass t)
  /\ (forall a X,
         no_chr nl a -> no_item is_digit (a ++ nl :: X) = true ->
         ol_pass (a ++ nl :: X) = a ++ nl :: ol_pass X)
  /\ (forall a, no_chr nl a -> no_item is_digit a = true -> ol_pass a = a)
  /\ (forall para it its next,
         no_chr nl para -> lstrip para <> [] -> no_item is_digit para = true ->
         Forall (fun i => ol_mark (fst i) = true /\ item_ok (snd i) = true)
                (it :: its) ->
         no_chr nl next -> no_item is_digit next = true ->
         ol_pass (para ++ [nl; nl] ++ join [nl] (map item_line (it :: its))
                  ++ [nl; nl] ++ next)
         = para ++ [nl] ++ list_html "ol" (map snd (it :: its)) ++ [nl] ++ next).
Proof.
  split; [exact ol_pass_items|]. split; [exact ol_pass_line|].
  split; [exact ol_pass_last|].
  apply (list_between ol_pass is_digit ol_mark "ol");
    [exact ol_pass_items | exact ol_pass_line | exact ol_pass_last].
Qed.

Lemma X7_numbered_lists_witness :
  ol_pass ([] ++ list_text [(L "1.", L "a"); (L "7.", L "b")] false ++ [])
  = list_html "ol" (map snd [(L "1.", L "a"); (L "7.", L "b")]) ++ ol_pass []
  /\ ol_pass ([] ++ list_text [(L "2024.", L "was a year")] false ++ [])
     = list_html "ol" (map snd [(L "2024.", L "was a year")]) ++ ol_pass []
  /\ ol_pass (L "In 2024. was" ++ nl :: L "text")
     = L "In 2024. was" ++ nl :: ol_pass (L "text")
  /\ ol_pass (L "v1.0") = L "v1.0"
  /\ ol_pass (L "steps" ++ [nl; nl]
              ++ join [nl] (map item_line [(L "1.", L "a"); (L "1.", L "b")])
              ++ [nl; nl] ++ L "done")
     = L "steps" ++ [nl]
       ++ list_html "ol" (map snd [(L "1.", L "a"); (L "1.", L "b")])
       ++ [nl] ++ L "done".
Proof.
  destruct X7_numbered_lists as (H1 & H2 & H3 & H4).
  split; [apply H1; [constructor | repeat constructor | reflexivity
                    | reflexivity]|].
  split; [apply H1; [constructor | repeat constructor | reflexivity
                    | reflexivity]|].
  split; [apply H2; [repeat constructor; discriminate | reflexivity]|].
  split; [apply H3; [repeat constructor; discriminate | reflexivity]|].
  apply H4; [repeat constructor; discriminate | discriminate | reflexivity
            | repeat constructor | repeat constructor; discriminate
            | reflexivity].
Defined.

(** ** Lines of HTML pass the converter *)

Lemma sub_e_needs ml Q r f s :
  needs Q r -> Forall (fun c => ~ Q c) s -> sub_e ml r f s = Returns s.
Proof.
  intros Hn Hs. unfold sub_e. rewrite scan_no_match.
  - rewrite <- (app_nil_r (map Keep s)), emit_all_e_keep.
    cbn [emit_all_e bind]. rewrite app_nil_r. reflexivity.
  - intros u v E. apply (match_at_needs ml Q); [exact Hn|].
    rewrite E in Hs. apply Forall_app in Hs. tauto.
Qed.

Lemma quiet_chr_inv c :
  quiet_chr c = true ->
  c <> nl /\ c <> "`"%char /\ c <> "*"%char /\ c <> "!"%char /\ c <> "|"%char.
Proof.
  unfold quiet_chr. intros H. apply negb_true_iff in H.
  repeat split; intros ->; discriminate.
Qed.

Lemma quiet_line l :
  forallb quiet_chr l = true ->
  no_chr nl l /\ no_chr "`" l /\ no_chr "*" l /\ no_chr "!" l /\ no_chr "|" l.
Proof.
  intros H. unfold no_chr.
  repeat split; apply Forall_forall; intros c Hc;
    rewrite forallb_forall in H; specialize (H c Hc);
    apply quiet_chr_inv in H; tauto.
Qed.

Lemma tag_line_inv l :
  tag_line l = true ->
  (exists r, l = "<"%char :: r) /\ forallb quiet_chr l = true.
Proof.
  unfold tag_line. intros H. apply andb_true_iff in H. destruct H as [H1 H2].
  split; [|exact H2]. destruct l as [|c r]; [discriminate|].
  apply Ascii.eqb_eq in H1. subst c. eauto.
Qed.

Lemma no_chr_join c lines :
  c <> nl -> Forall (no_chr c) lines -> no_chr c (join [nl] lines).
Proof.
  intros Hc H. induction H as [|l ls Hl Hls IH]; [constructor|].
  destruct ls as [|l2 ls]; [exact Hl|].
  rewrite join_cons_cons. apply no_chr_app. split; [exact Hl|].
  constructor; [congruence | exact IH].
Qed.

Lemma tag_lines_inv lines :
  forallb tag_line lines = true ->
  Forall (fun l => exists r, l = "<"%char :: r) lines
  /\ Forall (no_chr nl) lines
  /\ no_chr "`" (join [nl] lines) /\ no_chr "*" (join [nl] lines)
  /\ no_chr "!" (join [nl] lines) /\ no_chr "|" (join [nl] lines).
Proof.
  intros H.
  assert (Hall : Forall (fun l => (exists r, l = "<"%char :: r)
                                  /\ forallb quiet_chr l = true) lines).
  { apply Forall_forall. intros l Hl. rewrite forallb_forall in H.
    apply tag_line_inv. apply H. exact Hl. }
  split; [eapply Forall_impl; [|exact Hall]; intros l Hl; apply Hl|].
  split; [eapply Forall_impl; [|exact Hall]; intros l [_ Hl];
          apply quiet_line in Hl; apply Hl|].
  repeat split; (apply no_chr_join; [discriminate|]);
    (eapply Forall_impl; [|exact Hall]); intros l [_ Hl];
    apply quiet_line in Hl; tauto.
Qed.

Lemma map_same (A : Type) (g : A -> A) l :
  Forall (fun x => g x = x) l -> map g l = l.
Proof. intros H. induction H; simpl; congruence. Qed.

Lemma title_line_other c l : ceq c "#" = false -> title_line (c :: l) = c :: l.
Proof.
  intros H. unfold title_line, heading_text.
  destruct l as [|c2 [|c3 x]]; try reflexivity. rewrite H. reflexivity.
Qed.

Lemma hr_line_other c l : ceq "-" c = false -> hr_line (c :: l) = c :: l.
Proof.
  intros H. unfold hr_line, is_rule. cbn [forallb]. rewrite H.
  rewrite andb_false_r. reflexivity.
Qed.

(** Every pass that works line by line keeps the lines that begin with
    [<]. *)
Lemma tag_lines_early l ls :
  forallb tag_line (l :: ls) = true ->
  title_pass (join [nl] (l :: ls)) = join [nl] (l :: ls)
  /\ h2_pass (join [nl] (l :: ls)) = join [nl] (l :: ls)
  /\ h3_pass (join [nl] (l :: ls)) = join [nl] (l :: ls)
  /\ hr_pass (join [nl] (l :: ls)) = join [nl] (l :: ls).
Proof.
  intros H. destruct (tag_lines_inv _ H) as (Hlt & Hnl & _).
  rewrite title_pass_every_line, h2_pass_lines, h3_pass_lines, hr_pass_lines.
  rewrite split_chr_join by exact Hnl.
  repeat split; f_equal; apply map_same;
    (eapply Forall_impl; [|exact Hlt]); intros x (r & ->).
  - apply title_line_other. reflexivity.
  - apply heading_line_other. reflexivity.
  - apply heading_line_other. reflexivity.
  - apply hr_line_other. reflexivity.
Qed.

Lemma contains_cons_false p c s :
  starts_with p (c :: s) = false -> contains p (c :: s) = contains p s.
Proof. intros H. cbn [contains]. rewrite H. reflexivity. Qed.

(** No blank line stands between lines that are not empty. *)
Lemma no_blank_line lines :
  Forall (fun l => l <> [] /\ no_chr nl l) lines ->
  contains sep (join [nl] lines) = false.
Proof.
  intros H. induction H as [|l ls [Hne Hl] Hls IH]; [reflexivity|].
  assert (Hrun : forall s, contains sep s = false ->
                           starts_with sep (nl :: s) = false ->
                           contains sep (l ++ nl :: s) = false).
  { intros s Hs Hh. clear Hne. induction Hl as [|c l Hc _ IHl].
    - simpl app. rewrite contains_cons_false; assumption.
    - simpl app. rewrite contains_cons_false; [exact IHl|].
      unfold sep. cbn [starts_with]. unfold ceq.
      destruct (Ascii.eqb nl c) eqn:E; [|reflexivity].
      apply Ascii.eqb_eq in E. congruence. }
  destruct ls as [|l2 ls].
  - cbn [join]. clear IH Hls Hrun. induction Hl as [|c l Hc _ IHl].
    + contradiction.
    + destruct l as [|d l].
      * unfold sep. cbn. unfold ceq.
        destruct (Ascii.eqb nl c) eqn:E; [|reflexivity].
        apply Ascii.eqb_eq in E. congruence.
      * rewrite contains_cons_false; [apply IHl; discriminate|].
        unfold sep. cbn [starts_with]. unfold ceq.
        destruct (Ascii.eqb nl c) eqn:E; [|reflexivity].
        apply Ascii.eqb_eq in E. congruence.
  - rewrite join_cons_cons. apply Hrun; [exact IH|].
    inversion Hls as [|? ? [Hne2 Hl2] _]; subst.
    destruct l2 as [|d l2]; [contradiction|]. inversion Hl2; subst.
    destruct ls; cbn [join app starts_with sep]; unfold ceq;
      (destruct (Ascii.eqb nl d) eqn:E;
       [apply Ascii.eqb_eq in E; congruence | rewrite andb_false_r; reflexivity]).
Qed.

Lemma split_absent sep0 s :
  contains sep0 s = false -> split sep0 s = [s].
Proof.
  unfold split. induction s as [|c s IH]; intros H; [reflexivity|].
  rewrite split_go_0. rewrite (contains_head _ _ H).
  rewrite IH; [reflexivity|].
  cbn [contains] in H. apply orb_false_iff in H. tauto.
Qed.

Lemma lstrip_app_last u c :
  is_space c = false -> exists v, lstrip (u ++ [c]) = v ++ [c].
Proof.
  intros H. induction u as [|d u (v & IH)].
  - exists []. simpl. rewrite H. reflexivity.
  - simpl. destruct (is_space d); [exists v; exact IH|].
    exists (d :: u). reflexivity.
Qed.

Lemma strip_head c s :
  is_space c = false -> exists r, strip (c :: s) = c :: r.
Proof.
  intros H. unfold strip. rewrite lstrip_keeps by exact H.
  unfold rstrip. simpl rev.
  destruct (lstrip_app_last (rev s) c H) as (v & ->).
  rewrite rev_app_distr. simpl. eauto.
Qed.

(** A chunk that begins with [<] and holds no paragraph tag goes
    through the paragraph pass and the cleanup pass as it is. *)
Lemma tag_chunk_kept t r :
  t = "<"%char :: r -> contains sep t = false -> tag_free t = true ->
  paragraph_pass t = t /\ cleanup_pass (paragraph_pass t) = t.
Proof.
  intros Et Hs Hf.
  assert (Eseg : seg_of t = Raw t).
  { unfold seg_of. rewrite Et.
    destruct (strip_head "<" r eq_refl) as (r' & ->). reflexivity. }
  split.
  - rewrite paragraph_pass_doc. fold sep in Hs. rewrite (split_absent sep t Hs).
    cbn [map]. rewrite Eseg. reflexivity.
  - rewrite cleanup_after_paragraphs by exact Hf.
    rewrite (split_absent sep t Hs). cbn [map]. rewrite Eseg. reflexivity.
Qed.

Lemma contains_tail a b s : contains b s = false -> contains (a ++ b) s = false.
Proof.
  intros H. destruct (contains (a ++ b) s) eqn:E; [|reflexivity].
  apply contains_inv in E. destruct E as (u & v & ->).
  replace (u ++ (a ++ b) ++ v) with ((u ++ a) ++ b ++ v) in H
    by (rewrite <- !app_assoc; reflexivity).
  rewrite contains_app in H. discriminate.
Qed.

Lemma tag_lines_no_blank lines :
  forallb tag_line lines = true -> contains sep (join [nl] lines) = false.
Proof.
  intros H. destruct (tag_lines_inv _ H) as (Hlt & Hnl & _).
  apply no_blank_line. apply Forall_forall. intros l Hl.
  rewrite Forall_forall in Hlt, Hnl.
  destruct (Hlt l Hl) as (r & ->). split; [discriminate | apply Hnl; exact Hl].
Qed.

Lemma no_item_head starts c s :
  is_space c = false -> starts c = false -> no_item starts (c :: s) = true.
Proof.
  intros H1 H2. unfold no_item. cbn [lstrip]. rewrite H1.
  cbn [no_mark_at]. rewrite H2. reflexivity.
Qed.

(** A pass that keeps the lines at which no item starts keeps the lines
    that begin with [<]. *)
Lemma tag_lines_list_pass (pass : str -> str) (starts : ascii -> bool) :
  starts "<"%char = false ->
  (forall a X, no_chr nl a -> no_item starts (a ++ nl :: X) = true ->
               pass (a ++ nl :: X) = a ++ nl :: pass X) ->
  (forall a, no_chr nl a -> no_item starts a = true -> pass a = a) ->
  forall ls l,
    Forall (fun x => exists r, x = "<"%char :: r) (l :: ls) ->
    Forall (no_chr nl) (l :: ls) ->
    pass (join [nl] (l :: ls)) = join [nl] (l :: ls).
Proof.
  intros Hs Hline Hlast.
  induction ls as [|l2 ls IH]; intros l Hlt Hnl;
    inversion Hlt as [|? ? (r & ->) Hlt']; inversion Hnl; subst.
  - cbn [join]. apply Hlast; [assumption|].
    apply no_item_head; [reflexivity | exact Hs].
  - rewrite join_cons_cons.
    change (("<"%char :: r) ++ [nl] ++ join [nl] (l2 :: ls))
      with (("<"%char :: r) ++ nl :: join [nl] (l2 :: ls)).
    rewrite Hline; [|assumption|apply no_item_head; [reflexivity | exact Hs]].
    rewrite IH by assumption. reflexivity.
Qed.

(** The passes behind the rule pass keep a text of HTML lines. *)
Lemma tag_lines_late l ls :
  html_block (l :: ls) = true ->
  code_pass (join [nl] (l :: ls)) = Returns (join [nl] (l :: ls))
  /\ inline_pass (join [nl] (l :: ls)) = join [nl] (l :: ls)
  /\ bold_pass (join [nl] (l :: ls)) = join [nl] (l :: ls)
  /\ italic_pass (join [nl] (l :: ls)) = join [nl] (l :: ls)
  /\ image_pass (join [nl] (l :: ls)) = join [nl] (l :: ls)
  /\ table_pass (join [nl] (l :: ls)) = join [nl] (l :: ls)
  /\ ul_pass (join [nl] (l :: ls)) = join [nl] (l :: ls)
  /\ ol_pass (join [nl] (l :: ls)) = join [nl] (l :: ls)
  /\ paragraph_pass (join [nl] (l :: ls)) = join [nl] (l :: ls)
  /\ cleanup_pass (join [nl] (l :: ls)) = join [nl] (l :: ls).
Proof.
  unfold html_block. intros H. apply andb_true_iff in H. destruct H as [H Hf].
  destruct (tag_lines_inv _ H) as (Hlt & Hnl & Hb & Hs & He & Hp).
  pose proof (tag_lines_no_blank _ H) as Hsep.
  assert (Hr : exists r, join [nl] (l :: ls) = "<"%char :: r).
  { inversion Hlt as [|? ? (r & ->) _]; subst.
    destruct ls; [exists r; reflexivity|]. rewrite join_cons_cons.
    eexists. reflexivity. }
  destruct Hr as (r & Er).
  destruct (tag_chunk_kept _ r Er Hsep Hf) as [Ep Ec].
  split.
  { unfold code_pass. apply (sub_e_needs false (fun c => c = "`"%char));
      [simpl; auto | exact Hb]. }
  split; [apply inline_plain; exact Hb|].
  split.
  { unfold bold_pass, sub_t. apply (sub_needs false (fun c => c = "*"%char));
      [simpl; auto | exact Hs]. }
  split; [apply italic_plain; exact Hs|].
  split; [apply image_plain; exact He|].
  split.
  { unfold table_pass. apply (sub_needs false (fun c => c = "|"%char));
      [simpl; auto | exact Hp]. }
  split.
  { apply (tag_lines_list_pass ul_pass bullet);
      [reflexivity | exact ul_pass_line | exact ul_pass_last | exact Hlt
      | exact Hnl]. }
  split.
  { apply (tag_lines_list_pass ol_pass is_digit);
      [reflexivity | exact ol_pass_line | exact ol_pass_last | exact Hlt
      | exact Hnl]. }
  split; [exact Ep|]. rewrite <- Ep at 1. exact Ec.
Qed.

Lemma md_to_html_steps t0 t1 t2 t3 t4 t5 t6 t7 t8 t9 t10 t11 t12 t13 t14 t15 :
  title_pass t0 = t1 -> meta_pass t1 = t2 -> h2_pass t2 = t3 ->
  h3_pass t3 = t4 -> hr_pass t4 = t5 -> code_pass t5 = Returns t6 ->
  inline_pass t6 = t7 -> bold_pass t7 = t8 -> italic_pass t8 = t9 ->
  image_pass t9 = t10 -> table_pass t10 = t11 -> ul_pass t11 = t12 ->
  ol_pass t12 = t13 -> paragraph_pass t13 = t14 -> cleanup_pass t14 = t15 ->
  md_to_html t0 = Returns t15.
Proof.
  intros. subst. unfold md_to_html.
  match goal with H : code_pass _ = _ |- _ => rewrite H end. reflexivity.
Qed.

Lemma md_to_html_late t0 t1 t2 t3 t4 l ls :
  title_pass t0 = t1 -> meta_pass t1 = t2 -> h2_pass t2 = t3 ->
  h3_pass t3 = t4 -> hr_pass t4 = join [nl] (l :: ls) ->
  html_block (l :: ls) = true ->
  md_to_html t0 = Returns (join [nl] (l :: ls)).
Proof.
  intros E1 E2 E3 E4 E5 H.
  destruct (tag_lines_late l ls H)
    as (L1 & L2 & L3 & L4 & L5 & L6 & L7 & L8 & L9 & L10).
  apply (md_to_html_steps t0 t1 t2 t3 t4 _ _ _ _ _ _ _ _ _ _ _
           E1 E2 E3 E4 E5 L1 L2 L3 L4 L5 L6 L7 L8 L9 L10).
Qed.

Lemma meta_pass_no_blank t : contains sep t = false -> meta_pass t = t.
Proof.
  intros H. unfold meta_pass. apply replace_absent.
  apply (contains_tail (L "</h1>") sep). exact H.
Qed.

(** ** Runs without [<] and the digits of a number *)

Lemma plain_inv x :
  plain x = true -> forallb quiet_chr x = true /\ lt_free x = true.
Proof.
  unfold plain, lt_free. induction x as [|c x IH]; intros H; [auto|].
  cbn [forallb] in *. apply andb_true_iff in H. destruct H as [Hc H].
  apply andb_true_iff in Hc. destruct Hc as [H1 H2].
  destruct (IH H) as [I1 I2]. rewrite H1, H2, I1, I2. auto.
Qed.

Lemma plain_no_nl x : plain x = true -> no_chr nl x.
Proof. intros H. apply plain_inv in H. apply quiet_line. apply H. Qed.

(** No occurrence of a text that begins with [<] starts in a run without
    [<]. *)
Lemma contains_lt_run p x s :
  lt_free x = true -> contains ("<"%char :: p) (x ++ s) = contains ("<"%char :: p) s.
Proof.
  unfold lt_free. induction x as [|c x IH]; intros H; [reflexivity|].
  cbn [forallb] in H. apply andb_true_iff in H. destruct H as [Hc H].
  apply negb_true_iff in Hc. simpl app.
  rewrite contains_cons_false; [apply IH; exact H|].
  cbn [starts_with]. unfold ceq in *. rewrite Ascii.eqb_sym, Hc. reflexivity.
Qed.

Lemma digits_of_uint u :
  Forall (fun c => is_digit c = true) (L (NilEmpty.string_of_uint u)).
Proof. induction u; simpl; constructor; auto. Qed.

Lemma str_of_nat_digits n : Forall (fun c => is_digit c = true) (str_of_nat n).
Proof.
  unfold str_of_nat, NilZero.string_of_uint.
  destruct (Nat.to_uint n) eqn:E;
    try (rewrite <- E; apply digits_of_uint).
  repeat constructor.
Qed.

Lemma digit_quiet c : is_digit c = true -> quiet_chr c = true /\ ceq c "<" = false.
Proof.
  intros H. split.
  - unfold quiet_chr. apply negb_true_iff. cbn [existsb L list_ascii_of_string].
    repeat (apply orb_false_iff; split); try reflexivity;
      unfold ceq; (destruct (Ascii.eqb c _) eqn:E; [|reflexivity]);
      apply Ascii.eqb_eq in E; subst c; discriminate.
  - unfold ceq. destruct (Ascii.eqb c "<") eqn:E; [|reflexivity].
    apply Ascii.eqb_eq in E. subst c. discriminate.
Qed.

Lemma digits_plain d : Forall (fun c => is_digit c = true) d -> plain d = true.
Proof.
  intros H. unfold plain. induction H as [|c d Hc _ IH]; [reflexivity|].
  cbn [forallb]. destruct (digit_quiet c Hc) as [-> ->]. exact IH.
Qed.

Lemma quiet_app a b :
  forallb quiet_chr (a ++ b) = forallb quiet_chr a && forallb quiet_chr b.
Proof. apply forallb_app. Qed.

(** ** Single lines *)

Lemma title_pass_line l : no_chr nl l -> title_pass l = title_line l.
Proof.
  intros H. rewrite title_pass_every_line, split_chr_line by exact H.
  reflexivity.
Qed.

Lemma h2_pass_line l : no_chr nl l -> h2_pass l = heading_line "## " "h2" l.
Proof.
  intros H. rewrite h2_pass_lines, split_chr_line by exact H. reflexivity.
Qed.

Lemma h3_pass_line l : no_chr nl l -> h3_pass l = heading_line "### " "h3" l.
Proof.
  intros H. rewrite h3_pass_lines, split_chr_line by exact H. reflexivity.
Qed.

Lemma hr_pass_line l : no_chr nl l -> hr_pass l = hr_line l.
Proof.
  intros H. rewrite hr_pass_lines, split_chr_line by exact H. reflexivity.
Qed.

Lemma meta_pass_line l : no_chr nl l -> meta_pass l = l.
Proof.
  intros H. unfold meta_pass. apply replace_absent.
  apply h1_blank_absent_no_nl. exact H.
Qed.

Lemma title_line_second c l : ceq c " " = false -> title_line ("#"%char :: c :: l) = "#"%char :: c :: l.
Proof.
  intros H. unfold title_line, heading_text.
  destruct l as [|c3 x]; [reflexivity|]. rewrite H, andb_false_r. reflexivity.
Qed.

Lemma contains_lt_free p y : lt_free y = true -> contains ("<"%char :: p) y = false.
Proof.
  intros H. rewrite <- (app_nil_r y), contains_lt_run by exact H. reflexivity.
Qed.

Ltac no_tag_in :=
  cbn [L list_ascii_of_string app];
  repeat first [ rewrite contains_cons_false by reflexivity
               | rewrite contains_lt_run by assumption
               | rewrite contains_lt_free by assumption ];
  try reflexivity.

(** An element around a plain run, with a plain run behind it, is a line
    of HTML. *)
Lemma element_block op cl x y :
  tag_line op = true -> forallb quiet_chr cl = true ->
  plain x = true -> plain y = true ->
  tag_free (op ++ x ++ cl ++ y) = true ->
  html_block [op ++ x ++ cl ++ y] = true.
Proof.
  intros Ho Hc Hx Hy Hf. unfold html_block. cbn [forallb join].
  rewrite Hf, !andb_true_r.
  apply tag_line_inv in Ho. destruct Ho as [(r & ->) Ho].
  apply plain_inv in Hx, Hy. destruct Hx as [Hx _], Hy as [Hy _].
  unfold tag_line. simpl app at 1. change (ceq "<" "<") with true.
  rewrite !quiet_app, Ho, Hx, Hc, Hy. reflexivity.
Qed.

Lemma heading_block tag x :
  forallb quiet_chr (L tag) = true -> plain x = true ->
  tag_free (L "<" ++ L tag ++ L ">" ++ x ++ L "</" ++ L tag ++ L ">") = true ->
  html_block [L "<" ++ L tag ++ L ">" ++ x ++ L "</" ++ L tag ++ L ">"] = true.
Proof.
  intros Ht Hx Hf.
  pose proof (element_block (L "<" ++ L tag ++ L ">") (L "</" ++ L tag ++ L ">")
                x []) as H.
  rewrite <- !app_assoc, !app_nil_r in H. apply H; try assumption;
    try reflexivity.
  - unfold tag_line. simpl app at 1. change (ceq "<" "<") with true.
    rewrite !quiet_app, Ht. reflexivity.
  - rewrite !quiet_app, Ht. reflexivity.
Qed.

(** X8: a text of lines that each begin with [<], with none of the
    characters newline, backtick, asterisk, exclamation mark and pipe
    inside a line and without a paragraph tag, is returned by the converter
    as it is: no pass changes it and no paragraph element is put around
    it. *)
Theorem X8_html_lines_pass_through :
  forall l ls,
    html_block (l :: ls) = true ->
    md_to_html (join [nl] (l :: ls)) = Returns (join [nl] (l :: ls)).
Proof.
  intros l ls H. pose proof H as H'. unfold html_block in H'.
  apply andb_true_iff in H'. destruct H' as [Hl _].
  destruct (tag_lines_early l ls Hl) as (E1 & E2 & E3 & E4).
  apply (md_to_html_late _ _ _ _ _ l ls E1
           (meta_pass_no_blank _ (tag_lines_no_blank _ Hl)) E2 E3 E4 H).
Qed.

Lemma X8_html_lines_pass_through_witness :
  md_to_html (join [nl] [L "<div class=x>"; L "<b>1. text</b> - more";
                         L "</div>"])
  = Returns (join [nl] [L "<div class=x>"; L "<b>1. text</b> - more";
                        L "</div>"]).
Proof.
  apply (X8_html_lines_pass_through (L "<div class=x>")
           [L "<b>1. text</b> - more"; L "</div>"]).
  vm_compute. reflexivity.
Defined.

(** A text of HTML lines is a fixed point of every pass. *)
Lemma tag_lines_fixed t l ls :
  t = join [nl] (l :: ls) -> html_block (l :: ls) = true ->
  title_pass t = t /\ meta_pass t = t /\ h2_pass t = t /\ h3_pass t = t
  /\ hr_pass t = t /\ code_pass t = Returns t /\ inline_pass t = t
  /\ bold_pass t = t /\ italic_pass t = t /\ image_pass t = t
  /\ table_pass t = t /\ ul_pass t = t /\ ol_pass t = t
  /\ paragraph_pass t = t /\ cleanup_pass t = t.
Proof.
  intros -> H. pose proof H as H'. unfold html_block in H'.
  apply andb_true_iff in H'. destruct H' as [Hl _].
  destruct (tag_lines_early l ls Hl) as (E1 & E2 & E3 & E4).
  destruct (tag_lines_late l ls H)
    as (L1 & L2 & L3 & L4 & L5 & L6 & L7 & L8 & L9 & L10).
  pose proof (meta_pass_no_blank _ (tag_lines_no_blank _ Hl)) as Em.
  repeat split; assumption.
Qed.

Ltac tag_free_tac :=
  unfold tag_free, p_open, p_close;
  apply andb_true_iff; split; apply negb_true_iff; no_tag_in.

(** The converter on a text that its passes bring into a line of HTML
    [h]: [k] passes are named, the later ones keep [h]. *)
Ltac through h :=
  match goal with
  | Hb : html_block [h] = true |- md_to_html ?t0 = Returns h =>
      destruct (tag_lines_fixed h h [] eq_refl Hb)
        as (F1 & F2 & F3 & F4 & F5 & F6 & F7 & F8 & F9 & F10 & F11 & F12
            & F13 & F14 & F15)
  end.

Lemma heading_1_through x :
  x <> [] -> plain x = true ->
  md_to_html (L "# " ++ x) = Returns (L "<h1>" ++ x ++ L "</h1>").
Proof.
  intros Hne Hx. pose proof (plain_no_nl x Hx) as Hnl.
  pose proof (proj2 (plain_inv x Hx)) as Hlt.
  assert (Hb : html_block [L "<h1>" ++ x ++ L "</h1>"] = true).
  { apply (heading_block "h1"); [reflexivity | exact Hx | tag_free_tac]. }
  through (L "<h1>" ++ x ++ L "</h1>").
  eapply md_to_html_steps;
    [ rewrite title_pass_line
        by (apply no_chr_app; split;
            [repeat constructor; discriminate | exact Hnl]);
      apply title_line_heading; exact Hne
    | exact F2 | exact F3 | exact F4 | exact F5 | exact F6 | exact F7
    | exact F8 | exact F9 | exact F10 | exact F11 | exact F12 | exact F13
    | exact F14 | exact F15 ].
Qed.

Lemma heading_2_through x :
  x <> [] -> plain x = true ->
  md_to_html (L "## " ++ x) = Returns (L "<h2>" ++ x ++ L "</h2>").
Proof.
  intros Hne Hx. pose proof (plain_no_nl x Hx) as Hnl.
  pose proof (proj2 (plain_inv x Hx)) as Hlt.
  assert (Hb : html_block [L "<h2>" ++ x ++ L "</h2>"] = true).
  { apply (heading_block "h2"); [reflexivity | exact Hx | tag_free_tac]. }
  assert (Hl : no_chr nl (L "## " ++ x)).
  { apply no_chr_app. split; [repeat constructor; discriminate | exact Hnl]. }
  through (L "<h2>" ++ x ++ L "</h2>").
  destruct x as [|c y]; [contradiction|].
  eapply md_to_html_steps;
    [ rewrite title_pass_line by exact Hl;
      apply title_line_second; reflexivity
    | exact (meta_pass_line _ Hl)
    | rewrite h2_pass_line by exact Hl; apply heading_line_hit
    | exact F4 | exact F5 | exact F6 | exact F7 | exact F8 | exact F9
    | exact F10 | exact F11 | exact F12 | exact F13 | exact F14 | exact F15 ].
Qed.

Lemma heading_3_through x :
  x <> [] -> plain x = true ->
  md_to_html (L "### " ++ x) = Returns (L "<h3>" ++ x ++ L "</h3>").
Proof.
  intros Hne Hx. pose proof (plain_no_nl x Hx) as Hnl.
  pose proof (proj2 (plain_inv x Hx)) as Hlt.
  assert (Hb : html_block [L "<h3>" ++ x ++ L "</h3>"] = true).
  { apply (heading_block "h3"); [reflexivity | exact Hx | tag_free_tac]. }
  assert (Hl : no_chr nl (L "### " ++ x)).
  { apply no_chr_app. split; [repeat constructor; discriminate | exact Hnl]. }
  through (L "<h3>" ++ x ++ L "</h3>").
  destruct x as [|c y]; [contradiction|].
  eapply md_to_html_steps;
    [ rewrite title_pass_line by exact Hl;
      apply title_line_second; reflexivity
    | exact (meta_pass_line _ Hl)
    | rewrite h2_pass_line by exact Hl; apply heading_line_other; reflexivity
    | rewrite h3_pass_line by exact Hl; apply heading_line_hit
    | exact F5 | exact F6 | exact F7 | exact F8 | exact F9
    | exact F10 | exact F11 | exact F12 | exact F13 | exact F14 | exact F15 ].
Qed.

Lemma rule_through n :
  md_to_html (repeat "-"%char (3 + n)) = Returns (L "<hr>").
Proof.
  assert (Hb : html_block [L "<hr>"] = true) by reflexivity.
  pose proof (hyphens_no_nl (3 + n)) as Hl.
  through (L "<hr>").
  eapply md_to_html_steps;
    [ rewrite title_pass_line by exact Hl; apply title_line_other; reflexivity
    | exact (meta_pass_line _ Hl)
    | rewrite h2_pass_line by exact Hl; apply heading_line_other; reflexivity
    | rewrite h3_pass_line by exact Hl; apply heading_line_other; reflexivity
    | rewrite hr_pass_line by exact Hl; unfold hr_line;
      rewrite hyphens_rule; reflexivity
    | exact F6 | exact F7 | exact F8 | exact F9
    | exact F10 | exact F11 | exact F12 | exact F13 | exact F14 | exact F15 ].
Qed.

(** X9: a heading line alone (one, two or three hashes, a space and a
    plain run of text) is converted to the heading element around the
    text, and a line of three hyphens or more to [<hr>]; the element is
    the converter's whole output: no later pass changes it and it is not
    wrapped in a paragraph element. *)
Theorem X9_heading_and_rule_end_to_end :
  (forall x,
      x <> [] -> plain x = true ->
      md_to_html (L "# " ++ x) = Returns (L "<h1>" ++ x ++ L "</h1>")
      /\ md_to_html (L "## " ++ x) = Returns (L "<h2>" ++ x ++ L "</h2>")
      /\ md_to_html (L "### " ++ x) = Returns (L "<h3>" ++ x ++ L "</h3>"))
  /\ (forall n, md_to_html (repeat "-"%char (3 + n)) = Returns (L "<hr>")).
Proof.
  split; [|exact rule_through].
  intros x Hne Hx.
  split; [apply heading_1_through; assumption|].
  split; [apply heading_2_through | apply heading_3_through]; assumption.
Qed.

Lemma X9_heading_and_rule_end_to_end_witness :
  md_to_html (L "# " ++ L "Results (2024)")
  = Returns (L "<h1>" ++ L "Results (2024)" ++ L "</h1>")
  /\ md_to_html (L "## " ++ L "Results (2024)")
     = Returns (L "<h2>" ++ L "Results (2024)" ++ L "</h2>")
  /\ md_to_html (L "### " ++ L "Results (2024)")
     = Returns (L "<h3>" ++ L "Results (2024)" ++ L "</h3>").
Proof.
  apply (proj1 X9_heading_and_rule_end_to_end (L "Results (2024)")).
  - discriminate.
  - reflexivity.
Defined.

(** ** A paragraph that begins with inline markup *)

Lemma contains_skip d p x s :
  no_chr d x -> contains (d :: p) (x ++ s) = contains (d :: p) s.
Proof.
  intros H. induction H as [|c x Hc _ IH]; [reflexivity|].
  simpl app. rewrite contains_cons_false; [exact IH|].
  cbn [starts_with]. unfold ceq. destruct (Ascii.eqb d c) eqn:E; [|reflexivity].
  apply Ascii.eqb_eq in E. congruence.
Qed.

(** Between two single delimiters around a run that is not empty, and
    behind them, no two delimiters stand in a row. *)
Lemma no_double_delim d p x y :
  x <> [] -> no_chr d x -> no_chr d y ->
  contains (d :: d :: p) (d :: x ++ d :: y) = false.
Proof.
  intros Hne Hx Hy.
  assert (Hstep : forall c t, c <> d ->
             starts_with (d :: d :: p) (d :: c :: t) = false).
  { intros c t Hc. cbn [starts_with]. unfold ceq.
    destruct (Ascii.eqb d c) eqn:E; [|apply andb_false_r].
    apply Ascii.eqb_eq in E. congruence. }
  destruct x as [|c x]; [contradiction|]. inversion Hx; subst.
  simpl app. rewrite contains_cons_false by (apply Hstep; assumption).
  change (c :: x ++ d :: y) with ((c :: x) ++ d :: y).
  rewrite contains_skip by exact Hx.
  destruct y as [|e y].
  - cbn. unfold ceq. rewrite Ascii.eqb_refl. reflexivity.
  - inversion Hy; subst.
    rewrite contains_cons_false by (apply Hstep; assumption).
    rewrite <- (app_nil_r (e :: y)), contains_skip by exact Hy. reflexivity.
Qed.

Lemma contains_lt_like d p y : no_chr d y -> contains (d :: p) y = false.
Proof.
  intros H. rewrite <- (app_nil_r y), contains_skip by exact H. reflexivity.
Qed.

Lemma bold_pass_no_double t : contains (L "**") t = false -> bold_pass t = t.
Proof.
  intros H. unfold bold_pass, sub_t. apply sub_no_match.
  intros u v E. unfold re_bold. apply match_at_lit_none.
  apply (contains_false_suffix _ _ u v H E).
Qed.

Lemma code_pass_no_fence t : contains fence t = false -> code_pass t = Returns t.
Proof.
  intros H. unfold code_pass, sub_e. rewrite scan_no_match.
  - rewrite <- (app_nil_r (map Keep t)), emit_all_e_keep.
    cbn [emit_all_e bind]. rewrite app_nil_r. reflexivity.
  - intros u v E. unfold re_code. apply match_at_lit_none.
    apply (contains_false_suffix _ _ u v H E).
Qed.

Lemma delimited_line (d : str) x y :
  no_chr nl d -> plain x = true -> plain y = true ->
  no_chr nl (d ++ x ++ d ++ y).
Proof.
  intros Hd Hx Hy. apply plain_no_nl in Hx, Hy.
  repeat (apply no_chr_app; split); assumption.
Qed.

Lemma plain_no (c : ascii) x :
  quiet_chr c = false -> plain x = true -> no_chr c x.
Proof.
  intros Hc Hx. apply plain_inv in Hx. destruct Hx as [Hx _].
  unfold no_chr. apply Forall_forall. intros e He.
  rewrite forallb_forall in Hx. specialize (Hx e He).
  intros ->. congruence.
Qed.

Lemma early_kept_line c l :
  no_chr nl (c :: l) -> ceq c "#" = false -> ceq "-" c = false ->
  title_pass (c :: l) = c :: l /\ meta_pass (c :: l) = c :: l
  /\ h2_pass (c :: l) = c :: l /\ h3_pass (c :: l) = c :: l
  /\ hr_pass (c :: l) = c :: l.
Proof.
  intros Hl H1 H2.
  rewrite title_pass_line, h2_pass_line, h3_pass_line, hr_pass_line by exact Hl.
  assert (Hs : forall mark,
             starts_with ("#"%char :: mark) (c :: l) = false).
  { intros mark. cbn [starts_with]. unfold ceq in *.
    rewrite Ascii.eqb_sym, H1. reflexivity. }
  split; [apply title_line_other; exact H1|].
  split; [apply meta_pass_line; exact Hl|].
  split; [apply heading_line_other; apply Hs|].
  split; [apply heading_line_other; apply Hs|].
  apply hr_line_other. exact H2.
Qed.

Lemma strong_start x y :
  x <> [] -> plain x = true -> plain y = true ->
  md_to_html (L "**" ++ x ++ L "**" ++ y)
  = Returns (L "<strong>" ++ x ++ L "</strong>" ++ y).
Proof.
  intros Hne Hx Hy.
  pose proof (proj2 (plain_inv x Hx)) as Hlx.
  pose proof (proj2 (plain_inv y Hy)) as Hly.
  assert (Hb : html_block [L "<strong>" ++ x ++ L "</strong>" ++ y] = true).
  { apply element_block; try assumption; try reflexivity. tag_free_tac. }
  assert (Hl : no_chr nl (L "**" ++ x ++ L "**" ++ y)).
  { apply delimited_line; [repeat constructor; discriminate | assumption..]. }
  assert (Hq : no_chr "`" (L "**" ++ x ++ L "**" ++ y)).
  { repeat (apply no_chr_app; split);
      try (apply plain_no; [reflexivity | assumption]);
      repeat constructor; discriminate. }
  through (L "<strong>" ++ x ++ L "</strong>" ++ y).
  destruct (early_kept_line "*" ("*"%char :: x ++ L "**" ++ y) Hl
              eq_refl eq_refl) as (E1 & E2 & E3 & E4 & E5).
  eapply md_to_html_steps;
    [ exact E1 | exact E2 | exact E3 | exact E4 | exact E5
    | apply (sub_e_needs false (fun c => c = "`"%char));
      [simpl; auto | exact Hq]
    | apply inline_plain; exact Hq
    | refine (eq_trans (bold_span x y Hne (plain_no "*" x eq_refl Hx)) _);
      rewrite (bold_pass_no_double y)
        by (apply contains_lt_like; exact (plain_no "*" y eq_refl Hy));
      reflexivity
    | exact F9 | exact F10 | exact F11 | exact F12 | exact F13
    | exact F14 | exact F15 ].
Qed.

Lemma em_start x y :
  x <> [] -> plain x = true -> plain y = true ->
  md_to_html ("*"%char :: x ++ "*"%char :: y)
  = Returns (L "<em>" ++ x ++ L "</em>" ++ y).
Proof.
  intros Hne Hx Hy.
  pose proof (proj2 (plain_inv x Hx)) as Hlx.
  pose proof (proj2 (plain_inv y Hy)) as Hly.
  pose proof (plain_no "*" x eq_refl Hx) as Hsx.
  pose proof (plain_no "*" y eq_refl Hy) as Hsy.
  assert (Hb : html_block [L "<em>" ++ x ++ L "</em>" ++ y] = true).
  { apply element_block; try assumption; try reflexivity. tag_free_tac. }
  assert (Hl : no_chr nl ("*"%char :: x ++ "*"%char :: y)).
  { apply (delimited_line ["*"%char] x y);
      [repeat constructor; discriminate | assumption..]. }
  assert (Hq : no_chr "`" ("*"%char :: x ++ "*"%char :: y)).
  { constructor; [discriminate|]. apply no_chr_app. split;
      [apply plain_no; [reflexivity | assumption]|].
    constructor; [discriminate|]. apply plain_no; [reflexivity | assumption]. }
  through (L "<em>" ++ x ++ L "</em>" ++ y).
  destruct (early_kept_line "*" (x ++ "*"%char :: y) Hl eq_refl eq_refl)
    as (E1 & E2 & E3 & E4 & E5).
  eapply md_to_html_steps;
    [ exact E1 | exact E2 | exact E3 | exact E4 | exact E5
    | apply (sub_e_needs false (fun c => c = "`"%char));
      [simpl; auto | exact Hq]
    | apply inline_plain; exact Hq
    | apply bold_pass_no_double;
      apply (no_double_delim "*" [] x y Hne Hsx Hsy)
    | refine (eq_trans (italic_first [] x y (Forall_nil _) Hne Hsx) _);
      rewrite (italic_plain y Hsy); reflexivity
    | exact F10 | exact F11 | exact F12 | exact F13
    | exact F14 | exact F15 ].
Qed.

Lemma code_start x y :
  x <> [] -> plain x = true -> plain y = true ->
  md_to_html ("`"%char :: x ++ "`"%char :: y)
  = Returns (L "<code>" ++ x ++ L "</code>" ++ y).
Proof.
  intros Hne Hx Hy.
  pose proof (proj2 (plain_inv x Hx)) as Hlx.
  pose proof (proj2 (plain_inv y Hy)) as Hly.
  pose proof (plain_no "`" x eq_refl Hx) as Hsx.
  pose proof (plain_no "`" y eq_refl Hy) as Hsy.
  assert (Hb : html_block [L "<code>" ++ x ++ L "</code>" ++ y] = true).
  { apply element_block; try assumption; try reflexivity. tag_free_tac. }
  assert (Hl : no_chr nl ("`"%char :: x ++ "`"%char :: y)).
  { apply (delimited_line ["`"%char] x y);
      [repeat constructor; discriminate | assumption..]. }
  through (L "<code>" ++ x ++ L "</code>" ++ y).
  destruct (early_kept_line "`" (x ++ "`"%char :: y) Hl eq_refl eq_refl)
    as (E1 & E2 & E3 & E4 & E5).
  eapply md_to_html_steps;
    [ exact E1 | exact E2 | exact E3 | exact E4 | exact E5
    | apply code_pass_no_fence;
      apply (no_double_delim "`" ["`"%char] x y Hne Hsx Hsy)
    | refine (eq_trans (inline_first [] x y (Forall_nil _) Hne Hsx) _);
      rewrite (inline_plain y Hsy); reflexivity
    | exact F8 | exact F9 | exact F10 | exact F11 | exact F12 | exact F13
    | exact F14 | exact F15 ].
Qed.

(** X10: a paragraph that begins with inline markup is not wrapped.
    For a run [x] of plain text that is not empty and a plain rest [y]
    of the line, the converter turns bold, italic and inline-code markup
    at the start of the text into the element, and the paragraph pass,
    which wraps no chunk that begins with [<], leaves the line without a
    paragraph element. *)
Theorem X10_inline_markup_at_start_not_wrapped :
  forall x y,
    x <> [] -> plain x = true -> plain y = true ->
    md_to_html (L "**" ++ x ++ L "**" ++ y)
    = Returns (L "<strong>" ++ x ++ L "</strong>" ++ y)
    /\ md_to_html ("*"%char :: x ++ "*"%char :: y)
       = Returns (L "<em>" ++ x ++ L "</em>" ++ y)
    /\ md_to_html ("`"%char :: x ++ "`"%char :: y)
       = Returns (L "<code>" ++ x ++ L "</code>" ++ y).
Proof.
  intros x y Hne Hx Hy.
  split; [apply strong_start; assumption|].
  split; [apply em_start | apply code_start]; assumption.
Qed.

Lemma X10_inline_markup_at_start_not_wrapped_witness :
  md_to_html (L "**" ++ L "Note" ++ L "**" ++ L ": take care.")
  = Returns (L "<strong>" ++ L "Note" ++ L "</strong>" ++ L ": take care.")
  /\ md_to_html ("*"%char :: L "Note" ++ "*"%char :: L ": take care.")
     = Returns (L "<em>" ++ L "Note" ++ L "</em>" ++ L ": take care.")
  /\ md_to_html ("`"%char :: L "Note" ++ "`"%char :: L ": take care.")
     = Returns (L "<code>" ++ L "Note" ++ L "</code>" ++ L ": take care.").
Proof.
  apply (X10_inline_markup_at_start_not_wrapped (L "Note") (L ": take care."));
    [discriminate | reflexivity | reflexivity].
Defined.

(** ** The figure of a diagram passes the converter *)

Lemma figure_lines n :
  figure n
  = join [nl]
      [L "<figure>";
       L ("<img src=" ++ dq ++ "diagrams/diagram") ++ str_of_nat n
       ++ L (".png" ++ dq ++ " alt=" ++ dq ++ "Diagram ") ++ str_of_nat n
       ++ L (dq ++ ">");
       L "<figcaption>Figure " ++ str_of_nat n ++ L "</figcaption>";
       L "</figure>"].
Proof. unfold figure. cbn [join]. rewrite <- !app_assoc. reflexivity. Qed.

Lemma figure_block n :
  html_block
    [L "<figure>";
     L ("<img src=" ++ dq ++ "diagrams/diagram") ++ str_of_nat n
     ++ L (".png" ++ dq ++ " alt=" ++ dq ++ "Diagram ") ++ str_of_nat n
     ++ L (dq ++ ">");
     L "<figcaption>Figure " ++ str_of_nat n ++ L "</figcaption>";
     L "</figure>"] = true.
Proof.
  pose proof (digits_plain _ (str_of_nat_digits n)) as Hd.
  destruct (plain_inv _ Hd) as [Hq Hlt].
  unfold html_block. apply andb_true_iff. split.
  - cbn [forallb]. unfold tag_line.
    rewrite !quiet_app, Hq. reflexivity.
  - cbn [join]. unfold tag_free, p_open, p_close.
    apply andb_true_iff; split; apply negb_true_iff;
      cbn [L list_ascii_of_string app append dq];
      repeat first [ rewrite contains_cons_false by reflexivity
                   | rewrite contains_lt_run by exact Hlt
                   | rewrite <- app_assoc; cbn [app] ];
      reflexivity.
Qed.

Lemma figure_through n : md_to_html (figure n) = Returns (figure n).
Proof.
  pose proof (figure_block n) as Hb.
  destruct (tag_lines_fixed (figure n) _ _ (figure_lines n) Hb)
    as (F1 & F2 & F3 & F4 & F5 & F6 & F7 & F8 & F9 & F10 & F11 & F12 & F13
        & F14 & F15).
  apply (md_to_html_steps (figure n) (figure n) (figure n) (figure n)
           (figure n) (figure n) (figure n) (figure n) (figure n) (figure n)
           (figure n) (figure n) (figure n) (figure n) (figure n) (figure n));
    assumption.
Qed.

Lemma mermaid_block_alone body c :
  starts_inside fence body fence = false ->
  mermaid_pass (mermaid_tag ++ nl :: body ++ fence) c = (figure (c + 1), c + 1).
Proof.
  intros Hb.
  pose proof (mermaid_pass_block [] body [] c) as H.
  rewrite !app_nil_r in H.
  change ([] ++ mermaid_tag ++ nl :: body ++ fence)
    with (mermaid_tag ++ nl :: body ++ fence) in H.
  rewrite H; [|reflexivity|exact Hb].
  rewrite (mermaid_pass_none [] (c + 1)) by reflexivity.
  reflexivity.
Qed.

(** X11: the two stages of the script fit together: the figure that the
    mermaid pass writes for a diagram is returned by the converter as it
    is, whatever the number of the diagram, with no pass changing it and
    no paragraph element around it.  So for a document that is one mermaid
    block the converted text is the first figure, and the page is the
    frame around it. *)
Theorem X11_figure_passes_converter :
  (forall n, md_to_html (figure n) = Returns (figure n))
  /\ (forall body c,
         starts_inside fence body fence = false ->
         md_to_html (fst (mermaid_pass (mermaid_tag ++ nl :: body ++ fence) c))
         = Returns (figure (c + 1)))
  /\ (forall body,
         starts_inside fence body fence = false ->
         page_of (mermaid_tag ++ nl :: body ++ fence)
         = Returns (html_doc (figure 1))).
Proof.
  split; [exact figure_through|]. split.
  - intros body c Hb. rewrite (mermaid_block_alone body c Hb).
    apply figure_through.
  - intros body Hb. unfold page_of.
    rewrite (mermaid_block_alone body 0 Hb). cbn [fst Nat.add].
    rewrite figure_through. reflexivity.
Qed.

Lemma X11_figure_passes_converter_witness :
  md_to_html (fst (mermaid_pass (mermaid_tag ++ nl :: L "graph TD; A-->B;"
                                 ++ fence) 2))
  = Returns (figure (2 + 1))
  /\ page_of (mermaid_tag ++ nl :: L "graph TD; A-->B;" ++ fence)
     = Returns (html_doc (figure 1)).
Proof.
  destruct X11_figure_passes_converter as (_ & H2 & H3).
  split.
  - apply (H2 (L "graph TD; A-->B;") 2). vm_compute. reflexivity.
  - apply (H3 (L "graph TD; A-->B;")). vm_compute. reflexivity.
Defined.

(** ** Backticks inside a fenced block *)

Lemma starts_inside_skip d p a s t :
  no_chr d a ->
  starts_inside (d :: p) (a ++ s) t = starts_inside (d :: p) s t.
Proof.
  intros H. induction H as [|c a Hc _ IH]; [reflexivity|].
  simpl app. cbn [starts_inside]. rewrite IH.
  cbn [app starts_with]. unfold ceq.
  destruct (Ascii.eqb d c) eqn:E; [|reflexivity].
  apply Ascii.eqb_eq in E. congruence.
Qed.

Lemma starts_inside_step old c s t :
  starts_with old ((c :: s) ++ t) = false ->
  starts_inside old (c :: s) t = starts_inside old s t.
Proof. intros H. cbn [starts_inside]. rewrite H. reflexivity. Qed.

Lemma escape_app a b : escape (a ++ b) = escape a ++ escape b.
Proof. apply flat_map_app. Qed.

Lemma escape_keeps c (a : str) :
  c <> "&"%char -> c <> "l"%char -> c <> "g"%char -> c <> "t"%char ->
  c <> ";"%char -> no_chr c a -> no_chr c (escape a).
Proof.
  intros H1 H2 H3 H4 H5 H. unfold escape, no_chr in *.
  induction H as [|e a He _ IH]; [constructor|].
  cbn [flat_map]. apply Forall_app. split; [|exact IH].
  destruct (ceq e "<"); [repeat constructor; congruence|].
  destruct (ceq e ">"); repeat constructor; congruence.
Qed.

Lemma escape_not_nil a : a <> [] -> escape a <> [].
Proof.
  destruct a as [|c a]; [contradiction|]. intros _. unfold escape.
  cbn [flat_map]. destruct (ceq c "<"); [discriminate|].
  destruct (ceq c ">"); discriminate.
Qed.

Lemma no_fence_inside a x b :
  no_chr "`" a -> x <> [] -> no_chr "`" x -> b <> [] -> no_chr "`" b ->
  starts_inside fence (a ++ "`"%char :: x ++ "`"%char :: b) fence = false.
Proof.
  intros Ha Hne Hx Hnb Hb. unfold fence.
  change (L "```") with ["`"%char; "`"%char; "`"%char].
  assert (Hstep : forall c s, c <> "`"%char ->
             starts_with ["`"%char; "`"%char; "`"%char]
               ("`"%char :: c :: s) = false).
  { intros c s Hc. cbn [starts_with]. unfold ceq.
    destruct (Ascii.eqb "`" c) eqn:E; [|apply andb_false_r].
    apply Ascii.eqb_eq in E. congruence. }
  rewrite starts_inside_skip by exact Ha.
  destruct x as [|c x]; [contradiction|]. inversion Hx; subst.
  rewrite starts_inside_step by (apply Hstep; assumption).
  change ((c :: x) ++ "`"%char :: b) with ((c :: x) ++ "`"%char :: b).
  rewrite starts_inside_skip by exact Hx.
  destruct b as [|e b]; [contradiction|]. inversion Hb; subst.
  rewrite starts_inside_step by (apply Hstep; assumption).
  rewrite <- (app_nil_r (e :: b)), starts_inside_skip by exact Hb.
  reflexivity.
Qed.

Lemma escape_span a x b :
  escape (a ++ "`"%char :: x ++ "`"%char :: b)
  = escape a ++ "`"%char :: escape x ++ "`"%char :: escape b.
Proof.
  rewrite escape_app.
  change (escape ("`"%char :: x ++ "`"%char :: b))
    with ("`"%char :: escape (x ++ "`"%char :: b)).
  rewrite escape_app. reflexivity.
Qed.

Lemma code_span_in_block tag a x b :
  forallb is_word tag = true ->
  no_chr "`" a -> x <> [] -> no_chr "`" x -> b <> [] -> no_chr "`" b ->
  code_pass (fenced tag (a ++ "`"%char :: x ++ "`"%char :: b))
  = Returns (L "<pre><code>" ++ escape a ++ "`"%char :: escape x
             ++ "`"%char :: escape b ++ L "</code></pre>")
  /\ inline_pass (L "<pre><code>" ++ escape a ++ "`"%char :: escape x
                  ++ "`"%char :: escape b ++ L "</code></pre>")
     = L "<pre><code>" ++ escape a ++ L "<code>" ++ escape x ++ L "</code>"
       ++ escape b ++ L "</code></pre>".
Proof.
  intros Ht Ha Hne Hx Hnb Hb. split.
  - destruct (code_pass_block [] tag (a ++ "`"%char :: x ++ "`"%char :: b) []
                eq_refl Ht) as (rest & Hrest & H).
    { rewrite app_nil_r. apply no_fence_inside; assumption. }
    assert (rest = []) by (vm_compute in Hrest; congruence). subst rest.
    rewrite !app_nil_r in H. cbn [app] in H.
    rewrite H, escape_span, <- !app_assoc.
    rewrite <- !app_comm_cons, <- !app_assoc, <- !app_comm_cons.
    reflexivity.
  - assert (He : forall s, no_chr "`" s -> no_chr "`" (escape s)).
    { intros s. apply escape_keeps; discriminate. }
    pose proof (inline_first (L "<pre><code>" ++ escape a) (escape x)
                  (escape b ++ L "</code></pre>")) as H.
    rewrite <- !app_assoc in H. rewrite H.
    + rewrite inline_plain; [reflexivity|].
      apply no_chr_app. split; [apply He; exact Hb|].
      repeat constructor; discriminate.
    + apply no_chr_app. split; [repeat constructor; discriminate|].
      apply He. exact Ha.
    + apply escape_not_nil. exact Hne.
    + apply He. exact Hx.
Qed.

(** X12: converting the fenced blocks first does not protect their
    content from the inline-code pass: the backticks of the content stay in
    the [pre]/[code] element, and the inline-code pass, which runs next on
    the whole text, turns a pair of them inside the element into a nested
    [code] element. *)
Theorem X12_backticks_in_fenced_block :
  (forall tag a x b,
      forallb is_word tag = true ->
      no_chr "`" a -> x <> [] -> no_chr "`" x -> b <> [] -> no_chr "`" b ->
      code_pass (fenced tag (a ++ "`"%char :: x ++ "`"%char :: b))
      = Returns (L "<pre><code>" ++ escape a ++ "`"%char :: escape x
                 ++ "`"%char :: escape b ++ L "</code></pre>")
      /\ inline_pass (L "<pre><code>" ++ escape a ++ "`"%char :: escape x
                      ++ "`"%char :: escape b ++ L "</code></pre>")
         = L "<pre><code>" ++ escape a ++ L "<code>" ++ escape x ++ L "</code>"
           ++ escape b ++ L "</code></pre>")
  /\ md_to_html (fenced [] (L "a " ++ "`"%char :: L "b" ++ "`"%char :: L " c"
                            ++ [nl]))
     = Returns (L "<pre><code>a <code>b</code> c" ++ [nl] ++ L "</code></pre>").
Proof.
  split; [exact code_span_in_block|]. vm_compute. reflexivity.
Qed.

Lemma X12_backticks_in_fenced_block_witness :
  code_pass (fenced (L "sh") (L "run " ++ "`"%char :: L "ls <dir>"
                              ++ "`"%char :: L " now" ++ [nl]))
  = Returns (L "<pre><code>" ++ escape (L "run ") ++ "`"%char
             :: escape (L "ls <dir>") ++ "`"%char :: escape (L " now" ++ [nl])
             ++ L "</code></pre>")
  /\ inline_pass (L "<pre><code>" ++ escape (L "run ") ++ "`"%char
                  :: escape (L "ls <dir>") ++ "`"%char
                  :: escape (L " now" ++ [nl]) ++ L "</code></pre>")
     = L "<pre><code>" ++ escape (L "run ") ++ L "<code>"
       ++ escape (L "ls <dir>") ++ L "</code>" ++ escape (L " now" ++ [nl])
       ++ L "</code></pre>".
Proof.
  apply (proj1 X12_backticks_in_fenced_block (L "sh") (L "run ")
           (L "ls <dir>") (L " now" ++ [nl]));
    [reflexivity | repeat constructor; discriminate | discriminate
    | repeat constructor; discriminate | discriminate
    | repeat constructor; discriminate].
Defined.

(** ** The cells of a table row *)

Lemma split_chr_join_end c :
  forall f fs,
    Forall (no_chr c) (f :: fs) ->
    split_chr c (join [c] (f :: fs) ++ [c]) = (f :: fs) ++ [[]].
Proof.
  intros f fs. revert f. induction fs as [|f2 fs IH]; intros f H;
    inversion H; subst.
  - cbn [join]. change (f ++ [c]) with (f ++ c :: []).
    rewrite split_chr_app by assumption. reflexivity.
  - rewrite join_cons_cons, <- !app_assoc.
    change ([c] ++ join [c] (f2 :: fs) ++ [c])
      with (c :: join [c] (f2 :: fs) ++ [c]).
    rewrite split_chr_app by assumption.
    rewrite IH by assumption. reflexivity.
Qed.

Lemma row_fields f fs :
  Forall (no_chr "|") (f :: fs) ->
  slice_1_m1 (split_chr "|" (row_of (join ["|"%char] (f :: fs)))) = f :: fs.
Proof.
  intros H. unfold row_of, slice_1_m1.
  change (L "|" ++ join ["|"%char] (f :: fs) ++ L "|")
    with ("|"%char :: join ["|"%char] (f :: fs) ++ ["|"%char]).
  cbn [split_chr]. change (ceq "|" "|") with true. cbv iota.
  rewrite split_chr_join_end by exact H. cbn [tl].
  apply removelast_last.
Qed.

(** X13: the cells of a table row are the fields between its pipes: a
    row written as a pipe, fields separated by pipes, and a pipe, without
    three hyphens in a row, becomes a [tr] element with one cell for each
    field, in order, around the field stripped of its outer white space and
    otherwise unchanged (an empty field gives an empty cell); the cells are
    [th] elements on the first line of the table and [td] elements on
    every other line. *)
Theorem X13_table_row_cells :
  forall i f fs,
    Forall (no_chr "|") (f :: fs) ->
    contains (L "---") (row_of (join ["|"%char] (f :: fs))) = false ->
    table_row (i, row_of (join ["|"%char] (f :: fs)))
    = L "<tr>"
      ++ flat_map (fun c =>
                     L "<" ++ (if i =? 0 then L "th" else L "td") ++ L ">"
                     ++ strip c
                     ++ L "</" ++ (if i =? 0 then L "th" else L "td") ++ L ">")
           (f :: fs)
      ++ L "</tr>" ++ [nl].
Proof.
  intros i f fs Hf Hd. unfold table_row. rewrite Hd.
  rewrite (row_fields f fs Hf).
  rewrite flat_map_concat_map, map_map, <- flat_map_concat_map.
  reflexivity.
Qed.

Lemma X13_table_row_cells_witness :
  table_row (0, row_of (join ["|"%char] [L " Name "; []; L "Age"]))
  = L "<tr>"
    ++ flat_map (fun c =>
                   L "<" ++ (if 0 =? 0 then L "th" else L "td") ++ L ">"
                   ++ strip c
                   ++ L "</" ++ (if 0 =? 0 then L "th" else L "td") ++ L ">")
         [L " Name "; []; L "Age"]
    ++ L "</tr>" ++ [nl].
Proof.
  apply (X13_table_row_cells 0 (L " Name ") [[]; L "Age"]).
  - repeat constructor; discriminate.
  - reflexivity.
Defined.

(** ** The run of the script *)

(** X14: the outcomes of a run apart from a failure of the rendering
    step.  An exception raised when the markdown file is read, or when the
    page is written, is caught by nobody: nothing has been printed (and,
    in the first case, nothing written), and the run ends with the exit
    status of the exception, which is 1 for an instance of [Exception].
    Otherwise the page (the frame around the converted text, which exists
    for every markdown text) is the first file written and the first line
    printed names it; and when the rendering step succeeds, the files
    written are the page and the PDF, the lines printed are exactly three,
    the last one the size in KB, and the exit code is 0. *)
Theorem X14_script_outcomes :
  forall e,
    (forall x, read_md e = Raises x ->
               written (script e) = [] /\ stdout (script e) = []
               /\ uncaught (script e) = Some x
               /\ exit_code (script e) = exit_status x
               /\ (is_exception x = true -> exit_code (script e) = 1))
    /\ (forall md, read_md e = Returns md ->
          exists doc,
            page_of md = Returns doc
            /\ (forall x,
                   write_file e "academic-output.html" doc = Raises x ->
                   stdout (script e) = []
                   /\ uncaught (script e) = Some x
                   /\ exit_code (script e) = exit_status x
                   /\ (is_exception x = true -> exit_code (script e) = 1))
            /\ (forall u,
                   write_file e "academic-output.html" doc = Returns u ->
                   hd_error (written (script e))
                   = Some ("academic-output.html"%string, doc)
                   /\ hd_error (stdout (script e))
                      = Some (L "HTML generated: academic-output.html")
                   /\ (forall pdf size,
                          write_pdf e doc = Returns pdf ->
                          getsize e = Returns size -> exact_size size ->
                          written (script e)
                          = [("academic-output.html"%string, doc);
                             ("Psych_Intake_Brief_Technical_Documentation.pdf"%string,
                              pdf)]
                          /\ stdout (script e)
                             = [L "HTML generated: academic-output.html";
                                L "PDF generated: Psych_Intake_Brief_Technical_Documentation.pdf";
                                L "Size: " ++ str_of_nat (kb size) ++ L " KB"]
                          /\ uncaught (script e) = None
                          /\ exit_code (script e) = 0))).
Proof.
  intros e. split.
  - intros x Hr. unfold script. rewrite Hr. cbn.
    repeat split. destruct x; [reflexivity | discriminate].
  - intros md Hr. unfold script, page_of. rewrite Hr.
    destruct (mermaid_pass md 0) as [md' n]. cbn [fst].
    destruct (md_to_html_returns md') as (html & Hh). rewrite Hh.
    exists (html_doc html). split; [reflexivity|]. split.
    + intros x Hw. rewrite Hw. cbn.
      repeat split. destruct x; [reflexivity | discriminate].
    + intros u Hw. rewrite Hw. unfold handler, dies.
      split; [destruct (write_pdf e _) as [pdf|x];
              [destruct (getsize e) as [size|x]|];
              try destruct (is_exception x); reflexivity|].
      split; [destruct (write_pdf e _) as [pdf|x];
              [destruct (getsize e) as [size|x]|];
              try destruct (is_exception x); reflexivity|].
      intros pdf size Hp Hs _. rewrite Hp, Hs. cbn. repeat split.
Qed.

Lemma X14_script_outcomes_witness :
  (exists doc,
      page_of (L "# Hi") = Returns doc
      /\ written (script (working_env (L "# Hi") (L "%PDF") 2048))
         = [("academic-output.html"%string, doc);
            ("Psych_Intake_Brief_Technical_Documentation.pdf"%string, L "%PDF")]
      /\ stdout (script (working_env (L "# Hi") (L "%PDF") 2048))
         = [L "HTML generated: academic-output.html";
            L "PDF generated: Psych_Intake_Brief_Technical_Documentation.pdf";
            L "Size: " ++ str_of_nat (kb 2048) ++ L " KB"])
  /\ exit_code (script (read_only_env (L "# Hi"))) = 1.
Proof.
  split.
  - destruct (X14_script_outcomes (working_env (L "# Hi") (L "%PDF") 2048))
      as [_ H].
    destruct (H (L "# Hi") eq_refl) as (doc & Hd & _ & Hw).
    destruct (Hw tt eq_refl) as (_ & _ & W).
    destruct (W (L "%PDF") 2048 eq_refl eq_refl) as (W1 & W2 & _).
    + unfold exact_size. vm_compute. lia.
    + exists doc. split; [exact Hd|]. split; [exact W1 | exact W2].
  - destruct (X14_script_outcomes (read_only_env (L "# Hi"))) as [_ H].
    destruct (H (L "# Hi") eq_refl) as (doc & Hd & Hx & _).
    destruct (Hx (Exn "PermissionError" (L "Permission denied")) eq_refl)
      as (_ & _ & _ & E).
    apply E. reflexivity.
Defined.

(** ** The escaping of a code block *)

Lemma escape_same code :
  no_chr "<" code -> no_chr ">" code -> escape code = code.
Proof.
  unfold escape, no_chr. intros H1 H2.
  induction code as [|c code IH]; [reflexivity|].
  inversion H1; subst. inversion H2; subst. cbn [flat_map].
  rewrite IH by assumption.
  destruct (ceq c "<") eqn:E1;
    [apply Ascii.eqb_eq in E1; contradiction|].
  destruct (ceq c ">") eqn:E2;
    [apply Ascii.eqb_eq in E2; contradiction|].
  reflexivity.
Qed.

(** X15: the two replacements made in a code block, [<] by [&lt;] and
    then [>] by [&gt;], touch nothing but the angle brackets: code without
    angle brackets is unchanged by them, an ampersand included, and so
    making the replacements a second time changes nothing. *)
Theorem X15_code_escaping :
  forall code,
    (no_chr "<" code -> no_chr ">" code ->
     replace (L ">") (L "&gt;") (replace (L "<") (L "&lt;") code) = code)
    /\ replace (L ">") (L "&gt;")
         (replace (L "<") (L "&lt;")
            (replace (L ">") (L "&gt;") (replace (L "<") (L "&lt;") code)))
       = replace (L ">") (L "&gt;") (replace (L "<") (L "&lt;") code).
Proof.
  intros code. rewrite !escape_is_replace.
  destruct (escape_no_brackets code) as [H1 H2].
  split; [apply escape_same|]. apply escape_same; assumption.
Qed.

Lemma X15_code_escaping_witness :
  replace (L ">") (L "&gt;") (replace (L "<") (L "&lt;") (L "a && b")) = L "a && b".
Proof.
  apply (X15_code_escaping (L "a && b")); repeat constructor; discriminate.
Defined.

(** ** The paragraph pass and the cleanup pass together *)

Lemma final_chunk_render chunk :
  render (close4 (seg_of chunk)) = final_chunk chunk.
Proof.
  unfold seg_of, final_chunk. destruct (strip chunk) as [|c x]; [reflexivity|].
  destruct (ceq c "<"); [reflexivity|]. cbn [close4].
  destruct (close_tag_end (c :: x)); reflexivity.
Qed.

Lemma final_chunks t :
  tag_free t = true ->
  cleanup_pass (paragraph_pass t)
  = join [nl; nl] (map final_chunk (split [nl; nl] t)).
Proof.
  intros H. rewrite (cleanup_after_paragraphs t H).
  unfold render_doc. rewrite !map_map. f_equal.
  apply map_ext. exact final_chunk_render.
Qed.

(** X16: the last two passes chunk by chunk.  On a text without paragraph
    tags the paragraph pass followed by the cleanup pass keeps the blank
    lines between the chunks, keeps a blank chunk and a chunk whose first
    character after white space is [<] as they are, and turns any other
    chunk into a paragraph open tag and the stripped chunk, followed by
    the close tag unless the chunk ends with a block-level close tag.  So
    the converter returns exactly that whenever the text left by the
    earlier passes has no paragraph tag. *)
Theorem X16_final_chunks :
  (forall t,
      tag_free t = true ->
      cleanup_pass (paragraph_pass t)
      = join [nl; nl] (map final_chunk (split [nl; nl] t)))
  /\ (forall input t,
         markup_passes input = Returns t -> tag_free t = true ->
         md_to_html input
         = Returns (join [nl; nl] (map final_chunk (split [nl; nl] t)))).
Proof.
  split; [exact final_chunks|].
  intros input t E H. rewrite md_to_html_split, E. cbn.
  rewrite (final_chunks t H). reflexivity.
Qed.

Lemma X16_final_chunks_witness :
  md_to_html (L "intro" ++ [nl] ++ L "## Part" ++ [nl; nl] ++ L "  body " ++ [nl; nl]
              ++ L "<div>x</div>")
  = Returns (join [nl; nl]
               (map final_chunk
                  (split [nl; nl]
                     (L "intro" ++ [nl] ++ L "<h2>Part</h2>" ++ [nl; nl] ++ L "  body "
                      ++ [nl; nl] ++ L "<div>x</div>")))).
Proof.
  apply (proj2 X16_final_chunks); vm_compute; reflexivity.
Defined.

(** ** C6: text without markdown syntax *)

Lemma title_line_plain l : starts_with (L "# ") l = false -> title_line l = l.
Proof.
  unfold title_line, heading_text. intros H.
  destruct l as [|c1 [|c2 [|c3 x]]]; try reflexivity.
  cbn [starts_with L list_ascii_of_string] in H.
  unfold ceq in *. rewrite (Ascii.eqb_sym c1), (Ascii.eqb_sym c2).
  rewrite andb_true_r in H. rewrite H. reflexivity.
Qed.

Lemma lines_kept (g : str -> str) text :
  Forall (fun l => g l = l) (split_chr nl text) ->
  join [nl] (map g (split_chr nl text)) = text.
Proof. intros H. rewrite (map_same _ g _ H). apply join_split_chr. Qed.

Lemma lstrip_blank l : lstrip l = [] -> Forall (fun c => is_space c = true) l.
Proof.
  intros H. destruct (lstrip_split l) as (w & E & Hw & _).
  rewrite H, app_nil_r in E. rewrite E. exact Hw.
Qed.

Lemma split_chr_behind c s :
  forall a, exists w pre, split_chr c (a ++ c :: s) = (w :: pre) ++ split_chr c s.
Proof.
  induction a as [|d a (w & pre & IH)].
  - exists [], []. simpl. unfold ceq. rewrite Ascii.eqb_refl. reflexivity.
  - cbn [app split_chr]. destruct (ceq d c).
    + exists [], (w :: pre). rewrite IH. reflexivity.
    + rewrite IH. exists (d :: w), pre. reflexivity.
Qed.

Lemma line_start_lines u v :
  line_start (last_chr u None) ->
  exists pre, split_chr nl (u ++ v) = pre ++ split_chr nl v.
Proof.
  intros H. induction u as [|c u' _] using rev_ind.
  - exists []. reflexivity.
  - rewrite last_chr_app in H. cbn in H.
    destruct H as [H | H]; [discriminate|]. injection H as ->.
    rewrite <- app_assoc. cbn [app].
    destruct (split_chr_behind nl v u') as (w & pre & E).
    exists (w :: pre). exact E.
Qed.

Section NoItems.

Variable marker : list regex.
Variable head_at : str -> bool.
Variable f : rmatch -> str.

Hypothesis head_fail :
  forall ml (k : mstate -> option rmatch) p s cs,
    head_at s = false ->
    m ml (seq (marker ++ [Plus true space])) k (MState p s cs) = None.

Hypothesis head_space : forall c s, is_space c = true -> head_at (c :: s) = false.

Hypothesis head_line :
  forall x Y, x <> [] -> head_at (x ++ nl :: Y) = head_at x.

Lemma item_fails (k : mstate -> option rmatch) p t cs :
  head_at (lstrip t) = false ->
  m true (re_item marker) k (MState p t cs) = None.
Proof.
  intros Ht. unfold re_item. rewrite m_grp, m_seq_cons, m_bol.
  destruct (at_bol true _); [|reflexivity].
  rewrite m_seq_cons. unfold space.
  destruct (lstrip_split t) as (w & E & Hw & Hs).
  rewrite E at 1. rewrite m_star_greedy_cls by assumption.
  apply greedy_try_none. intros u v Ev.
  replace (marker ++ [Plus true (Cls is_space); Plus true dot; Opt cls_nl])
    with ((marker ++ [Plus true space]) ++ [Plus true dot; Opt cls_nl])
    by (rewrite <- app_assoc; reflexivity).
  rewrite m_seq_app. apply head_fail.
  destruct v as [|c v].
  - exact Ht.
  - cbn [app]. apply head_space.
    rewrite Ev in Hw. apply Forall_app in Hw. destruct Hw as [_ Hw].
    inversion Hw; subst. assumption.
Qed.

Lemma list_fails p t :
  head_at (lstrip t) = false -> match_at true (re_list marker) false p t = None.
Proof.
  intros Ht. unfold match_at, re_list, Plus. rewrite m_seq.
  apply item_fails. exact Ht.
Qed.

Lemma list_not_inside adv c s :
  c <> nl -> match_at true (re_list marker) adv (Some c) s = None.
Proof.
  intros Hc. unfold match_at, re_list, Plus, re_item.
  rewrite m_seq, m_grp, m_seq_cons, m_bol, at_bol_inside by exact Hc.
  reflexivity.
Qed.

Lemma lines_head :
  forall ls l,
    Forall (fun x => head_at (lstrip x) = false) (l :: ls) ->
    head_at (lstrip (join [nl] (l :: ls))) = false.
Proof.
  induction ls as [|l2 ls IH]; intros l H; inversion H as [|? ? Hl Hls]; subst.
  - exact Hl.
  - rewrite join_cons_cons. change ([nl] ++ join [nl] (l2 :: ls))
      with (nl :: join [nl] (l2 :: ls)).
    destruct (lstrip l) as [|c r] eqn:E.
    + rewrite (lstrip_spaces l) by (apply lstrip_blank; exact E).
      change (lstrip (nl :: join [nl] (l2 :: ls)))
        with (lstrip (join [nl] (l2 :: ls))).
      apply IH. exact Hls.
    + destruct (lstrip_split l) as (w & El & Hw & _).
      rewrite El, <- app_assoc, (lstrip_spaces w) by exact Hw.
      rewrite E. cbn [app].
      rewrite (lstrip_keeps c) by (apply (lstrip_head l c r); exact E).
      change (c :: r ++ nl :: join [nl] (l2 :: ls))
        with ((c :: r) ++ nl :: join [nl] (l2 :: ls)).
      rewrite head_line by discriminate. exact Hl.
Qed.

Lemma list_pass_plain t :
  Forall (fun l => head_at (lstrip l) = false) (split_chr nl t) ->
  sub true (re_list marker) f t = t.
Proof.
  intros H. apply sub_no_match. intros u v E.
  destruct (last_chr u None) as [c|] eqn:Ec.
  - destruct (ascii_dec c nl) as [-> | Hc].
    + destruct (line_start_lines u v) as (pre & Ep);
        [right; exact Ec|].
      rewrite <- E in Ep. rewrite Ep in H. apply Forall_app in H.
      destruct H as [_ H]. apply list_fails.
      rewrite <- (join_split_chr nl v).
      destruct (split_chr nl v) as [|l ls] eqn:Es;
        [exfalso; exact (split_chr_not_nil nl v Es)|].
      apply lines_head. exact H.
    + apply list_not_inside. exact Hc.
  - destruct (line_start_lines u v) as (pre & Ep);
      [left; exact Ec|].
    rewrite <- E in Ep. rewrite Ep in H. apply Forall_app in H.
    destruct H as [_ H]. apply list_fails.
    rewrite <- (join_split_chr nl v).
    destruct (split_chr nl v) as [|l ls] eqn:Es;
      [exfalso; exact (split_chr_not_nil nl v Es)|].
    apply lines_head. exact H.
Qed.

End NoItems.

Lemma gap_fails ml (k : mstate -> option rmatch) p s cs :
  gap_at s = false -> m ml (Plus true space) k (MState p s cs) = None.
Proof.
  intros H. unfold Plus, space. rewrite m_seq.
  destruct s as [|d s]; [discriminate|]. rewrite m_cls.
  cbn [gap_at] in H. rewrite H. reflexivity.
Qed.

Lemma bullet_fails ml (k : mstate -> option rmatch) p s cs :
  bullet_at s = false ->
  m ml (seq ([one_of "-*"] ++ [Plus true space])) k (MState p s cs) = None.
Proof.
  intros H. cbn [app]. rewrite m_seq_cons. unfold one_of.
  destruct s as [|c s]; [apply m_cls_nil|]. rewrite m_cls.
  cbn [bullet_at] in H. unfold bullet in H.
  destruct (existsb (ceq c) (L "-*")); [|reflexivity].
  rewrite m_seq_one. apply gap_fails. exact H.
Qed.

Lemma bullet_line x Y : x <> [] -> bullet_at (x ++ nl :: Y) = bullet_at x.
Proof.
  destruct x as [|c [|d x]]; [contradiction | |]; intros _; reflexivity.
Qed.

Lemma skip_digits_split s :
  exists w, s = w ++ skip_digits s
            /\ Forall (fun c => is_digit c = true) w
            /\ stops is_digit (skip_digits s).
Proof.
  induction s as [|c s (w & E & Hw & Hs)].
  - exists []. repeat split. constructor.
  - cbn [skip_digits]. destruct (is_digit c) eqn:Ec.
    + exists (c :: w). cbn [app]. rewrite <- E. repeat split; [|exact Hs].
      constructor; assumption.
    + exists []. repeat split; [constructor | exact Ec].
Qed.

Lemma number_fails ml (k : mstate -> option rmatch) p s cs :
  number_at s = false ->
  m ml (seq ([Plus true digit; Chr "."] ++ [Plus true space])) k (MState p s cs)
  = None.
Proof.
  intros H. cbn [app]. rewrite m_seq_cons. unfold Plus at 1, digit.
  rewrite m_seq. destruct s as [|c s]; [apply m_cls_nil|]. rewrite m_cls.
  cbn [number_at] in H. destruct (is_digit c); [|reflexivity].
  cbn [andb] in H.
  destruct (skip_digits_split s) as (w & E & Hw & Hs).
  rewrite E at 1. rewrite m_star_greedy_cls by assumption.
  apply greedy_try_none. intros u v Ev.
  rewrite m_seq_cons.
  destruct v as [|d v].
  - cbn [app]. destruct (skip_digits s) as [|d s'']; [apply m_chr_nil|].
    rewrite m_chr. unfold ceq in *. rewrite (Ascii.eqb_sym "." d).
    destruct (Ascii.eqb d ".") eqn:Ed; [|reflexivity].
    rewrite m_seq_one. apply gap_fails. exact H.
  - cbn [app]. rewrite m_chr.
    rewrite Ev in Hw. apply Forall_app in Hw. destruct Hw as [_ Hw].
    inversion Hw as [|? ? Hd _]; subst.
    destruct (ceq "." d) eqn:Ed; [|reflexivity].
    apply Ascii.eqb_eq in Ed. subst d. discriminate.
Qed.

Lemma number_tail_line x Y :
  match skip_digits (x ++ nl :: Y) with
  | [] => false
  | d :: s => ceq d "." && gap_at s
  end
  = match skip_digits x with
    | [] => false
    | d :: s => ceq d "." && gap_at s
    end.
Proof.
  induction x as [|c x IH]; [reflexivity|].
  cbn [app skip_digits]. destruct (is_digit c); [exact IH|].
  destruct x; reflexivity.
Qed.

Lemma number_line x Y : x <> [] -> number_at (x ++ nl :: Y) = number_at x.
Proof.
  destruct x as [|c x]; [contradiction|]. intros _.
  cbn [app number_at]. rewrite number_tail_line. reflexivity.
Qed.

Lemma ul_pass_plain t :
  Forall (fun l => bullet_at (lstrip l) = false) (split_chr nl t) ->
  ul_pass t = t.
Proof.
  unfold ul_pass. change re_ul with (re_list [one_of "-*"]).
  apply (list_pass_plain [one_of "-*"] bullet_at).
  - exact bullet_fails.
  - intros c s H. cbn [bullet_at]. rewrite (space_not_bullet c H). reflexivity.
  - exact bullet_line.
Qed.

Lemma ol_pass_plain t :
  Forall (fun l => number_at (lstrip l) = false) (split_chr nl t) ->
  ol_pass t = t.
Proof.
  unfold ol_pass. change re_ol with (re_list [Plus true digit; Chr "."]).
  apply (list_pass_plain [Plus true digit; Chr "."] number_at).
  - exact number_fails.
  - intros c s H. cbn [number_at]. rewrite (space_not_digit c H). reflexivity.
  - exact number_line.
Qed.

Lemma table_pass_plain t : no_chr "|" t -> table_pass t = t.
Proof.
  intros H. unfold table_pass.
  apply (sub_needs false (fun c => c = "|"%char)); [|exact H].
  cbn. left. left. reflexivity.
Qed.

Lemma image_pass_absent t : contains (L "![") t = false -> image_pass t = t.
Proof.
  intros H. unfold image_pass, sub_t. apply sub_no_match. intros u v E.
  unfold re_image. apply match_at_lit_none.
  exact (contains_false_suffix _ t u v H E).
Qed.

Lemma markdown_chr_free t :
  forallb (fun c => negb (markdown_chr c)) t = true ->
  no_chr "`" t /\ no_chr "*" t /\ no_chr "|" t.
Proof.
  intros H. rewrite forallb_forall in H.
  repeat split; apply Forall_forall; intros d Hd ->;
    specialize (H _ Hd); discriminate.
Qed.

Lemma markdown_lines_free t :
  forallb (fun l => negb (markdown_line l)) (split_chr nl t) = true ->
  Forall (fun l => starts_with (L "# ") l = false
                   /\ starts_with (L "## ") l = false
                   /\ starts_with (L "### ") l = false
                   /\ is_rule l = false
                   /\ bullet_at (lstrip l) = false
                   /\ number_at (lstrip l) = false)
         (split_chr nl t).
Proof.
  intros H. rewrite forallb_forall in H. apply Forall_forall. intros l Hl.
  specialize (H l Hl). apply negb_true_iff in H. unfold markdown_line in H.
  repeat (apply orb_false_iff in H; destruct H as [H ?]).
  repeat split; assumption.
Qed.

(** Where no markdown syntax stands, and no close tag of a level-1
    heading before a blank line, every pass before the paragraph pass
    returns its argument. *)
Lemma passes_idle_plain text :
  no_markdown text = true -> contains (L "</h1>" ++ [nl; nl]) text = false ->
  passes_idle text.
Proof.
  unfold no_markdown. intros H Hm.
  apply andb_true_iff in H. destruct H as [H Hl].
  apply andb_true_iff in H. destruct H as [Hc Hi].
  apply negb_true_iff in Hi.
  destruct (markdown_chr_free text Hc) as (Hb & Ha & Hp).
  pose proof (markdown_lines_free text Hl) as HL.
  unfold passes_idle. repeat split.
  - rewrite title_pass_every_line. apply lines_kept.
    eapply Forall_impl; [|exact HL]. intros l Hx. apply title_line_plain, Hx.
  - apply replace_absent. exact Hm.
  - rewrite h2_pass_lines. apply lines_kept.
    eapply Forall_impl; [|exact HL]. intros l Hx.
    apply heading_line_other, Hx.
  - rewrite h3_pass_lines. apply lines_kept.
    eapply Forall_impl; [|exact HL]. intros l Hx.
    apply heading_line_other, Hx.
  - rewrite hr_pass_lines. apply lines_kept.
    eapply Forall_impl; [|exact HL]. intros l Hx. unfold hr_line.
    destruct Hx as (_ & _ & _ & -> & _). reflexivity.
  - apply code_pass_no_fence. apply contains_lt_like. exact Hb.
  - apply inline_plain. exact Hb.
  - apply bold_pass_no_double. apply contains_lt_like. exact Ha.
  - apply italic_plain. exact Ha.
  - apply image_pass_absent. exact Hi.
  - apply table_pass_plain. exact Hp.
  - apply ul_pass_plain. eapply Forall_impl; [|exact HL]. intros l Hx. apply Hx.
  - apply ol_pass_plain. eapply Forall_impl; [|exact HL]. intros l Hx. apply Hx.
Qed.

Lemma passes_idle_markup text :
  passes_idle text -> markup_passes text = Returns text.
Proof.
  intros (E1 & E2 & E3 & E4 & E5 & E6 & E7 & E8 & E9 & E10 & E11 & E12 & E13).
  unfold markup_passes. rewrite E1, E2, E3, E4, E5, E6. simpl.
  rewrite E7, E8, E9, E10, E11, E12, E13. reflexivity.
Qed.

Lemma paragraph_unless_lt_wrap chunk :
  paragraph_unless_lt chunk = wrap_paragraph chunk.
Proof.
  unfold paragraph_unless_lt, begins_lt, paragraph, wrap_paragraph.
  destruct (strip chunk) as [|c x]; [reflexivity|].
  cbn [starts_with L list_ascii_of_string]. rewrite andb_true_r.
  unfold ceq. rewrite (Ascii.eqb_sym "<" c).
  destruct (Ascii.eqb c "<"); reflexivity.
Qed.

Lemma paragraph_pass_unless_lt text :
  paragraph_pass text = paragraphs_unless_lt text.
Proof.
  unfold paragraph_pass, paragraphs_unless_lt, sep. f_equal.
  apply map_ext. intros chunk. symmetry. apply paragraph_unless_lt_wrap.
Qed.

Lemma cleanup_idle text :
  inert_html text = true ->
  cleanup_pass (paragraph_pass text) = paragraph_pass text.
Proof.
  unfold inert_html. intros H.
  apply andb_true_iff in H. destruct H as [H Hc].
  apply andb_true_iff in H. destruct H as [Hf _].
  rewrite (final_chunks text Hf). unfold paragraph_pass. f_equal.
  apply map_ext_in. intros chunk Hin.
  rewrite forallb_forall in Hc. specialize (Hc chunk Hin).
  apply negb_true_iff in Hc. unfold loses_close in Hc.
  unfold final_chunk, wrap_paragraph.
  destruct (strip chunk) as [|c x]; [reflexivity|].
  destruct (ceq c "<"); [reflexivity|]. cbn [negb andb] in Hc.
  rewrite Hc. reflexivity.
Qed.

(** C6, as stated for every text without markdown syntax: the text [<3]
    holds no markdown syntax, no pattern of the converter is found in it,
    and its one chunk is not blank, yet the converter returns it without a
    paragraph element, because the paragraph loop passes over every chunk
    that begins with a less-than sign.  Nor is the paragraph pass the only
    one that changes a text without markdown syntax: the meta block is put
    behind the close tag of a level-1 heading that stands in the text
    before a blank line, and the cleanup pass takes the close tag off a
    paragraph that ends with a block-level close tag. *)
Lemma C6_less_than_chunk_not_wrapped :
  (no_markdown less_than_three = true
   /\ patterns_absent less_than_three = true
   /\ paragraphs less_than_three = L "<p><3</p>"
   /\ md_to_html less_than_three = Returns less_than_three
   /\ ~ every_chunk_wrapped less_than_three)
  /\ (no_markdown close_then_blank = true
      /\ meta_pass close_then_blank <> close_then_blank)
  /\ (no_markdown close_at_end = true
      /\ markup_passes close_at_end = Returns close_at_end
      /\ paragraph_pass close_at_end = L "<p>see </ul></p>"
      /\ md_to_html close_at_end = Returns (L "<p>see </ul>")).
Proof.
  split; [|split].
  - split; [vm_compute; reflexivity|].
    split; [vm_compute; reflexivity|].
    split; [vm_compute; reflexivity|].
    split; [vm_compute; reflexivity|].
    intros H. vm_compute in H. discriminate.
  - split; [vm_compute; reflexivity|].
    intros H. vm_compute in H. discriminate.
  - repeat split; vm_compute; reflexivity.
Qed.

(** C6: the paragraph pass leaves every chunk whose first character
    behind white space is a less-than sign as it is, and every blank
    chunk, and wraps every other chunk, stripped of its outer white space,
    in one paragraph element.  For a text that holds no markdown syntax
    (no backtick, asterisk or pipe, no opening of an image, no line that
    is a heading, a rule or an item of a list) and no HTML the converter
    reacts to (no paragraph tag, no close tag of a level-1 heading before
    a blank line, no wrapped chunk that ends with a block-level close
    tag), every pass before the paragraph pass returns the text as it is,
    the text of every paragraph element holds no paragraph tag, the
    cleanup pass changes nothing, and the output of the paragraph pass is
    the converter's output. *)
Theorem C6_plain_text_paragraphs :
  (forall text, paragraph_pass text = paragraphs_unless_lt text)
  /\ (forall chunk, begins_lt chunk = true -> wrap_paragraph chunk = chunk)
  /\ (forall text,
         no_markdown text = true -> inert_html text = true ->
         passes_idle text
         /\ markup_passes text = Returns text
         /\ (forall chunk, In chunk (split sep text) ->
               (strip chunk = [] -> wrap_paragraph chunk = chunk)
               /\ (strip chunk <> [] -> begins_lt chunk = false ->
                   wrap_paragraph chunk = p_open ++ strip chunk ++ p_close
                   /\ tag_free (strip chunk) = true))
         /\ cleanup_pass (paragraph_pass text) = paragraph_pass text
         /\ md_to_html text = Returns (paragraphs_unless_lt text)).
Proof.
  split; [exact paragraph_pass_unless_lt|]. split.
  - intros chunk H. rewrite <- paragraph_unless_lt_wrap.
    unfold paragraph_unless_lt. rewrite H. reflexivity.
  - intros text Hm Hh.
    assert (Hi : passes_idle text).
    { apply passes_idle_plain; [exact Hm|].
      unfold inert_html in Hh. apply andb_true_iff in Hh. destruct Hh as [Hh _].
      apply andb_true_iff in Hh. destruct Hh as [_ Hh].
      apply negb_true_iff in Hh. exact Hh. }
    pose proof (passes_idle_markup text Hi) as Hp.
    pose proof (cleanup_idle text Hh) as Hc.
    split; [exact Hi|]. split; [exact Hp|]. split; [|split; [exact Hc|]].
    + intros chunk Hin. rewrite <- !paragraph_unless_lt_wrap.
      unfold paragraph_unless_lt, paragraph. split.
      * intros E. rewrite E. destruct (begins_lt chunk); reflexivity.
      * intros Hne Hb. rewrite Hb.
        split; [destruct (strip chunk); [contradiction | reflexivity]|].
        apply tag_free_strip.
        unfold inert_html in Hh. apply andb_true_iff in Hh. destruct Hh as [Hh _].
        apply andb_true_iff in Hh. destruct Hh as [Hf _].
        pose proof (split_tag_free text Hf) as Hs.
        rewrite forallb_forall in Hs. apply Hs, Hin.
    + rewrite md_to_html_split, Hp. cbn. rewrite Hc.
      rewrite paragraph_pass_unless_lt. reflexivity.
Qed.

Lemma C6_plain_text_paragraphs_witness :
  markup_passes plain_chunks = Returns plain_chunks
  /\ md_to_html plain_chunks
     = Returns (L "<p>3 apples - or 4, if a < b!" ++ [nl] ++ L "no. 1</p>"
                ++ [nl; nl] ++ L "<p>Second chunk.</p>" ++ [nl; nl]
                ++ L "<3 to all").
Proof.
  destruct C6_plain_text_paragraphs as (_ & _ & H).
  destruct (H plain_chunks) as (_ & H2 & _ & _ & H5);
    [vm_compute; reflexivity | vm_compute; reflexivity|].
  split; [exact H2 | exact H5].
Defined.
